(** * Density-matrix circuit simulator: shallow embedding and verification

    The program under study is [tensorcircuit/densitymatrix.py]: the class
    [DMCircuit], which keeps an n-qubit density matrix as a tensor network
    (nodes joined by edges), applies gates and Kraus channels by wiring new
    nodes onto the front edges, and contracts the network on demand.

    The Python objects that the code mutates and aliases (tensor-network
    nodes and edges) live in an explicit store; every method is a function
    in a state-and-exception monad over that store. *)

From Stdlib Require Import ZArith Lia.
From stdpp Require Import base option list gmap.

Set Default Proof Using "Type".

(** ** Exceptions and the state-and-exception monad *)

Inductive Exn : Type :=
  | AssertionError
  | IndexError
  | KeyError
  | ValueError
  | TypeError
  | OverflowError
  | ShapeMismatch   (* the backend's dimension error, raised by reshape *)
  | InvalidRef.     (* a reference to an object that is not in the store;
                       no Python program can produce one *)

Global Instance Exn_eq_dec : EqDecision Exn.
Proof. solve_decision. Defined.

(** A computation either returns a value or raises; in both cases the
    state reached so far is kept, since a Python exception does not roll
    back the mutations already done. *)
Inductive Res (S A : Type) : Type :=
  | Ok (a : A) (s : S)
  | Raise (e : Exn) (s : S).
Arguments Ok {S A} a s.
Arguments Raise {S A} e s.

Definition M (S A : Type) : Type := S → Res S A.

Global Instance M_ret {S} : MRet (M S) := λ A a s, Ok a s.
Global Instance M_bind {S} : MBind (M S) := λ A B f m s,
  match m s with
  | Ok a s' => f a s'
  | Raise e s' => Raise e s'
  end.

Definition raise {S A} (e : Exn) : M S A := λ s, Raise e s.
Definition get_state {S} : M S S := λ s, Ok s s.
Definition put_state {S} (s : S) : M S unit := λ _, Ok tt s.

(** [x = o] if [o] is [Some x], else raise [e]. *)
Definition from_option {S A} (e : Exn) (o : option A) : M S A :=
  match o with Some a => mret a | None => raise e end.

(** Python's [assert b]. *)
Definition py_assert {S} (b : bool) : M S unit :=
  if b then mret tt else raise AssertionError.

(** [for x in l: f x], threading the state (and stopping at the first
    exception). *)
Fixpoint for_each {S A} (f : A → M S unit) (l : list A) : M S unit :=
  match l with
  | [] => mret tt
  | x :: l' => f x ≫= λ _, for_each f l'
  end.

(** [[f x for x in l]]. *)
Fixpoint map_M {S A B} (f : A → M S B) (l : list A) : M S (list B) :=
  match l with
  | [] => mret []
  | x :: l' => f x ≫= λ y, map_M f l' ≫= λ ys, mret (y :: ys)
  end.

(** A loop that carries an accumulator: [for x in l: b = f b x]. *)
Fixpoint fold_M {S A B} (f : B → A → M S B) (l : list A) (b : B) : M S B :=
  match l with
  | [] => mret b
  | x :: l' => f b x ≫= fold_M f l'
  end.

(** ** Python list indexing *)

(** [l[i]] for a Python int [i]: a negative index counts from the end, an
    index outside [-len, len) raises IndexError. *)
Definition py_index (len : nat) (i : Z) : option nat :=
  if bool_decide (0 ≤ i < Z.of_nat len)%Z then Some (Z.to_nat i)
  else if bool_decide (- Z.of_nat len ≤ i < 0)%Z then Some (Z.to_nat (Z.of_nat len + i))
  else None.

Definition getitem {S A} (l : list A) (i : Z) : M S A :=
  from_option IndexError (py_index (length l) i ≫= λ k, l !! k).

Definition setitem {S A} (l : list A) (i : Z) (x : A) : M S (list A) :=
  from_option IndexError ((λ k, <[k:=x]> l) <$> py_index (length l) i).

(** [enumerate(l)] *)
Definition enumerate {A} (l : list A) : list (nat * A) := zip (seq 0 (length l)) l.

(** ** Scalars of the numeric backend

    The entries of the arrays are complex numbers of the backend's dtype.
    The development is parametric in them: a type with zero, one, sum,
    product and conjugation, and the two floating-point computations of the
    code.  No law is assumed here; each theorem that needs a law states
    it. *)

Class Scalar : Type := {
  C : Type;
  c0 : C;
  c1 : C;
  cadd : C → C → C;
  cmul : C → C → C;
  cconj : C → C;
  (* [np.allclose(x, 1.0, atol=1e-5)], used only by the optional trace check *)
  close_to_one : C → bool;
  (* [int(np.log(N) / np.log(2))] for a length [N ≥ 1]: the quotient of the
     two double-precision logarithms, truncated.  It is near the base-2
     logarithm of [N], but its rounding is the backend's. *)
  log2_quotient : nat → nat;
  C_eq_dec :: EqDecision C;
}.

(** Exact complex arithmetic on Gaussian integers: the instance at which the
    statements below are run on concrete circuits.  Its quotient of
    logarithms is the exact one, which is what double precision gives at
    the small lengths used there. *)
Definition gauss : Scalar := {|
  C := (Z * Z)%type;
  c0 := (0, 0)%Z;
  c1 := (1, 0)%Z;
  cadd a b := (a.1 + b.1, a.2 + b.2)%Z;
  cmul a b := (a.1 * b.1 - a.2 * b.2, a.1 * b.2 + a.2 * b.1)%Z;
  cconj a := (a.1, - a.2)%Z;
  close_to_one a := bool_decide (a = (1, 0)%Z);
  log2_quotient := Nat.log2;
|}.

Section DM.
Context `{Scalar}.

(** ** Arrays (the backend's tensors): a shape and row-major data *)

Record Tensor : Type := mkTensor { shape : list nat; data : list C }.

Global Instance Tensor_eq_dec : EqDecision Tensor.
Proof. solve_decision. Defined.

Definition prod_list (l : list nat) : nat := foldr Nat.mul 1 l.

Definition tensor_ok (t : Tensor) : Prop := length (data t) = prod_list (shape t).

(** [backend.reshape(t, shape)] for an explicit shape. *)
Definition reshape {S} (t : Tensor) (sh : list nat) : M S Tensor :=
  if bool_decide (prod_list sh = length (data t)) then mret (mkTensor sh (data t))
  else raise ShapeMismatch.

(** [backend.reshape(t, [-1])]: flatten. *)
Definition reshape_flat (t : Tensor) : Tensor := mkTensor [length (data t)] (data t).

Definition tensor_conj (t : Tensor) : Tensor := mkTensor (shape t) (cconj <$> data t).

(** Elementwise sum of two arrays of one shape ([operator.add]). *)
Definition tensor_add {S} (a b : Tensor) : M S Tensor :=
  if bool_decide (shape a = shape b) then mret (mkTensor (shape a) (zip_with cadd (data a) (data b)))
  else raise ShapeMismatch.

(** [functools.reduce(add, l)]: left fold, TypeError on the empty list. *)
Definition reduce_add {S} (l : list Tensor) : M S Tensor :=
  match l with
  | [] => raise TypeError
  | t :: l' => foldl (λ acc x, acc ≫= λ a, tensor_add a x) (mret t) l'
  end.

(** Row-major position of a multi-index. *)
Fixpoint flat_index (sh idx : list nat) : nat :=
  match sh, idx with
  | _ :: ds, i :: idx' => i * prod_list ds + flat_index ds idx'
  | _, _ => 0
  end.

Definition tensor_get (t : Tensor) (idx : list nat) : C :=
  default c0 (data t !! flat_index (shape t) idx).

(** All multi-indices of a shape, in row-major order. *)
Fixpoint indices (sh : list nat) : list (list nat) :=
  match sh with
  | [] => [[]]
  | d :: ds => i ← seq 0 d; (i ::.) <$> indices ds
  end.

(** Sum and product of a list of scalars.  A one-element list yields its
    element as it is: no zero is added and no one is multiplied in. *)
Fixpoint csum (l : list C) : C :=
  match l with
  | [] => c0
  | x :: l' => match l' with [] => x | _ :: _ => cadd x (csum l') end
  end.

Fixpoint cprod (l : list C) : C :=
  match l with
  | [] => c1
  | x :: l' => match l' with [] => x | _ :: _ => cmul x (cprod l') end
  end.

(** ** The store of tensor-network objects

    [tn.Node] and [tn.Edge] objects have identity and are mutated in place,
    so they live in a store and are referred to by their position in it.
    A node carries its array and, per axis, the edge object currently bound
    to that axis.  An edge records the node and axis it starts from and, when
    it is connected, the node and axis of its other end. *)

Record Edge : Type := mkEdge { node1 : nat; axis1 : nat; end2 : option (nat * nat) }.
Record Node : Type := mkNode { tensor : Tensor; nedges : list nat }.
Record Store : Type := mkStore { nodes : list Node; edges : list Edge }.

Global Instance Edge_eq_dec : EqDecision Edge.
Proof. solve_decision. Defined.
Global Instance Node_eq_dec : EqDecision Node.
Proof. solve_decision. Defined.
Global Instance Store_eq_dec : EqDecision Store.
Proof. solve_decision. Defined.

Definition empty_store : Store := mkStore [] [].

Definition get_node (n : nat) : M Store Node :=
  λ s, from_option InvalidRef (nodes s !! n) s.

Definition get_edge_rec (e : nat) : M Store Edge :=
  λ s, from_option InvalidRef (edges s !! e) s.

Definition alloc_edge (r : Edge) : M Store nat :=
  λ s, Ok (length (edges s)) (mkStore (nodes s) (edges s ++ [r])).

(** [edge.is_dangling()] *)
Definition is_dangling (r : Edge) : bool := bool_decide (end2 r = None).

(** [tn.Node(tensor)] (and [Gate(tensor)], its subclass): a new node whose
    axes all carry new dangling edges. *)
Definition new_node (t : Tensor) : M Store nat := λ s,
  let n := length (nodes s) in
  let e := length (edges s) in
  let rank := length (shape t) in
  Ok n (mkStore (nodes s ++ [mkNode t (seq e rank)])
                (edges s ++ ((λ i, mkEdge n i None) <$> seq 0 rank))).

(** [node.get_edge(i)] for a non-negative [i]: [node.edges[i]]. *)
Definition get_edge (n i : nat) : M Store nat :=
  nd ← get_node n; from_option IndexError (nedges nd !! i).

(** [[e for e in node]]: the node's edges, axis by axis. *)
Definition node_edges (n : nat) : M Store (list nat) :=
  nd ← get_node n; mret (nedges nd).

(** [node.add_edge(e, axis, override=True)] *)
Definition add_edge (n axis e : nat) : M Store unit := λ s,
  match nodes s !! n with
  | None => Raise InvalidRef s
  | Some nd =>
      if bool_decide (axis < length (nedges nd)) then
        Ok tt (mkStore (<[n := mkNode (tensor nd) (<[axis := e]> (nedges nd))]> (nodes s)) (edges s))
      else Raise ValueError s
  end.

(** [edge.dimension]: the size of the axis the edge starts from. *)
Definition edge_dim (s : Store) (r : Edge) : option nat :=
  nd ← nodes s !! node1 r; shape (tensor nd) !! axis1 r.

(** [e1 ^ e2], that is [tn.connect(e1, e2)]: both must be dangling (as
    recorded in the edge objects themselves), distinct and of one dimension.
    A new edge object joining the two axes is created and bound to both; the
    two old edge objects are left as they were. *)
Definition connect (e1 e2 : nat) : M Store nat :=
  r1 ← get_edge_rec e1;
  r2 ← get_edge_rec e2;
  if negb (is_dangling r1 && is_dangling r2) then raise ValueError
  else if bool_decide (e1 = e2) then raise ValueError
  else
    s ← get_state;
    d1 ← from_option InvalidRef (edge_dim s r1);
    d2 ← from_option InvalidRef (edge_dim s r2);
    if negb (bool_decide (d1 = d2)) then raise ValueError
    else
      e ← alloc_edge (mkEdge (node1 r1) (axis1 r1) (Some (node1 r2, axis1 r2)));
      add_edge (node1 r1) (axis1 r1) e;;
      add_edge (node1 r2) (axis1 r2) e;;
      mret e.

(** [tn.get_all_edges(nodes)]: the set of edges bound to the nodes' axes
    (each once; the order of a Python set is unspecified, a fixed one is
    taken here). *)
Definition get_all_edges (s : Store) (ns : list nat) : list nat :=
  remove_dups (n ← ns; default [] (nedges <$> nodes s !! n)).

(** [tn.copy(nodes, conjugate)]: every node is copied (its array conjugated
    when asked), every edge bound to one of the nodes is copied, and the two
    dictionaries from originals to copies are returned.  The copy of a node
    carries, axis by axis, the copies of the original's edges.  The copy of
    an edge joins the copies of its two ends; if one end lies outside [nodes]
    (or the edge is dangling) the copy is a dangling edge of the end inside. *)
Definition copy_edge_rec (nd : gmap nat nat) (r : Edge) : option Edge :=
  match end2 r ≫= λ na, (λ n2', (n2', na.2)) <$> nd !! na.1 with
  | None => n1' ← nd !! node1 r; Some (mkEdge n1' (axis1 r) None)
  | Some (n2', a2) =>
      match nd !! node1 r with
      | None => Some (mkEdge n2' a2 None)
      | Some n1' => Some (mkEdge n1' (axis1 r) (Some (n2', a2)))
      end
  end.

Definition copy_node_rec (conj : bool) (ed : gmap nat nat) (nr : Node) : Node :=
  mkNode (if conj then tensor_conj (tensor nr) else tensor nr)
         ((λ e, default e (ed !! e)) <$> nedges nr).

Definition tn_copy (nodes_arg : list nat) (conj : bool) : M Store (gmap nat nat * gmap nat nat) :=
  let ns := remove_dups nodes_arg in
  s ← get_state;
  let all := get_all_edges s ns in
  let nd : gmap nat nat := list_to_map (zip ns (seq (length (nodes s)) (length ns))) in
  let ed : gmap nat nat := list_to_map (zip all (seq (length (edges s)) (length all))) in
  nrecs ← from_option InvalidRef (mapM (λ n, nodes s !! n) ns);
  erecs ← from_option InvalidRef (mapM (λ e, edges s !! e) all);
  erecs' ← from_option KeyError (mapM (copy_edge_rec nd) erecs);
  put_state (mkStore (nodes s ++ (copy_node_rec conj ed <$> nrecs)) (edges s ++ erecs'));;
  mret (nd, ed).

(** ** The contraction engine

    Modelled from the spec: [contractor] comes from the module [cons], which
    is not among the sources.  The spec describes it as the collaborator
    that, "given a node set and a requested output-edge order, returns one
    tensor with exactly that edge order", the only place where products are
    summed.  It is modelled as the defining sum of a tensor network: the
    entry at an assignment of the output edges is the sum, over all
    assignments of the connected edges, of the product of the nodes' entries.
    The result is a new node; the output edges become its edges, in the
    requested order.  The engine refuses an empty node set, an output order
    that is not exactly the set of dangling edges of the nodes, and (without
    an output order) a network with more than one dangling edge. *)

(** A network with its edges numbered: each node's array with, per axis, the
    number of the edge bound to it; the output edges are numbered first (in
    output order), the connected ones after them.  Only dimensions remain of
    the edges. *)
Record ANet : Type := mkANet {
  a_nodes : list (Tensor * list nat);
  a_out : list nat;
  a_int : list nat;
}.

Definition a_term (net : ANet) (vals : list nat) : C :=
  cprod ((λ tw : Tensor * list nat, tensor_get tw.1 ((λ p, default 0 (vals !! p)) <$> tw.2))
           <$> a_nodes net).

Definition einsum (net : ANet) : Tensor :=
  mkTensor (a_out net)
    ((λ o, csum ((λ v, a_term net (o ++ v)) <$> indices (a_int net))) <$> indices (a_out net)).

Fixpoint index_of (e : nat) (l : list nat) : nat :=
  match l with
  | [] => 0
  | x :: l' => if bool_decide (x = e) then 0 else S (index_of e l')
  end.

Definition edge_dangling (s : Store) (e : nat) : Prop :=
  (is_dangling <$> edges s !! e) = Some true.

Definition edge_connected (s : Store) (e : nat) : Prop :=
  (is_dangling <$> edges s !! e) = Some false.

Global Instance edge_dangling_dec s e : Decision (edge_dangling s e).
Proof. unfold edge_dangling. apply _. Defined.
Global Instance edge_connected_dec s e : Decision (edge_connected s e).
Proof. unfold edge_connected. apply _. Defined.

(** both ends of a connected edge lie in the node set *)
Definition edge_inside (s : Store) (ns : list nat) (e : nat) : Prop :=
  match edges s !! e with
  | Some (mkEdge n1 _ (Some (n2, _))) => n1 ∈ ns ∧ n2 ∈ ns
  | _ => False
  end.

Global Instance edge_inside_dec s ns e : Decision (edge_inside s ns e).
Proof. unfold edge_inside. destruct (edges s !! e) as [[? ? [[? ?]|]]|]; apply _. Defined.

Definition abstract (s : Store) (ns out : list nat) : option ANet :=
  nrecs ← mapM (λ n, nodes s !! n) ns;
  let order := out ++ filter (edge_connected s) (get_all_edges s ns) in
  douts ← mapM (λ e, edges s !! e ≫= edge_dim s) out;
  dints ← mapM (λ e, edges s !! e ≫= edge_dim s) (filter (edge_connected s) (get_all_edges s ns));
  Some (mkANet ((λ nr, (tensor nr, (λ e, index_of e order) <$> nedges nr)) <$> nrecs) douts dints).

Definition contractor (nodes_arg : list nat) (output_edge_order : option (list nat)) : M Store nat :=
  let ns := remove_dups nodes_arg in
  s ← get_state;
  let all := get_all_edges s ns in
  let dang := filter (edge_dangling s) all in
  if bool_decide (ns = []) then raise ValueError
  else if bool_decide (output_edge_order = None ∧ 1 < length dang) then raise ValueError
  else
    let out := default dang output_edge_order in
    if negb (bool_decide (NoDup out ∧ Forall (λ e, e ∈ dang) out ∧ Forall (λ e, e ∈ out) dang))
    then raise ValueError
    else if negb (bool_decide (Forall (edge_inside s ns) (filter (edge_connected s) all)))
    then raise ValueError
    else
      net ← from_option InvalidRef (abstract s ns out);
      let t := length (nodes s) in
      put_state (mkStore (nodes s ++ [mkNode (einsum net) out])
                         (foldr (λ ie es, <[ie.2 := mkEdge t ie.1 None]> es) (edges s) (enumerate out)));;
      mret t.

(** ** The class [DMCircuit]

    An instance holds the qubit count, the list of the network's nodes, the
    right (ket) and left (bra) front edges, one per qubit, and the memoized
    contraction [state_tensor] (an attribute that is absent until first set;
    the code reads it with [getattr(self, "state_tensor", None)], so absent
    and [None] are one case). *)

Record DMCircuit : Type := mkDM {
  _nqubits : nat;
  _nodes : list nat;
  _rfront : list nat;
  _lfront : list nat;
  state_tensor : option nat;
}.

Global Instance DMCircuit_eq_dec : EqDecision DMCircuit.
Proof. solve_decision. Defined.

(** A method runs on the store and on the instance it is called on. *)
Record World : Type := mkWorld { heap : Store; self : DMCircuit }.

Definition lift {A} (m : M Store A) : M World A := λ w,
  match m (heap w) with
  | Ok a h => Ok a (mkWorld h (self w))
  | Raise e h => Raise e (mkWorld h (self w))
  end.

Definition get_self : M World DMCircuit := λ w, Ok (self w) w.
Definition set_self (c : DMCircuit) : M World unit := λ w, Ok tt (mkWorld (heap w) c).

(** [c.method(...)] called from a method of another instance. *)
Definition on_object {A} (c : DMCircuit) (m : M World A) : M World (A * DMCircuit) := λ w,
  match m (mkWorld (heap w) c) with
  | Ok a w' => Ok (a, self w') (mkWorld (heap w') (self w))
  | Raise e w' => Raise e (mkWorld (heap w') (self w))
  end.

Definition set_nodes (l : list nat) : M World unit :=
  c ← get_self; set_self (mkDM (_nqubits c) l (_rfront c) (_lfront c) (state_tensor c)).
Definition set_rfront (l : list nat) : M World unit :=
  c ← get_self; set_self (mkDM (_nqubits c) (_nodes c) l (_lfront c) (state_tensor c)).
Definition set_lfront (l : list nat) : M World unit :=
  c ← get_self; set_self (mkDM (_nqubits c) (_nodes c) (_rfront c) l (state_tensor c)).
Definition set_state_tensor (t : option nat) : M World unit :=
  c ← get_self; set_self (mkDM (_nqubits c) (_nodes c) (_rfront c) (_lfront c) t).

(** [_copy(nodes, dangling, conj)]: copies of the nodes, and the copies of
    the edges listed in [dangling] (of all the nodes' edges when [dangling]
    is [None] or empty). *)
Definition _copy (nodes_arg : list nat) (dangling : option (list nat)) (conj : bool)
  : M Store (list nat * list nat) :=
  dicts ← tn_copy nodes_arg conj;
  newnodes ← map_M (λ n, from_option KeyError (dicts.1 !! n)) nodes_arg;
  dangling' ← match dangling with
              | Some (e :: l) => mret (e :: l)
              | _ => ls ← map_M node_edges nodes_arg; mret (concat ls)
              end;
  newfront ← map_M (λ e, from_option KeyError (dicts.2 !! e)) dangling';
  mret (newnodes, newfront).

(** [int(np.log(N) / np.log(2))] for the length [N] of an array:
    [np.log(0)] is minus infinity, whose conversion to an integer raises
    OverflowError; otherwise both logarithms are finite, the quotient is not
    negative, and [int] truncates it. *)
Definition qubit_count {S} (N : nat) : M S nat :=
  if bool_decide (N = 0) then raise OverflowError else mret (log2_quotient N).

(** [DMCircuit(nqubits, inputs=..., dminputs=...)].  (With [empty=True] the
    constructor sets no attribute; the only caller, [_copy_DMCircuit], sets
    them all itself.) *)
Definition DMCircuit_init (nqubits : nat) (inputs dminputs : option Tensor) : M Store DMCircuit :=
  match inputs, dminputs with
  | None, None =>
      nodes ← map_M (λ _, new_node (mkTensor [2] [c1; c0])) (seq 0 nqubits);
      rfront ← map_M (λ n, get_edge n 0) nodes;
      l ← _copy nodes (Some rfront) true;
      mret (mkDM nqubits (l.1 ++ nodes) rfront l.2 None)
  | Some inputs, _ =>
      let inputs := reshape_flat inputs in
      let N := default 0 (shape inputs !! 0) in
      n ← qubit_count N;
      py_assert (bool_decide (n = nqubits));;
      inputs ← reshape inputs (replicate n 2);
      inputs ← new_node inputs;
      let nodes := [inputs] in
      rfront ← map_M (get_edge inputs) (seq 0 n);
      l ← _copy nodes (Some rfront) true;
      mret (mkDM nqubits (l.1 ++ nodes) rfront l.2 None)
  | None, Some dminputs =>
      dminputs ← reshape dminputs (replicate (2 * nqubits) 2);
      dminputs ← new_node dminputs;
      rfront ← map_M (get_edge dminputs) (seq 0 nqubits);
      lfront ← map_M (λ i, get_edge dminputs (i + nqubits)) (seq 0 nqubits);
      mret (mkDM nqubits [dminputs] rfront lfront None)
  end.

(** [_copy_DMCircuit] *)
Definition _copy_DMCircuit : M World DMCircuit :=
  c ← get_self;
  l ← lift (_copy (_nodes c) (Some (_lfront c ++ _rfront c)) false);
  mret (mkDM (_nqubits c) l.1 (drop (_nqubits c) l.2) (take (_nqubits c) l.2) None).

(** [_copy_dm_tensor(conj, reuse)] *)
Definition _copy_dm_tensor (conj reuse : bool) : M World (list nat * list nat) :=
  c ← get_self;
  let t := if reuse then state_tensor c else None in
  t ← match t with
      | Some t => mret t
      | None =>
          l ← lift (_copy (_nodes c) (Some (_rfront c ++ _lfront c)) conj);
          t ← lift (contractor l.1 (Some l.2));
          set_state_tensor (Some t);;
          mret t
      end;
  dicts ← lift (tn_copy [t] conj);
  n' ← from_option KeyError (dicts.1 !! t);
  es ← lift (node_edges t);
  newfront ← map_M (λ e, from_option KeyError (dicts.2 !! e)) es;
  mret ([n'], newfront).

(** [_contract] *)
Definition _contract : M World unit :=
  c ← get_self;
  t ← lift (contractor (_nodes c) (Some (_rfront c ++ _lfront c)));
  set_nodes [t].

(** [len(index) == len(set(index))] *)
Definition all_distinct (index : list Z) : bool :=
  bool_decide (length index = length (remove_dups index)).

(** One round of the loop of [apply_general_gate]. *)
Definition gate_step (gate lgate noe : nat) (x : nat * Z) : M World unit :=
  let '(i, ind) := x in
  c ← get_self;
  e ← lift (get_edge gate (i + noe));
  f ← getitem (_rfront c) ind;
  lift (connect e f);;
  e ← lift (get_edge gate i);
  l ← setitem (_rfront c) ind e;
  set_rfront l;;
  c ← get_self;
  e ← lift (get_edge lgate (i + noe));
  f ← getitem (_lfront c) ind;
  lift (connect e f);;
  e ← lift (get_edge lgate i);
  l ← setitem (_lfront c) ind e;
  set_lfront l.

(** [apply_general_gate(gate, *index)] *)
Definition apply_general_gate (gate : nat) (index : list Z) : M World unit :=
  py_assert (all_distinct index);;
  let noe := length index in
  l ← lift (_copy [gate] None true);
  lgate ← from_option IndexError (l.1 !! 0);
  for_each (gate_step gate lgate noe) (enumerate index);;
  c ← get_self; set_nodes (_nodes c ++ [gate]);;
  c ← get_self; set_nodes (_nodes c ++ [lgate]);;
  set_state_tensor None.

(** [check_kraus], a placeholder in the source *)
Definition check_kraus (kraus : list nat) : bool := true.

(** [check_density_matrix(dm)]: [assert np.allclose(trace(dm), 1.0, atol=1e-5)] *)
Definition check_density_matrix {S} (dm : Tensor) : M S unit :=
  let d := default 0 (shape dm !! 0) in
  py_assert (close_to_one (csum ((λ i, tensor_get dm [i; i]) <$> seq 0 d))).

(** [densitymatrix(check, reuse)] *)
Definition densitymatrix (check reuse : bool) : M World Tensor :=
  l ← _copy_dm_tensor false reuse;
  c ← get_self;
  n0 ← from_option IndexError (l.1 !! 0);
  nd ← lift (get_node n0);
  dm ← reshape (tensor nd) [2 ^ _nqubits c; 2 ^ _nqubits c];
  (if check then check_density_matrix dm else mret tt);;
  mret dm.

(** One round of the loop of [apply_general_kraus]. *)
Definition kraus_step (circuits : list Tensor) (ki : nat * list Z) : M World (list Tensor) :=
  dmc ← _copy_DMCircuit;
  r ← on_object dmc (apply_general_gate ki.1 ki.2);
  r ← on_object r.2 (densitymatrix false true);
  mret (circuits ++ [r.1]).

(** [apply_general_kraus(kraus, index)] *)
Definition apply_general_kraus (kraus : list nat) (index : list (list Z)) : M World unit :=
  let _ := check_kraus kraus in
  py_assert (bool_decide (length kraus = length index) || bool_decide (length index = 1));;
  index ← (if bool_decide (length index = 1)
           then i0 ← from_option IndexError (index !! 0); mret (replicate (length kraus) i0)
           else mret index);
  _contract;;
  circuits ← fold_M kraus_step (zip kraus index) [];
  tensor ← reduce_add circuits;
  c ← get_self;
  tensor ← reshape tensor (replicate (2 * _nqubits c) 2);
  g ← lift (new_node tensor);
  set_nodes [g];;
  dangling ← lift (node_edges g);
  c ← get_self;
  set_rfront (take (_nqubits c) dangling);;
  c ← get_self;
  set_lfront (drop (_nqubits c) dangling);;
  set_state_tensor None.

(** One round of the inner loop of [expectation]: leg [j] of operator [op]
    at qubit index [e]. *)
Definition expectation_leg (nq : nat) (newdang : list nat) (op noe : nat)
    (occupied : gset Z) (je : nat * Z) : M Store (gset Z) :=
  let '(j, e) := je in
  if bool_decide (e ∈ occupied) then raise ValueError
  else
    a ← getitem newdang (e + Z.of_nat nq)%Z;
    b ← get_edge op j;
    connect a b;;
    a ← getitem newdang e;
    b ← get_edge op (j + noe);
    connect a b;;
    mret ({[e]} ∪ occupied).

(** One round of the outer loop: all legs of one operator, then the operator
    joins the node list. *)
Definition expectation_op (nq : nat) (newdang : list nat)
    (st : gset Z * list nat) (o : nat * list Z) : M Store (gset Z * list nat) :=
  occupied ← fold_M (expectation_leg nq newdang o.1 (length o.2)) (enumerate o.2) st.1;
  mret (occupied, st.2 ++ [o.1]).

(** Closing the trace loop of a qubit no operator acts on. *)
Definition expectation_close (nq : nat) (newdang : list nat) (occupied : gset Z) (j : nat)
  : M Store unit :=
  if bool_decide (Z.of_nat j ∈ occupied) then mret tt
  else
    a ← getitem newdang (Z.of_nat j);
    b ← getitem newdang (Z.of_nat (j + nq));
    connect a b;; mret tt.

(** [expectation], called on the pairs [ops] of an operator node and its
    list of qubit indices *)
Definition expectation (ops : list (nat * list Z)) : M World Tensor :=
  c ← get_self;
  l ← lift (_copy (_nodes c) (Some (_rfront c ++ _lfront c)) false);
  st ← lift (fold_M (expectation_op (_nqubits c) l.2) ops (∅, l.1));
  lift (for_each (expectation_close (_nqubits c) l.2 st.1) (seq 0 (_nqubits c)));;
  t ← lift (contractor st.2 None);
  nd ← lift (get_node t);
  mret (tensor nd).

End DM.

(** * Verification *)

Section Monad_facts.
Context {S : Type}.

Definition outcome_state {A} (r : Res S A) : S :=
  match r with Ok _ s => s | Raise _ s => s end.

Lemma bind_unfold {A B} (m : M S A) (f : A → M S B) s :
  (m ≫= f) s = match m s with Ok a s' => f a s' | Raise e s' => Raise e s' end.
Proof. reflexivity. Qed.

Lemma bind_Ok {A B} (m : M S A) (f : A → M S B) s a s' :
  m s = Ok a s' → (m ≫= f) s = f a s'.
Proof. intros Hm. rewrite bind_unfold, Hm. reflexivity. Qed.

Lemma bind_Raise {A B} (m : M S A) (f : A → M S B) s e s' :
  m s = Raise e s' → (m ≫= f) s = Raise e s'.
Proof. intros Hm. rewrite bind_unfold, Hm. reflexivity. Qed.

Lemma bind_Ok_inv {A B} (m : M S A) (f : A → M S B) s b s2 :
  (m ≫= f) s = Ok b s2 → ∃ a s1, m s = Ok a s1 ∧ f a s1 = Ok b s2.
Proof. rewrite bind_unfold. destruct (m s) as [a s1|e s1]; [eauto | discriminate]. Qed.

Lemma bind_Raise_inv {A B} (m : M S A) (f : A → M S B) s e s2 :
  (m ≫= f) s = Raise e s2 →
  m s = Raise e s2 ∨ ∃ a s1, m s = Ok a s1 ∧ f a s1 = Raise e s2.
Proof. rewrite bind_unfold. destruct (m s) as [a s1|e' s1]; [eauto | intros [= -> ->]; eauto]. Qed.

(** [raises_in E m]: every exception [m] can raise satisfies [E]. *)
Definition raises_in {A} (E : Exn → Prop) (m : M S A) : Prop :=
  ∀ s e s', m s = Raise e s' → E e.

Lemma raises_in_ret {A} E (a : A) : raises_in E (mret a).
Proof. intros s e s' [=]. Qed.

Lemma raises_in_raise {A} (E : Exn → Prop) e : E e → raises_in E (raise e : M S A).
Proof. intros He s e' s' [= <- _]. exact He. Qed.

Lemma raises_in_bind {A B} E (m : M S A) (f : A → M S B) :
  raises_in E m → (∀ a, raises_in E (f a)) → raises_in E (m ≫= f).
Proof.
  intros Hm Hf s e s' Hr. apply bind_Raise_inv in Hr as [Hr | (a & s1 & _ & Hr)].
  - eapply Hm, Hr.
  - eapply Hf, Hr.
Qed.

Lemma raises_in_from_option {A} (E : Exn → Prop) e (o : option A) :
  E e → raises_in E (from_option e o : M S A).
Proof. intros He. destruct o; [apply raises_in_ret | by apply raises_in_raise]. Qed.

Lemma raises_in_for_each {A} E (f : A → M S unit) l :
  (∀ x, raises_in E (f x)) → raises_in E (for_each f l).
Proof.
  intros Hf. induction l as [|x l IH]; simpl.
  - apply raises_in_ret.
  - apply raises_in_bind; auto.
Qed.

Lemma raises_in_map_M {A B} E (f : A → M S B) l :
  (∀ x, raises_in E (f x)) → raises_in E (map_M f l).
Proof.
  intros Hf. induction l as [|x l IH]; simpl.
  - apply raises_in_ret.
  - apply raises_in_bind; [auto|]. intros y. apply raises_in_bind; [auto|].
    intros ys. apply raises_in_ret.
Qed.

Lemma raises_in_fold_M {A B} E (f : B → A → M S B) l b :
  (∀ b x, raises_in E (f b x)) → raises_in E (fold_M f l b).
Proof.
  intros Hf. revert b. induction l as [|x l IH]; intros b; simpl.
  - apply raises_in_ret.
  - apply raises_in_bind; auto.
Qed.

Lemma raises_in_get_state E : raises_in E (get_state : M S S).
Proof. intros s e s' [=]. Qed.

Lemma raises_in_put_state E s0 : raises_in E (put_state s0 : M S unit).
Proof. intros s e s' [=]. Qed.

End Monad_facts.

Section Exceptions.
Context `{Scalar}.

Lemma raises_in_lift {A} E (m : M Store A) : raises_in E m → raises_in E (lift m).
Proof.
  intros Hm w e w'. unfold lift. destruct (m (heap w)) as [a h|e' h] eqn:Hr; [done|].
  intros [= <- _]. eapply Hm, Hr.
Qed.

Lemma raises_in_on_object {A} E c (m : M World A) : raises_in E m → raises_in E (on_object c m).
Proof.
  intros Hm w e w'. unfold on_object.
  destruct (m _) as [a h|e' h] eqn:Hr; [done|]. intros [= <- _]. eapply Hm, Hr.
Qed.

Lemma raises_in_get_node E n : E InvalidRef → raises_in E (get_node n).
Proof. intros HE s e s'. unfold get_node. destruct (nodes s !! n); [done|]. by intros [= <- _]. Qed.

Lemma raises_in_get_edge_rec E n : E InvalidRef → raises_in E (get_edge_rec n).
Proof. intros HE s e s'. unfold get_edge_rec. destruct (edges s !! n); [done|]. by intros [= <- _]. Qed.

Lemma raises_in_alloc_edge E r : raises_in E (alloc_edge r).
Proof. by intros s e s'. Qed.

Lemma raises_in_new_node E t : raises_in E (new_node t).
Proof. by intros s e s'. Qed.

Lemma raises_in_add_edge E n a x :
  E InvalidRef → E ValueError → raises_in E (add_edge n a x).
Proof.
  intros H1 H2 s e s'. unfold add_edge. destruct (nodes s !! n); [|by intros [= <- _]].
  case_bool_decide; [done | by intros [= <- _]].
Qed.

Lemma raises_in_get_self E : raises_in E get_self.
Proof. by intros s e s'. Qed.

Lemma raises_in_set_self E c : raises_in E (set_self c).
Proof. by intros s e s'. Qed.

End Exceptions.

(** One step of the syntax-directed proof that a computation raises only
    exceptions of a given class. *)
Ltac raises_step :=
  lazymatch goal with
  | |- raises_in _ (mret _) => apply raises_in_ret
  | |- raises_in _ (raise _) => apply raises_in_raise; done
  | |- raises_in _ (_ ≫= _) => apply raises_in_bind; [|intros ?]
  | |- raises_in _ (from_option _ _) => apply raises_in_from_option; done
  | |- raises_in _ (for_each _ _) => apply raises_in_for_each; intros ?
  | |- raises_in _ (map_M _ _) => apply raises_in_map_M; intros ?
  | |- raises_in _ (fold_M _ _ _) => apply raises_in_fold_M; intros ? ?
  | |- raises_in _ (lift _) => apply raises_in_lift
  | |- raises_in _ (on_object _ _) => apply raises_in_on_object
  | |- raises_in _ get_state => apply raises_in_get_state
  | |- raises_in _ (put_state _) => apply raises_in_put_state
  | |- raises_in _ get_self => apply raises_in_get_self
  | |- raises_in _ (set_self _) => apply raises_in_set_self
  | |- raises_in _ (get_node _) => apply raises_in_get_node; done
  | |- raises_in _ (get_edge_rec _) => apply raises_in_get_edge_rec; done
  | |- raises_in _ (alloc_edge _) => apply raises_in_alloc_edge
  | |- raises_in _ (new_node _) => apply raises_in_new_node
  | |- raises_in _ (add_edge _ _ _) => apply raises_in_add_edge; done
  | |- raises_in _ (if ?b then _ else _) => destruct b
  | |- raises_in _ (match ?x with _ => _ end) => destruct x
  end.

Section Gate_precondition.
Context `{Scalar}.

Definition not_assertion (e : Exn) : Prop := e ≠ AssertionError.

Lemma raises_in_tn_copy ns conj : raises_in not_assertion (tn_copy ns conj).
Proof. unfold tn_copy. repeat raises_step. Qed.

Lemma raises_in_copy ns d conj : raises_in not_assertion (_copy ns d conj).
Proof.
  unfold _copy. repeat first [apply raises_in_tn_copy | raises_step | unfold node_edges].
Qed.

Lemma raises_in_connect a b : raises_in not_assertion (connect a b).
Proof. unfold connect. repeat raises_step. Qed.

Lemma raises_in_gate_step gate lgate noe x :
  raises_in not_assertion (gate_step gate lgate noe x).
Proof.
  unfold gate_step, getitem, setitem, set_rfront, set_lfront, get_edge.
  repeat first [apply raises_in_connect | raises_step].
Qed.

Lemma remove_dups_length_le {A} `{EqDecision A} (l : list A) :
  length (remove_dups l) ≤ length l.
Proof. induction l as [|x l IH]; simpl; [done|]. case_decide; simpl; lia. Qed.

Lemma all_distinct_NoDup index : all_distinct index = true ↔ NoDup index.
Proof.
  unfold all_distinct. rewrite bool_decide_eq_true.
  induction index as [|x l IH]; simpl.
  - split; [constructor | done].
  - pose proof (remove_dups_length_le l). case_decide as Hx.
    + split; [lia | intros Hnd; by apply NoDup_cons_1_1 in Hnd].
    + simpl. rewrite NoDup_cons. split.
      * intros Hl. split; [done|]. apply IH. lia.
      * intros [_ Hl]. apply IH in Hl. lia.
Qed.

(** C4.  [apply_general_gate] raises an assertion error exactly when the
    index sequence repeats an entry, and it then leaves the store and the
    instance (nodes, right fronts, left fronts, memoized contraction) as they
    were: the check precedes every mutation. *)
Theorem apply_general_gate_assertion (gate : nat) (index : list Z) (w : World) :
  ((∃ w', apply_general_gate gate index w = Raise AssertionError w') ↔ ¬ NoDup index)
  ∧ (∀ w', apply_general_gate gate index w = Raise AssertionError w' → w' = w).
Proof.
  unfold apply_general_gate. rewrite bind_unfold.
  destruct (all_distinct index) eqn:Hd; simpl.
  - assert (Hno : ∀ w', ¬ ((l ← lift (_copy [gate] None true);
        lgate ← from_option IndexError (l.1 !! 0);
        for_each (gate_step gate lgate (length index)) (enumerate index);;
        c ← get_self; set_nodes (_nodes c ++ [gate]);;
        c ← get_self; set_nodes (_nodes c ++ [lgate]);;
        set_state_tensor None) w = Raise AssertionError w')).
    { intros w' Hr. revert Hr.
      match goal with |- ?m w = _ → _ => assert (Hin : raises_in not_assertion m) end.
      { unfold set_nodes, set_state_tensor.
        repeat first [apply raises_in_copy | apply raises_in_gate_step | raises_step]. }
      intros Hr. by apply Hin in Hr. }
    apply all_distinct_NoDup in Hd. split.
    + split; [intros [w' Hr]; by apply Hno in Hr | done].
    + intros w' Hr. by apply Hno in Hr.
  - assert (¬ NoDup index) as Hnd.
    { intros Hnd. apply all_distinct_NoDup in Hnd. congruence. }
    split; [split; eauto | by intros w' [= <-]].
Qed.

End Gate_precondition.

(** ** Lists, positions and dictionaries *)

Section List_facts.

Lemma index_of_lt e l : e ∈ l → index_of e l < length l.
Proof.
  induction l as [|x l IH]; simpl; [by intros ?%elem_of_nil|].
  intros [->|Hin]%elem_of_cons; case_bool_decide; try lia. apply IH in Hin. lia.
Qed.

Lemma index_of_not_in e l : e ∉ l → index_of e l = length l.
Proof.
  induction l as [|x l IH]; simpl; [done|].
  intros [Hne Hin]%not_elem_of_cons. rewrite bool_decide_eq_false_2 by done. by rewrite IH.
Qed.

Lemma lookup_index_of e l : e ∈ l → l !! index_of e l = Some e.
Proof.
  induction l as [|x l IH]; simpl; [by intros ?%elem_of_nil|].
  intros Hin. case_bool_decide as Hx; [by subst|].
  apply elem_of_cons in Hin as [->|Hin]; [done|]. by apply IH.
Qed.

Lemma index_of_lookup l i e : NoDup l → l !! i = Some e → index_of e l = i.
Proof.
  intros Hnd. revert i. induction Hnd as [|x l Hx Hnd IH]; intros [|i]; simpl; try done.
  - intros [= ->]. by rewrite bool_decide_eq_true_2.
  - intros Hi. rewrite bool_decide_eq_false_2; [by rewrite (IH i)|].
    intros ->. apply Hx. eapply list_elem_of_lookup_2, Hi.
Qed.

Lemma index_of_app_l e l1 l2 : e ∈ l1 → index_of e (l1 ++ l2) = index_of e l1.
Proof.
  induction l1 as [|x l1 IH]; simpl; [by intros ?%elem_of_nil|].
  intros Hin. case_bool_decide; [done|].
  apply elem_of_cons in Hin as [->|Hin]; [done|]. by rewrite IH.
Qed.

Lemma index_of_app_r e l1 l2 : e ∉ l1 → index_of e (l1 ++ l2) = length l1 + index_of e l2.
Proof.
  induction l1 as [|x l1 IH]; simpl; [done|].
  intros [Hne Hin]%not_elem_of_cons. rewrite bool_decide_eq_false_2 by done. by rewrite IH.
Qed.

(** A renaming that is injective on the names in play does not move them. *)
Lemma index_of_fmap (f : nat → nat) e l :
  (∀ x, x ∈ l → f x = f e → x = e) → index_of (f e) (f <$> l) = index_of e l.
Proof.
  induction l as [|x l IH]; csimpl; [done|]. intros Hinj.
  destruct (decide (x = e)) as [->|Hne].
  - by rewrite !bool_decide_eq_true_2.
  - rewrite !bool_decide_eq_false_2; [|done|].
    + rewrite IH; [done|]. intros y Hy. apply Hinj. by right.
    + intros Hf. apply Hne, Hinj; [by left | done].
Qed.

Lemma remove_dups_fmap (f : nat → nat) (l : list nat) :
  (∀ x y, x ∈ l → y ∈ l → f x = f y → x = y) →
  remove_dups (f <$> l) = f <$> remove_dups l.
Proof.
  induction l as [|x l IH]; csimpl; [done|]. intros Hinj.
  assert (f x ∈ f <$> l ↔ x ∈ l) as Hiff.
  { rewrite list_elem_of_fmap. split; [|by eauto].
    intros (y & Hf & Hy). assert (x = y) as -> ; [|done].
    apply Hinj; [by left | by right | done]. }
  rewrite IH by (intros y z Hy Hz; apply Hinj; by right).
  repeat case_decide; try done; tauto.
Qed.

Lemma filter_fmap_iff (f : nat → nat) (P Q : nat → Prop)
    `{∀ x, Decision (P x)} `{∀ x, Decision (Q x)} (l : list nat) :
  (∀ x, x ∈ l → P (f x) ↔ Q x) → filter P (f <$> l) = f <$> filter Q l.
Proof.
  induction l as [|x l IH]; csimpl; [done|]. intros HPQ.
  rewrite !filter_cons. rewrite IH by (intros y Hy; apply HPQ; by right).
  assert (P (f x) ↔ Q x) by (apply HPQ; by left).
  repeat case_decide; try done; tauto.
Qed.

Lemma filter_ext_in {A} (P Q : A → Prop) `{∀ x, Decision (P x)} `{∀ x, Decision (Q x)} (l : list A) :
  (∀ x, x ∈ l → P x ↔ Q x) → filter P l = filter Q l.
Proof.
  induction l as [|x l IH]; [done|]. intros HPQ.
  rewrite !filter_cons. rewrite IH by (intros y Hy; apply HPQ; by right).
  assert (P x ↔ Q x) by (apply HPQ; by left).
  repeat case_decide; try done; tauto.
Qed.

(** The dictionary that sends the [k]-th key to [a + k]. *)
Lemma dict_lookup (l : list nat) (a : nat) (x : nat) :
  NoDup l → x ∈ l →
  (list_to_map (zip l (seq a (length l))) : gmap nat nat) !! x = Some (a + index_of x l).
Proof.
  intros Hnd. revert a. induction Hnd as [|y l Hy Hnd IH]; intros a; simpl.
  - by intros ?%elem_of_nil.
  - intros Hin. case_bool_decide as Hxy.
    + subst. rewrite lookup_insert_eq. f_equal. lia.
    + rewrite lookup_insert_ne by done.
      apply elem_of_cons in Hin as [->|Hin]; [done|]. rewrite IH by done. f_equal. lia.
Qed.

Lemma dict_lookup_None (l : list nat) (a : nat) (x : nat) :
  x ∉ l → (list_to_map (zip l (seq a (length l))) : gmap nat nat) !! x = None.
Proof.
  revert a. induction l as [|y l IH]; intros a; simpl; [done|].
  intros [Hne Hin]%not_elem_of_cons. rewrite lookup_insert_ne by done. by apply IH.
Qed.

Lemma index_of_inj e1 e2 l : e1 ∈ l → index_of e1 l = index_of e2 l → e1 = e2.
Proof.
  intros H1 Heq. destruct (decide (e2 ∈ l)) as [H2|H2].
  - apply lookup_index_of in H1, H2. rewrite Heq in H1. congruence.
  - apply index_of_lt in H1. apply index_of_not_in in H2. lia.
Qed.

Lemma mapM_lookup_Some {A B} (f : A → option B) l k i x :
  mapM f l = Some k → l !! i = Some x → ∃ y, k !! i = Some y ∧ f x = Some y.
Proof.
  intros Hm%mapM_Some_1 Hi.
  destruct (Forall2_lookup_l _ _ _ _ _ Hm Hi) as (y & ? & ?). eauto.
Qed.

Lemma mapM_fmap_total {A B} (f : A → option B) (g : A → B) l :
  (∀ x, x ∈ l → f x = Some (g x)) → mapM f l = Some (g <$> l).
Proof.
  intros Hf. apply mapM_Some. apply Forall2_fmap_r, Forall_Forall2_diag, Forall_forall.
  exact Hf.
Qed.

End List_facts.

(** ** Well-formed networks *)

Section Wellformed.
Context `{Scalar}.

(** The edge bound to axis [i] of node [n]. *)
Definition slot (s : Store) (n i : nat) : option nat :=
  nodes s !! n ≫= λ nr, nedges nr !! i.

(** The edges bound to the axes of the nodes [ns], node by node, axis by
    axis (a connected edge is listed once per end). *)
Definition slots_of (s : Store) (ns : list nat) : list nat :=
  n ← ns; default [] (nedges <$> nodes s !! n).

(** An edge of the network on [ns]: it has a record, its ends are nodes of
    the network and its axis has a dimension. *)
Definition edge_ok (s : Store) (ns : list nat) (e : nat) : Prop :=
  match edges s !! e with
  | Some r =>
      node1 r ∈ ns ∧ is_Some (edge_dim s r) ∧
      match end2 r with Some na => na.1 ∈ ns | None => True end
  | None => False
  end.

(** No axis of the network other than axis [a] of node [n] carries [e]. *)
Definition bound_only_at (s : Store) (ns : list nat) (e n a : nat) : Prop :=
  Forall (λ n', Forall (λ ie : nat * nat, ie.2 = e → n' = n ∧ ie.1 = a)
                  (enumerate (default [] (nedges <$> nodes s !! n')))) ns.

(** A front edge: a dangling edge of dimension 2 that is bound to the axis
    its record names and to no other axis of the network. *)
Definition front_ok (s : Store) (ns : list nat) (e : nat) : Prop :=
  match edges s !! e with
  | Some r =>
      end2 r = None ∧ node1 r ∈ ns ∧ slot s (node1 r) (axis1 r) = Some e ∧
      edge_dim s r = Some 2 ∧ bound_only_at s ns e (node1 r) (axis1 r)
  | None => False
  end.

(** A network with nodes [ns] whose dangling edges are exactly [out]. *)
Definition net_ok (s : Store) (ns out : list nat) : Prop :=
  NoDup ns ∧ NoDup out ∧
  Forall (λ n, is_Some (nodes s !! n)) ns ∧
  Forall (edge_ok s ns) (slots_of s ns) ∧
  Forall (λ e, edge_dangling s e → e ∈ out) (slots_of s ns) ∧
  Forall (front_ok s ns) out.

Global Instance edge_ok_dec s ns e : Decision (edge_ok s ns e).
Proof. unfold edge_ok. destruct (edges s !! e) as [[? ? [?|]]|]; apply _. Defined.
Global Instance front_ok_dec s ns e : Decision (front_ok s ns e).
Proof. unfold front_ok, bound_only_at. destruct (edges s !! e); apply _. Defined.
Global Instance net_ok_dec s ns out : Decision (net_ok s ns out).
Proof. unfold net_ok. apply _. Defined.

(** The network's picture of the density matrix: its contraction with the
    right fronts, then the left fronts, as output order. *)
Definition denote (s : Store) (c : DMCircuit) : option Tensor :=
  einsum <$> abstract s (_nodes c) (_rfront c ++ _lfront c).

(** The memoized contraction, when present, is a node that carries the
    contraction of the current network and owns its edges. *)
Definition cache_ok (s : Store) (c : DMCircuit) : Prop :=
  match state_tensor c with
  | None => True
  | Some t =>
      match nodes s !! t with
      | Some nr =>
          _nodes c ≠ [] ∧
          Some (tensor nr) = denote s c ∧
          Forall (λ e, match edges s !! e with
                       | Some r => node1 r = t ∧ end2 r = None ∧ is_Some (edge_dim s r)
                       | None => False
                       end) (nedges nr)
      | None => False
      end
  end.

Global Instance cache_ok_dec s c : Decision (cache_ok s c).
Proof.
  unfold cache_ok. destruct (state_tensor c); [|apply _].
  destruct (nodes s !! _); [|apply _].
  apply and_dec; [apply _|]. apply and_dec; [apply _|]. apply Forall_dec. intros e. destruct (edges s !! e); apply _.
Defined.

(** A well-formed circuit. *)
Definition dm_ok (s : Store) (c : DMCircuit) : Prop :=
  net_ok s (_nodes c) (_rfront c ++ _lfront c) ∧
  length (_rfront c) = _nqubits c ∧ length (_lfront c) = _nqubits c ∧
  cache_ok s c ∧
  (_rfront c ++ _lfront c = [] → slots_of s (_nodes c) = []).

Global Instance dm_ok_dec s c : Decision (dm_ok s c).
Proof. unfold dm_ok. apply _. Defined.

End Wellformed.

(** ** Copying a network *)

Section Copy.
Context `{Scalar}.

(** Where [tn_copy] puts the copy of node [n] and of edge [e]. *)
Definition ndf (s : Store) (ns : list nat) (n : nat) : nat :=
  length (nodes s) + index_of n ns.
Definition edf (s : Store) (ns : list nat) (e : nat) : nat :=
  length (edges s) + index_of e (get_all_edges s ns).

Definition copied_edge (s : Store) (ns : list nat) (r : Edge) : Edge :=
  mkEdge (ndf s ns (node1 r)) (axis1 r) ((λ na, (ndf s ns na.1, na.2)) <$> end2 r).

Definition copied_node (s : Store) (ns : list nat) (conj : bool) (nr : Node) : Node :=
  mkNode (if conj then tensor_conj (tensor nr) else tensor nr) (edf s ns <$> nedges nr).

Definition copy_store (s : Store) (ns : list nat) (conj : bool) : Store :=
  mkStore (nodes s ++ (copied_node s ns conj <$> omap (λ n, nodes s !! n) ns))
          (edges s ++ (copied_edge s ns <$> omap (λ e, edges s !! e) (get_all_edges s ns))).

Lemma remove_dups_NoDup {A} `{EqDecision A} (l : list A) : NoDup l → remove_dups l = l.
Proof.
  induction 1 as [|x l Hx Hnd IH]; simpl; [done|]. case_decide; [done|]. by rewrite IH.
Qed.

Lemma mapM_omap {A B} (f : A → option B) (l : list A) :
  Forall (λ x, is_Some (f x)) l → mapM f l = Some (omap f l).
Proof.
  induction 1 as [|x l [y Hy] Hl IH]; [done|].
  apply mapM_Some. csimpl. rewrite Hy. constructor; [done|]. by apply mapM_Some.
Qed.

Lemma omap_lookup_total {A B} (f : A → option B) (l : list A) i x :
  Forall (λ x, is_Some (f x)) l → l !! i = Some x → omap f l !! i = f x.
Proof.
  intros Hl. revert i. induction Hl as [|y l [z Hz] Hl IH]; intros [|i]; csimpl; try done.
  - intros [= ->]. rewrite Hz. done.
  - intros Hi. rewrite Hz. csimpl. by apply IH.
Qed.

Lemma omap_length_total {A B} (f : A → option B) (l : list A) :
  Forall (λ x, is_Some (f x)) l → length (omap f l) = length l.
Proof.
  induction 1 as [|y l [z Hz] Hl IH]; csimpl; [done|]. rewrite Hz. csimpl. by rewrite IH.
Qed.

Lemma elem_of_omap_total {A B} (f : A → option B) (l : list A) y :
  y ∈ omap f l → ∃ x, x ∈ l ∧ f x = Some y.
Proof. rewrite list_elem_of_omap. done. Qed.

Lemma elem_of_slots_of s ns e :
  e ∈ slots_of s ns ↔ ∃ n nr, n ∈ ns ∧ nodes s !! n = Some nr ∧ e ∈ nedges nr.
Proof.
  unfold slots_of. rewrite list_elem_of_bind. split.
  - intros (n & He & Hn). destruct (nodes s !! n) as [nr|] eqn:Hnr; simpl in He.
    + eauto.
    + by apply elem_of_nil in He.
  - intros (n & nr & Hn & Hnr & He). exists n. rewrite Hnr. done.
Qed.

Lemma elem_of_get_all_edges s ns e : e ∈ get_all_edges s ns ↔ e ∈ slots_of s ns.
Proof. unfold get_all_edges. apply elem_of_remove_dups. Qed.

Lemma slot_in_slots_of s ns n i e : n ∈ ns → slot s n i = Some e → e ∈ slots_of s ns.
Proof.
  unfold slot. intros Hn Hs. destruct (nodes s !! n) as [nr|] eqn:Hnr; [|done].
  simpl in Hs. apply elem_of_slots_of. exists n, nr. split_and!; [done..|].
  eapply list_elem_of_lookup_2, Hs.
Qed.

Lemma lookup_enumerate {A} (l : list A) i x :
  enumerate l !! i = Some x ↔ x.1 = i ∧ l !! i = Some x.2.
Proof.
  unfold enumerate. destruct x as [j y]. rewrite lookup_zip_Some, lookup_seq. simpl.
  split; [intros [[-> _] ?]; done|]. intros [-> Hl]. split_and!; [done| |done].
  by eapply lookup_lt_Some.
Qed.

Lemma bound_only_at_spec s ns e n a :
  bound_only_at s ns e n a ↔
  ∀ n' i', n' ∈ ns → slot s n' i' = Some e → n' = n ∧ i' = a.
Proof.
  unfold bound_only_at, slot. rewrite Forall_forall. split.
  - intros Hb n' i' Hn' Hs. specialize (Hb n' Hn').
    destruct (nodes s !! n') as [nr|]; [|done]. simpl in *.
    rewrite Forall_forall in Hb. apply (Hb (i', e)); [|done].
    eapply list_elem_of_lookup_2, lookup_enumerate. done.
  - intros Hb n' Hn'. apply Forall_forall. intros [i' e'] [k Hk]%list_elem_of_lookup_1.
    apply lookup_enumerate in Hk as [Hk1 Hk2]. simpl in *. subst k. intros ->.
    apply Hb; [done|]. destruct (nodes s !! n'); [done|]. by destruct i'.
Qed.

Section with_net.
Context (s : Store) (ns : list nat).
Hypothesis Hnd : NoDup ns.
Hypothesis Hnodes : Forall (λ n, is_Some (nodes s !! n)) ns.
Hypothesis Hedges : Forall (edge_ok s ns) (slots_of s ns).

Lemma all_edges_records :
  Forall (λ e, is_Some (edges s !! e)) (get_all_edges s ns).
Proof using Hedges.
  apply Forall_forall. intros e He%elem_of_get_all_edges.
  rewrite Forall_forall in Hedges. apply Hedges in He. unfold edge_ok in He.
  destruct (edges s !! e); [eauto | done].
Qed.

Lemma copy_nd_lookup n :
  n ∈ ns →
  (list_to_map (zip ns (seq (length (nodes s)) (length ns))) : gmap nat nat) !! n
  = Some (ndf s ns n).
Proof using Hnd. intros Hn. by apply dict_lookup. Qed.

Lemma copy_ed_lookup e :
  e ∈ slots_of s ns →
  (list_to_map (zip (get_all_edges s ns) (seq (length (edges s)) (length (get_all_edges s ns))))
     : gmap nat nat) !! e = Some (edf s ns e).
Proof.
  intros He. apply dict_lookup; [apply NoDup_remove_dups | by apply elem_of_get_all_edges].
Qed.

Lemma tn_copy_ok conj :
  tn_copy ns conj s =
  Ok (list_to_map (zip ns (seq (length (nodes s)) (length ns))),
      list_to_map (zip (get_all_edges s ns)
                       (seq (length (edges s)) (length (get_all_edges s ns)))))
     (copy_store s ns conj).
Proof using Hnd Hnodes Hedges.
  unfold tn_copy. rewrite (remove_dups_NoDup ns Hnd). rewrite bind_unfold. simpl.
  rewrite (mapM_omap _ ns Hnodes). rewrite bind_unfold. simpl.
  rewrite (mapM_omap _ _ all_edges_records). rewrite bind_unfold. simpl.
  set (nd := list_to_map _ : gmap nat nat).
  set (ed := list_to_map (zip (get_all_edges s ns) _) : gmap nat nat).
  assert (mapM (copy_edge_rec nd) (omap (λ e, edges s !! e) (get_all_edges s ns))
          = Some (copied_edge s ns <$> omap (λ e, edges s !! e) (get_all_edges s ns))) as ->.
  { apply mapM_fmap_total. intros r (e & He & Hr)%elem_of_omap_total.
    apply elem_of_get_all_edges in He. rewrite Forall_forall in Hedges.
    apply Hedges in He. unfold edge_ok in He. rewrite Hr in He.
    destruct He as (Hn1 & _ & Hn2). unfold copy_edge_rec, copied_edge.
    destruct (end2 r) as [[n2 a2]|]; simpl in *.
    - unfold nd. rewrite (copy_nd_lookup n2 Hn2). simpl.
      rewrite (copy_nd_lookup _ Hn1). done.
    - unfold nd. rewrite (copy_nd_lookup _ Hn1). done. }
  unfold mbind, M_bind, from_option, put_state, mret, M_ret; simpl.
  unfold copy_store. do 3 f_equal.
  apply Forall_fmap_ext, Forall_forall. intros nr (n & Hn & Hnr)%elem_of_omap_total.
  unfold copy_node_rec, copied_node. f_equal.
  apply Forall_fmap_ext, Forall_forall. intros e He.
  unfold ed. rewrite copy_ed_lookup; [done|].
  apply elem_of_slots_of. eauto.
Qed.

End with_net.
End Copy.

Section Copy_facts.
Context `{Scalar}.
Context (s : Store) (ns : list nat) (conj : bool).
Hypothesis Hnd : NoDup ns.
Hypothesis Hnodes : Forall (λ n, is_Some (nodes s !! n)) ns.
Hypothesis Hedges : Forall (edge_ok s ns) (slots_of s ns).

Abbreviation cs := (copy_store s ns conj).

Lemma net_node n : n ∈ ns → ∃ nr, nodes s !! n = Some nr.
Proof using Hnodes. intros Hn. by apply (proj1 (Forall_forall _ _) Hnodes n Hn). Qed.

Lemma net_edge e : e ∈ slots_of s ns → edge_ok s ns e.
Proof using Hedges. intros He. by apply (proj1 (Forall_forall _ _) Hedges e He). Qed.


Lemma copy_store_node_old n : is_Some (nodes s !! n) → nodes cs !! n = nodes s !! n.
Proof. intros Hn. simpl. apply lookup_app_l, lookup_lt_is_Some, Hn. Qed.

Lemma copy_store_edge_old e : is_Some (edges s !! e) → edges cs !! e = edges s !! e.
Proof. intros He. simpl. apply lookup_app_l, lookup_lt_is_Some, He. Qed.

Lemma copy_store_node n nr :
  n ∈ ns → nodes s !! n = Some nr →
  nodes cs !! ndf s ns n = Some (copied_node s ns conj nr).
Proof using Hnodes.
  intros Hn Hnr. simpl. unfold ndf. rewrite lookup_app_r by lia.
  replace (length (nodes s) + index_of n ns - length (nodes s)) with (index_of n ns) by lia.
  rewrite list_lookup_fmap.
  rewrite (omap_lookup_total _ ns _ n Hnodes (lookup_index_of n ns Hn)). by rewrite Hnr.
Qed.

Lemma copy_store_edge e r :
  e ∈ slots_of s ns → edges s !! e = Some r →
  edges cs !! edf s ns e = Some (copied_edge s ns r).
Proof using Hedges.
  intros He Hr. simpl. unfold edf. rewrite lookup_app_r by lia.
  replace (length (edges s) + index_of e (get_all_edges s ns) - length (edges s))
    with (index_of e (get_all_edges s ns)) by lia.
  rewrite list_lookup_fmap.
  apply elem_of_get_all_edges in He.
  rewrite (omap_lookup_total _ _ _ e (all_edges_records s ns Hedges) (lookup_index_of _ _ He)).
  by rewrite Hr.
Qed.

Lemma ndf_inj n1 n2 : n1 ∈ ns → ndf s ns n1 = ndf s ns n2 → n1 = n2.
Proof. unfold ndf. intros Hn Heq. apply (index_of_inj n1 n2 ns Hn). lia. Qed.

Lemma edf_inj e1 e2 : e1 ∈ slots_of s ns → edf s ns e1 = edf s ns e2 → e1 = e2.
Proof.
  unfold edf. intros He%elem_of_get_all_edges Heq.
  apply (index_of_inj e1 e2 _ He). lia.
Qed.

Lemma ndf_fresh n : ¬ is_Some (nodes s !! ndf s ns n).
Proof. unfold ndf. intros Hs%lookup_lt_is_Some. lia. Qed.

Lemma edf_fresh e : ¬ is_Some (edges s !! edf s ns e).
Proof. unfold edf. intros Hs%lookup_lt_is_Some. lia. Qed.

Lemma copy_slot n i : n ∈ ns → slot cs (ndf s ns n) i = edf s ns <$> slot s n i.
Proof using Hnodes.
  intros Hn. unfold slot.
  destruct (net_node n Hn) as [nr Hnr]. rewrite (copy_store_node n nr Hn Hnr), Hnr. simpl.
  by rewrite list_lookup_fmap.
Qed.

Lemma copy_slots_of : slots_of cs (ndf s ns <$> ns) = edf s ns <$> slots_of s ns.
Proof using Hnodes.
  unfold slots_of.
  assert (∀ l, (∀ n, n ∈ l → n ∈ ns) →
    (ndf s ns <$> l) ≫= (λ n, default [] (nedges <$> nodes cs !! n))
    = edf s ns <$> (l ≫= λ n, default [] (nedges <$> nodes s !! n))) as Hl.
  { induction l as [|n l IH]; intros Hsub; [done|].
    rewrite fmap_cons, !bind_cons, fmap_app, IH by (intros; apply Hsub; by right). f_equal.
    destruct (net_node n) as [nr Hnr]; [apply Hsub; by left|].
    rewrite (copy_store_node n nr), Hnr; [done| |done]. apply Hsub. by left. }
  by apply Hl.
Qed.

Lemma copy_get_all_edges :
  get_all_edges cs (ndf s ns <$> ns) = edf s ns <$> get_all_edges s ns.
Proof using Hnodes.
  unfold get_all_edges. fold (slots_of cs (ndf s ns <$> ns)). fold (slots_of s ns).
  rewrite copy_slots_of. apply remove_dups_fmap. intros x y Hx _. by apply edf_inj.
Qed.

Lemma copy_edge_dim r :
  node1 r ∈ ns → edge_dim cs (copied_edge s ns r) = edge_dim s r.
Proof using Hnodes.
  intros Hn. unfold edge_dim.
  change (node1 (copied_edge s ns r)) with (ndf s ns (node1 r)).
  change (axis1 (copied_edge s ns r)) with (axis1 r).
  destruct (net_node _ Hn) as [nr Hnr]. rewrite (copy_store_node _ nr Hn Hnr), Hnr. simpl.
  by destruct conj.
Qed.

Lemma copy_edge_dangling e :
  e ∈ slots_of s ns → edge_dangling cs (edf s ns e) ↔ edge_dangling s e.
Proof using Hedges.
  intros He. unfold edge_dangling. pose proof He as He'.
  apply net_edge in He'. unfold edge_ok in He'.
  destruct (edges s !! e) as [r|] eqn:Hr; [|done].
  rewrite (copy_store_edge e r He Hr). simpl. unfold is_dangling. simpl.
  destruct (end2 r); simpl; done.
Qed.

Lemma copy_edge_connected e :
  e ∈ slots_of s ns → edge_connected cs (edf s ns e) ↔ edge_connected s e.
Proof using Hedges.
  intros He. unfold edge_connected. pose proof He as He'.
  apply net_edge in He'. unfold edge_ok in He'.
  destruct (edges s !! e) as [r|] eqn:Hr; [|done].
  rewrite (copy_store_edge e r He Hr). simpl. unfold is_dangling. simpl.
  destruct (end2 r); simpl; done.
Qed.


Lemma copy_edge_ok e : e ∈ slots_of s ns → edge_ok cs (ndf s ns <$> ns) (edf s ns e).
Proof using Hnodes Hedges.
  intros He. pose proof (net_edge e He) as Hok. unfold edge_ok in *.
  destruct (edges s !! e) as [r|] eqn:Hr; [|done].
  rewrite (copy_store_edge e r He Hr). destruct Hok as (Hn1 & Hdim & Hn2).
  split_and!.
  - apply list_elem_of_fmap. by exists (node1 r).
  - by rewrite copy_edge_dim.
  - simpl. destruct (end2 r) as [[n2 a2]|]; simpl in *; [|done].
    apply list_elem_of_fmap. by exists n2.
Qed.

Lemma copy_front_ok e : e ∈ slots_of s ns → front_ok s ns e → front_ok cs (ndf s ns <$> ns) (edf s ns e).
Proof using Hnodes Hedges.
  intros He. unfold front_ok.
  destruct (edges s !! e) as [r|] eqn:Hr; [|done].
  rewrite (copy_store_edge e r He Hr).
  intros (Hend & Hn1 & Hslot & Hdim & Hb). split_and!.
  - simpl. by rewrite Hend.
  - apply list_elem_of_fmap. by exists (node1 r).
  - change (node1 (copied_edge s ns r)) with (ndf s ns (node1 r)).
    change (axis1 (copied_edge s ns r)) with (axis1 r).
    rewrite copy_slot by done. by rewrite Hslot.
  - by rewrite copy_edge_dim.
  - apply bound_only_at_spec. intros n' i' (n & -> & Hn)%list_elem_of_fmap.
    rewrite copy_slot by done.
    destruct (slot s n i') as [e'|] eqn:Hs; [|done]. simpl. intros [= Heq].
    assert (e' = e) as ->.
    { apply edf_inj; [|done]. by eapply slot_in_slots_of. }
    rewrite bound_only_at_spec in Hb. destruct (Hb n i' Hn Hs) as [-> ->]. done.
Qed.

Lemma copy_net_ok out :
  net_ok s ns out → net_ok cs (ndf s ns <$> ns) (edf s ns <$> out).
Proof using Hnd Hnodes Hedges.
  intros (_ & Hout & _ & _ & Hdang & Hfront).
  assert (Hsub : ∀ e, e ∈ out → e ∈ slots_of s ns).
  { intros e He. rewrite Forall_forall in Hfront. apply Hfront in He.
    unfold front_ok in He. destruct (edges s !! e) as [r|]; [|done].
    destruct He as (_ & Hn & Hs & _). by eapply slot_in_slots_of. }
  unfold net_ok. split_and!.
  - apply NoDup_fmap_2_strong; [|done]. intros x y Hx _. by apply ndf_inj.
  - apply NoDup_fmap_2_strong; [|done]. intros x y Hx _. apply edf_inj. by apply Hsub.
  - apply Forall_fmap, Forall_forall. intros n Hn. destruct (net_node n Hn) as [nr Hnr].
    change (is_Some (nodes cs !! ndf s ns n)). rewrite (copy_store_node n nr Hn Hnr). eauto.
  - rewrite copy_slots_of. apply Forall_fmap, Forall_forall. intros e He.
    by apply copy_edge_ok.
  - rewrite copy_slots_of. apply Forall_fmap, Forall_forall. intros e He.
    change (edge_dangling cs (edf s ns e) → edf s ns e ∈ edf s ns <$> out).
    rewrite copy_edge_dangling by done. intros Hd.
    apply list_elem_of_fmap. exists e. split; [done|].
    rewrite Forall_forall in Hdang. by apply Hdang.
  - apply Forall_fmap, Forall_forall. intros e He.
    change (front_ok cs (ndf s ns <$> ns) (edf s ns e)).
    apply copy_front_ok; [by apply Hsub|]. rewrite Forall_forall in Hfront. by apply Hfront.
Qed.

Definition conj_net (net : ANet) : ANet :=
  mkANet ((λ tw : Tensor * list nat, (if conj then tensor_conj tw.1 else tw.1, tw.2)) <$> a_nodes net)
         (a_out net) (a_int net).

Lemma mapM_transport {A B A' B'} (f : A → option B) (g : A' → option B')
    (h : A → A') (h' : B → B') (l : list A) (k : list B) :
  mapM f l = Some k →
  (∀ x y, x ∈ l → f x = Some y → g (h x) = Some (h' y)) →
  mapM g (h <$> l) = Some (h' <$> k).
Proof.
  intros Hm%mapM_Some_1 Hfg. apply mapM_Some.
  induction Hm as [|x y l k Hxy Hm IH]; csimpl; constructor.
  - apply Hfg; [by left | done].
  - apply IH. intros x' y' Hx'. apply Hfg. by right.
Qed.

Lemma copy_abstract out net :
  Forall (λ e, e ∈ slots_of s ns) out →
  abstract s ns out = Some net →
  abstract cs (ndf s ns <$> ns) (edf s ns <$> out) = Some (conj_net net).
Proof using Hnodes Hedges.
  intros Hsub Habs. unfold abstract in *.
  destruct (mapM (λ n, nodes s !! n) ns) as [nrecs|] eqn:Hnrecs; [|done]. simpl in Habs.
  destruct (mapM (λ e, edges s !! e ≫= edge_dim s) out) as [douts|] eqn:Hdouts; [|done].
  simpl in Habs.
  destruct (mapM (λ e, edges s !! e ≫= edge_dim s) (filter _ _)) as [dints|] eqn:Hdints; [|done].
  simpl in Habs. injection Habs as <-.
  rewrite Forall_forall in Hsub.
  assert (Hdim : ∀ e d, e ∈ slots_of s ns → edges s !! e ≫= edge_dim s = Some d →
            edges cs !! edf s ns e ≫= edge_dim cs = Some d).
  { intros e d He Hd. pose proof (net_edge e He) as Hok. unfold edge_ok in Hok.
    destruct (edges s !! e) as [r|] eqn:Hr; [|done]. simpl in Hd.
    rewrite (copy_store_edge e r He Hr). simpl.
    rewrite copy_edge_dim; [done | by destruct Hok]. }
  rewrite (mapM_transport _ (λ n, nodes cs !! n) (ndf s ns) (copied_node s ns conj) _ _ Hnrecs);
    [|intros n nr Hn Hnr; by apply copy_store_node]. simpl.
  rewrite copy_get_all_edges.
  rewrite (filter_fmap_iff (edf s ns) (edge_connected cs) (edge_connected s));
    [|intros e He%elem_of_get_all_edges; by apply copy_edge_connected].
  rewrite (mapM_transport _ (λ e, edges cs !! e ≫= edge_dim cs) (edf s ns) id _ _ Hdouts);
    [|intros e d He Hd; apply Hdim; [by apply Hsub | done]]. simpl.
  rewrite (mapM_transport _ (λ e, edges cs !! e ≫= edge_dim cs) (edf s ns) id _ _ Hdints);
    [|intros e d [_ He%elem_of_get_all_edges]%list_elem_of_filter Hd; by apply Hdim]. simpl.
  rewrite !list_fmap_id. unfold conj_net. simpl. f_equal. f_equal.
  rewrite <- !list_fmap_compose. apply list_fmap_ext. intros i nr Hi. simpl. f_equal.
  rewrite <- list_fmap_compose. apply list_fmap_ext. intros j e Hj. simpl.
  rewrite <- fmap_app. apply index_of_fmap.
  intros x Hx Heq. apply edf_inj; [|done].
  apply elem_of_app in Hx as [Hx|Hx]; [by apply Hsub|].
  apply list_elem_of_filter in Hx as [_ Hx]. by apply elem_of_get_all_edges.
Qed.

End Copy_facts.

(** ** Networks are insensitive to the rest of the store *)

Section Frame.
Context `{Scalar}.

(** Two stores agree on the nodes [ns] and on the edges bound to them. *)
Definition agree_on (ns : list nat) (s s' : Store) : Prop :=
  (∀ n, n ∈ ns → nodes s' !! n = nodes s !! n) ∧
  (∀ e, e ∈ slots_of s ns → edges s' !! e = edges s !! e).

Lemma agree_slots_of ns s s' : agree_on ns s s' → slots_of s' ns = slots_of s ns.
Proof.
  intros [Hn _]. unfold slots_of.
  assert (∀ l, (∀ n, n ∈ l → n ∈ ns) →
    l ≫= (λ n, default [] (nedges <$> nodes s' !! n))
    = l ≫= (λ n, default [] (nedges <$> nodes s !! n))) as Hl.
  { induction l as [|n l IH]; intros Hsub; [done|].
    rewrite !bind_cons, IH by (intros; apply Hsub; by right).
    rewrite Hn; [done|]. apply Hsub. by left. }
  by apply Hl.
Qed.

Lemma agree_slot ns s s' n i : agree_on ns s s' → n ∈ ns → slot s' n i = slot s n i.
Proof. intros [Hn _] Hin. unfold slot. by rewrite Hn. Qed.

Lemma agree_edge_dim ns s s' r : agree_on ns s s' → node1 r ∈ ns → edge_dim s' r = edge_dim s r.
Proof. intros [Hn _] Hin. unfold edge_dim. by rewrite Hn. Qed.

Lemma agree_get_all_edges ns s s' : agree_on ns s s' → get_all_edges s' ns = get_all_edges s ns.
Proof.
  intros Ha. unfold get_all_edges. fold (slots_of s' ns). fold (slots_of s ns).
  by rewrite (agree_slots_of ns s s').
Qed.

Lemma mapM_ext_in {A B} (f g : A → option B) (l : list A) :
  (∀ x, x ∈ l → f x = g x) → mapM f l = mapM g l.
Proof.
  induction l as [|x l IH]; intros Hfg; [done|]. simpl.
  rewrite Hfg by (by left). destruct (g x); [|done]. simpl.
  rewrite IH; [done|]. intros y Hy. apply Hfg. by right.
Qed.

Lemma agree_net_ok ns out s s' : agree_on ns s s' → net_ok s ns out → net_ok s' ns out.
Proof.
  intros Ha (Hnd & Hout & Hnodes & Hedges & Hdang & Hfront).
  pose proof Ha as [Han Hae].
  unfold net_ok. rewrite (agree_slots_of ns s s' Ha). split_and!; try done.
  - apply Forall_forall. intros n Hn. rewrite Han by done.
    by apply (proj1 (Forall_forall _ _) Hnodes).
  - apply Forall_forall. intros e He. pose proof (proj1 (Forall_forall _ _) Hedges e He) as Hok.
    unfold edge_ok in *. rewrite Hae by done. destruct (edges s !! e) as [r|]; [|done].
    destruct Hok as (? & ? & ?). split_and!; try done. by rewrite (agree_edge_dim ns s s').
  - apply Forall_forall. intros e He. unfold edge_dangling. rewrite Hae by done.
    by apply (proj1 (Forall_forall _ _) Hdang).
  - apply Forall_forall. intros e He. pose proof (proj1 (Forall_forall _ _) Hfront e He) as Hok.
    unfold front_ok in *.
    destruct (edges s !! e) as [r|] eqn:Hr; [|done].
    destruct Hok as (Hend & Hn1 & Hslot & Hdim & Hb).
    rewrite Hae, Hr by (by eapply slot_in_slots_of). split_and!; try done.
    + by rewrite (agree_slot ns s s').
    + by rewrite (agree_edge_dim ns s s').
    + apply bound_only_at_spec. intros n' i' Hn' Hs. rewrite bound_only_at_spec in Hb.
      apply Hb; [done|]. by rewrite <- (agree_slot ns s s').
Qed.

Lemma net_ok_out_slots s ns out e : net_ok s ns out → e ∈ out → e ∈ slots_of s ns.
Proof.
  intros (_ & _ & _ & _ & _ & Hfront) He.
  apply (proj1 (Forall_forall _ _) Hfront) in He. unfold front_ok in He.
  destruct (edges s !! e) as [r|]; [|done].
  destruct He as (_ & Hn & Hs & _). by eapply slot_in_slots_of.
Qed.

Lemma agree_abstract ns out s s' :
  agree_on ns s s' → net_ok s ns out → abstract s' ns out = abstract s ns out.
Proof.
  intros Ha Hok. pose proof Ha as [Han Hae].
  pose proof Hok as (Hnd & Hout & Hnodes & Hedges & Hdang & Hfront).
  assert (Hdim : ∀ e, e ∈ slots_of s ns →
            edges s' !! e ≫= edge_dim s' = edges s !! e ≫= edge_dim s).
  { intros e He. rewrite Hae by done.
    pose proof (proj1 (Forall_forall _ _) Hedges e He) as Hok'. unfold edge_ok in Hok'.
    destruct (edges s !! e) as [r|]; [|done]. simpl.
    apply (agree_edge_dim ns); [done | by destruct Hok']. }
  unfold abstract. rewrite (agree_get_all_edges ns s s' Ha).
  rewrite (mapM_ext_in (λ n, nodes s' !! n) (λ n, nodes s !! n)) by done.
  rewrite (filter_ext_in (edge_connected s') (edge_connected s)).
  2:{ intros e He%elem_of_get_all_edges. unfold edge_connected. by rewrite Hae. }
  rewrite (mapM_ext_in (λ e, edges s' !! e ≫= edge_dim s') (λ e, edges s !! e ≫= edge_dim s) out).
  2:{ intros e He. apply Hdim. by eapply net_ok_out_slots. }
  rewrite (mapM_ext_in (λ e, edges s' !! e ≫= edge_dim s') (λ e, edges s !! e ≫= edge_dim s)
             (filter _ _)).
  2:{ intros e [_ He%elem_of_get_all_edges]%list_elem_of_filter. by apply Hdim. }
  done.
Qed.

(** Under a well-formed network the numbered network exists, and all its
    output dimensions are 2. *)
Lemma abstract_ok s ns out :
  net_ok s ns out →
  ∃ net, abstract s ns out = Some net ∧ a_out net = replicate (length out) 2.
Proof.
  intros Hok. pose proof Hok as (Hnd & Hout & Hnodes & Hedges & Hdang & Hfront).
  unfold abstract. rewrite (mapM_omap _ ns Hnodes). simpl.
  assert (mapM (λ e, edges s !! e ≫= edge_dim s) out = Some (replicate (length out) 2)) as ->.
  { clear -Hfront. induction Hfront as [|e out He Hf IH]; [done|].
    apply mapM_Some. csimpl. constructor; [|by apply mapM_Some].
    unfold front_ok in He. destruct (edges s !! e) as [r|]; [|done]. simpl. by destruct He as (_&_&_&?&_). }
  simpl. rewrite mapM_omap.
  - simpl. eauto.
  - apply Forall_forall. intros e [_ He%elem_of_get_all_edges]%list_elem_of_filter.
    pose proof (proj1 (Forall_forall _ _) Hedges e He) as Hok'. unfold edge_ok in Hok'.
    destruct (edges s !! e) as [r|]; [|done]. simpl. by destruct Hok' as (_&?&_).
Qed.

End Frame.

(** ** Contracting a well-formed network *)

Section Contract.
Context `{Scalar}.

(** The store after the engine has contracted a network into a new node:
    the node is appended, the output edges are re-pointed to it. *)
Definition repoint (t : nat) (out : list nat) (es : list Edge) : list Edge :=
  foldr (λ ie es, <[ie.2 := mkEdge t ie.1 None]> es) es (enumerate out).

Definition contract_store (s : Store) (out : list nat) (net : ANet) : Store :=
  mkStore (nodes s ++ [mkNode (einsum net) out]) (repoint (length (nodes s)) out (edges s)).

Lemma repoint_fold_length t (l : list (nat * nat)) es :
  length (foldr (λ ie es, <[ie.2 := mkEdge t ie.1 None]> es) es l) = length es.
Proof. induction l as [|ie l IH]; simpl; [done|]. by rewrite length_insert. Qed.

Lemma repoint_length t out es : length (repoint t out es) = length es.
Proof. apply repoint_fold_length. Qed.

Lemma repoint_lookup_ne t out es e : e ∉ out → repoint t out es !! e = es !! e.
Proof.
  unfold repoint, enumerate. generalize 0 as a.
  induction out as [|x out IH]; intros a Hin; simpl; [done|].
  apply not_elem_of_cons in Hin as [Hne Hin].
  rewrite list_lookup_insert_ne by done. by apply IH.
Qed.

Lemma repoint_lookup t out es e :
  NoDup out → e ∈ out → is_Some (es !! e) →
  repoint t out es !! e = Some (mkEdge t (index_of e out) None).
Proof.
  unfold repoint, enumerate. intros Hnd.
  assert (∀ a, e ∈ out → is_Some (es !! e) →
    foldr (λ ie es, <[ie.2 := mkEdge t ie.1 None]> es) es (zip (seq a (length out)) out) !! e
    = Some (mkEdge t (a + index_of e out) None)) as Hgen; [|by apply (Hgen 0)].
  induction Hnd as [|x out Hx Hnd IH]; intros a Hin Hsome; simpl.
  - by apply elem_of_nil in Hin.
  - case_bool_decide as Hxe.
    + subst x. rewrite list_lookup_insert_eq.
      * do 2 f_equal. lia.
      * rewrite repoint_fold_length. by apply lookup_lt_is_Some.
    + rewrite list_lookup_insert_ne by done.
      apply elem_of_cons in Hin as [->|Hin]; [done|].
      rewrite IH by done. do 2 f_equal. lia.
Qed.


Lemma contractor_ok s ns out net :
  net_ok s ns out → ns ≠ [] → abstract s ns out = Some net →
  contractor ns (Some out) s = Ok (length (nodes s)) (contract_store s out net).
Proof.
  intros Hok Hne Habs.
  pose proof Hok as (Hnd & Hout & Hnodes & Hedges & Hdang & Hfront).
  unfold contractor. rewrite (remove_dups_NoDup ns Hnd).
  unfold mbind, M_bind, get_state. simpl.
  rewrite (bool_decide_eq_false_2 (ns = [])) by done.
  rewrite (bool_decide_eq_true_2 (NoDup _ ∧ _)).
  2:{ split_and!; [done| |].
      - apply Forall_forall. intros e He. apply list_elem_of_filter. split.
        + apply (proj1 (Forall_forall _ _) Hfront) in He. unfold front_ok in He.
          unfold edge_dangling. destruct (edges s !! e) as [r|]; [|done]. simpl.
          destruct He as (Hend & _). unfold is_dangling. by rewrite Hend.
        + apply elem_of_get_all_edges. by eapply net_ok_out_slots.
      - apply Forall_forall. intros e [Hd He%elem_of_get_all_edges]%list_elem_of_filter.
        by apply (proj1 (Forall_forall _ _) Hdang). }
  rewrite (bool_decide_eq_true_2 (Forall _ _)).
  2:{ apply Forall_forall. intros e [Hc He%elem_of_get_all_edges]%list_elem_of_filter.
      apply (proj1 (Forall_forall _ _) Hedges) in He. unfold edge_ok in He.
      unfold edge_inside, edge_connected in *.
      destruct (edges s !! e) as [[n1 a1 [[n2 a2]|]]|]; simpl in *; try done.
      by destruct He as (? & _ & ?). }
  simpl. rewrite Habs. done.
Qed.

Lemma contract_store_node_old s out net n :
  is_Some (nodes s !! n) → nodes (contract_store s out net) !! n = nodes s !! n.
Proof. intros Hn. simpl. apply lookup_app_l, lookup_lt_is_Some, Hn. Qed.

Lemma contract_store_node s out net :
  nodes (contract_store s out net) !! length (nodes s) = Some (mkNode (einsum net) out).
Proof. simpl. rewrite lookup_app_r by lia. by rewrite Nat.sub_diag. Qed.

Lemma contract_store_edge_old s out net e :
  e ∉ out → edges (contract_store s out net) !! e = edges s !! e.
Proof. intros He. simpl. by apply repoint_lookup_ne. Qed.

Lemma contract_store_edge s out net e :
  NoDup out → e ∈ out → is_Some (edges s !! e) →
  edges (contract_store s out net) !! e = Some (mkEdge (length (nodes s)) (index_of e out) None).
Proof. intros. simpl. by apply repoint_lookup. Qed.

End Contract.

(** ** Stores that only grow *)

Section Extends.
Context `{Scalar}.

(** Every object of [s] is in [s'], unchanged. *)
Definition extends (s s' : Store) : Prop :=
  (∀ n nr, nodes s !! n = Some nr → nodes s' !! n = Some nr) ∧
  (∀ e r, edges s !! e = Some r → edges s' !! e = Some r).

Lemma extends_refl s : extends s s.
Proof. by split. Qed.

Lemma extends_trans s1 s2 s3 : extends s1 s2 → extends s2 s3 → extends s1 s3.
Proof. intros [Hn1 He1] [Hn2 He2]. split; eauto. Qed.

Lemma extends_copy_store s ns conj : extends s (copy_store s ns conj).
Proof.
  split; intros x r Hx; simpl; rewrite lookup_app_l; try done; by eapply lookup_lt_Some.
Qed.

Lemma extends_new_node s t n s' : new_node t s = Ok n s' → extends s s'.
Proof.
  unfold new_node. intros [= <- <-].
  split; intros x r Hx; simpl; rewrite lookup_app_l; try done; by eapply lookup_lt_Some.
Qed.

Lemma net_ok_node s ns out n : net_ok s ns out → n ∈ ns → is_Some (nodes s !! n).
Proof. intros (_ & _ & Hnodes & _) Hn. by apply (proj1 (Forall_forall _ _) Hnodes). Qed.

Lemma net_ok_edge s ns out e : net_ok s ns out → e ∈ slots_of s ns → edge_ok s ns e.
Proof. intros (_ & _ & _ & Hedges & _) He. by apply (proj1 (Forall_forall _ _) Hedges). Qed.

Lemma net_ok_edge_rec s ns out e : net_ok s ns out → e ∈ slots_of s ns → is_Some (edges s !! e).
Proof.
  intros Hok He. apply (net_ok_edge _ _ _ _ Hok) in He. unfold edge_ok in He.
  destruct (edges s !! e); [eauto | done].
Qed.

Lemma extends_agree s s' ns out : extends s s' → net_ok s ns out → agree_on ns s s'.
Proof.
  intros [Hn He] Hok. split.
  - intros n Hin. destruct (net_ok_node _ _ _ _ Hok Hin) as [nr Hnr]. rewrite Hnr. by apply Hn.
  - intros e Hin. destruct (net_ok_edge_rec _ _ _ _ Hok Hin) as [r Hr]. rewrite Hr. by apply He.
Qed.

Lemma extends_net_ok s s' ns out : extends s s' → net_ok s ns out → net_ok s' ns out.
Proof. intros He Hok. eapply agree_net_ok; [by eapply extends_agree | done]. Qed.

Lemma extends_abstract s s' ns out :
  extends s s' → net_ok s ns out → abstract s' ns out = abstract s ns out.
Proof. intros He Hok. eapply agree_abstract; [by eapply extends_agree | done]. Qed.

End Extends.

(** ** Reading out the density matrix *)

Section Density.
Context `{Scalar}.

Lemma map_M_pure {S A B} (f : A → M S B) (g : A → B) (l : list A) (s : S) :
  (∀ x, x ∈ l → f x s = Ok (g x) s) → map_M f l s = Ok (g <$> l) s.
Proof.
  induction l as [|x l IH]; intros Hf; [done|]. simpl.
  rewrite (bind_Ok _ _ _ _ _ (Hf x ltac:(by left))).
  rewrite (bind_Ok _ _ _ _ _ (IH ltac:(intros y Hy; apply Hf; by right))). done.
Qed.

Lemma lift_Ok {A} (m : M Store A) w a h :
  m (heap w) = Ok a h → lift m w = Ok a (mkWorld h (self w)).
Proof. intros Hm. unfold lift. by rewrite Hm. Qed.

Lemma lift_Raise {A} (m : M Store A) w e h :
  m (heap w) = Raise e h → lift m w = Raise e (mkWorld h (self w)).
Proof. intros Hm. unfold lift. by rewrite Hm. Qed.

(** The edge list [_copy] takes the copies of. *)
Definition front_arg (s : Store) (ns : list nat) (d : option (list nat)) : list nat :=
  match d with
  | Some (e :: l) => e :: l
  | _ => slots_of s ns
  end.

Lemma slots_of_concat s ns :
  slots_of s ns = concat ((λ n, default [] (nedges <$> nodes s !! n)) <$> ns).
Proof. unfold slots_of. induction ns as [|n ns IH]; [done|]. rewrite bind_cons, IH. done. Qed.

Lemma _copy_ok s ns d conj :
  NoDup ns → Forall (λ n, is_Some (nodes s !! n)) ns → Forall (edge_ok s ns) (slots_of s ns) →
  Forall (λ e, e ∈ slots_of s ns) (front_arg s ns d) →
  _copy ns d conj s = Ok (ndf s ns <$> ns, edf s ns <$> front_arg s ns d) (copy_store s ns conj).
Proof.
  intros Hnd Hnodes Hedges Hsub. unfold _copy.
  rewrite (bind_Ok _ _ _ _ _ (tn_copy_ok s ns Hnd Hnodes Hedges conj)). simpl.
  rewrite (bind_Ok _ _ _ (ndf s ns <$> ns) (copy_store s ns conj)).
  2:{ apply map_M_pure. intros n Hn. by rewrite copy_nd_lookup. }
  assert ((match d with
           | Some (e :: l) => mret (e :: l)
           | _ => ls ← map_M node_edges ns; mret (concat ls)
           end) (copy_store s ns conj) = Ok (front_arg s ns d) (copy_store s ns conj)) as Hd.
  { assert ((ls ← map_M node_edges ns; mret (concat ls)) (copy_store s ns conj)
            = Ok (slots_of s ns) (copy_store s ns conj)) as Hall.
    { rewrite (bind_Ok _ _ _ ((λ n, default [] (nedges <$> nodes s !! n)) <$> ns)
                 (copy_store s ns conj)).
      - by rewrite slots_of_concat.
      - apply map_M_pure. intros n Hn. unfold node_edges, get_node.
        pose proof (proj1 (Forall_forall _ _) Hnodes n Hn) as [nr Hnr].
        unfold mbind, M_bind. rewrite copy_store_node_old by eauto. by rewrite Hnr. }
    destruct d as [[|e l]|]; done. }
  rewrite (bind_Ok _ _ _ _ _ Hd).
  rewrite (bind_Ok _ _ _ (edf s ns <$> front_arg s ns d) (copy_store s ns conj)); [done|].
  apply map_M_pure. intros e He. rewrite copy_ed_lookup; [done|].
  by apply (proj1 (Forall_forall _ _) Hsub).
Qed.

Lemma net_ok_front_arg s ns out :
  (out = [] → slots_of s ns = []) → front_arg s ns (Some out) = out.
Proof. intros Hempty. destruct out as [|e l]; simpl; [|done]. by apply Hempty. Qed.

Lemma _copy_net s ns out conj :
  net_ok s ns out → (out = [] → slots_of s ns = []) →
  _copy ns (Some out) conj s = Ok (ndf s ns <$> ns, edf s ns <$> out) (copy_store s ns conj).
Proof.
  intros Hok Hempty. pose proof Hok as (Hnd & _ & Hnodes & Hedges & _).
  rewrite <- (net_ok_front_arg s ns out Hempty) at 2.
  apply _copy_ok; try done.
  rewrite (net_ok_front_arg s ns out Hempty).
  apply Forall_forall. intros e He. by eapply net_ok_out_slots.
Qed.


Lemma indices_length sh : length (indices sh) = prod_list sh.
Proof.
  induction sh as [|d ds IH]; [done|]. simpl.
  assert (∀ a, length (seq a d ≫= λ i, (i ::.) <$> indices ds) = d * prod_list ds) as Hgen.
  { induction d as [|d IHd]; intros a; [done|].
    change (seq a (S d)) with (a :: seq (S a) d).
    rewrite bind_cons, length_app, length_fmap, IH, IHd. lia. }
  apply Hgen.
Qed.

Lemma einsum_length net : length (data (einsum net)) = prod_list (a_out net).
Proof. unfold einsum. simpl. by rewrite length_fmap, indices_length. Qed.

Lemma prod_replicate_2 k : prod_list (replicate k 2) = 2 ^ k.
Proof. induction k as [|k IH]; simpl; [done|]. rewrite IH. lia. Qed.

Lemma prod_qubits n : prod_list [2 ^ n; 2 ^ n] = prod_list (replicate (2 * n) 2).
Proof.
  rewrite prod_replicate_2. simpl. replace (n + (n + 0)) with (n + n) by lia.
  rewrite Nat.pow_add_r. lia.
Qed.

(** A node that owns all its edges, each dangling: the result of a
    contraction, or a node just created. *)
Definition owns_edges (s : Store) (t : nat) (nr : Node) : Prop :=
  Forall (λ e, match edges s !! e with
               | Some r => node1 r = t ∧ end2 r = None ∧ is_Some (edge_dim s r)
               | None => False
               end) (nedges nr).

Lemma slots_of_single s t nr : nodes s !! t = Some nr → slots_of s [t] = nedges nr.
Proof. intros Ht. unfold slots_of. rewrite bind_cons, Ht. simpl. apply app_nil_r. Qed.

Lemma single_edges_ok s t nr :
  nodes s !! t = Some nr → owns_edges s t nr → Forall (edge_ok s [t]) (slots_of s [t]).
Proof.
  intros Ht Ho. rewrite (slots_of_single s t nr Ht).
  eapply Forall_impl; [exact Ho|]. intros e He. unfold edge_ok. simpl in He.
  destruct (edges s !! e) as [r|]; [|done]. destruct He as (-> & -> & Hd).
  split_and!; [by left | done | done].
Qed.

(** The last part of [_copy_dm_tensor]: the copy of the contracted node. *)
Definition copy_tensor_tail (conj : bool) (t : nat) : M World (list nat * list nat) :=
  dicts ← lift (tn_copy [t] conj);
  n' ← from_option KeyError (dicts.1 !! t);
  es ← lift (node_edges t);
  newfront ← map_M (λ e, from_option KeyError (dicts.2 !! e)) es;
  mret ([n'], newfront).

Lemma copy_tensor_tail_ok s c t nr conj :
  nodes s !! t = Some nr → owns_edges s t nr →
  copy_tensor_tail conj t (mkWorld s c)
  = Ok ([ndf s [t] t], edf s [t] <$> nedges nr) (mkWorld (copy_store s [t] conj) c).
Proof.
  intros Ht Ho. unfold copy_tensor_tail.
  assert (Hnd : NoDup [t]) by (apply NoDup_singleton).
  assert (Hnodes : Forall (λ n, is_Some (nodes s !! n)) [t]) by (constructor; eauto).
  pose proof (single_edges_ok s t nr Ht Ho) as Hedges.
  rewrite (bind_Ok _ _ _ _ _ (lift_Ok _ (mkWorld s c) _ _ (tn_copy_ok s [t] Hnd Hnodes Hedges conj))).
  cbv beta. cbn [fst snd]. rewrite copy_nd_lookup by (done || by left).
  unfold mbind at 1, M_bind at 1. cbn [from_option mret M_ret].
  rewrite (bind_Ok _ _ _ (nedges nr) (mkWorld (copy_store s [t] conj) c)).
  2:{ apply (lift_Ok _ (mkWorld _ c)). cbn [heap]. unfold node_edges, get_node, mbind, M_bind.
      rewrite copy_store_node_old by eauto. by rewrite Ht. }
  rewrite (bind_Ok _ _ _ (edf s [t] <$> nedges nr) (mkWorld (copy_store s [t] conj) c)); [done|].
  apply map_M_pure. intros e He. rewrite copy_ed_lookup; [done|].
  by rewrite (slots_of_single s t nr Ht).
Qed.


Definition with_cache (c : DMCircuit) (t : nat) : DMCircuit :=
  mkDM (_nqubits c) (_nodes c) (_rfront c) (_lfront c) (Some t).

Lemma owns_edges_extends s s' t nr :
  extends s s' → nodes s !! t = Some nr → owns_edges s t nr → owns_edges s' t nr.
Proof.
  intros [Hn He] Ht Ho. eapply Forall_impl; [exact Ho|]. intros e Hr. simpl in *.
  destruct (edges s !! e) as [r|] eqn:Her; [|done]. rewrite (He e r Her).
  destruct Hr as (Hn1 & Hend & Hdim). split_and!; try done.
  unfold edge_dim in *. rewrite Hn1 in *. rewrite Ht in Hdim. by rewrite (Hn t nr Ht).
Qed.

Lemma extends_cache_ok s s' c :
  extends s s' → net_ok s (_nodes c) (_rfront c ++ _lfront c) → cache_ok s c → cache_ok s' c.
Proof.
  intros Hext Hok. unfold cache_ok. destruct (state_tensor c) as [t|]; [|done].
  destruct (nodes s !! t) as [nr|] eqn:Ht; [|done].
  rewrite (proj1 Hext t nr Ht). intros (Hne & Hden & Ho). split_and!; [done| |].
  - unfold denote in *. by rewrite (extends_abstract s s').
  - by eapply owns_edges_extends.
Qed.

Lemma extends_dm_ok s s' c : extends s s' → dm_ok s c → dm_ok s' c.
Proof.
  intros Hext (Hok & Hr & Hl & Hc & Hz). split_and!; try done.
  - by eapply extends_net_ok.
  - by eapply extends_cache_ok.
  - intros Hnil. rewrite (agree_slots_of (_nodes c) s s'); [by apply Hz|].
    by eapply extends_agree.
Qed.

Lemma extends_denote s s' c : extends s s' → dm_ok s c → denote s' c = denote s c.
Proof. intros Hext (Hok & _). unfold denote. by rewrite (extends_abstract s s'). Qed.

Lemma conj_net_false net : conj_net false net = net.
Proof.
  unfold conj_net. destruct net as [ns o i]. simpl. f_equal.
  induction ns as [|[t w] ns IH]; [done|]. csimpl. by rewrite IH.
Qed.

(** Contracting a copy of a well-formed network: the store grows, and the
    new node carries the contraction and owns its edges. *)
Lemma contract_copy_ok s ns out net :
  net_ok s ns out → (out = [] → slots_of s ns = []) → ns ≠ [] →
  abstract s ns out = Some net →
  ∃ s' t,
    (l ← _copy ns (Some out) false; contractor l.1 (Some l.2)) s = Ok t s' ∧
    extends s s' ∧
    ∃ es, nodes s' !! t = Some (mkNode (einsum net) es) ∧ owns_edges s' t (mkNode (einsum net) es).
Proof.
  intros Hok Hz Hne Habs.
  pose proof Hok as (Hnd & Hout & Hnodes & Hedges & Hdang & Hfront).
  set (s1 := copy_store s ns false).
  set (ns1 := ndf s ns <$> ns). set (out1 := edf s ns <$> out).
  assert (Hok1 : net_ok s1 ns1 out1) by (by apply copy_net_ok).
  assert (Habs1 : abstract s1 ns1 out1 = Some net).
  { rewrite <- (conj_net_false net). apply copy_abstract; try done.
    apply Forall_forall. intros e He. by eapply net_ok_out_slots. }
  assert (Hne1 : ns1 ≠ []) by (unfold ns1; destruct ns; done).
  exists (contract_store s1 out1 net), (length (nodes s1)). split_and!.
  - rewrite (bind_Ok _ _ _ _ _ (_copy_net s ns out false Hok Hz)). simpl.
    by apply contractor_ok.
  - split.
    + intros n nr Hn. pose proof (proj1 (extends_copy_store s ns false) n nr Hn) as Hn1.
      rewrite contract_store_node_old; [done | by eexists].
    + intros e r He. rewrite contract_store_edge_old; [by apply (extends_copy_store s ns false)|].
      unfold out1. intros (e0 & -> & _)%list_elem_of_fmap.
      apply (edf_fresh s ns e0). eauto.
  - exists out1. split; [apply contract_store_node|].
    apply Forall_forall. intros e He. simpl in He.
    assert (is_Some (edges s1 !! e)) as Hsome.
    { eapply net_ok_edge_rec; [exact Hok1|]. by eapply net_ok_out_slots. }
    rewrite contract_store_edge; [|by destruct Hok1 as (_ & ? & _)|done|done].
    split_and!; [done..|]. unfold edge_dim. simpl.
    rewrite lookup_app_r by lia. rewrite Nat.sub_diag. simpl.
    destruct (abstract_ok s1 ns1 out1 Hok1) as (net' & Hnet' & Hout').
    rewrite Habs1 in Hnet'. injection Hnet' as <-. rewrite Hout'.
    rewrite lookup_replicate_2; [eauto|]. by apply index_of_lt.
Qed.


Lemma with_cache_id c t : state_tensor c = Some t → with_cache c t = c.
Proof. destruct c. simpl. by intros ->. Qed.

Lemma copied_single s t conj nr :
  nodes s !! t = Some nr →
  nodes (copy_store s [t] conj) !! ndf s [t] t = Some (copied_node s [t] conj nr).
Proof.
  intros Ht. apply copy_store_node; [|by left|done]. constructor; eauto.
Qed.

Lemma _copy_dm_tensor_ok s c reuse net :
  dm_ok s c → _nodes c ≠ [] →
  abstract s (_nodes c) (_rfront c ++ _lfront c) = Some net →
  ∃ s' t l,
    _copy_dm_tensor false reuse (mkWorld s c) = Ok l (mkWorld s' (with_cache c t)) ∧
    extends s s' ∧ dm_ok s' (with_cache c t) ∧
    ∃ n0 nr0, l.1 = [n0] ∧ nodes s' !! n0 = Some nr0 ∧ tensor nr0 = einsum net.
Proof.
  intros Hdm Hne Habs. pose proof Hdm as (Hok & Hr & Hl & Hc & Hz).
  unfold _copy_dm_tensor. rewrite bind_unfold. cbn [get_self self].
  destruct (if reuse then state_tensor c else None) as [t|] eqn:Hreuse.
  - (* the memoized contraction is reused *)
    assert (state_tensor c = Some t) as Hst by (destruct reuse; done).
    unfold cache_ok in Hc. rewrite Hst in Hc.
    destruct (nodes s !! t) as [nr|] eqn:Ht; [|done]. destruct Hc as (_ & Hden & Ho).
    unfold denote in Hden. rewrite Habs in Hden. injection Hden as Hden.
    rewrite bind_unfold. cbn [mret M_ret].
    fold (copy_tensor_tail false t). rewrite (copy_tensor_tail_ok s c t nr false Ht Ho).
    exists (copy_store s [t] false), t, ([ndf s [t] t], edf s [t] <$> nedges nr).
    rewrite (with_cache_id c t Hst). split_and!; [done|apply extends_copy_store| |].
    + eapply extends_dm_ok; [apply extends_copy_store | done].
    + eexists _, _. split_and!; [done | by apply copied_single | done].
  - (* the network is contracted *)
    destruct (contract_copy_ok s _ _ net Hok Hz Hne Habs)
      as (s' & t & Hrun & Hext & es & Ht & Ho).
    apply bind_Ok_inv in Hrun as (l & s1 & Hcopy & Hcontr).
    assert ((l ← lift (_copy (_nodes c) (Some (_rfront c ++ _lfront c)) false);
             t ← lift (contractor l.1 (Some l.2));
             set_state_tensor (Some t);; mret t) (mkWorld s c)
            = Ok t (mkWorld s' (with_cache c t))) as Hmiss.
    { rewrite (bind_Ok _ _ _ _ _ (lift_Ok _ (mkWorld s c) _ _ Hcopy)).
      rewrite (bind_Ok _ _ _ _ _ (lift_Ok _ (mkWorld s1 c) _ _ Hcontr)). done. }
    rewrite (bind_Ok _ _ _ _ _ Hmiss).
    fold (copy_tensor_tail false t).
    rewrite (copy_tensor_tail_ok s' (with_cache c t) t _ false Ht Ho).
    exists (copy_store s' [t] false), t, ([ndf s' [t] t], edf s' [t] <$> es).
    assert (extends s (copy_store s' [t] false)) as Hext'.
    { eapply extends_trans; [exact Hext | apply extends_copy_store]. }
    split_and!; [done | done | |].
    + assert (dm_ok s' (with_cache c t)) as Hdm'.
      { split_and!; try done.
        - by eapply extends_net_ok.
        - unfold cache_ok. simpl. rewrite Ht. split_and!; [done| |done].
          unfold denote. simpl. by rewrite (extends_abstract s s'), Habs.
        - intros Hnil. cbn [_nodes with_cache].
          rewrite (agree_slots_of (_nodes c) s s'); [by apply Hz|].
          by eapply extends_agree. }
      eapply extends_dm_ok; [apply extends_copy_store | done].
    + eexists _, _. split_and!; [done | by apply copied_single | done].
Qed.

(** The read-out of a well-formed circuit: the contraction of its network,
    viewed as a square matrix.  The store only grows, the circuit stays
    well formed, and the contraction is now memoized. *)
Lemma densitymatrix_ok s c reuse :
  dm_ok s c → _nodes c ≠ [] →
  ∃ net s' t,
    abstract s (_nodes c) (_rfront c ++ _lfront c) = Some net ∧
    densitymatrix false reuse (mkWorld s c)
    = Ok (mkTensor [2 ^ _nqubits c; 2 ^ _nqubits c] (data (einsum net)))
         (mkWorld s' (with_cache c t)) ∧
    extends s s' ∧ dm_ok s' (with_cache c t).
Proof.
  intros Hdm Hne. pose proof Hdm as (Hok & Hr & Hl & Hc & Hz).
  destruct (abstract_ok s _ _ Hok) as (net & Habs & Hout).
  destruct (_copy_dm_tensor_ok s c reuse net Hdm Hne Habs)
    as (s' & t & l & Hrun & Hext & Hdm' & n0 & nr0 & Hl1 & Hn0 & Hten).
  exists net, s', t. split_and!; try done.
  unfold densitymatrix. rewrite (bind_Ok _ _ _ _ _ Hrun).
  rewrite bind_unfold. cbn [get_self self]. rewrite Hl1. cbn [lookup list_lookup from_option].
  rewrite bind_unfold. cbn [mret M_ret].
  rewrite (bind_Ok _ _ _ nr0 (mkWorld s' (with_cache c t))).
  2:{ apply (lift_Ok _ (mkWorld s' _)). unfold get_node. cbn [heap]. by rewrite Hn0. }
  unfold reshape. rewrite Hten.
  rewrite bool_decide_eq_true_2; [done|].
  rewrite einsum_length, Hout, length_app, Hr, Hl. cbn [_nqubits with_cache].
  replace (_nqubits c + _nqubits c) with (2 * _nqubits c) by lia. apply prod_qubits.
Qed.

End Density.

(** ** The memoized contraction *)

Section Reuse.
Context `{Scalar}.

(** What the caller observes of a call: the value returned or the exception
    raised. *)
Definition result_of {S A} (r : Res S A) : A + Exn :=
  match r with Ok a _ => inl a | Raise e _ => inr e end.

Lemma apply_general_gate_clears gate index w w' :
  apply_general_gate gate index w = Ok tt w' → state_tensor (self w') = None.
Proof.
  unfold apply_general_gate. intros Hrun.
  repeat (apply bind_Ok_inv in Hrun as (? & ? & _ & Hrun)).
  by injection Hrun as <-.
Qed.

Lemma apply_general_kraus_clears kraus index w w' :
  apply_general_kraus kraus index w = Ok tt w' → state_tensor (self w') = None.
Proof.
  unfold apply_general_kraus. intros Hrun.
  repeat (apply bind_Ok_inv in Hrun as (? & ? & _ & Hrun)).
  by injection Hrun as <-.
Qed.

(** A read-out with [reuse=True] of a circuit that has a memo: the memoized
    node is copied, nothing is contracted. *)
Lemma densitymatrix_memo s c t nr :
  dm_ok s c → state_tensor c = Some t → nodes s !! t = Some nr →
  densitymatrix false true (mkWorld s c)
  = Ok (mkTensor [2 ^ _nqubits c; 2 ^ _nqubits c] (data (tensor nr)))
       (mkWorld (copy_store s [t] false) c).
Proof.
  intros Hdm Hst Ht. pose proof Hdm as (Hok & Hr & Hl & Hc & Hz).
  unfold cache_ok in Hc. rewrite Hst, Ht in Hc. destruct Hc as (Hne & Hden & Ho).
  destruct (abstract_ok s _ _ Hok) as (net & Habs & Hout).
  unfold denote in Hden. rewrite Habs in Hden. injection Hden as Hden.
  assert (_copy_dm_tensor false true (mkWorld s c)
          = Ok ([ndf s [t] t], edf s [t] <$> nedges nr) (mkWorld (copy_store s [t] false) c)) as Hcopy.
  { unfold _copy_dm_tensor. rewrite bind_unfold. cbn [get_self self]. rewrite Hst.
    rewrite bind_unfold. cbn [mret M_ret].
    fold (copy_tensor_tail false t). by rewrite (copy_tensor_tail_ok s c t nr false Ht Ho). }
  unfold densitymatrix. rewrite (bind_Ok _ _ _ _ _ Hcopy).
  rewrite bind_unfold. cbn [get_self self fst lookup list_lookup from_option].
  rewrite bind_unfold. cbn [mret M_ret].
  rewrite (bind_Ok _ _ _ (copied_node s [t] false nr) (mkWorld (copy_store s [t] false) c)).
  2:{ apply (lift_Ok _ (mkWorld _ c)). unfold get_node. cbn [heap].
      by rewrite (copied_single s t false nr Ht). }
  cbn [copied_node tensor]. unfold reshape.
  rewrite bool_decide_eq_true_2; [done|].
  rewrite Hden, einsum_length, Hout, length_app, Hr, Hl.
  replace (_nqubits c + _nqubits c) with (2 * _nqubits c) by lia. apply prod_qubits.
Qed.

(** Read-outs one after the other, with any reuse flags, of a well-formed
    circuit: each returns the contraction of the network as a matrix. *)
Lemma read_outs_same flags : ∀ s c rho,
  dm_ok s c → _nodes c ≠ [] → denote s c = Some rho →
  ∃ s' c',
    map_M (densitymatrix false) flags (mkWorld s c)
    = Ok (replicate (length flags) (mkTensor [2 ^ _nqubits c; 2 ^ _nqubits c] (data rho)))
         (mkWorld s' c') ∧
    extends s s' ∧ dm_ok s' c' ∧
    _nqubits c' = _nqubits c ∧ _nodes c' = _nodes c ∧
    _rfront c' = _rfront c ∧ _lfront c' = _lfront c.
Proof.
  induction flags as [|r flags IH]; intros s c rho Hdm Hne Hden.
  - exists s, c. split_and!; first [done | apply extends_refl].
  - destruct (densitymatrix_ok s c r Hdm Hne) as (net & s1 & t & Habs & Hrun & Hext & Hdm1).
    assert (einsum net = rho) as Hrho.
    { unfold denote in Hden. rewrite Habs in Hden. by injection Hden. }
    assert (denote s1 (with_cache c t) = Some rho) as Hden1.
    { unfold denote. cbn [with_cache _nodes _rfront _lfront].
      rewrite (extends_abstract s s1) by (done || apply Hdm). by rewrite Habs, <- Hrho. }
    destruct (IH s1 (with_cache c t) rho Hdm1 Hne Hden1)
      as (s' & c' & Hrest & Hext' & Hdm' & E1 & E2 & E3 & E4).
    exists s', c'. split_and!; try done.
    + cbn [map_M length replicate]. rewrite (bind_Ok _ _ _ _ _ Hrun).
      rewrite (bind_Ok _ _ _ _ _ Hrest). by rewrite Hrho.
    + by eapply extends_trans.
Qed.

(** C6 (amended).  From a well-formed circuit without a memo (the state
    after construction and after every gate or channel application that
    returns), read-outs with no other call between them return one and the
    same matrix, the contraction of the network, whatever their [reuse]
    flags.  The first read-out writes the memo, a node that holds the
    contraction; a read-out with [reuse=True] then copies that node and
    contracts nothing; one with [reuse=False] contracts again, to the same
    matrix.  Gate and channel applications that return leave the memo
    cleared. *)
Theorem densitymatrix_reuse_same (s : Store) (c : DMCircuit) :
  dm_ok s c → state_tensor c = None → _nodes c ≠ [] →
  ∃ rho s1 t nr,
    let d := mkTensor [2 ^ _nqubits c; 2 ^ _nqubits c] (data rho) in
    denote s c = Some rho ∧
    densitymatrix false true (mkWorld s c) = Ok d (mkWorld s1 (with_cache c t)) ∧
    nodes s1 !! t = Some nr ∧ tensor nr = rho ∧
    densitymatrix false true (mkWorld s1 (with_cache c t))
    = Ok d (mkWorld (copy_store s1 [t] false) (with_cache c t)) ∧
    (∃ w', densitymatrix false false (mkWorld s1 (with_cache c t)) = Ok d w') ∧
    (∀ flags, ∃ w',
       map_M (densitymatrix false) flags (mkWorld s c) = Ok (replicate (length flags) d) w') ∧
    (∀ gate index w w', apply_general_gate gate index w = Ok tt w' →
       state_tensor (self w') = None) ∧
    (∀ kraus index w w', apply_general_kraus kraus index w = Ok tt w' →
       state_tensor (self w') = None).
Proof.
  intros Hdm Hst Hne.
  destruct (densitymatrix_ok s c true Hdm Hne) as (net & s1 & t & Habs & Hrun & Hext & Hdm1).
  assert (denote s c = Some (einsum net)) as Hden by (unfold denote; by rewrite Habs).
  pose proof Hdm1 as (_ & _ & _ & Hc1 & _). unfold cache_ok in Hc1. cbn [with_cache state_tensor] in Hc1.
  destruct (nodes s1 !! t) as [nr|] eqn:Ht; [|done]. destruct Hc1 as (_ & Hnr & _).
  assert (denote s1 (with_cache c t) = Some (einsum net)) as Hden1.
  { unfold denote. cbn [with_cache _nodes _rfront _lfront].
    rewrite (extends_abstract s s1) by (done || apply Hdm). by rewrite Habs. }
  assert (tensor nr = einsum net) as Hten by congruence.
  exists (einsum net), s1, t, nr. cbv zeta. split_and!; try done.
  - rewrite (densitymatrix_memo s1 (with_cache c t) t nr Hdm1 eq_refl Ht). by rewrite Hten.
  - destruct (densitymatrix_ok s1 _ false Hdm1 Hne) as (net2 & s2 & t2 & Habs2 & Hrun2 & _).
    assert (net2 = net) as ->.
    { unfold denote in Hden1. rewrite Habs2 in Hden1.
      cbn [with_cache _nodes _rfront _lfront] in Habs2.
      rewrite (extends_abstract s s1) in Habs2 by (done || apply Hdm). congruence. }
    eexists. exact Hrun2.
  - intros flags. destruct (read_outs_same flags s c _ Hdm Hne Hden) as (s' & c' & Hrun' & _).
    eexists. exact Hrun'.
  - intros gate index w w'. apply apply_general_gate_clears.
  - intros kraus index w w'. apply apply_general_kraus_clears.
Qed.

End Reuse.

(** ** A small program logic for all outcomes

    [hoare P m Q R]: from a state in [P], [m] either returns [a] in a state
    in [Q a], or raises in a state in [R]. *)

Section Hoare.
Context {S : Type}.

Definition hoare {A} (P : S → Prop) (m : M S A) (Q : A → S → Prop) (R : S → Prop) : Prop :=
  ∀ s, P s → match m s with Ok a s' => Q a s' | Raise _ s' => R s' end.

Lemma hoare_bind {A B} P (m : M S A) Q R (f : A → M S B) Q' :
  hoare P m Q R → (∀ a, hoare (Q a) (f a) Q' R) → hoare P (m ≫= f) Q' R.
Proof.
  intros Hm Hf s Hs. rewrite bind_unfold. specialize (Hm s Hs).
  destruct (m s) as [a s'|e s']; [by apply Hf | done].
Qed.

Lemma hoare_ret {A} (P : S → Prop) (a : A) R : hoare P (mret a) (λ b s, b = a ∧ P s) R.
Proof. by intros s Hs. Qed.

Lemma hoare_raise {A} (P R : S → Prop) e (Q : A → S → Prop) :
  (∀ s, P s → R s) → hoare P (raise e) Q R.
Proof. intros HR s Hs. by apply HR. Qed.

Lemma hoare_from_option {A} (P R : S → Prop) e (o : option A) :
  (∀ s, P s → R s) → hoare P (from_option e o) (λ a s, o = Some a ∧ P s) R.
Proof. intros HR s Hs. destruct o; simpl; [done | by apply HR]. Qed.

Lemma hoare_py_assert (P R : S → Prop) b :
  (∀ s, P s → R s) → hoare P (py_assert b) (λ _ s, b = true ∧ P s) R.
Proof. intros HR s Hs. destruct b; simpl; [done | by apply HR]. Qed.

Lemma hoare_conseq {A} (P P' : S → Prop) (m : M S A) (Q Q' : A → S → Prop) R :
  hoare P' m Q' R → (∀ s, P s → P' s) → (∀ a s, Q' a s → Q a s) → hoare P m Q R.
Proof.
  intros Hm HP HQ s Hs. specialize (Hm s (HP s Hs)). destruct (m s); [by apply HQ | done].
Qed.

Lemma hoare_pure {A} (φ : Prop) (P : S → Prop) (m : M S A) Q R :
  (φ → hoare P m Q R) → hoare (λ s, φ ∧ P s) m Q R.
Proof. intros Hm s [Hφ Hs]. by apply Hm. Qed.

Lemma hoare_for_each {A} (I R : S → Prop) (f : A → M S unit) l :
  (∀ x, hoare I (f x) (λ _, I) R) → hoare I (for_each f l) (λ _, I) R.
Proof.
  intros Hf. induction l as [|x l IH]; simpl.
  - by intros s Hs.
  - eapply hoare_bind; [apply Hf | intros ?; apply IH].
Qed.

Lemma hoare_fold_M {A B} (I R : S → Prop) (f : B → A → M S B) l b :
  (∀ b x, hoare I (f b x) (λ _, I) R) → hoare I (fold_M f l b) (λ _, I) R.
Proof.
  intros Hf. revert b. induction l as [|x l IH]; intros b; simpl.
  - by intros s Hs.
  - eapply hoare_bind; [apply Hf | intros b'; apply IH].
Qed.

Lemma hoare_map_M {A B} (I R : S → Prop) (f : A → M S B) l :
  (∀ x, hoare I (f x) (λ _, I) R) → hoare I (map_M f l) (λ _, I) R.
Proof.
  intros Hf. induction l as [|x l IH]; simpl.
  - by intros s Hs.
  - eapply hoare_bind; [apply Hf | intros y].
    eapply hoare_bind; [apply IH | intros ys]. by intros s Hs.
Qed.

End Hoare.

Section Hoare_world.
Context `{Scalar}.

(** The instance the method runs on is [c]. *)
Definition at_self (c : DMCircuit) : World → Prop := λ w, self w = c.

Lemma hoare_lift {A} c (m : M Store A) (R : World → Prop) :
  (∀ w, at_self c w → R w) → hoare (at_self c) (lift m) (λ _, at_self c) R.
Proof.
  intros HR w Hw. unfold lift. destruct (m (heap w)); [done|]. by apply HR.
Qed.

Lemma hoare_on_object {A} c c' (m : M World A) (R : World → Prop) :
  (∀ w, at_self c w → R w) → hoare (at_self c) (on_object c' m) (λ _, at_self c) R.
Proof.
  intros HR w Hw. unfold on_object. destruct (m _); [done|]. by apply HR.
Qed.

Lemma hoare_get_self c R : hoare (at_self c) get_self (λ a w, a = c ∧ at_self c w) R.
Proof. by intros w Hw. Qed.

Lemma hoare_set_self c c' R : hoare (at_self c) (set_self c') (λ _, at_self c') R.
Proof. by intros w Hw. Qed.

Lemma hoare_set_rfront c l R :
  hoare (at_self c) (set_rfront l)
        (λ _, at_self (mkDM (_nqubits c) (_nodes c) l (_lfront c) (state_tensor c))) R.
Proof. intros [h c0] Hw. unfold at_self in *. simpl in *. by subst. Qed.

Lemma hoare_set_lfront c l R :
  hoare (at_self c) (set_lfront l)
        (λ _, at_self (mkDM (_nqubits c) (_nodes c) (_rfront c) l (state_tensor c))) R.
Proof. intros [h c0] Hw. unfold at_self in *. simpl in *. by subst. Qed.

Lemma hoare_set_nodes c l R :
  hoare (at_self c) (set_nodes l)
        (λ _, at_self (mkDM (_nqubits c) l (_rfront c) (_lfront c) (state_tensor c))) R.
Proof. intros [h c0] Hw. unfold at_self in *. simpl in *. by subst. Qed.

Lemma hoare_set_state_tensor c t R :
  hoare (at_self c) (set_state_tensor t)
        (λ _, at_self (mkDM (_nqubits c) (_nodes c) (_rfront c) (_lfront c) t)) R.
Proof. intros [h c0] Hw. unfold at_self in *. simpl in *. by subst. Qed.

End Hoare_world.

(** ** The front-edge invariant *)

Section Fronts.
Context `{Scalar}.

(** One right front and one left front per qubit. *)
Definition fronts_ok (c : DMCircuit) : Prop :=
  length (_rfront c) = _nqubits c ∧ length (_lfront c) = _nqubits c.

(** The same, for an instance of [n] qubits. *)
Definition fronts_for (n : nat) : World → Prop :=
  λ w, fronts_ok (self w) ∧ _nqubits (self w) = n.

Lemma hoare_at_self {A} (I : DMCircuit → Prop) (m : M World A) Q R :
  (∀ c, I c → hoare (at_self c) m Q R) → hoare (λ w, I (self w)) m Q R.
Proof. intros Hm w Hw. by apply (Hm (self w) Hw w). Qed.

Lemma setitem_length {A} (l : list A) i x (l' : list A) :
  (λ k, <[k:=x]> l) <$> py_index (length l) i = Some l' → length l' = length l.
Proof.
  destruct (py_index (length l) i) as [k|]; simpl; [|done].
  intros [= <-]. apply length_insert.
Qed.

Lemma fronts_for_at_self n c w :
  fronts_ok c → _nqubits c = n → at_self c w → fronts_for n w.
Proof. intros Hc Hn Hw. unfold fronts_for, at_self in *. by rewrite Hw. Qed.

Lemma gate_step_fronts n gate lgate noe x :
  hoare (fronts_for n) (gate_step gate lgate noe x) (λ _, fronts_for n) (fronts_for n).
Proof.
  apply (hoare_at_self (λ c, fronts_ok c ∧ _nqubits c = n)). intros c [[Hr Hl] Hn].
  assert (Hclose : ∀ w, at_self c w → fronts_for n w) by (intros w; by apply fronts_for_at_self).
  unfold gate_step. destruct x as [i ind]. unfold getitem, setitem.
  eapply hoare_bind; [apply hoare_get_self|]. intros c'. apply hoare_pure. intros ->.
  eapply hoare_bind; [by apply hoare_lift|]. intros e1.
  eapply hoare_bind; [by apply hoare_from_option|]. intros f1. apply hoare_pure. intros _.
  eapply hoare_bind; [by apply hoare_lift|]. intros ?.
  eapply hoare_bind; [by apply hoare_lift|]. intros e2.
  eapply hoare_bind; [by apply hoare_from_option|]. intros l1. apply hoare_pure.
  intros Hl1%setitem_length.
  eapply hoare_bind; [apply hoare_set_rfront|]. intros ?.
  set (c1 := mkDM _ _ l1 _ _).
  assert (Hclose1 : ∀ w, at_self c1 w → fronts_for n w).
  { intros w. apply fronts_for_at_self; [|done]. unfold fronts_ok. simpl. split; congruence. }
  eapply hoare_bind; [apply hoare_get_self|]. intros c'. apply hoare_pure. intros ->.
  eapply hoare_bind; [by apply hoare_lift|]. intros e3.
  eapply hoare_bind; [by apply hoare_from_option|]. intros f2. apply hoare_pure. intros _.
  eapply hoare_bind; [by apply hoare_lift|]. intros ?.
  eapply hoare_bind; [by apply hoare_lift|]. intros e4.
  eapply hoare_bind; [by apply hoare_from_option|]. intros l2. apply hoare_pure.
  intros Hl2%setitem_length.
  eapply hoare_conseq; [apply hoare_set_lfront | done |].
  intros ? w. apply fronts_for_at_self; [|done]. unfold fronts_ok. simpl in *. split; congruence.
Qed.

Lemma apply_general_gate_fronts n gate index :
  hoare (fronts_for n) (apply_general_gate gate index) (λ _, fronts_for n) (fronts_for n).
Proof.
  unfold apply_general_gate.
  eapply hoare_bind; [by apply hoare_py_assert|]. intros ?. apply hoare_pure. intros _.
  apply (hoare_at_self (λ c, fronts_ok c ∧ _nqubits c = n)). intros c [[Hr Hl] Hn].
  assert (Hclose : ∀ w, at_self c w → fronts_for n w) by (intros w; by apply fronts_for_at_self).
  eapply hoare_bind; [by apply hoare_lift|]. intros l.
  eapply hoare_bind; [by apply hoare_from_option|]. intros lgate. apply hoare_pure. intros _.
  eapply hoare_bind.
  { eapply hoare_conseq; [apply (hoare_for_each (fronts_for n) (fronts_for n)) | exact Hclose | done].
    intros x. apply gate_step_fronts. }
  intros ?. apply (hoare_at_self (λ c, fronts_ok c ∧ _nqubits c = n)). clear. intros c [[Hr Hl] Hn].
  eapply hoare_bind; [apply hoare_get_self|]. intros c'. apply hoare_pure. intros ->.
  eapply hoare_bind; [apply hoare_set_nodes|]. intros ?.
  eapply hoare_bind; [apply hoare_get_self|]. intros c'. apply hoare_pure. intros ->.
  eapply hoare_bind; [apply hoare_set_nodes|]. intros ?.
  eapply hoare_conseq; [apply hoare_set_state_tensor | done |].
  intros ? w. by apply fronts_for_at_self.
Qed.


Lemma hoare_ret_same {S A} (P R : S → Prop) (a : A) : hoare P (mret a) (λ _, P) R.
Proof. by intros s Hs. Qed.

Lemma hoare_stateless {S A} (P R : S → Prop) (m : M S A) :
  (∀ s, outcome_state (m s) = s) → (∀ s, P s → R s) → hoare P m (λ _, P) R.
Proof.
  intros Hm HR s Hs. specialize (Hm s). destruct (m s); simpl in Hm; subst; [done | by apply HR].
Qed.

Lemma tensor_add_stateless {S} a b (s : S) : outcome_state (tensor_add a b s) = s.
Proof. unfold tensor_add. by case_bool_decide. Qed.

Lemma reduce_add_stateless {S} l (s : S) : outcome_state (reduce_add l s) = s.
Proof.
  destruct l as [|t l]; [done|]. simpl.
  assert (∀ acc : M S Tensor, (∀ s, outcome_state (acc s) = s) →
            ∀ s, outcome_state (foldl (λ acc x, acc ≫= λ a, tensor_add a x) acc l s) = s) as Hgen.
  { induction l as [|x l IH]; intros acc Hacc s'; simpl; [done|].
    apply IH. intros s''. rewrite bind_unfold. specialize (Hacc s'').
    destruct (acc s''); simpl in *; subst; [apply tensor_add_stateless | done]. }
  by apply Hgen.
Qed.

Lemma hoare_reshape {S} (P R : S → Prop) t sh :
  (∀ s, P s → R s) → hoare P (reshape t sh) (λ t' s, shape t' = sh ∧ P s) R.
Proof. intros HR s Hs. unfold reshape. case_bool_decide; simpl; [done | by apply HR]. Qed.

(** The last part of [apply_general_kraus]: the summed tensor becomes the
    only node, and the fronts are the halves of its edge list. *)
Lemma kraus_install_fronts n c tensor :
  _nqubits c = n → length (shape tensor) = 2 * n →
  hoare (at_self c)
    (g ← lift (new_node tensor);
     set_nodes [g];;
     dangling ← lift (node_edges g);
     c ← get_self;
     set_rfront (take (_nqubits c) dangling);;
     c ← get_self;
     set_lfront (drop (_nqubits c) dangling);;
     set_state_tensor None)
    (λ _, fronts_for n) (fronts_for n).
Proof.
  intros Hn Hrank [h c'] Hw. unfold at_self in Hw. simpl in Hw. subst c'.
  unfold lift, new_node, set_nodes, node_edges, get_node, set_rfront, set_lfront,
    set_state_tensor, get_self, set_self.
  unfold mbind, M_bind. cbn [heap self nodes edges].
  rewrite lookup_app_r by lia. rewrite Nat.sub_diag. cbn.
  unfold fronts_for, fronts_ok. cbn.
  rewrite length_take, length_drop, length_seq. split_and!; lia.
Qed.

Lemma kraus_step_self c cs ki R :
  (∀ w, at_self c w → R w) → hoare (at_self c) (kraus_step cs ki) (λ _, at_self c) R.
Proof.
  intros HR. unfold kraus_step, _copy_DMCircuit.
  eapply hoare_bind.
  { eapply hoare_bind; [apply hoare_get_self|]. intros c'. apply hoare_pure. intros ->.
    eapply hoare_bind; [by apply hoare_lift|]. intros l.
    apply hoare_ret_same. }
  intros dmc. eapply hoare_bind; [by apply hoare_on_object|]. intros r.
  eapply hoare_bind; [by apply hoare_on_object|]. intros r'.
  apply hoare_ret_same.
Qed.

Lemma apply_general_kraus_fronts n kraus index :
  hoare (fronts_for n) (apply_general_kraus kraus index) (λ _, fronts_for n) (fronts_for n).
Proof.
  unfold apply_general_kraus. cbv zeta.
  eapply hoare_bind; [by apply hoare_py_assert|]. intros ?. apply hoare_pure. intros _.
  apply (hoare_at_self (λ c, fronts_ok c ∧ _nqubits c = n)). intros c [[Hr Hl] Hn].
  assert (Hclose : ∀ w, at_self c w → fronts_for n w) by (intros w; by apply fronts_for_at_self).
  eapply hoare_bind.
  { instantiate (1 := λ _, at_self c). case_bool_decide.
    - eapply hoare_bind; [by apply hoare_from_option|]. intros i0. apply hoare_pure. intros _.
      apply hoare_ret_same.
    - apply hoare_ret_same. }
  intros index'. unfold _contract.
  eapply hoare_bind.
  { instantiate (1 := λ _, fronts_for n).
    eapply hoare_bind; [apply hoare_get_self|]. intros c'. apply hoare_pure. intros ->.
    eapply hoare_bind; [by apply hoare_lift|]. intros t.
    eapply hoare_conseq; [apply hoare_set_nodes | done |].
    intros ? w. by apply fronts_for_at_self. }
  intros ?. apply (hoare_at_self (λ c, fronts_ok c ∧ _nqubits c = n)).
  clear dependent c. intros c1 [[Hr Hl] Hn].
  assert (Hclose1 : ∀ w, at_self c1 w → fronts_for n w).
  { intros w. by apply fronts_for_at_self. }
  eapply hoare_bind.
  { eapply hoare_conseq;
      [apply (hoare_fold_M (at_self c1) (fronts_for n)) | done | intros ? ? Hw; exact Hw].
    intros b x. by apply kraus_step_self. }
  intros circuits.
  eapply hoare_bind; [apply hoare_stateless; [apply reduce_add_stateless | exact Hclose1]|].
  intros tensor.
  eapply hoare_bind; [apply hoare_get_self|]. intros c'. apply hoare_pure. intros ->.
  eapply hoare_bind; [by apply hoare_reshape|]. intros tensor'. apply hoare_pure. intros Hshape.
  apply kraus_install_fronts; [done|].
  rewrite Hshape, length_replicate. simpl. lia.
Qed.


Lemma map_M_length {S A B} (f : A → M S B) l s r s' :
  map_M f l s = Ok r s' → length r = length l.
Proof.
  revert s r s'. induction l as [|x l IH]; intros s r s'; simpl.
  - intros Hr. change (Ok [] s = Ok r s') in Hr. by injection Hr as <- _.
  - intros (y & s1 & _ & Hrun)%bind_Ok_inv.
    apply bind_Ok_inv in Hrun as (ys & s2 & Hys & Hrun). injection Hrun as <- _.
    simpl. f_equal. by eapply IH.
Qed.

Lemma map_M_pure_inv {S A B} (f : A → M S B) (g : A → B) l s r s' :
  (∀ x, x ∈ l → f x s = Ok (g x) s) → map_M f l s = Ok r s' → r = g <$> l ∧ s' = s.
Proof. intros Hf Hrun. rewrite (map_M_pure f g l s Hf) in Hrun. by injection Hrun as <- <-. Qed.

Lemma map_M_from_option_inv {S A B} e (g : A → option B) l (s : S) r s' :
  map_M (λ x, from_option e (g x)) l s = Ok r s' → s' = s ∧ length r = length l.
Proof.
  revert r s'. induction l as [|x l IH]; intros r s'; simpl.
  - intros Hr. change (Ok [] s = Ok r s') in Hr. by injection Hr as <- <-.
  - intros (y & s1 & Hy & Hrun)%bind_Ok_inv.
    apply bind_Ok_inv in Hrun as (ys & s2 & Hys & Hrun). injection Hrun as <- <-.
    destruct (g x) as [b|]; [|done]. change (Ok b s = Ok y s1) in Hy. injection Hy as <- <-.
    apply IH in Hys as [-> Hlen]. simpl. by rewrite Hlen.
Qed.

Lemma tn_copy_inv ns conj s d s' :
  tn_copy ns conj s = Ok d s' →
  extends s s' ∧ Forall (λ n, is_Some (nodes s !! n)) ns.
Proof.
  unfold tn_copy. rewrite bind_unfold. cbn [get_state].
  destruct (mapM (λ n, nodes s !! n) (remove_dups ns)) as [nrecs|] eqn:Hm;
    rewrite bind_unfold; cbn [from_option mret M_ret raise]; [|done].
  destruct (mapM (λ e, edges s !! e) _) as [erecs|];
    rewrite bind_unfold; cbn [from_option mret M_ret raise]; [|done].
  destruct (mapM (copy_edge_rec _) erecs) as [erecs'|];
    rewrite bind_unfold; cbn [from_option mret M_ret raise]; [|done].
  rewrite bind_unfold. cbn [put_state mret M_ret]. intros [= _ <-]. split.
  - split; intros x r Hx; simpl; rewrite lookup_app_l; try done; by eapply lookup_lt_Some.
  - apply Forall_forall. intros n Hn.
    assert (is_Some (mapM (λ n, nodes s !! n) (remove_dups ns))) as Hall by eauto.
    apply mapM_is_Some_1 in Hall. rewrite Forall_forall in Hall.
    apply (Hall n). by apply elem_of_remove_dups.
Qed.

Lemma _copy_front_length ns d conj s l s' :
  _copy ns d conj s = Ok l s' → length l.2 = length (front_arg s ns d).
Proof.
  unfold _copy. intros (dicts & s1 & Hcopy & Hrun)%bind_Ok_inv.
  apply tn_copy_inv in Hcopy as [Hext Hnodes].
  apply bind_Ok_inv in Hrun as (newnodes & s2 & Hnn & Hrun).
  apply map_M_from_option_inv in Hnn as [-> _].
  apply bind_Ok_inv in Hrun as (dangling' & s3 & Hd & Hrun).
  apply bind_Ok_inv in Hrun as (newfront & s4 & Hnf & Hrun).
  injection Hrun as <- _. simpl. apply map_M_length in Hnf. rewrite Hnf.
  assert ((ls ← map_M node_edges ns; mret (concat ls)) s1 = Ok (slots_of s ns) s1) as Hall.
  { rewrite (bind_Ok _ _ _ ((λ n, default [] (nedges <$> nodes s !! n)) <$> ns) s1).
    - by rewrite slots_of_concat.
    - apply map_M_pure. intros n Hn. unfold node_edges, get_node.
      pose proof (proj1 (Forall_forall _ _) Hnodes n Hn) as [nr Hnr].
      unfold mbind, M_bind. rewrite (proj1 Hext n nr Hnr). by rewrite Hnr. }
  destruct d as [[|e d]|]; simpl in *.
  - rewrite Hall in Hd. by injection Hd as <- _.
  - by injection Hd as <- _.
  - rewrite Hall in Hd. by injection Hd as <- _.
Qed.


Lemma new_node_inv t s g s' :
  new_node t s = Ok g s' →
  nodes s' !! g = Some (mkNode t (seq (length (edges s)) (length (shape t)))).
Proof.
  unfold new_node. intros [= <- <-]. simpl. rewrite lookup_app_r by lia.
  by rewrite Nat.sub_diag.
Qed.

Lemma DMCircuit_init_fronts n inputs dminputs s c s' :
  DMCircuit_init n inputs dminputs s = Ok c s' → _nqubits c = n ∧ fronts_ok c.
Proof.
  unfold DMCircuit_init, fronts_ok. destruct inputs as [inputs|]; [|destruct dminputs as [dm|]].
  - (* a state vector *)
    intros (n' & s1 & Hn' & Hrun)%bind_Ok_inv.
    apply bind_Ok_inv in Hrun as (u & s2 & Hassert & Hrun).
    unfold py_assert in Hassert. case_bool_decide as Heq; [|done]. subst n'.
    injection Hassert as _ <-.
    apply bind_Ok_inv in Hrun as (t' & s3 & Ht' & Hrun).
    unfold reshape in Ht'. case_bool_decide; [|done]. injection Ht' as <- <-.
    apply bind_Ok_inv in Hrun as (g & s4 & Hg & Hrun).
    apply bind_Ok_inv in Hrun as (rfront & s5 & Hrf & Hrun).
    apply bind_Ok_inv in Hrun as (l & s6 & Hcopy & Hrun).
    injection Hrun as <- _. simpl.
    pose proof (map_M_length _ _ _ _ _ Hrf) as Hlen. rewrite length_seq in Hlen.
    split_and!; [done..|].
    rewrite (_copy_front_length _ _ _ _ _ _ Hcopy).
    destruct rfront as [|e rfront]; [|done]. simpl in *.
    rewrite <- Hlen in *. simpl in Hrf. change (Ok (@nil nat) s4 = Ok [] s5) in Hrf.
    injection Hrf as Heq. subst. cbn [front_arg].
    apply new_node_inv in Hg. by rewrite Hg.
  - (* a density matrix *)
    intros (t' & s1 & Ht' & Hrun)%bind_Ok_inv.
    apply bind_Ok_inv in Hrun as (g & s2 & Hg & Hrun).
    apply bind_Ok_inv in Hrun as (rfront & s3 & Hrf & Hrun).
    apply bind_Ok_inv in Hrun as (lfront & s4 & Hlf & Hrun).
    injection Hrun as <- _. simpl.
    apply map_M_length in Hrf, Hlf. rewrite length_seq in *. done.
  - (* the zero state *)
    intros (ns & s1 & Hns & Hrun)%bind_Ok_inv.
    apply bind_Ok_inv in Hrun as (rfront & s2 & Hrf & Hrun).
    apply bind_Ok_inv in Hrun as (l & s3 & Hcopy & Hrun).
    injection Hrun as <- _. simpl.
    pose proof (map_M_length _ _ _ _ _ Hns) as Hlen1. rewrite length_seq in Hlen1.
    pose proof (map_M_length _ _ _ _ _ Hrf) as Hlen2.
    split_and!; [done | congruence |].
    rewrite (_copy_front_length _ _ _ _ _ _ Hcopy).
    destruct rfront as [|e rfront]; [|cbn [front_arg]; congruence].
    simpl in *. destruct ns; [|done]. by rewrite <- Hlen1.
Qed.

End Fronts.

(** ** Construction from a state vector of the wrong length *)

Section Init_inputs.
Context `{Scalar}.

(** C8 (amended).  Construction from a state vector whose length [N] is not
    [2 ^ nqubits] always fails, before anything is allocated: an empty
    vector fails in the qubit count itself (the logarithm of 0 is minus
    infinity, which has no integer value); a non-empty vector for which the
    count that the code computes, [int(np.log(N) / np.log(2))] in double
    precision, differs from [nqubits] fails the assertion; otherwise the
    assertion passes and the reshape to [nqubits] axes of size 2 fails.
    Nothing is assumed of the rounding of the computed count. *)
Theorem init_inputs_mismatch (nqubits : nat) (inputs : Tensor)
    (dminputs : option Tensor) (s : Store) :
  length (data inputs) ≠ 2 ^ nqubits →
  DMCircuit_init nqubits (Some inputs) dminputs s =
  Raise (if decide (length (data inputs) = 0) then OverflowError
         else if decide (log2_quotient (length (data inputs)) = nqubits) then ShapeMismatch
         else AssertionError) s.
Proof.
  intros Hlen. unfold DMCircuit_init. cbn [reshape_flat shape lookup list_lookup default].
  unfold qubit_count. rewrite bind_unfold.
  destruct (decide (length (data inputs) = 0)) as [H0|H0].
  - by rewrite bool_decide_eq_true_2.
  - rewrite bool_decide_eq_false_2 by done. cbn [mret M_ret].
    rewrite bind_unfold. unfold py_assert.
    destruct (decide (log2_quotient (length (data inputs)) = nqubits)) as [Hlog|Hlog].
    + rewrite bool_decide_eq_true_2 by done. cbn [mret M_ret].
      rewrite bind_unfold. unfold reshape. cbn [data].
      rewrite bool_decide_eq_false_2; [done|].
      rewrite prod_replicate_2. unfold id. rewrite Hlog. simpl. congruence.
    + by rewrite bool_decide_eq_false_2.
Qed.

End Init_inputs.

(** ** The precondition of [apply_general_kraus] *)

Section Kraus_precondition.
Context `{Scalar}.

Lemma apply_general_kraus_assertion kraus index w :
  length kraus ≠ length index → length index ≠ 1 →
  apply_general_kraus kraus index w = Raise AssertionError w.
Proof.
  intros H1 H2. unfold apply_general_kraus. cbv zeta. rewrite bind_unfold.
  by rewrite !bool_decide_eq_false_2.
Qed.

Lemma apply_general_kraus_broadcast kraus (i : list Z) w :
  apply_general_kraus kraus [i] w = apply_general_kraus kraus (replicate (length kraus) i) w.
Proof.
  unfold apply_general_kraus. cbv zeta. rewrite !bind_unfold.
  rewrite length_replicate. cbn [length].
  rewrite (bool_decide_eq_true_2 (1 = 1)) by done.
  rewrite (bool_decide_eq_true_2 (length kraus = length kraus)) by done.
  rewrite orb_true_r. cbn [orb py_assert mret M_ret].
  rewrite !bind_unfold. cbn [lookup list_lookup from_option mret M_ret].
  case_bool_decide as Hk; [|done].
  rewrite Hk. cbn [replicate lookup list_lookup from_option mret M_ret]. done.
Qed.

End Kraus_precondition.

(** ** Two separate networks side by side *)

Section Union.
Context `{Scalar}.

Lemma slots_of_app s l1 l2 : slots_of s (l1 ++ l2) = slots_of s l1 ++ slots_of s l2.
Proof. unfold slots_of. apply bind_app. Qed.

Lemma edge_ok_mono s ns ns' e : (∀ n, n ∈ ns → n ∈ ns') → edge_ok s ns e → edge_ok s ns' e.
Proof.
  intros Hsub. unfold edge_ok. destruct (edges s !! e) as [r|]; [|done].
  intros (H1 & H2 & H3). split_and!; [by apply Hsub | done |].
  destruct (end2 r); [by apply Hsub | done].
Qed.

Lemma front_ok_extend s ns ns' e :
  (∀ n, n ∈ ns → n ∈ ns') →
  (∀ n i, n ∈ ns' → n ∉ ns → slot s n i ≠ Some e) →
  front_ok s ns e → front_ok s ns' e.
Proof.
  intros Hsub Hnew. unfold front_ok. destruct (edges s !! e) as [r|]; [|done].
  intros (H1 & H2 & H3 & H4 & H5). split_and!; [done | by apply Hsub | done | done |].
  apply bound_only_at_spec. intros n' i' Hn' Hs. rewrite bound_only_at_spec in H5.
  destruct (decide (n' ∈ ns)) as [Hin|Hin]; [by apply H5|].
  by destruct (Hnew n' i' Hn' Hin).
Qed.

Lemma net_ok_union s A oA B oB :
  net_ok s A oA → net_ok s B oB →
  (∀ n, n ∈ A → n ∉ B) →
  (∀ e, e ∈ slots_of s A → e ∉ slots_of s B) →
  net_ok s (B ++ A) (oA ++ oB).
Proof.
  intros HA HB Hdn Hde.
  pose proof HA as (HA1 & HA2 & HA3 & HA4 & HA5 & HA6).
  pose proof HB as (HB1 & HB2 & HB3 & HB4 & HB5 & HB6).
  unfold net_ok. rewrite slots_of_app. split_and!.
  - apply NoDup_app. split_and!; [done| |done]. intros n Hn HnA. by apply (Hdn n).
  - apply NoDup_app. split_and!; [done| |done]. intros e He HeB.
    apply (Hde e); by eapply net_ok_out_slots.
  - by apply Forall_app.
  - apply Forall_app. split.
    + eapply Forall_impl; [exact HB4|]. intros e. apply edge_ok_mono. set_solver.
    + eapply Forall_impl; [exact HA4|]. intros e. apply edge_ok_mono. set_solver.
  - apply Forall_app. split.
    + eapply Forall_impl; [exact HB5|]. intros e He Hd. apply elem_of_app. right. by apply He.
    + eapply Forall_impl; [exact HA5|]. intros e He Hd. apply elem_of_app. left. by apply He.
  - apply Forall_app. split.
    + apply Forall_forall. intros e He.
      apply (front_ok_extend s A); [set_solver| |by apply (proj1 (Forall_forall _ _) HA6)].
      intros n i [Hn|Hn]%elem_of_app Hn' Hs; [|done].
      apply (Hde e); [by eapply net_ok_out_slots | by eapply slot_in_slots_of].
    + apply Forall_forall. intros e He.
      apply (front_ok_extend s B); [set_solver| |by apply (proj1 (Forall_forall _ _) HB6)].
      intros n i [Hn|Hn]%elem_of_app Hn' Hs; [done|].
      apply (Hde e); [by eapply slot_in_slots_of | by eapply net_ok_out_slots].
Qed.

End Union.

(** ** The freshly constructed circuit *)

Section Fresh.
Context `{Scalar}.

(** The array of the state |0> of one qubit. *)
Definition zero_vec : Tensor := mkTensor [2] [c1; c0].

(** The store after [n] one-qubit nodes have been created. *)
Definition alloc_qubits (s : Store) (n : nat) : Store :=
  mkStore (nodes s ++ ((λ k, mkNode zero_vec [length (edges s) + k]) <$> seq 0 n))
          (edges s ++ ((λ k, mkEdge (length (nodes s) + k) 0 None) <$> seq 0 n)).

Lemma alloc_qubits_S s m :
  alloc_qubits (mkStore (nodes s ++ [mkNode zero_vec [length (edges s)]])
                        (edges s ++ [mkEdge (length (nodes s)) 0 None])) m
  = alloc_qubits s (S m).
Proof.
  unfold alloc_qubits. cbn [nodes edges]. rewrite !length_app. cbn [length].
  rewrite <- !app_assoc. cbn [app].
  change (seq 0 (S m)) with (0 :: seq 1 m). rewrite !fmap_cons, !Nat.add_0_r.
  rewrite <- !fmap_S_seq, <- !list_fmap_compose.
  f_equal; f_equal; f_equal; apply list_fmap_ext; intros i k _; simpl;
    by rewrite <- Nat.add_assoc.
Qed.

Lemma alloc_qubits_ok (l : list nat) s :
  map_M (λ _, new_node zero_vec) l s
  = Ok (seq (length (nodes s)) (length l)) (alloc_qubits s (length l)).
Proof.
  revert s. induction l as [|x l IH]; intros s.
  - unfold alloc_qubits. simpl. rewrite !app_nil_r. by destruct s.
  - simpl. rewrite bind_unfold. unfold new_node at 1.
    cbn [zero_vec shape length seq fmap list_fmap].
    rewrite bind_unfold, IH. cbn [nodes edges]. rewrite alloc_qubits_S, length_app.
    cbn [length]. unfold mret, M_ret. do 3 f_equal. lia.
Qed.

Lemma alloc_qubits_node s n k :
  k < n → nodes (alloc_qubits s n) !! (length (nodes s) + k)
          = Some (mkNode zero_vec [length (edges s) + k]).
Proof.
  intros Hk. simpl. rewrite lookup_app_r by lia.
  replace (length (nodes s) + k - length (nodes s)) with k by lia.
  rewrite list_lookup_fmap, lookup_seq_lt by done. done.
Qed.

Lemma alloc_qubits_edge s n k :
  k < n → edges (alloc_qubits s n) !! (length (edges s) + k)
          = Some (mkEdge (length (nodes s) + k) 0 None).
Proof.
  intros Hk. simpl. rewrite lookup_app_r by lia.
  replace (length (edges s) + k - length (edges s)) with k by lia.
  rewrite list_lookup_fmap, lookup_seq_lt by done. done.
Qed.

Lemma elem_of_seq_add a n x : x ∈ seq a n ↔ ∃ k, x = a + k ∧ k < n.
Proof.
  rewrite elem_of_seq. split.
  - intros [H1 H2]. exists (x - a). lia.
  - intros (k & -> & Hk). lia.
Qed.

Lemma alloc_qubits_slots s n :
  slots_of (alloc_qubits s n) (seq (length (nodes s)) n) = seq (length (edges s)) n.
Proof.
  unfold slots_of.
  replace (seq (length (nodes s)) n) with ((λ k, length (nodes s) + k) <$> seq 0 n)
    by (rewrite fmap_add_seq; f_equal; lia).
  replace (seq (length (edges s)) n) with ((λ k, length (edges s) + k) <$> seq 0 n)
    by (rewrite fmap_add_seq; f_equal; lia).
  assert (∀ l, (∀ k, k ∈ l → k < n) →
    ((λ k, length (nodes s) + k) <$> l) ≫=
      (λ m, default [] (nedges <$> nodes (alloc_qubits s n) !! m))
    = (λ k, length (edges s) + k) <$> l) as Hgen.
  { induction l as [|k l IH]; intros Hl; [done|].
    rewrite !fmap_cons, bind_cons, IH by (intros; apply Hl; by right).
    rewrite alloc_qubits_node by (apply Hl; by left). done. }
  apply Hgen. intros k Hk%elem_of_seq. lia.
Qed.

Lemma alloc_qubits_net_ok s n :
  net_ok (alloc_qubits s n) (seq (length (nodes s)) n) (seq (length (edges s)) n).
Proof.
  unfold net_ok. rewrite alloc_qubits_slots. split_and!.
  - apply NoDup_seq.
  - apply NoDup_seq.
  - apply Forall_forall. intros m (k & -> & Hk)%elem_of_seq_add.
    rewrite alloc_qubits_node by done. eauto.
  - apply Forall_forall. intros e (k & -> & Hk)%elem_of_seq_add.
    unfold edge_ok. rewrite alloc_qubits_edge by done. cbn [node1 axis1 end2]. split_and!.
    + apply elem_of_seq_add. eauto.
    + unfold edge_dim. cbn [node1 axis1]. rewrite alloc_qubits_node by done. by eexists.
    + done.
  - apply Forall_forall. by intros.
  - apply Forall_forall. intros e (k & -> & Hk)%elem_of_seq_add.
    unfold front_ok. rewrite alloc_qubits_edge by done. cbn [node1 axis1 end2]. split_and!.
    + done.
    + apply elem_of_seq_add. eauto.
    + unfold slot. rewrite alloc_qubits_node by done. done.
    + unfold edge_dim. cbn [node1 axis1]. rewrite alloc_qubits_node by done. done.
    + apply bound_only_at_spec. intros m i (k' & -> & Hk')%elem_of_seq_add.
      unfold slot. rewrite alloc_qubits_node by done. cbn.
      destruct i as [|i]; [|done]. cbn. intros [= Heq]. split; [lia | done].
Qed.

(** A well-formed network next to its copy. *)
Lemma net_ok_with_copy s ns out conj :
  net_ok s ns out →
  net_ok (copy_store s ns conj) ((ndf s ns <$> ns) ++ ns) (out ++ (edf s ns <$> out)).
Proof.
  intros Hok. pose proof Hok as (Hnd & _ & Hnodes & Hedges & _).
  apply net_ok_union.
  - eapply extends_net_ok; [apply extends_copy_store | done].
  - by apply copy_net_ok.
  - intros n Hn (n0 & -> & Hn0)%list_elem_of_fmap.
    apply (ndf_fresh s ns n0). eapply net_ok_node; [exact Hok | done].
  - intros e He. rewrite copy_slots_of by done. intros (e0 & -> & He0)%list_elem_of_fmap.
    rewrite (agree_slots_of ns s) in He
      by (eapply extends_agree; [apply extends_copy_store | done]).
    apply (edf_fresh s ns e0). by eapply net_ok_edge_rec.
Qed.


Lemma omap_fmap_total {A B D} (f : B → option D) (g : A → B) (h : A → D) (l : list A) :
  (∀ x, x ∈ l → f (g x) = Some (h x)) → omap f (g <$> l) = h <$> l.
Proof.
  induction l as [|x l IH]; intros Hf; [done|]. csimpl.
  rewrite Hf by (by left). rewrite IH; [done|]. intros y Hy. apply Hf. by right.
Qed.

Lemma filter_none {A} (P : A → Prop) `{∀ x, Decision (P x)} (l : list A) :
  (∀ x, x ∈ l → ¬ P x) → filter P l = [].
Proof.
  induction l as [|x l IH]; intros Hl; [done|]. rewrite filter_cons.
  rewrite decide_False by (apply Hl; by left). apply IH. intros y Hy. apply Hl. by right.
Qed.

Lemma omap_fmap_seq {B D} (f : B → option D) (g : nat → B) (h : nat → D) a n :
  (∀ k, k < n → f (g (a + k)) = Some (h k)) → omap f (g <$> seq a n) = h <$> seq 0 n.
Proof.
  intros Hf. replace (seq a n) with ((λ k, a + k) <$> seq 0 n)
    by (rewrite fmap_add_seq; f_equal; lia).
  rewrite <- list_fmap_compose. apply omap_fmap_total.
  intros k Hk%elem_of_seq. apply Hf. lia.
Qed.

Lemma omap_seq {D} (f : nat → option D) (h : nat → D) a n :
  (∀ k, k < n → f (a + k) = Some (h k)) → omap f (seq a n) = h <$> seq 0 n.
Proof. intros Hf. rewrite <- (list_fmap_id (seq a n)). by apply omap_fmap_seq. Qed.

(** A network without connected edges, numbered. *)
Lemma abstract_all_dangling s ns out :
  net_ok s ns out → (∀ e, e ∈ slots_of s ns → e ∈ out) →
  abstract s ns out
  = Some (mkANet ((λ nr, (tensor nr, (λ e, index_of e out) <$> nedges nr))
                    <$> omap (λ n, nodes s !! n) ns)
                 (replicate (length out) 2) []).
Proof.
  intros Hok Hall. destruct (abstract_ok s ns out Hok) as (net & Habs & Hout).
  rewrite Habs. f_equal. revert Habs. unfold abstract.
  pose proof Hok as (_ & _ & Hnodes & _ & _ & Hfront).
  rewrite (mapM_omap _ ns Hnodes). cbn [mbind option_bind].
  assert (filter (edge_connected s) (get_all_edges s ns) = []) as ->.
  { apply filter_none. intros e He%elem_of_get_all_edges%Hall.
    apply (proj1 (Forall_forall _ _) Hfront) in He. unfold front_ok, edge_connected in *.
    destruct (edges s !! e) as [r|]; [|done]. destruct He as (Hend & _).
    simpl. unfold is_dangling. rewrite Hend. done. }
  rewrite app_nil_r. destruct (mapM _ out) as [douts|]; [|done]. cbn.
  intros [= <-]. simpl in Hout. by rewrite Hout.
Qed.

Definition fresh_net (n : nat) : ANet :=
  mkANet (((λ k, (tensor_conj zero_vec, [n + k])) <$> seq 0 n)
          ++ ((λ k, (zero_vec, [k])) <$> seq 0 n))
         (replicate (n + n) 2) [].

Lemma index_of_seq a n k : k < n → index_of (a + k) (seq a n) = k.
Proof. intros Hk. apply index_of_lookup; [apply NoDup_seq | by apply lookup_seq]. Qed.

(** The constructor's first path. *)
Lemma DMCircuit_init_zero n s :
  ∃ c s',
    DMCircuit_init n None None s = Ok c s' ∧
    _nqubits c = n ∧ length (_nodes c) = n + n ∧ state_tensor c = None ∧
    net_ok s' (_nodes c) (_rfront c ++ _lfront c) ∧
    length (_rfront c) = n ∧ length (_lfront c) = n ∧
    abstract s' (_nodes c) (_rfront c ++ _lfront c) = Some (fresh_net n).
Proof.
  set (s1 := alloc_qubits s n). set (ns := seq (length (nodes s)) n).
  set (out := seq (length (edges s)) n).
  assert (Hok1 : net_ok s1 ns out) by apply alloc_qubits_net_ok.
  exists (mkDM n ((ndf s1 ns <$> ns) ++ ns) out (edf s1 ns <$> out) None),
         (copy_store s1 ns true).
  assert (Hok : net_ok (copy_store s1 ns true) ((ndf s1 ns <$> ns) ++ ns)
                  (out ++ (edf s1 ns <$> out))) by (by apply net_ok_with_copy).
  cbn [_nqubits _nodes _rfront _lfront state_tensor].
  split_and!; try done.
  - unfold DMCircuit_init.
    pose proof (alloc_qubits_ok (seq 0 n) s) as Halloc. rewrite length_seq in Halloc.
    rewrite (bind_Ok _ _ _ _ _ Halloc). fold s1 ns.
    rewrite (bind_Ok _ _ _ out s1).
    2:{ rewrite (map_M_pure _ (λ m, length (edges s) + (m - length (nodes s)))).
        - f_equal. unfold ns, out. apply list_eq. intros i.
          rewrite list_lookup_fmap. destruct (decide (i < n)) as [Hi|Hi].
          + rewrite !lookup_seq_lt by done. simpl. f_equal. lia.
          + rewrite !lookup_seq_ge by lia. done.
        - intros m (k & -> & Hk)%elem_of_seq_add. unfold get_edge, get_node.
          unfold mbind, M_bind. unfold s1. rewrite alloc_qubits_node by done.
          cbn. do 2 f_equal. lia. }
    assert (out = [] → slots_of s1 ns = []) as Hz
      by (unfold s1, ns; by rewrite alloc_qubits_slots).
    rewrite (bind_Ok _ _ _ _ _ (_copy_net s1 ns out true Hok1 Hz)). done.
  - rewrite length_app, length_fmap. unfold ns. rewrite length_seq. lia.
  - unfold out. apply length_seq.
  - rewrite length_fmap. unfold out. apply length_seq.
  - rewrite abstract_all_dangling; [|done|].
    2:{ intros e He. rewrite slots_of_app in He. apply elem_of_app in He as [He|He].
        - rewrite copy_slots_of in He by (apply Hok1).
          unfold s1 at 2, ns at 2 in He. rewrite alloc_qubits_slots in He.
          apply elem_of_app. by right.
        - rewrite (agree_slots_of ns s1) in He
            by (eapply extends_agree; [apply extends_copy_store | done]).
          unfold s1, ns in He. rewrite alloc_qubits_slots in He.
          apply elem_of_app. by left. }
    unfold fresh_net. f_equal. f_equal.
    + rewrite omap_app, fmap_app. f_equal.
      * change (ndf s1 ns <$> ns) with (ndf s1 ns <$> seq (length (nodes s)) n).
        rewrite (omap_fmap_seq _ _
                   (λ k, copied_node s1 ns true (mkNode zero_vec [length (edges s) + k]))).
        2:{ intros k Hk. apply copy_store_node.
            - apply Hok1.
            - apply elem_of_seq_add. exists k. lia.
            - by apply alloc_qubits_node. }
        rewrite <- list_fmap_compose. apply list_fmap_ext. intros i k Hik.
        apply lookup_seq in Hik as [-> Hik]. unfold compose, copied_node.
        cbn [tensor nedges fmap list_fmap Nat.add]. f_equal. f_equal.
        rewrite index_of_app_r.
        2:{ intros Hin. apply (edf_fresh s1 ns (length (edges s) + i)).
            eapply net_ok_edge_rec; [exact Hok1|].
            unfold s1, ns. rewrite alloc_qubits_slots. done. }
        unfold out at 1. rewrite length_seq. f_equal.
        rewrite index_of_fmap.
        -- by apply index_of_seq.
        -- intros x Hx Heq. apply (edf_inj s1 ns x _); [|exact Heq].
           unfold s1, ns. by rewrite alloc_qubits_slots.
      * change (omap (λ m, nodes (copy_store s1 ns true) !! m) ns)
          with (omap (λ m, nodes (copy_store s1 ns true) !! m) (seq (length (nodes s)) n)).
        rewrite (omap_seq _ (λ k, mkNode zero_vec [length (edges s) + k])).
        2:{ intros k Hk. rewrite copy_store_node_old.
            - by apply alloc_qubits_node.
            - unfold s1. rewrite alloc_qubits_node by lia. eauto. }
        rewrite <- list_fmap_compose. apply list_fmap_ext. intros i k Hik.
        apply lookup_seq in Hik as [-> Hik]. cbn. f_equal. f_equal.
        rewrite index_of_app_l.
        -- by apply index_of_seq.
        -- apply elem_of_seq_add. eauto.
    + rewrite length_app, length_fmap. unfold out. by rewrite length_seq.
Qed.

End Fresh.

(** ** The contraction of the zero-state network *)

Section Zero_state.
Context `{Scalar}.

(** What the arithmetic of the backend does on 0 and 1 (all of it holds of
    IEEE floating-point numbers as of exact ones). *)
Definition bit_laws : Prop :=
  cmul c1 c1 = c1 ∧ cmul c1 c0 = c0 ∧ cmul c0 c1 = c0 ∧ cmul c0 c0 = c0 ∧
  cconj c1 = c1 ∧ cconj c0 = c0 ∧
  cadd c1 c0 = c1 ∧ cadd c0 c0 = c0.

(** The entry of |0> at index [b]. *)
Definition bit (b : nat) : C := match b with 0 => c1 | _ => c0 end.

Lemma zero_vec_get b : tensor_get zero_vec [b] = bit b.
Proof.
  unfold tensor_get. cbn. rewrite Nat.mul_1_r, Nat.add_0_r.
  destruct b as [|[|b]]; done.
Qed.

Lemma zero_vec_conj_get b : bit_laws → tensor_get (tensor_conj zero_vec) [b] = bit b.
Proof.
  intros (_ & _ & _ & _ & H1 & H0 & _). unfold tensor_get. cbn.
  rewrite Nat.mul_1_r, Nat.add_0_r. destruct b as [|[|b]]; cbn; done.
Qed.

Lemma bit_mul a b : bit_laws → cmul (bit a) (bit b) = bit (a + b).
Proof. intros (? & ? & ? & ? & _). destruct a, b; done. Qed.

Lemma cprod_bit (bs : list nat) : bit_laws → cprod (bit <$> bs) = bit (sum_list bs).
Proof.
  intros Hlaws. induction bs as [|a [|b bs] IH]; [done| |].
  - cbn. by rewrite Nat.add_0_r.
  - change (cprod (bit <$> a :: b :: bs)) with (cmul (bit a) (cprod (bit <$> b :: bs))).
    rewrite IH. by apply bit_mul.
Qed.

(** The sum of the entries of [o] at the positions [ps]. *)
Definition wire_sum (o : list nat) (ps : list nat) : nat :=
  sum_list ((λ p, default 0 (o !! p)) <$> ps).

Definition fresh_wires (n : nat) : list nat := ((λ k, n + k) <$> seq 0 n) ++ seq 0 n.

Lemma fresh_term n o :
  bit_laws → a_term (fresh_net n) o = bit (wire_sum o (fresh_wires n)).
Proof.
  intros Hlaws. unfold a_term, fresh_net, wire_sum, fresh_wires. cbn [a_nodes].
  rewrite <- cprod_bit by done. f_equal.
  rewrite !fmap_app, <- !list_fmap_compose. f_equal.
  - apply list_fmap_ext. intros i k _. cbn. by apply zero_vec_conj_get.
  - apply list_fmap_ext. intros i k _. cbn. apply zero_vec_get.
Qed.

Lemma sum_list_zero (l : list nat) : sum_list l = 0 ↔ Forall (λ x, x = 0) l.
Proof.
  induction l as [|x l IH]; simpl; [by split|].
  rewrite Forall_cons, <- IH. lia.
Qed.

Lemma wire_sum_zeros m ps : wire_sum (replicate m 0) ps = 0.
Proof.
  unfold wire_sum. apply sum_list_zero, Forall_fmap, Forall_forall. intros p _. simpl.
  destruct (replicate m 0 !! p) as [x|] eqn:Hp; [|done].
  by apply lookup_replicate in Hp as [-> _].
Qed.

Lemma wire_sum_nonzero n o p :
  p < n + n → default 0 (o !! p) ≠ 0 → wire_sum o (fresh_wires n) ≠ 0.
Proof.
  intros Hp Hop Hsum. apply sum_list_zero in Hsum.
  rewrite Forall_fmap, Forall_forall in Hsum. apply Hop. apply (Hsum p).
  unfold fresh_wires. apply elem_of_app. destruct (decide (p < n)) as [Hlt|Hge].
  - right. apply elem_of_seq. lia.
  - left. apply list_elem_of_fmap. exists (p - n). split; [lia|]. apply elem_of_seq. lia.
Qed.

(** The multi-indices of [m] axes of size 2: all zeros first, then indices
    that are 1 somewhere. *)
Lemma indices_bits m :
  ∃ rest, indices (replicate m 2) = replicate m 0 :: rest ∧
          Forall (λ o, ∃ p, p < m ∧ default 0 (o !! p) ≠ 0) rest.
Proof.
  induction m as [|m (rest & Hind & Hrest)].
  - exists []. by split.
  - exists (((0 ::.) <$> rest) ++ ((1 ::.) <$> indices (replicate m 2))). split.
    + cbn [replicate indices]. change (seq 0 2) with [0; 1].
      rewrite !bind_cons. cbn [mbind list_bind]. rewrite app_nil_r.
      rewrite Hind at 1. by rewrite fmap_cons.
    + apply Forall_app. split; apply Forall_fmap, Forall_forall.
      * intros o Ho. apply (proj1 (Forall_forall _ _) Hrest) in Ho as (p & Hp & Hop).
        exists (S p). split; [lia | done].
      * intros o _. exists 0. split; [lia | done].
Qed.

Lemma fresh_einsum_data n :
  bit_laws →
  data (einsum (fresh_net n)) = c1 :: replicate (2 ^ n * 2 ^ n - 1) c0.
Proof.
  intros Hlaws. unfold einsum. cbn [data a_out a_int fresh_net indices fmap list_fmap].
  change (a_out (fresh_net n)) with (replicate (n + n) 2).
  pose proof (indices_length (replicate (n + n) 2)) as Hlen.
  destruct (indices_bits (n + n)) as (rest & Hind & Hrest). rewrite Hind in *.
  rewrite fmap_cons. f_equal.
  - cbn [csum]. rewrite app_nil_r, fresh_term by done. by rewrite wire_sum_zeros.
  - cbn [length] in Hlen. rewrite prod_replicate_2, Nat.pow_add_r in Hlen.
    replace (2 ^ n * 2 ^ n - 1) with (length rest) by lia.
    clear Hlen Hind. induction Hrest as [|o rest (p & Hp & Hop) _ IH]; [done|].
    rewrite fmap_cons. cbn [length replicate]. f_equal; [|exact IH].
    cbn [csum]. rewrite app_nil_r, fresh_term by done.
    pose proof (wire_sum_nonzero n o p Hp Hop) as Hne.
    destruct (wire_sum o (fresh_wires n)); done.
Qed.

End Zero_state.

Section Zero_state_theorem.
Context `{Scalar}.

(** The trace of a square matrix, as [backend.trace] computes it. *)
Definition matrix_trace (dm : Tensor) : C :=
  csum ((λ i, tensor_get dm [i; i]) <$> seq 0 (default 0 (shape dm !! 0))).

Lemma csum_zeros k : bit_laws → csum (replicate k c0) = c0.
Proof.
  intros (_ & _ & _ & _ & _ & _ & _ & H00). induction k as [|[|k] IH]; [done..|].
  change (csum (replicate (S (S k)) c0)) with (cadd c0 (csum (replicate (S k) c0))).
  by rewrite IH.
Qed.

Lemma csum_one_zeros k : bit_laws → csum (c1 :: replicate k c0) = c1.
Proof.
  intros Hlaws. destruct k as [|k]; [done|].
  change (csum (c1 :: replicate (S k) c0)) with (cadd c1 (csum (replicate (S k) c0))).
  rewrite csum_zeros by done. by destruct Hlaws as (_ & _ & _ & _ & _ & _ & ? & _).
Qed.

Lemma unit_matrix_entry d k i j :
  tensor_get (mkTensor [d; d] (c1 :: replicate k c0)) [i; j]
  = if bool_decide (i * d + j = 0) then c1 else c0.
Proof.
  unfold tensor_get. cbn [shape data flat_index prod_list foldr].
  rewrite !Nat.mul_1_r, Nat.add_0_r. case_bool_decide as Hz.
  - by rewrite Hz.
  - destruct (i * d + j) as [|m]; [done|]. cbn.
    destruct (replicate k c0 !! m) as [x|] eqn:Hm; [|done].
    by apply lookup_replicate in Hm as [-> _].
Qed.

(** C3.  For every [n >= 1], the circuit that [DMCircuit(n)] constructs (in
    any store) represents |0...0><0...0| exactly: [densitymatrix()] returns
    the [2^n] by [2^n] matrix whose entry (0,0) is 1 and whose other entries
    are 0, and its trace is 1. *)
Theorem fresh_circuit_zero_state (n : nat) (s : Store) :
  bit_laws → 1 ≤ n →
  ∃ c s1 dm w',
    DMCircuit_init n None None s = Ok c s1 ∧
    densitymatrix false true (mkWorld s1 c) = Ok dm w' ∧
    shape dm = [2 ^ n; 2 ^ n] ∧
    data dm = c1 :: replicate (2 ^ n * 2 ^ n - 1) c0 ∧
    (∀ i j, i < 2 ^ n → j < 2 ^ n →
       tensor_get dm [i; j] = if bool_decide (i = 0 ∧ j = 0) then c1 else c0) ∧
    matrix_trace dm = c1.
Proof.
  intros Hlaws Hn.
  destruct (DMCircuit_init_zero n s)
    as (c & s1 & Hinit & Hnq & Hlen & Hst & Hok & Hr & Hl & Habs).
  assert (dm_ok s1 c) as Hdm.
  { split_and!; [done | congruence | congruence | |].
    - unfold cache_ok. by rewrite Hst.
    - intros Hnil. apply (f_equal length) in Hnil. rewrite length_app in Hnil.
      cbn [length] in Hnil. lia. }
  assert (_nodes c ≠ []) as Hne by (destruct (_nodes c); simpl in *; [lia | done]).
  destruct (densitymatrix_ok s1 c true Hdm Hne) as (net & s2 & t & Habs' & Hrun & _).
  rewrite Habs in Habs'. injection Habs' as <-.
  rewrite fresh_einsum_data, Hnq in Hrun by done.
  eexists c, s1, _, _. split_and!; [done | exact Hrun | done | done | |].
  - intros i j Hi Hj. rewrite unit_matrix_entry.
    rewrite (bool_decide_ext (i * 2 ^ n + j = 0) (i = 0 ∧ j = 0)); [done | nia].
  - unfold matrix_trace. cbn [shape lookup list_lookup default].
    assert (0 < 2 ^ n) as Hpos by (apply Nat.neq_0_lt_0, Nat.pow_nonzero; lia).
    unfold id. replace (seq 0 (2 ^ n)) with (0 :: seq 1 (2 ^ n - 1))
      by (replace (2 ^ n) with (S (2 ^ n - 1)) at 2 by lia; done).
    rewrite fmap_cons, unit_matrix_entry.
    rewrite bool_decide_eq_true_2 by lia.
    assert (∀ a m, 0 < a →
      (λ i, tensor_get (mkTensor [2 ^ n; 2 ^ n] (c1 :: replicate (2 ^ n * 2 ^ n - 1) c0)) [i; i])
        <$> seq a m = replicate m c0) as Hrest.
    { intros a m. revert a. induction m as [|m IH]; intros a Ha; [done|].
      cbn [seq]. rewrite fmap_cons, IH by lia. cbn [replicate]. f_equal.
      rewrite unit_matrix_entry. rewrite bool_decide_eq_false_2; [done | nia]. }
    rewrite Hrest by lia. by apply csum_one_zeros.
Qed.

End Zero_state_theorem.

(** ** Connecting two dangling edges of a network *)

Section Connect.
Context `{Scalar}.

(** [node.edges[a] = x] *)
Definition set_slot (n a x : nat) (l : list Node) : list Node :=
  match l !! n with
  | Some nr => <[n := mkNode (tensor nr) (<[a := x]> (nedges nr))]> l
  | None => l
  end.

(** The store after [e1 ^ e2], for the records [r1] and [r2] of the two
    edges: a new edge joins the two axes and is bound to both. *)
Definition connect_store (s : Store) (r1 r2 : Edge) : Store :=
  mkStore (set_slot (node1 r2) (axis1 r2) (length (edges s))
             (set_slot (node1 r1) (axis1 r1) (length (edges s)) (nodes s)))
          (edges s ++ [mkEdge (node1 r1) (axis1 r1) (Some (node1 r2, axis1 r2))]).

(** The renaming of edges that a connection induces on the axes. *)
Definition sub (e1 e2 x : nat) (e : nat) : nat :=
  if bool_decide (e = e1 ∨ e = e2) then x else e.

Lemma set_slot_length n a x l : length (set_slot n a x l) = length l.
Proof. unfold set_slot. destruct (l !! n); [by rewrite length_insert | done]. Qed.

Lemma set_slot_lookup n a x l m :
  set_slot n a x l !! m
  = (λ nr, mkNode (tensor nr) (if bool_decide (m = n) then <[a := x]> (nedges nr) else nedges nr))
      <$> l !! m.
Proof.
  unfold set_slot. destruct (l !! n) as [nr|] eqn:Hn.
  - case_bool_decide as Hm.
    + subst m. rewrite list_lookup_insert_eq by (by eapply lookup_lt_Some). by rewrite Hn.
    + rewrite list_lookup_insert_ne by done. destruct (l !! m) as [[t es]|]; done.
  - case_bool_decide as Hm.
    + subst m. by rewrite Hn.
    + destruct (l !! m) as [[t es]|]; done.
Qed.

Lemma connect_store_node s r1 r2 m :
  nodes (connect_store s r1 r2) !! m
  = (λ nr, mkNode (tensor nr)
             ((if bool_decide (m = node1 r2) then <[axis1 r2 := length (edges s)]> else id)
                ((if bool_decide (m = node1 r1) then <[axis1 r1 := length (edges s)]> else id)
                   (nedges nr))))
      <$> nodes s !! m.
Proof.
  unfold connect_store. cbn [nodes]. rewrite !set_slot_lookup.
  destruct (nodes s !! m) as [[t es]|]; [|done]. cbn. by repeat case_bool_decide.
Qed.

Lemma connect_store_edge_old s r1 r2 e :
  is_Some (edges s !! e) → edges (connect_store s r1 r2) !! e = edges s !! e.
Proof. intros He. cbn. apply lookup_app_l, lookup_lt_is_Some, He. Qed.

Lemma connect_store_edge_new s r1 r2 :
  edges (connect_store s r1 r2) !! length (edges s)
  = Some (mkEdge (node1 r1) (axis1 r1) (Some (node1 r2, axis1 r2))).
Proof. cbn. rewrite lookup_app_r by lia. by rewrite Nat.sub_diag. Qed.

Lemma connect_store_edge_dim s r1 r2 r :
  edge_dim (connect_store s r1 r2) r = edge_dim s r.
Proof.
  unfold edge_dim. rewrite connect_store_node.
  destruct (nodes s !! node1 r) as [[t es]|]; done.
Qed.

(** The run of [connect] on two dangling edges of one dimension. *)
Lemma connect_run s e1 e2 r1 r2 d :
  edges s !! e1 = Some r1 → edges s !! e2 = Some r2 →
  end2 r1 = None → end2 r2 = None → e1 ≠ e2 →
  edge_dim s r1 = Some d → edge_dim s r2 = Some d →
  is_Some (slot s (node1 r1) (axis1 r1)) → is_Some (slot s (node1 r2) (axis1 r2)) →
  connect e1 e2 s = Ok (length (edges s)) (connect_store s r1 r2).
Proof.
  intros He1 He2 Hd1 Hd2 Hne Hdim1 Hdim2 [x1 Hs1] [x2 Hs2].
  unfold connect, get_edge_rec. rewrite bind_unfold, He1. cbn [from_option mret M_ret].
  rewrite bind_unfold, He2. cbn [from_option mret M_ret].
  unfold is_dangling. rewrite Hd1, Hd2.
  rewrite !(bool_decide_eq_true_2 (None = None)) by done. cbn [andb negb].
  rewrite (bool_decide_eq_false_2 (e1 = e2)) by done.
  rewrite bind_unfold. cbn [get_state]. rewrite Hdim1, Hdim2.
  rewrite bind_unfold. cbn [from_option mret M_ret].
  rewrite bind_unfold. cbn [from_option mret M_ret].
  rewrite (bool_decide_eq_true_2 (d = d)) by done. cbn [negb].
  rewrite bind_unfold. cbn [alloc_edge].
  unfold slot in Hs1, Hs2.
  destruct (nodes s !! node1 r1) as [nr1|] eqn:Hn1; [|done]. cbn in Hs1.
  rewrite bind_unfold. unfold add_edge at 1. cbn [nodes edges]. rewrite Hn1.
  rewrite bool_decide_eq_true_2 by (by eapply lookup_lt_Some).
  rewrite bind_unfold. unfold add_edge at 1. cbn [nodes edges].
  destruct (nodes s !! node1 r2) as [nr2|] eqn:Hn2; [|done]. cbn in Hs2.
  unfold connect_store, set_slot. rewrite Hn1.
  destruct (decide (node1 r2 = node1 r1)) as [Heq|Hneq].
  - rewrite Heq in *. rewrite list_lookup_insert_eq by (by eapply lookup_lt_Some).
    cbn [nedges tensor]. simplify_eq.
    rewrite bool_decide_eq_true_2; [done|].
    rewrite length_insert. by eapply lookup_lt_Some.
  - rewrite list_lookup_insert_ne by done. rewrite Hn2.
    rewrite bool_decide_eq_true_2 by (by eapply lookup_lt_Some). done.
Qed.

End Connect.

(** ** A connection inside a well-formed network *)

Section Connect_net.
Context `{Scalar}.

Lemma net_ok_perm s ns out out' : out ≡ₚ out' → net_ok s ns out → net_ok s ns out'.
Proof.
  intros Hp (Hns & Hout & Hnodes & Hedges & Hdang & Hfront). unfold net_ok. split_and!; try done.
  - by rewrite <- Hp.
  - eapply Forall_impl; [exact Hdang|]. intros e He Hd. rewrite <- Hp. auto.
  - by rewrite <- Hp.
Qed.

Lemma front_ok_inv s ns e :
  front_ok s ns e →
  ∃ r, edges s !! e = Some r ∧ end2 r = None ∧ node1 r ∈ ns ∧
       slot s (node1 r) (axis1 r) = Some e ∧ edge_dim s r = Some 2 ∧
       ∀ n' i', n' ∈ ns → slot s n' i' = Some e → n' = node1 r ∧ i' = axis1 r.
Proof.
  unfold front_ok. destruct (edges s !! e) as [r|]; [|done].
  intros (H1 & H2 & H3 & H4 & H5). exists r. split_and!; try done.
  by apply bound_only_at_spec.
Qed.

Lemma front_ok_intro s ns e r :
  edges s !! e = Some r → end2 r = None → node1 r ∈ ns →
  slot s (node1 r) (axis1 r) = Some e → edge_dim s r = Some 2 →
  (∀ n' i', n' ∈ ns → slot s n' i' = Some e → n' = node1 r ∧ i' = axis1 r) →
  front_ok s ns e.
Proof.
  intros He H1 H2 H3 H4 H5. unfold front_ok. rewrite He. split_and!; try done.
  by apply bound_only_at_spec.
Qed.

Lemma lookup_insert_cases {A} (l : list A) a i x :
  <[a := x]> l !! i = if bool_decide (i = a ∧ a < length l) then Some x else l !! i.
Proof.
  case_bool_decide as Hc.
  - destruct Hc as [-> Hlt]. by apply list_lookup_insert_eq.
  - destruct (decide (i = a)) as [->|Hne].
    + rewrite list_insert_ge; [done|]. lia.
    + by apply list_lookup_insert_ne.
Qed.

Lemma lookup_insert_cases_if {A} (b : bool) (l : list A) a i x :
  (if b then <[a := x]> else id) l !! i
  = if b && bool_decide (i = a ∧ a < length l) then Some x else l !! i.
Proof. destruct b; [apply lookup_insert_cases | done]. Qed.

(** On the axes of a node where [e1] sits only at [(n1, a1)] and [e2] only
    at [(n2, a2)], rebinding the two axes is the renaming [sub]. *)
Lemma rebind_sub (n n1 a1 n2 a2 e1 e2 x : nat) (l : list nat) :
  (∀ i, l !! i = Some e1 ↔ n = n1 ∧ i = a1) →
  (∀ i, l !! i = Some e2 ↔ n = n2 ∧ i = a2) →
  (if bool_decide (n = n2) then <[a2 := x]> else id)
    ((if bool_decide (n = n1) then <[a1 := x]> else id) l)
  = sub e1 e2 x <$> l.
Proof.
  intros H1 H2. apply list_eq. intros i. rewrite list_lookup_fmap.
  assert (∀ l' : list nat, (if bool_decide (n = n2) then <[a2 := x]> else id) l' !! i
            = if bool_decide (n = n2 ∧ i = a2 ∧ a2 < length l') then Some x else l' !! i) as E2.
  { intros l'. rewrite lookup_insert_cases_if. repeat case_bool_decide; first [done | exfalso; tauto]. }
  assert (∀ l' : list nat, (if bool_decide (n = n1) then <[a1 := x]> else id) l' !! i
            = if bool_decide (n = n1 ∧ i = a1 ∧ a1 < length l') then Some x else l' !! i) as E1.
  { intros l'. rewrite lookup_insert_cases_if. repeat case_bool_decide; first [done | exfalso; tauto]. }
  rewrite E2, E1.
  assert (length ((if bool_decide (n = n1) then <[a1 := x]> else id) l) = length l) as ->.
  { case_bool_decide; [by rewrite length_insert | done]. }
  unfold sub. pose proof (H1 i) as K1. pose proof (H2 i) as K2.
  destruct (decide (n = n2 ∧ i = a2)) as [[-> ->]|N2].
  - pose proof (proj2 K2 (conj eq_refl eq_refl)) as Hi. rewrite Hi. simpl.
    apply lookup_lt_Some in Hi.
    rewrite (bool_decide_eq_true_2 (n2 = n2 ∧ _)) by done.
    by rewrite (bool_decide_eq_true_2 (e2 = e1 ∨ _)) by auto.
  - rewrite (bool_decide_eq_false_2 (n = n2 ∧ _)) by tauto.
    destruct (decide (n = n1 ∧ i = a1)) as [[-> ->]|N1].
    + pose proof (proj2 K1 (conj eq_refl eq_refl)) as Hi. rewrite Hi. simpl.
      apply lookup_lt_Some in Hi.
      rewrite (bool_decide_eq_true_2 (n1 = n1 ∧ _)) by done.
      by rewrite (bool_decide_eq_true_2 (e1 = e1 ∨ _)) by auto.
    + rewrite (bool_decide_eq_false_2 (n = n1 ∧ _)) by tauto.
      destruct (l !! i) as [e|]; [|done]. simpl.
      rewrite bool_decide_eq_false_2; [done|].
      intros [->| ->]; [apply N1 | apply N2]; tauto.
Qed.

Lemma edge_dim_ends s r r' :
  node1 r' = node1 r → axis1 r' = axis1 r → edge_dim s r' = edge_dim s r.
Proof. unfold edge_dim. by intros -> ->. Qed.

Lemma slots_of_fmap s s' (f : nat → nat) ns :
  (∀ n, n ∈ ns → default [] (nedges <$> nodes s' !! n) = f <$> default [] (nedges <$> nodes s !! n)) →
  slots_of s' ns = f <$> slots_of s ns.
Proof.
  unfold slots_of. induction ns as [|n ns IH]; intros Hf; [done|].
  rewrite !bind_cons, fmap_app, Hf by left. f_equal. apply IH. intros m Hm. apply Hf. by right.
Qed.

(** Connecting two output edges of a well-formed network: the run succeeds,
    the store is [connect_store], the axes of the network are renamed by
    [sub], and the rest of the output edges are the output edges of the
    result. *)
Lemma connect_net s NS e1 e2 REST :
  net_ok s NS (e1 :: e2 :: REST) →
  ∃ r1 r2, edges s !! e1 = Some r1 ∧ edges s !! e2 = Some r2 ∧
    end2 r1 = None ∧ end2 r2 = None ∧
    connect e1 e2 s = Ok (length (edges s)) (connect_store s r1 r2) ∧
    net_ok (connect_store s r1 r2) NS REST ∧
    (∀ n nr, n ∈ NS → nodes s !! n = Some nr →
       nodes (connect_store s r1 r2) !! n
       = Some (mkNode (tensor nr) (sub e1 e2 (length (edges s)) <$> nedges nr))) ∧
    (∀ n, n ∉ NS → nodes (connect_store s r1 r2) !! n = nodes s !! n).
Proof.
  intros Hok. pose proof Hok as (Hns & Hout & Hnodes & Hedges & Hdang & Hfront).
  apply Forall_cons in Hfront as [F1 Hfront]. apply Forall_cons in Hfront as [F2 Hfront].
  apply front_ok_inv in F1 as (r1 & He1 & Hd1 & Hn1 & Hs1 & Hdim1 & Hb1).
  apply front_ok_inv in F2 as (r2 & He2 & Hd2 & Hn2 & Hs2 & Hdim2 & Hb2).
  apply NoDup_cons in Hout as [Hne1 Hout]. apply NoDup_cons in Hout as [Hne2 Hout].
  assert (e1 ≠ e2) as Hne by (intros ->; apply Hne1; left).
  exists r1, r2.
  set (x := length (edges s)). set (s' := connect_store s r1 r2).
  assert (Hnode : ∀ n nr, n ∈ NS → nodes s !! n = Some nr →
            nodes s' !! n = Some (mkNode (tensor nr) (sub e1 e2 x <$> nedges nr))).
  { intros n nr Hn Hnr. unfold s'. rewrite connect_store_node, Hnr. simpl. f_equal. f_equal.
    apply rebind_sub.
    - intros i. split.
      + intros Hi. apply (Hb1 n i Hn). unfold slot. by rewrite Hnr.
      + intros [-> ->]. unfold slot in Hs1. by rewrite Hnr in Hs1.
    - intros i. split.
      + intros Hi. apply (Hb2 n i Hn). unfold slot. by rewrite Hnr.
      + intros [-> ->]. unfold slot in Hs2. by rewrite Hnr in Hs2. }
  assert (Hslot : ∀ n i, n ∈ NS → slot s' n i = sub e1 e2 x <$> slot s n i).
  { intros n i Hn. unfold slot. destruct (net_ok_node _ _ _ _ Hok Hn) as [nr Hnr].
    rewrite (Hnode n nr Hn Hnr), Hnr. simpl. by rewrite list_lookup_fmap. }
  assert (Hslots : slots_of s' NS = sub e1 e2 x <$> slots_of s NS).
  { apply slots_of_fmap. intros n Hn. destruct (net_ok_node _ _ _ _ Hok Hn) as [nr Hnr].
    by rewrite (Hnode n nr Hn Hnr), Hnr. }
  assert (Hfresh : ∀ e, e ∈ slots_of s NS → e < x).
  { intros e He. destruct (net_ok_edge_rec _ _ _ _ Hok He) as [r Hr]. by eapply lookup_lt_Some. }
  assert (Hold : ∀ e, e < x → edges s' !! e = edges s !! e).
  { intros e He. apply connect_store_edge_old. by apply lookup_lt_is_Some. }
  assert (Hid : ∀ e, e ≠ e1 → e ≠ e2 → sub e1 e2 x e = e).
  { intros e ? ?. unfold sub. rewrite bool_decide_eq_false_2; [done|]. intros [?|?]; done. }
  assert (Hx : ∀ e, e = e1 ∨ e = e2 → sub e1 e2 x e = x).
  { intros e ?. unfold sub. by rewrite bool_decide_eq_true_2. }
  assert (Hinv : ∀ e e', e' < x → sub e1 e2 x e = e' → e = e' ∧ e ≠ e1 ∧ e ≠ e2).
  { intros e e' Hlt. unfold sub. case_bool_decide as Hc; [lia|]. intros ->. split; [done|].
    split; intros ->; apply Hc; auto. }
  split_and!; try done.
  - apply connect_run with (d := 2); try done; eauto.
  - unfold net_ok. split_and!; try done.
    + eapply Forall_impl; [exact Hnodes|]. intros n [nr Hnr].
      unfold s'. rewrite connect_store_node, Hnr. simpl. eauto.
    + rewrite Hslots. apply Forall_fmap, Forall_forall. intros e He. simpl.
      destruct (decide (e = e1 ∨ e = e2)) as [Hc|Hc].
      * rewrite (Hx e Hc). unfold edge_ok, s', x. rewrite connect_store_edge_new. simpl.
        split_and!; try done.
        rewrite connect_store_edge_dim.
        rewrite (edge_dim_ends s r1) by done. rewrite Hdim1. eauto.
      * rewrite Hid by (intros ->; apply Hc; auto).
        pose proof (net_ok_edge _ _ _ _ Hok He) as Hk. unfold edge_ok in *.
        rewrite (Hold e (Hfresh e He)). destruct (edges s !! e) as [r|]; [|done].
        unfold s'. by rewrite connect_store_edge_dim.
    + rewrite Hslots. apply Forall_fmap, Forall_forall. intros e He. simpl.
      destruct (decide (e = e1 ∨ e = e2)) as [Hc|Hc].
      * rewrite (Hx e Hc). unfold edge_dangling, s', x. rewrite connect_store_edge_new. done.
      * assert (e ≠ e1 ∧ e ≠ e2) as [? ?] by (split; intros ->; apply Hc; auto).
        rewrite Hid by done. unfold edge_dangling. rewrite (Hold e (Hfresh e He)). intros Hd.
        pose proof (proj1 (Forall_forall _ _) Hdang e He Hd) as Hin.
        apply elem_of_cons in Hin as [?|Hin]; [done|].
        apply elem_of_cons in Hin as [?|Hin]; [done|]. done.
    + apply Forall_forall. intros e He.
      pose proof (proj1 (Forall_forall _ _) Hfront e He) as Hf.
      apply front_ok_inv in Hf as (r & Hr & Hd & Hn & Hs & Hdim & Hb).
      assert (e ≠ e1) by (intros ->; apply Hne1; by right).
      assert (e ≠ e2) by (intros ->; by apply Hne2).
      assert (e < x) by (by eapply lookup_lt_Some).
      apply front_ok_intro with (r := r); try done.
      * by rewrite Hold.
      * rewrite Hslot, Hs by done. simpl. by rewrite Hid.
      * unfold s'. by rewrite connect_store_edge_dim.
      * intros n' i' Hn' Hs'. rewrite Hslot in Hs' by done.
        destruct (slot s n' i') as [e0|] eqn:Hs0; [|done]. simpl in Hs'.
        injection Hs' as Hs'. apply Hinv in Hs' as (-> & _); [|done]. by apply Hb.
  - intros n Hn. unfold s'. rewrite connect_store_node.
    rewrite !bool_decide_eq_false_2 by (intros ->; done).
    by destruct (nodes s !! n) as [[t es]|].
Qed.

End Connect_net.

(** ** Wiring: a run of connections inside one network

    The loops of [apply_general_gate] and [expectation] connect output edges
    of a fixed set [BIG] of nodes, two at a time.  [wired τ s OUT] relates
    the store [s] reached after some of these connections to the store [s1]
    before them: the nodes keep their arrays, their axes are renamed by [τ],
    the edge objects of [s1] are as they were, and [OUT] are the output
    edges that are left. *)

Section Wiring.
Context `{Scalar}.
Variables (s1 : Store) (BIG : list nat).

Definition wired (τ : nat → nat) (s : Store) (OUT : list nat) : Prop :=
  net_ok s BIG OUT ∧
  length (edges s1) ≤ length (edges s) ∧
  (∀ e, e < length (edges s1) → edges s !! e = edges s1 !! e) ∧
  (∀ m nr, m ∈ BIG → nodes s1 !! m = Some nr →
     nodes s !! m = Some (mkNode (tensor nr) (τ <$> nedges nr))) ∧
  (∀ m, m ∉ BIG → nodes s !! m = nodes s1 !! m) ∧
  (∀ e, e ∈ OUT → e < length (edges s1) ∧ τ e = e) ∧
  (∀ e, e < length (edges s1) → edge_connected s1 e → τ e = e).

Lemma wired_init OUT : net_ok s1 BIG OUT → wired id s1 OUT.
Proof.
  intros Hok. unfold wired. split_and!; try done.
  - intros m [t es] _ Hm. by rewrite list_fmap_id.
  - intros e He. split; [|done].
    pose proof (net_ok_out_slots _ _ _ _ Hok He) as Hs.
    destruct (net_ok_edge_rec _ _ _ _ Hok Hs) as [r Hr]. by eapply lookup_lt_Some.
Qed.

Lemma wired_perm τ s OUT OUT' : OUT ≡ₚ OUT' → wired τ s OUT → wired τ s OUT'.
Proof.
  intros Hp (Hok & Hlen & Hold & Hin & Hout & Hfix & Hconn). unfold wired. split_and!; try done.
  - by eapply net_ok_perm.
  - intros e He. apply Hfix. by rewrite Hp.
Qed.

Lemma wired_slot τ s OUT m a e :
  wired τ s OUT → m ∈ BIG → slot s1 m a = Some e → slot s m a = Some (τ e).
Proof.
  intros (Hok & Hlen & Hold & Hin & Hout & Hfix & Hconn) Hm Hs. unfold slot in *.
  destruct (nodes s1 !! m) as [nr|] eqn:Hnr; [|done]. simpl in Hs.
  rewrite (Hin m nr Hm Hnr). simpl. by rewrite list_lookup_fmap, Hs.
Qed.

Lemma wired_slot_out τ s OUT m a e :
  wired τ s OUT → m ∈ BIG → e ∈ OUT → slot s1 m a = Some e → slot s m a = Some e.
Proof.
  intros Hw Hm He Hs. rewrite (wired_slot τ s OUT m a e Hw Hm Hs).
  destruct Hw as (_ & _ & _ & _ & _ & Hfix & _). f_equal. by apply Hfix.
Qed.

(** One connection. *)
Lemma wire τ s e1 e2 REST :
  wired τ s (e1 :: e2 :: REST) →
  ∃ r1 r2 s',
    edges s1 !! e1 = Some r1 ∧ edges s1 !! e2 = Some r2 ∧ end2 r1 = None ∧ end2 r2 = None ∧
    connect e1 e2 s = Ok (length (edges s)) s' ∧
    wired (sub e1 e2 (length (edges s)) ∘ τ) s' REST ∧
    length (edges s') = S (length (edges s)) ∧
    (∀ e, e < length (edges s) → edges s' !! e = edges s !! e) ∧
    edges s' !! length (edges s) = Some (mkEdge (node1 r1) (axis1 r1) (Some (node1 r2, axis1 r2))).
Proof.
  intros (Hok & Hlen & Hold & Hin & Hout & Hfix & Hconn).
  destruct (connect_net s BIG e1 e2 REST Hok)
    as (r1 & r2 & He1 & He2 & Hd1 & Hd2 & Hrun & Hok' & Hin' & Hout').
  destruct (Hfix e1) as [Hlt1 Hf1]; [by left|].
  destruct (Hfix e2) as [Hlt2 Hf2]; [right; by left|].
  exists r1, r2, (connect_store s r1 r2).
  rewrite <- (Hold e1 Hlt1), <- (Hold e2 Hlt2).
  split_and!; try done.
  - unfold wired. split_and!; try done.
    + simpl. rewrite length_app. simpl. lia.
    + intros e He. rewrite connect_store_edge_old; [by apply Hold|].
      apply lookup_lt_is_Some. lia.
    + intros m nr Hm Hnr. rewrite (Hin' m _ Hm (Hin m nr Hm Hnr)). simpl.
      by rewrite <- list_fmap_compose.
    + intros m Hm. rewrite Hout' by done. by apply Hout.
    + intros e He. destruct (Hfix e) as [Hlt Hf]; [by do 2 right|]. split; [done|].
      simpl. rewrite Hf. unfold sub. rewrite bool_decide_eq_false_2; [done|].
      destruct Hok as (_ & Hnd & _).
      apply NoDup_cons in Hnd as [N1 Hnd]. apply NoDup_cons in Hnd as [N2 Hnd].
      intros [->| ->]; [apply N1; by right | by apply N2].
    + intros e Hlt Hc. simpl. rewrite (Hconn e Hlt Hc). unfold sub.
      rewrite bool_decide_eq_false_2; [done|].
      unfold edge_connected in Hc.
      intros [->| ->].
      * rewrite <- (Hold e1 Hlt1), He1 in Hc. simpl in Hc. unfold is_dangling in Hc.
        by rewrite Hd1 in Hc.
      * rewrite <- (Hold e2 Hlt2), He2 in Hc. simpl in Hc. unfold is_dangling in Hc.
        by rewrite Hd2 in Hc.
  - simpl. rewrite length_app. simpl. lia.
  - intros e He. apply connect_store_edge_old. by apply lookup_lt_is_Some.
  - apply connect_store_edge_new.
Qed.

End Wiring.

(** ** The loop of [apply_general_gate] *)

Section Gate_loop.
Context `{Scalar}.

Lemma get_edge_slot s m i e : slot s m i = Some e → get_edge m i s = Ok e s.
Proof.
  unfold slot, get_edge, get_node. intros Hs. rewrite bind_unfold.
  destruct (nodes s !! m) as [nr|]; [|done]. simpl in *. by rewrite Hs.
Qed.

Lemma lift_at {A} (m : M Store A) s c a h :
  m s = Ok a h → lift m (mkWorld s c) = Ok a (mkWorld h c).
Proof. intros Hm. unfold lift. simpl. by rewrite Hm. Qed.

Lemma getitem_nat {S A} (l : list A) q x (w : S) :
  l !! q = Some x → getitem l (Z.of_nat q) w = Ok x w.
Proof.
  intros Hq. unfold getitem, py_index. apply lookup_lt_Some in Hq as Hlt.
  rewrite bool_decide_eq_true_2 by lia. simpl. by rewrite Nat2Z.id, Hq.
Qed.

Lemma setitem_nat {S A} (l : list A) q x (w : S) :
  q < length l → setitem l (Z.of_nat q) x w = Ok (<[q := x]> l) w.
Proof.
  intros Hlt. unfold setitem, py_index.
  rewrite bool_decide_eq_true_2 by lia. simpl. by rewrite Nat2Z.id.
Qed.

Lemma insert_Permutation {A} (l : list A) q x y :
  l !! q = Some x → <[q := y]> l ≡ₚ y :: delete q l.
Proof.
  intros Hq. apply lookup_lt_Some in Hq as Hlt.
  rewrite (delete_Permutation (<[q := y]> l) q y) by (by apply list_lookup_insert_eq).
  f_equiv. revert q Hq Hlt. induction l as [|z l IH]; intros [|q] Hq Hlt; simpl in *; try done; try lia.
  f_equiv. apply IH; [done | lia].
Qed.

Lemma NoDup_lookup_take {A} (l : list A) j x : NoDup l → l !! j = Some x → x ∉ take j l.
Proof.
  intros Hnd Hj (i & Hi)%list_elem_of_lookup_1.
  apply lookup_take_Some in Hi as [Hi Hlt].
  pose proof (NoDup_lookup _ _ _ _ Hnd Hi Hj). lia.
Qed.

Lemma wired_fix s1 BIG τ s OUT e : wired s1 BIG τ s OUT → e ∈ OUT → τ e = e.
Proof. intros (_ & _ & _ & _ & _ & Hfix & _) He. by apply Hfix. Qed.

Lemma wired_out_lt s1 BIG τ s OUT e :
  wired s1 BIG τ s OUT → e ∈ OUT → e < length (edges s1).
Proof. intros (_ & _ & _ & _ & _ & Hfix & _) He. by apply Hfix. Qed.

Lemma wired_front_rec s1 BIG τ s OUT e r m a :
  wired s1 BIG τ s OUT → e ∈ OUT → edges s1 !! e = Some r → m ∈ BIG →
  slot s m a = Some e → node1 r = m ∧ axis1 r = a.
Proof.
  intros Hw He Hr Hm Hs. pose proof (wired_out_lt _ _ _ _ _ _ Hw He) as Hlt.
  destruct Hw as (Hok & _ & Hold & _).
  destruct Hok as (_ & _ & _ & _ & _ & Hfront).
  pose proof (proj1 (Forall_forall _ _) Hfront e He) as Hf.
  apply front_ok_inv in Hf as (r' & Hr' & _ & _ & _ & _ & Hb).
  rewrite (Hold e Hlt), Hr in Hr'. injection Hr' as <-.
  destruct (Hb m a Hm Hs) as [-> ->]. done.
Qed.

Lemma sub_ge e1 e2 x e : e1 < e → e2 < e → sub e1 e2 x e = e.
Proof. intros ? ?. unfold sub. rewrite bool_decide_eq_false_2; [done|]. lia. Qed.

Lemma sub_left e1 e2 x : sub e1 e2 x e1 = x.
Proof. unfold sub. by rewrite bool_decide_eq_true_2 by auto. Qed.

Lemma sub_right e1 e2 x : sub e1 e2 x e2 = x.
Proof. unfold sub. by rewrite bool_decide_eq_true_2 by auto. Qed.

End Gate_loop.

Section Gate_run.
Context `{Scalar}.
Variables (s1 : Store) (n : nat) (ns : list nat) (g lg k : nat) (st : option nat).
Variables (qs R0 L0 gouts gins louts lins : list nat).
Hypothesis Hg : ∀ i, slot s1 g i = (gouts ++ gins) !! i.
Hypothesis Hlg : ∀ i, slot s1 lg i = (louts ++ lins) !! i.
Hypothesis Hgo : length gouts = k.
Hypothesis Hgi : length gins = k.
Hypothesis Hlo : length louts = k.
Hypothesis Hli : length lins = k.
Hypothesis Hk : length qs = k.
Hypothesis Hqs : NoDup qs.
Hypothesis Hlt : Forall (λ q, q < n) qs.

(** The output edges after [j] rounds: the fronts, and the legs of the gate
    and of its conjugate that the loop has not reached. *)
Definition gate_out (j : nat) (R L : list nat) : list nat :=
  R ++ L ++ drop j gouts ++ drop j gins ++ drop j louts ++ drop j lins.

(** The state after [j] rounds. *)
Definition gate_inv (j : nat) (τ : nat → nat) (s : Store) (R L : list nat) : Prop :=
  wired s1 (ns ++ [g; lg]) τ s (gate_out j R L) ∧
  length (edges s) = length (edges s1) + 2 * j ∧
  length R = n ∧ length L = n ∧
  (∀ p, p ∉ take j qs → R !! p = R0 !! p ∧ L !! p = L0 !! p) ∧
  (∀ i q, i < j → qs !! i = Some q → R !! q = gouts !! i ∧ L !! q = louts !! i) ∧
  (∀ i q, i < j → qs !! i = Some q →
     ∃ r l gi li rr rl,
       R0 !! q = Some r ∧ L0 !! q = Some l ∧ gins !! i = Some gi ∧ lins !! i = Some li ∧
       edges s1 !! r = Some rr ∧ edges s1 !! l = Some rl ∧
       τ r = length (edges s1) + 2 * i ∧ τ gi = length (edges s1) + 2 * i ∧
       τ l = length (edges s1) + 2 * i + 1 ∧ τ li = length (edges s1) + 2 * i + 1 ∧
       edges s !! (length (edges s1) + 2 * i)
       = Some (mkEdge g (i + k) (Some (node1 rr, axis1 rr))) ∧
       edges s !! (length (edges s1) + 2 * i + 1)
       = Some (mkEdge lg (i + k) (Some (node1 rl, axis1 rl)))).

Lemma gate_perm1 (R Rd L GO GI LO LI : list nat) r gi :
  R ≡ₚ r :: Rd →
  R ++ L ++ GO ++ (gi :: GI) ++ LO ++ LI ≡ₚ gi :: r :: (Rd ++ L ++ GO ++ GI ++ LO ++ LI).
Proof. intros ->. solve_Permutation. Qed.

Lemma gate_perm2 (Rd L Ld GO GI LO LI : list nat) l li :
  L ≡ₚ l :: Ld →
  Rd ++ L ++ GO ++ GI ++ LO ++ (li :: LI) ≡ₚ li :: l :: (Rd ++ Ld ++ GO ++ GI ++ LO ++ LI).
Proof. intros ->. solve_Permutation. Qed.

Lemma gate_perm3 (R' Rd L' Ld GO GI LO LI : list nat) go lo :
  R' ≡ₚ go :: Rd → L' ≡ₚ lo :: Ld →
  Rd ++ Ld ++ (go :: GO) ++ GI ++ (lo :: LO) ++ LI ≡ₚ R' ++ L' ++ GO ++ GI ++ LO ++ LI.
Proof. intros -> ->. solve_Permutation. Qed.

Lemma gate_inv_init : net_ok s1 (ns ++ [g; lg]) (gate_out 0 R0 L0) →
  length R0 = n → length L0 = n → gate_inv 0 id s1 R0 L0.
Proof using All.
  intros Hok HR HL. unfold gate_inv.
  split_and!; try done; try lia; try (intros; lia). by apply wired_init.
Qed.

Lemma gate_step_inv j q τ s R L :
  gate_inv j τ s R L → qs !! j = Some q →
  ∃ τ' s' R' L',
    gate_step g lg k (j, Z.of_nat q) (mkWorld s (mkDM n ns R L st))
    = Ok tt (mkWorld s' (mkDM n ns R' L' st)) ∧
    gate_inv (S j) τ' s' R' L'.
Proof using All.
  intros (Hw & Hlen & HR & HL & Hsame & Hnew & Hrec) Hq.
  assert (j < k) as Hj by (rewrite <- Hk; by eapply lookup_lt_Some).
  assert (q < n) as Hqn.
  { eapply (proj1 (Forall_forall _ _) Hlt). by eapply list_elem_of_lookup_2. }
  destruct (lookup_lt_is_Some_2 gouts j) as [go Hgo']; [lia|].
  destruct (lookup_lt_is_Some_2 gins j) as [gi Hgi']; [lia|].
  destruct (lookup_lt_is_Some_2 louts j) as [lo Hlo']; [lia|].
  destruct (lookup_lt_is_Some_2 lins j) as [li Hli']; [lia|].
  destruct (lookup_lt_is_Some_2 R q) as [r Hr]; [lia|].
  destruct (lookup_lt_is_Some_2 L q) as [l Hl]; [lia|].
  assert (g ∈ ns ++ [g; lg]) as Hgin by (apply elem_of_app; right; left).
  assert (lg ∈ ns ++ [g; lg]) as Hlgin by (apply elem_of_app; right; right; left).
  assert (slot s1 g (j + k) = Some gi) as Sgi.
  { rewrite Hg, lookup_app_r by lia. by replace (j + k - length gouts) with j by lia. }
  assert (slot s1 g j = Some go) as Sgo.
  { rewrite Hg, lookup_app_l by lia. done. }
  assert (slot s1 lg (j + k) = Some li) as Sli.
  { rewrite Hlg, lookup_app_r by lia. by replace (j + k - length louts) with j by lia. }
  assert (slot s1 lg j = Some lo) as Slo.
  { rewrite Hlg, lookup_app_l by lia. done. }
  (* the right side *)
  assert (gate_out j R L ≡ₚ gi :: r ::
            (delete q R ++ L ++ drop j gouts ++ drop (S j) gins ++ drop j louts ++ drop j lins))
    as P1.
  { unfold gate_out. rewrite (drop_S gins gi j Hgi').
    apply gate_perm1. by apply delete_Permutation. }
  pose proof (wired_perm _ _ _ _ _ _ P1 Hw) as Hw1.
  destruct (wire _ _ _ _ _ _ _ Hw1)
    as (r1 & r2 & s2 & Hr1 & Hr2 & Hd1 & Hd2 & Hrun1 & Hw2 & Hlen2 & Hold2 & Hnew2).
  assert (slot s g (j + k) = Some gi) as Sgi'.
  { eapply wired_slot_out; [exact Hw1 | done | by left | done]. }
  assert (slot s2 g j = Some go) as Sgo'.
  { eapply wired_slot_out; [exact Hw2 | done | | done].
    rewrite (drop_S gouts go j Hgo'). rewrite !elem_of_app. right. right. left. by left. }
  (* the left side *)
  assert (delete q R ++ L ++ drop j gouts ++ drop (S j) gins ++ drop j louts ++ drop j lins
          ≡ₚ li :: l ::
            (delete q R ++ delete q L ++ drop j gouts ++ drop (S j) gins ++ drop j louts
               ++ drop (S j) lins)) as P2.
  { rewrite (drop_S lins li j Hli'). apply gate_perm2. by apply delete_Permutation. }
  pose proof (wired_perm _ _ _ _ _ _ P2 Hw2) as Hw2'.
  destruct (wire _ _ _ _ _ _ _ Hw2')
    as (r3 & r4 & s3 & Hr3 & Hr4 & Hd3 & Hd4 & Hrun2 & Hw3 & Hlen3 & Hold3 & Hnew3).
  assert (slot s2 lg (j + k) = Some li) as Sli'.
  { eapply wired_slot_out; [exact Hw2' | done | by left | done]. }
  assert (slot s3 lg j = Some lo) as Slo'.
  { eapply wired_slot_out; [exact Hw3 | done | | done].
    rewrite (drop_S louts lo j Hlo'). rewrite !elem_of_app. do 4 right. left. by left. }
  assert (delete q R ++ delete q L ++ drop j gouts ++ drop (S j) gins ++ drop j louts
            ++ drop (S j) lins
          ≡ₚ gate_out (S j) (<[q := go]> R) (<[q := lo]> L)) as P3.
  { unfold gate_out. rewrite (drop_S gouts go j Hgo'), (drop_S louts lo j Hlo').
    apply gate_perm3; by eapply insert_Permutation. }
  pose proof (wired_perm _ _ _ _ _ _ P3 Hw3) as Hw4.
  exists (sub li l (length (edges s2)) ∘ (sub gi r (length (edges s)) ∘ τ)), s3, (<[q := go]> R), (<[q := lo]> L).
  split.
  - unfold gate_step.
    rewrite (bind_Ok get_self _ _ _ _ eq_refl). cbn [self _rfront _lfront].
    rewrite (bind_Ok _ _ _ _ _ (lift_at _ _ _ _ _ (get_edge_slot _ _ _ _ Sgi'))). 
    rewrite (bind_Ok _ _ _ _ _ (getitem_nat _ _ _ _ Hr)).
    rewrite (bind_Ok _ _ _ _ _ (lift_at _ _ _ _ _ Hrun1)). 
    rewrite (bind_Ok _ _ _ _ _ (lift_at _ _ _ _ _ (get_edge_slot _ _ _ _ Sgo'))). 
    rewrite (bind_Ok _ _ _ _ _ (setitem_nat R q go _ ltac:(lia))).
    rewrite (bind_Ok (set_rfront _) _ _ _ _ eq_refl). cbn [heap self _nqubits _nodes _rfront _lfront state_tensor].
    rewrite (bind_Ok get_self _ _ _ _ eq_refl). cbn [self _rfront _lfront].
    rewrite (bind_Ok _ _ _ _ _ (lift_at _ _ _ _ _ (get_edge_slot _ _ _ _ Sli'))). 
    rewrite (bind_Ok _ _ _ _ _ (getitem_nat _ _ _ _ Hl)).
    rewrite (bind_Ok _ _ _ _ _ (lift_at _ _ _ _ _ Hrun2)). 
    rewrite (bind_Ok _ _ _ _ _ (lift_at _ _ _ _ _ (get_edge_slot _ _ _ _ Slo'))). 
    rewrite (bind_Ok _ _ _ _ _ (setitem_nat L q lo _ ltac:(lia))).
    reflexivity.
  - assert (gi < length (edges s1) ∧ r < length (edges s1)) as [Lgi Lr].
    { split; eapply wired_out_lt; try exact Hw1; [by left | right; by left]. }
    assert (li < length (edges s1) ∧ l < length (edges s1)) as [Lli Ll].
    { split; eapply wired_out_lt; try exact Hw2'; [by left | right; by left]. }
    assert (q ∉ take j qs) as Hqj by (by apply NoDup_lookup_take).
    destruct (Hsame q Hqj) as [HRq HLq].
    unfold gate_inv. split_and!.
    + exact Hw4.
    + lia.
    + by rewrite length_insert.
    + by rewrite length_insert.
    + intros p Hp. rewrite (take_S_r qs j q Hq) in Hp.
      apply not_elem_of_app in Hp as [Hp1 Hp2]. apply not_elem_of_cons in Hp2 as [Hp2 _].
      rewrite !list_lookup_insert_ne by done. by apply Hsame.
    + intros i q' Hi Hq'. destruct (decide (i = j)) as [->|Hij].
      * rewrite Hq in Hq'. injection Hq' as <-.
        rewrite !list_lookup_insert_eq by lia. by rewrite Hgo', Hlo'.
      * assert (q' ≠ q).
        { intros ->. apply Hij. by eapply NoDup_lookup. }
        rewrite !list_lookup_insert_ne by done. apply Hnew; [lia | done].
    + intros i q' Hi Hq'. destruct (decide (i = j)) as [->|Hij].
      * rewrite Hq in Hq'. injection Hq' as <-.
        exists r, l, gi, li, r2, r4.
        destruct (wired_front_rec _ _ _ _ _ gi r1 g (j + k) Hw1) as [Hn1 Ha1];
          [by left | done | done | done |].
        destruct (wired_front_rec _ _ _ _ _ li r3 lg (j + k) Hw2') as [Hn3 Ha3];
          [by left | done | done | done |].
        pose proof (wired_fix _ _ _ _ _ r Hw1 ltac:(right; by left)) as Fr.
        pose proof (wired_fix _ _ _ _ _ gi Hw1 ltac:(by left)) as Fgi.
        pose proof (wired_fix _ _ _ _ _ l Hw2' ltac:(right; by left)) as Fl.
        pose proof (wired_fix _ _ _ _ _ li Hw2' ltac:(by left)) as Fli.
        simpl in Fl, Fli.
        split_and!; try done.
        -- by rewrite <- HRq.
        -- by rewrite <- HLq.
        -- simpl. rewrite Fr, sub_right. rewrite sub_ge by lia. lia.
        -- simpl. rewrite Fgi, sub_left. rewrite sub_ge by lia. lia.
        -- simpl. rewrite Fl, sub_right. lia.
        -- simpl. rewrite Fli, sub_left. lia.
        -- rewrite <- Hlen. rewrite Hold3 by lia. rewrite Hnew2. by rewrite Hn1, Ha1.
        -- replace (length (edges s1) + 2 * j + 1) with (length (edges s2)) by lia.
           rewrite Hnew3. by rewrite Hn3, Ha3.
      * destruct (Hrec i q' ltac:(lia) Hq')
          as (r0 & l0 & gi0 & li0 & rr & rl & E1 & E2 & E3 & E4 & E5 & E6 & T1 & T2 & T3 & T4 & N1 & N2).
        exists r0, l0, gi0, li0, rr, rl. split_and!; try done.
        -- simpl. rewrite T1. rewrite (sub_ge gi r) by lia. by rewrite sub_ge by lia.
        -- simpl. rewrite T2. rewrite (sub_ge gi r) by lia. by rewrite sub_ge by lia.
        -- simpl. rewrite T3. rewrite (sub_ge gi r) by lia. by rewrite sub_ge by lia.
        -- simpl. rewrite T4. rewrite (sub_ge gi r) by lia. by rewrite sub_ge by lia.
        -- rewrite Hold3, Hold2 by lia. done.
        -- rewrite Hold3, Hold2 by lia. done.
Qed.


Lemma gate_loop_inv rest : ∀ j τ s R L,
  gate_inv j τ s R L → j ≤ k → drop j qs = rest →
  ∃ τ' s' R' L',
    for_each (gate_step g lg k) (zip (seq j (length rest)) (Z.of_nat <$> rest))
      (mkWorld s (mkDM n ns R L st))
    = Ok tt (mkWorld s' (mkDM n ns R' L' st)) ∧
    gate_inv k τ' s' R' L'.
Proof using All.
  induction rest as [|q rest IH]; intros j τ s R L Hinv Hj Hdrop.
  - assert (j = k) as ->.
    { apply (f_equal length) in Hdrop. rewrite length_drop in Hdrop. simpl in Hdrop. lia. }
    by exists τ, s, R, L.
  - assert (qs !! j = Some q) as Hq.
    { pose proof (lookup_drop qs j 0) as Hd. rewrite Hdrop, Nat.add_0_r in Hd. by rewrite <- Hd. }
    assert (drop (S j) qs = rest) as Hdrop'.
    { pose proof (drop_drop qs 1 j) as Hd. rewrite Hdrop in Hd. simpl in Hd.
      rewrite drop_0 in Hd. by replace (S j) with (j + 1) by lia. }
    destruct (gate_step_inv j q τ s R L Hinv Hq) as (τ1 & s' & R' & L' & Hrun & Hinv').
    assert (S j ≤ k) as Hj'.
    { apply lookup_lt_Some in Hq. lia. }
    destruct (IH (S j) τ1 s' R' L' Hinv' Hj' Hdrop') as (τ2 & s'' & R'' & L'' & Hrun' & Hinv'').
    exists τ2, s'', R'', L''. split; [|done].
    cbn [length seq fmap list_fmap zip zip_with for_each].
    rewrite (bind_Ok _ _ _ _ _ Hrun). exact Hrun'.
Qed.

End Gate_run.

(** ** [apply_general_gate] on a well-formed circuit *)

Section Gate_ok.
Context `{Scalar}.

(** An operator on [k] qubits that is not wired into any network yet: a
    node of rank [2 * k] whose axes have dimension 2 and carry the node's
    own dangling edges. *)
Definition operator_ok (s : Store) (g k : nat) : Prop :=
  match nodes s !! g with
  | Some gr => length (nedges gr) = 2 * k ∧ net_ok s [g] (nedges gr)
  | None => False
  end.

Global Instance operator_ok_dec s g k : Decision (operator_ok s g k).
Proof. unfold operator_ok. destruct (nodes s !! g); apply _. Defined.

Lemma slots_disjoint s A oA B oB :
  net_ok s A oA → net_ok s B oB → (∀ n, n ∈ A → n ∉ B) →
  ∀ e, e ∈ slots_of s A → e ∉ slots_of s B.
Proof.
  intros HA HB Hdis e HeA HeB.
  pose proof (net_ok_edge _ _ _ _ HA HeA) as KA.
  pose proof (net_ok_edge _ _ _ _ HB HeB) as KB.
  unfold edge_ok in *. destruct (edges s !! e) as [r|]; [|done].
  destruct KA as (KA & _). destruct KB as (KB & _). by apply (Hdis _ KA).
Qed.

Lemma net_ok_lt s ns out n : net_ok s ns out → n ∈ ns → n < length (nodes s).
Proof. intros Hok Hn. apply lookup_lt_is_Some. by eapply net_ok_node. Qed.

Lemma net_ok_slot_lt s ns out e : net_ok s ns out → e ∈ slots_of s ns → e < length (edges s).
Proof. intros Hok He. apply lookup_lt_is_Some. by eapply net_ok_edge_rec. Qed.

(** The conjugated duplicate of an operator, next to the operator and a
    network that does not contain it. *)
Lemma gate_copy_net s ns out g k gr :
  net_ok s ns out → nodes s !! g = Some gr → net_ok s [g] (nedges gr) → g ∉ ns →
  length (nedges gr) = 2 * k →
  let s1 := copy_store s [g] true in
  let lg := length (nodes s) in
  let les := edf s [g] <$> nedges gr in
  _copy [g] None true s = Ok ([lg], les) s1 ∧
  extends s s1 ∧
  nodes s1 !! lg = Some (mkNode (tensor_conj (tensor gr)) les) ∧
  net_ok s1 (ns ++ [g; lg])
    (out ++ take k (nedges gr) ++ drop k (nedges gr) ++ take k les ++ drop k les).
Proof.
  intros Hok Hgr Hgok Hgn Hrank s1 lg les.
  pose proof Hgok as (Gnd & Gout & Gnodes & Gedges & Gdang & Gfront).
  assert (slots_of s [g] = nedges gr) as Hges by (by apply slots_of_single).
  assert (ndf s [g] g = lg) as Hlg.
  { unfold ndf, lg. simpl. rewrite bool_decide_eq_true_2 by done. lia. }
  assert (extends s s1) as Hext by apply extends_copy_store.
  assert (nodes s1 !! lg = Some (mkNode (tensor_conj (tensor gr)) les)) as Hlgr.
  { rewrite <- Hlg. unfold s1. by rewrite (copied_single s g true gr Hgr). }
  split_and!; try done.
  - rewrite (_copy_ok s [g] None true Gnd Gnodes Gedges).
    + cbn [front_arg]. rewrite Hges. simpl. by rewrite Hlg.
    + cbn [front_arg]. by apply Forall_forall.
  - assert (net_ok s1 [lg] les) as Hlok.
    { pose proof (copy_net_ok s [g] true Gnd Gnodes Gedges (nedges gr) Hgok) as Hc.
      simpl in Hc. by rewrite Hlg in Hc. }
    assert (net_ok s1 (ns ++ [g]) (nedges gr ++ out)) as U1.
    { apply net_ok_union.
      - by eapply extends_net_ok.
      - by eapply extends_net_ok.
      - intros n Hn. apply list_elem_of_singleton in Hn as ->. done.
      - eapply slots_disjoint; [by eapply extends_net_ok, Hgok | by eapply extends_net_ok, Hok |].
        intros n Hn. apply list_elem_of_singleton in Hn as ->. done. }
    assert (net_ok s1 ((ns ++ [g]) ++ [lg]) (les ++ nedges gr ++ out)) as U2.
    { apply net_ok_union; [done | done | |].
      - intros n Hn. apply list_elem_of_singleton in Hn as ->.
        intros Hin. apply elem_of_app in Hin as [Hin|Hin].
        + pose proof (net_ok_lt _ _ _ _ Hok Hin). unfold lg in *. lia.
        + apply list_elem_of_singleton in Hin. apply lookup_lt_Some in Hgr. unfold lg in *. lia.
      - eapply slots_disjoint; [exact Hlok | exact U1 |].
        intros n Hn. apply list_elem_of_singleton in Hn as ->.
        intros Hin. apply elem_of_app in Hin as [Hin|Hin].
        + pose proof (net_ok_lt _ _ _ _ Hok Hin). unfold lg in *. lia.
        + apply list_elem_of_singleton in Hin. apply lookup_lt_Some in Hgr. unfold lg in *. lia. }
    rewrite <- app_assoc in U2. simpl in U2.
    eapply net_ok_perm; [|exact U2].
    rewrite (app_assoc (take k (nedges gr))), !take_drop. solve_Permutation.
Qed.

Lemma apply_general_gate_run s c g qs gr :
  dm_ok s c → nodes s !! g = Some gr → net_ok s [g] (nedges gr) →
  length (nedges gr) = 2 * length qs →
  g ∉ _nodes c → NoDup qs → Forall (λ q, q < _nqubits c) qs →
  let k := length qs in
  let s1 := copy_store s [g] true in
  let lg := length (nodes s) in
  let les := edf s [g] <$> nedges gr in
  ∃ τ s' R' L',
    apply_general_gate g (Z.of_nat <$> qs) (mkWorld s c)
    = Ok tt (mkWorld s' (mkDM (_nqubits c) ((_nodes c ++ [g]) ++ [lg]) R' L' None)) ∧
    gate_inv s1 (_nqubits c) (_nodes c) g lg k qs (_rfront c) (_lfront c)
      (take k (nedges gr)) (drop k (nedges gr)) (take k les) (drop k les) k τ s' R' L' ∧
    dm_ok s' (mkDM (_nqubits c) ((_nodes c ++ [g]) ++ [lg]) R' L' None).
Proof.
  intros Hdm Hgr Hgok Hrank Hgn Hnd Hlt k s1 lg les.
  destruct c as [n ns R L st]. simpl in *.
  pose proof Hdm as (Hok & HR & HL & Hc & Hz). simpl in *.
  destruct (gate_copy_net s ns (R ++ L) g k gr Hok Hgr Hgok Hgn Hrank)
    as (Hcopy & Hext & Hlgr & Hnet).
  fold s1 lg les in Hcopy, Hext, Hlgr, Hnet.
  assert (nodes s1 !! g = Some gr) as Hgr1 by (by apply Hext).
  assert (length les = 2 * k) as Hles by (unfold les; by rewrite length_fmap).
  assert (Hg : ∀ i, slot s1 g i = (take k (nedges gr) ++ drop k (nedges gr)) !! i).
  { intros i. rewrite take_drop. unfold slot. by rewrite Hgr1. }
  assert (Hlg : ∀ i, slot s1 lg i = (take k les ++ drop k les) !! i).
  { intros i. rewrite take_drop. unfold slot. by rewrite Hlgr. }
  assert (length (take k (nedges gr)) = k) as Hgo by (rewrite length_take; lia).
  assert (length (drop k (nedges gr)) = k) as Hgi by (rewrite length_drop; lia).
  assert (length (take k les) = k) as Hlo by (rewrite length_take; lia).
  assert (length (drop k les) = k) as Hli by (rewrite length_drop; lia).
  assert (gate_inv s1 n ns g lg k qs R L (take k (nedges gr)) (drop k (nedges gr))
            (take k les) (drop k les) 0 id s1 R L) as Hinit.
  { apply (gate_inv_init s1 n ns g lg k st); try done.
    unfold gate_out. rewrite !drop_0. by rewrite <- app_assoc in Hnet. }
  destruct (gate_loop_inv s1 n ns g lg k st qs R L _ _ _ _ Hg Hlg Hgo Hgi Hlo Hli eq_refl
              Hnd Hlt qs 0 id s1 R L Hinit ltac:(lia) eq_refl)
    as (τ & s' & R' & L' & Hrun & Hinv).
  exists τ, s', R', L'. split_and!; [|done|].
  - unfold apply_general_gate.
    assert (all_distinct (Z.of_nat <$> qs) = true) as ->.
    { apply all_distinct_NoDup. apply NoDup_fmap; [|done]. intros x y. lia. }
    cbn [py_assert]. rewrite (bind_Ok (mret tt) _ _ tt _ eq_refl).
    rewrite (bind_Ok _ _ _ _ _ (lift_at _ _ _ _ _ Hcopy)). cbn [fst snd lookup list_lookup from_option].
    rewrite (bind_Ok (mret lg) _ _ lg _ eq_refl).
    unfold enumerate. rewrite !length_fmap.
    rewrite (bind_Ok _ _ _ _ _ Hrun). reflexivity.
  - pose proof Hinv as (Hw & Hlen & HR' & HL' & _).
    assert (gate_out (take k (nedges gr)) (drop k (nedges gr)) (take k les) (drop k les) k R' L'
            = R' ++ L') as Hout.
    { unfold gate_out. rewrite !drop_ge by lia. by rewrite !app_nil_r. }
    rewrite Hout in Hw. pose proof Hw as (Hok' & _ & _ & Hin & _).
    unfold dm_ok. cbn [_nodes _rfront _lfront _nqubits]. rewrite <- app_assoc.
    split_and!; try done.
    intros Hnil. apply app_eq_nil in Hnil as [-> _]. simpl in HR'.
    assert (n = 0) as Hn0 by done. clear HR'. rewrite Hn0 in *.
    assert (qs = []) as ->.
    { destruct qs as [|q qs']; [done|]. apply Forall_cons in Hlt as [Hq _]. lia. }
    simpl in *. apply length_zero_iff_nil in Hrank.
    apply length_zero_iff_nil in HR. apply length_zero_iff_nil in HL. subst R L.
    rewrite (slots_of_fmap s1 s' τ).
    + rewrite !slots_of_app.
      rewrite (agree_slots_of ns s s1) by (by eapply extends_agree).
      rewrite (Hz eq_refl). change [g; lg] with ([g] ++ [lg]).
      rewrite (slots_of_app s1 [g] [lg]).
      rewrite (slots_of_single s1 g gr Hgr1), Hrank.
      erewrite (slots_of_single s1 lg) by done. simpl. unfold les. by rewrite Hrank.
    + intros m Hm. destruct (net_ok_node _ _ _ _ Hnet Hm) as [nr Hnr].
      by rewrite (Hin m nr Hm Hnr), Hnr.
Qed.

End Gate_ok.

(** ** The loops of [expectation] *)

Section Expectation_fronts.
Context `{Scalar}.

(** The operators of a call, with their indices as Python ints. *)
Definition op_args (ops : list (nat * list nat)) : list (nat * list Z) :=
  (λ o : nat * list nat, (o.1, Z.of_nat <$> o.2)) <$> ops.

(** Operators that are distinct nodes form one network, with all their legs
    as output edges. *)
Lemma ops_net s (ops : list (nat * list nat)) :
  Forall (λ o : nat * list nat, operator_ok s o.1 (length o.2)) ops → NoDup (ops.*1) →
  net_ok s (ops.*1) (slots_of s (ops.*1)).
Proof.
  induction ops as [|o ops IH]; intros Hops Hnd.
  - unfold net_ok, slots_of. simpl. split_and!; constructor.
  - apply Forall_cons in Hops as [Ho Hops]. rewrite fmap_cons in *.
    apply NoDup_cons in Hnd as [Hno Hnd].
    unfold operator_ok in Ho. destruct (nodes s !! o.1) as [gr|] eqn:Hgr; [|done].
    destruct Ho as [_ Hok].
    change (o.1 :: ops.*1) with ([o.1] ++ ops.*1).
    rewrite slots_of_app, (slots_of_single s o.1 gr Hgr).
    eapply net_ok_perm; [|apply (net_ok_union s (ops.*1) (slots_of s (ops.*1)) [o.1] (nedges gr))].
    + solve_Permutation.
    + by apply IH.
    + done.
    + intros n Hn Hin. apply list_elem_of_singleton in Hin as ->. done.
    + eapply slots_disjoint; [by apply IH | exact Hok |].
      intros n Hn Hin. apply list_elem_of_singleton in Hin as ->. done.
Qed.

(** The front edges of the qubits that no operator has been bound to: for
    each such qubit the copy of its left front, then of its right front. *)
Definition free_fronts (occ : gset Z) (l : list (nat * (nat * nat))) : list nat :=
  filter (λ x, Z.of_nat x.1 ∉ occ) l ≫= λ x, [x.2.1; x.2.2].

Lemma free_fronts_cons occ x l :
  free_fronts occ (x :: l)
  = (if bool_decide (Z.of_nat x.1 ∉ occ) then [x.2.1; x.2.2] else []) ++ free_fronts occ l.
Proof.
  unfold free_fronts. rewrite filter_cons.
  destruct (decide (Z.of_nat x.1 ∉ occ)) as [Hx|Hx].
  - rewrite bool_decide_eq_true_2 by done. by rewrite bind_cons.
  - by rewrite bool_decide_eq_false_2 by done.
Qed.

Lemma free_fronts_skip occ q l :
  q ∉ l.*1 → free_fronts ({[Z.of_nat q]} ∪ occ) l = free_fronts occ l.
Proof.
  intros Hq. unfold free_fronts. f_equal. apply filter_ext_in. intros x Hx.
  assert (x.1 ≠ q) as Hne.
  { intros <-. apply Hq. apply list_elem_of_fmap. by exists x. }
  rewrite not_elem_of_union, not_elem_of_singleton. split; [tauto|]. split; [lia | done].
Qed.

Lemma free_fronts_take occ l q a b :
  NoDup (l.*1) → (q, (a, b)) ∈ l → Z.of_nat q ∉ occ →
  free_fronts occ l ≡ₚ a :: b :: free_fronts ({[Z.of_nat q]} ∪ occ) l.
Proof.
  induction l as [|x l IH]; intros Hnd Hin Hq; [by apply elem_of_nil in Hin|].
  rewrite fmap_cons in Hnd. apply NoDup_cons in Hnd as [Hx Hnd].
  rewrite !free_fronts_cons.
  apply elem_of_cons in Hin as [<-|Hin].
  - simpl. rewrite bool_decide_eq_true_2 by done.
    rewrite (bool_decide_eq_false_2 (_ ∉ {[_]} ∪ occ)) by set_solver.
    simpl. by rewrite free_fronts_skip.
  - assert (x.1 ≠ q) as Hne.
    { intros <-. apply Hx. apply list_elem_of_fmap. by exists (x.1, (a, b)). }
    rewrite (IH Hnd Hin Hq).
    assert (bool_decide (Z.of_nat x.1 ∉ {[Z.of_nat q]} ∪ occ) = bool_decide (Z.of_nat x.1 ∉ occ)) as ->.
    { apply bool_decide_ext. rewrite not_elem_of_union, not_elem_of_singleton.
      split; [tauto|]. split; [lia | done]. }
    case_bool_decide; simpl; [solve_Permutation | done].
Qed.

Lemma free_fronts_init (A B : list nat) i :
  length A = length B →
  free_fronts ∅ (zip (seq i (length A)) (zip A B)) ≡ₚ B ++ A.
Proof.
  revert B i. induction A as [|a A IH]; intros [|b B] i Hlen; simpl in *; try done.
  rewrite free_fronts_cons. simpl. rewrite bool_decide_eq_true_2 by set_solver.
  rewrite IH by lia. simpl. solve_Permutation.
Qed.

Lemma zip3_lookup (A B : list nat) q a b :
  A !! q = Some a → B !! q = Some b →
  (q, (a, b)) ∈ zip (seq 0 (length A)) (zip A B).
Proof.
  intros Ha Hb. apply list_elem_of_lookup. exists q.
  apply lookup_zip_with_Some. exists q, (a, b). split; [done|]. split.
  - apply lookup_seq. split; [done|]. by eapply lookup_lt_Some.
  - apply lookup_zip_with_Some. by exists a, b.
Qed.

End Expectation_fronts.

(** [fresh_all occ l]: no index of [l] is in [occ] or occurs twice in [l],
    as the loop of [expectation] checks it, index by index. *)
Fixpoint fresh_all (occ : gset Z) (l : list nat) : Prop :=
  match l with
  | [] => True
  | q :: l' => (Z.of_nat q ∉ occ) ∧ fresh_all ({[Z.of_nat q]} ∪ occ) l'
  end.

Fixpoint add_all (occ : gset Z) (l : list nat) : gset Z :=
  match l with
  | [] => occ
  | q :: l' => add_all ({[Z.of_nat q]} ∪ occ) l'
  end.

Global Instance fresh_all_dec occ l : Decision (fresh_all occ l).
Proof. revert occ. induction l as [|q l IH]; intros occ; simpl; apply _. Defined.

Lemma fresh_all_app occ l1 l2 :
  fresh_all occ (l1 ++ l2) ↔ fresh_all occ l1 ∧ fresh_all (add_all occ l1) l2.
Proof.
  revert occ. induction l1 as [|q l1 IH]; intros occ; simpl; [tauto|]. rewrite IH. tauto.
Qed.

Lemma add_all_app occ l1 l2 : add_all occ (l1 ++ l2) = add_all (add_all occ l1) l2.
Proof. revert occ. induction l1 as [|q l1 IH]; intros occ; simpl; [done|]. by rewrite IH. Qed.

Lemma fresh_all_NoDup occ l :
  fresh_all occ l ↔ NoDup l ∧ ∀ q, q ∈ l → Z.of_nat q ∉ occ.
Proof.
  revert occ. induction l as [|q l IH]; intros occ; simpl.
  - split; [intros _; split; [constructor | intros q Hq; by apply elem_of_nil in Hq] | done].
  - rewrite IH, NoDup_cons. split.
    + intros (Hq & Hnd & Hl). split_and!.
      * intros Hin. apply (Hl q Hin). apply elem_of_union. left. by apply elem_of_singleton.
      * done.
      * intros q' [->|Hq']%elem_of_cons; [done|]. specialize (Hl q' Hq').
        intros Hc. apply Hl, elem_of_union. by right.
    + intros ((Hq & Hnd) & Hl). split_and!.
      * apply Hl. by left.
      * done.
      * intros q' Hq'. rewrite not_elem_of_union, not_elem_of_singleton. split.
        -- intros Heq. apply Nat2Z.inj in Heq. by subst.
        -- apply Hl. by right.
Qed.

Section Expectation_loops.
Context `{Scalar}.
Variables (s1 : Store) (BIG : list nat) (n : nat) (RR LL : list nat).
Hypothesis HRR : length RR = n.
Hypothesis HLL : length LL = n.

(** The qubits with the copies of their fronts. *)
Definition fronts_table : list (nat * (nat * nat)) := zip (seq 0 (length LL)) (zip LL RR).

Lemma exp_perm1 (F F' GO GI later : list nat) lq rq go :
  F ≡ₚ lq :: rq :: F' →
  F ++ (go :: GO) ++ GI ++ later ≡ₚ lq :: go :: (rq :: F' ++ GO ++ GI ++ later).
Proof. intros ->. solve_Permutation. Qed.

Lemma exp_perm2 (F' GO GI later : list nat) rq gi :
  rq :: F' ++ GO ++ (gi :: GI) ++ later ≡ₚ rq :: gi :: (F' ++ GO ++ GI ++ later).
Proof. solve_Permutation. Qed.

(** One leg of an operator, at a qubit that is free. *)
Lemma expectation_leg_ok op k gouts gins later j q occ τ s :
  op ∈ BIG → (∀ i, slot s1 op i = (gouts ++ gins) !! i) →
  length gouts = k → length gins = k →
  wired s1 BIG τ s (free_fronts occ fronts_table ++ drop j gouts ++ drop j gins ++ later) →
  j < k → q < n → Z.of_nat q ∉ occ →
  ∃ τ' s',
    expectation_leg n (RR ++ LL) op k occ (j, Z.of_nat q) s
    = Ok ({[Z.of_nat q]} ∪ occ) s' ∧
    wired s1 BIG τ' s'
      (free_fronts ({[Z.of_nat q]} ∪ occ) fronts_table
         ++ drop (S j) gouts ++ drop (S j) gins ++ later).
Proof using All.
  intros Hop Hslots Hgo Hgi Hw Hj Hq Hocc.
  destruct (lookup_lt_is_Some_2 gouts j) as [go Hgo']; [lia|].
  destruct (lookup_lt_is_Some_2 gins j) as [gi Hgi']; [lia|].
  destruct (lookup_lt_is_Some_2 RR q) as [rq Hrq]; [lia|].
  destruct (lookup_lt_is_Some_2 LL q) as [lq Hlq]; [lia|].
  assert (slot s1 op j = Some go) as Sgo by (rewrite Hslots, lookup_app_l by lia; done).
  assert (slot s1 op (j + k) = Some gi) as Sgi.
  { rewrite Hslots, lookup_app_r by lia. by replace (j + k - length gouts) with j by lia. }
  assert (free_fronts occ fronts_table
          ≡ₚ lq :: rq :: free_fronts ({[Z.of_nat q]} ∪ occ) fronts_table) as PF.
  { apply free_fronts_take; [|by apply zip3_lookup|done].
    unfold fronts_table. rewrite fst_zip; [apply NoDup_seq|].
    rewrite length_seq, length_zip_with. lia. }
  pose proof (exp_perm1 _ _ (drop (S j) gouts) (drop j gins) later lq rq go PF) as P1.
  rewrite <- (drop_S gouts go j Hgo') in P1.
  pose proof (wired_perm _ _ _ _ _ _ P1 Hw) as Hw1.
  destruct (wire _ _ _ _ _ _ _ Hw1)
    as (r1 & r2 & s2 & Hr1 & Hr2 & Hd1 & Hd2 & Hrun1 & Hw2 & Hlen2 & Hold2 & Hnew2).
  assert (slot s op j = Some go) as Sgo'.
  { eapply wired_slot_out; [exact Hw1 | done | right; by left | done]. }
  rewrite (drop_S gins gi j Hgi') in Hw2.
  pose proof (wired_perm _ _ _ _ _ _ (exp_perm2 _ _ _ _ _ _) Hw2) as Hw2'.
  destruct (wire _ _ _ _ _ _ _ Hw2')
    as (r3 & r4 & s3 & Hr3 & Hr4 & Hd3 & Hd4 & Hrun2 & Hw3 & Hlen3 & Hold3 & Hnew3).
  assert (slot s2 op (j + k) = Some gi) as Sgi'.
  { eapply wired_slot_out; [exact Hw2' | done | right; by left | done]. }
  eexists _, s3. split; [|exact Hw3].
  unfold expectation_leg. rewrite bool_decide_eq_false_2 by done.
  rewrite <- Nat2Z.inj_add.
  assert ((RR ++ LL) !! (q + n) = Some lq) as Hlq'.
  { rewrite lookup_app_r by lia. by replace (q + n - length RR) with q by lia. }
  assert ((RR ++ LL) !! q = Some rq) as Hrq' by (by rewrite lookup_app_l by lia).
  rewrite (bind_Ok _ _ _ _ _ (getitem_nat _ _ _ _ Hlq')).
  rewrite (bind_Ok _ _ _ _ _ (get_edge_slot _ _ _ _ Sgo')).
  rewrite (bind_Ok _ _ _ _ _ Hrun1).
  rewrite (bind_Ok _ _ _ _ _ (getitem_nat _ _ _ _ Hrq')).
  rewrite (bind_Ok _ _ _ _ _ (get_edge_slot _ _ _ _ Sgi')).
  rewrite (bind_Ok _ _ _ _ _ Hrun2). reflexivity.
Qed.

Lemma expectation_leg_occupied op k newdang j e occ (s : Store) :
  e ∈ occ → expectation_leg n newdang op k occ (j, e) s = Raise ValueError s.
Proof. intros He. unfold expectation_leg. by rewrite bool_decide_eq_true_2. Qed.

(** The legs of one operator: they are all bound when the indices are
    fresh, and the first index that is not raises ValueError. *)
Lemma expectation_legs op k gouts gins later rest : ∀ j occ τ s,
  op ∈ BIG → (∀ i, slot s1 op i = (gouts ++ gins) !! i) →
  length gouts = k → length gins = k →
  wired s1 BIG τ s (free_fronts occ fronts_table ++ drop j gouts ++ drop j gins ++ later) →
  j + length rest = k → Forall (λ q, q < n) rest →
  (fresh_all occ rest →
   ∃ τ' s',
     fold_M (expectation_leg n (RR ++ LL) op k) (zip (seq j (length rest)) (Z.of_nat <$> rest))
       occ s
     = Ok (add_all occ rest) s' ∧
     wired s1 BIG τ' s' (free_fronts (add_all occ rest) fronts_table ++ later)) ∧
  (¬ fresh_all occ rest →
   ∃ s',
     fold_M (expectation_leg n (RR ++ LL) op k) (zip (seq j (length rest)) (Z.of_nat <$> rest))
       occ s
     = Raise ValueError s').
Proof using All.
  induction rest as [|q rest IH]; intros j occ τ s Hop Hslots Hgo Hgi Hw Hj Hlt.
  - simpl in *. split; [|tauto]. intros _. exists τ, s. split; [done|].
    rewrite !drop_ge in Hw by lia. done.
  - apply Forall_cons in Hlt as [Hq Hlt]. simpl in Hj.
    cbn [length seq fmap list_fmap zip zip_with fold_M fresh_all add_all].
    destruct (decide (Z.of_nat q ∈ occ)) as [Hin|Hnin].
    + split; [tauto|]. intros _. exists s.
      by rewrite (bind_Raise _ _ _ _ _ (expectation_leg_occupied op k _ j _ occ s Hin)).
    + destruct (expectation_leg_ok op k gouts gins later j q occ τ s) as (τ1 & s2 & Hrun & Hw');
        try done; [lia|].
      destruct (IH (S j) ({[Z.of_nat q]} ∪ occ) τ1 s2) as [IH1 IH2]; try done; [lia|].
      split.
      * intros [_ Hf]. destruct (IH1 Hf) as (τ' & s' & Hrun' & Hw'').
        exists τ', s'. split; [|done]. by rewrite (bind_Ok _ _ _ _ _ Hrun).
      * intros Hf. destruct IH2 as (s' & Hrun'); [tauto|].
        exists s'. by rewrite (bind_Ok _ _ _ _ _ Hrun).
Qed.

(** The operators of a call, one after the other. *)
Lemma expectation_ops (rest : list (nat * list nat)) : ∀ occ τ s acc,
  Forall (λ o : nat * list nat,
            o.1 ∈ BIG ∧ Forall (λ q, q < n) o.2 ∧
            ∃ gr, nodes s1 !! o.1 = Some gr ∧ length (nedges gr) = 2 * length o.2) rest →
  wired s1 BIG τ s (free_fronts occ fronts_table ++ slots_of s1 (rest.*1)) →
  (fresh_all occ (concat (rest.*2)) →
   ∃ τ' s',
     fold_M (expectation_op n (RR ++ LL)) (op_args rest) (occ, acc) s
     = Ok (add_all occ (concat (rest.*2)), acc ++ rest.*1) s' ∧
     wired s1 BIG τ' s' (free_fronts (add_all occ (concat (rest.*2))) fronts_table)) ∧
  (¬ fresh_all occ (concat (rest.*2)) →
   ∃ s', fold_M (expectation_op n (RR ++ LL)) (op_args rest) (occ, acc) s = Raise ValueError s').
Proof using All.
  induction rest as [|o rest IH]; intros occ τ s acc Hops Hw.
  - simpl in *. split; [|tauto]. intros _. exists τ, s. rewrite !app_nil_r in *. done.
  - apply Forall_cons in Hops as [(Hop & Hlt & gr & Hgr & Hrank) Hops].
    rewrite !fmap_cons in *. cbn [concat] in *.
    change (op_args (o :: rest)) with ((o.1, Z.of_nat <$> o.2) :: op_args rest).
    cbn [fold_M].
    set (k := length o.2) in *.
    assert (Hstep : ∀ st,
      expectation_op n (RR ++ LL) (occ, acc) (o.1, Z.of_nat <$> o.2) st
      = match fold_M (expectation_leg n (RR ++ LL) o.1 k) (zip (seq 0 k) (Z.of_nat <$> o.2)) occ st
        with
        | Ok occ' s' => Ok (occ', acc ++ [o.1]) s'
        | Raise e s' => Raise e s'
        end).
    { intros st. unfold expectation_op, enumerate. cbn [fst snd].
      rewrite length_fmap, bind_unfold. fold k. by destruct (fold_M _ _ _ _). }
    assert (slots_of s1 (o.1 :: rest.*1) = nedges gr ++ slots_of s1 (rest.*1)) as Hsl.
    { change (o.1 :: rest.*1) with ([o.1] ++ rest.*1).
      by rewrite slots_of_app, (slots_of_single s1 o.1 gr Hgr). }
    rewrite Hsl in Hw. rewrite <- (take_drop k (nedges gr)) in Hw. rewrite <- app_assoc in Hw.
    destruct (expectation_legs o.1 k (take k (nedges gr)) (drop k (nedges gr))
                (slots_of s1 (rest.*1)) o.2 0 occ τ s) as [L1 L2]; try done.
    { intros i. rewrite take_drop. unfold slot. by rewrite Hgr. }
    { rewrite length_take. lia. }
    { rewrite length_drop. lia. }
    fold k in L1, L2.
    destruct (decide (fresh_all occ o.2)) as [Hf|Hf].
    + destruct (L1 Hf) as (τ1 & s2 & Hrun & Hw').
      destruct (IH (add_all occ o.2) τ1 s2 (acc ++ [o.1]) Hops Hw') as [IH1 IH2].
      split.
      * intros [_ Hf']%fresh_all_app. destruct (IH1 Hf') as (τ' & s' & Hrun' & Hw'').
        exists τ', s'. rewrite add_all_app. split; [|done].
        rewrite bind_unfold, Hstep, Hrun, Hrun'. by rewrite <- app_assoc.
      * intros Hf'. destruct IH2 as (s' & Hrun').
        { intros Hf''. apply Hf'. by apply fresh_all_app. }
        exists s'. by rewrite bind_unfold, Hstep, Hrun.
    + destruct (L2 Hf) as (s' & Hrun). split.
      * intros [Hf' _]%fresh_all_app. done.
      * intros _. exists s'. by rewrite bind_unfold, Hstep, Hrun.
Qed.

End Expectation_loops.

(** ** [expectation] on repeated indices *)

Section Expectation_errors.
Context `{Scalar}.

(** The operators of a call to [expectation] on the circuit [c]: distinct
    nodes outside the circuit, each an operator on as many qubits as its
    index list is long, with indices in range. *)
Definition ops_ok (s : Store) (c : DMCircuit) (ops : list (nat * list nat)) : Prop :=
  NoDup (ops.*1) ∧
  Forall (λ o : nat * list nat,
            operator_ok s o.1 (length o.2) ∧ (o.1 ∉ _nodes c) ∧
            Forall (λ q, q < _nqubits c) o.2) ops.

Global Instance ops_ok_dec s c ops : Decision (ops_ok s c ops).
Proof. unfold ops_ok. apply _. Defined.

Lemma operator_ok_extends s s' g k : extends s s' → operator_ok s g k → operator_ok s' g k.
Proof.
  intros Hext. unfold operator_ok. destruct (nodes s !! g) as [gr|] eqn:Hgr; [|done].
  rewrite (proj1 Hext g gr Hgr). intros [Hrank Hok]. split; [done|]. by eapply extends_net_ok.
Qed.

Lemma lift_raise_at {A} (m : M Store A) s c e h :
  m s = Raise e h → lift m (mkWorld s c) = Raise e (mkWorld h c).
Proof. intros Hm. unfold lift. simpl. by rewrite Hm. Qed.

(** The network [expectation] works on: the copy of the circuit and the
    operators. *)
Lemma expectation_net s c ops :
  dm_ok s c → ops_ok s c ops →
  let s1 := copy_store s (_nodes c) false in
  let cn := ndf s (_nodes c) <$> _nodes c in
  let RR := edf s (_nodes c) <$> _rfront c in
  let LL := edf s (_nodes c) <$> _lfront c in
  _copy (_nodes c) (Some (_rfront c ++ _lfront c)) false s = Ok (cn, RR ++ LL) s1 ∧
  extends s s1 ∧
  wired s1 (cn ++ ops.*1) id s1 (free_fronts ∅ (fronts_table RR LL) ++ slots_of s1 (ops.*1)) ∧
  Forall (λ o : nat * list nat,
            o.1 ∈ cn ++ ops.*1 ∧ Forall (λ q, q < _nqubits c) o.2 ∧
            ∃ gr, nodes s1 !! o.1 = Some gr ∧ length (nedges gr) = 2 * length o.2) ops.
Proof.
  intros Hdm [Hnd Hops] s1 cn RR LL.
  pose proof Hdm as (Hok & HR & HL & Hc & Hz).
  pose proof Hok as (Cnd & _ & Cnodes & Cedges & _).
  assert (extends s s1) as Hext by apply extends_copy_store.
  assert (net_ok s1 cn (RR ++ LL)) as Hcn.
  { unfold RR, LL. rewrite <- fmap_app. by apply copy_net_ok. }
  assert (Forall (λ o : nat * list nat, operator_ok s1 o.1 (length o.2)) ops) as Hops1.
  { eapply Forall_impl; [exact Hops|]. intros o (Ho & _). by eapply operator_ok_extends. }
  pose proof (ops_net s1 ops Hops1 Hnd) as Honet.
  assert (∀ m, m ∈ ops.*1 → m ∉ cn) as Hdis.
  { intros m (o & -> & Ho)%list_elem_of_fmap (m' & Hm' & _)%list_elem_of_fmap.
    pose proof (proj1 (Forall_forall _ _) Hops o Ho) as (Hop & _).
    unfold operator_ok in Hop. destruct (nodes s !! o.1) as [gr|] eqn:Hgr; [|done].
    apply lookup_lt_Some in Hgr. unfold ndf in Hm'. lia. }
  split_and!; try done.
  - unfold RR, LL. rewrite <- fmap_app. by apply _copy_net.
  - apply wired_init. eapply net_ok_perm; [|apply (net_ok_union s1 _ _ _ _ Honet Hcn Hdis)].
    + unfold fronts_table. rewrite (free_fronts_init LL RR 0).
      * solve_Permutation.
      * unfold LL, RR. rewrite !length_fmap. lia.
    + by eapply slots_disjoint.
  - apply Forall_forall. intros o Ho.
    pose proof (proj1 (Forall_forall _ _) Hops o Ho) as (Hop & _ & Hlt).
    pose proof (proj1 (Forall_forall _ _) Hops1 o Ho) as Hop1.
    split_and!; try done.
    + apply elem_of_app. right. apply list_elem_of_fmap. by exists o.
    + unfold operator_ok in Hop1. destruct (nodes s1 !! o.1) as [gr|]; [|done].
      exists gr. by destruct Hop1.
Qed.

(** A call in which some index occurs twice, in one operator's list or in
    the lists of two operators, raises ValueError. *)
Lemma expectation_repeated s c ops :
  dm_ok s c → ops_ok s c ops → ¬ NoDup (concat (ops.*2)) →
  ∃ w', expectation (op_args ops) (mkWorld s c) = Raise ValueError w'.
Proof.
  intros Hdm Hops Hrep.
  destruct (expectation_net s c ops Hdm Hops) as (Hcopy & Hext & Hw & Hall).
  pose proof Hdm as (Hok & HR & HL & Hc & Hz).
  assert (length (edf s (_nodes c) <$> _rfront c) = _nqubits c) as HRR
    by (by rewrite length_fmap).
  assert (length (edf s (_nodes c) <$> _lfront c) = _nqubits c) as HLL
    by (by rewrite length_fmap).
  destruct (expectation_ops _ _ (_nqubits c) _ _ HRR HLL
              ops ∅ id _ (ndf s (_nodes c) <$> _nodes c) Hall Hw) as [_ Hraise].
  destruct Hraise as (s' & Hrun).
  { intros Hf. apply Hrep. by apply fresh_all_NoDup in Hf as [Hf _]. }
  exists (mkWorld s' c). unfold expectation.
  rewrite (bind_Ok get_self _ _ _ _ eq_refl). cbn [self].
  rewrite (bind_Ok _ _ _ _ _ (lift_at _ _ _ _ _ Hcopy)). cbn [fst snd].
  by rewrite (bind_Raise _ _ _ _ _ (lift_raise_at _ _ _ _ _ Hrun)).
Qed.

End Expectation_errors.

(** ** [expectation] leaves the circuit alone

    Whatever the operators and index lists are, and whether the call
    returns or raises, the nodes of the circuit and the edge objects bound
    to them are as before, provided no leg of an operator is an edge that
    starts at a node of the circuit. *)

Section Apart.
Context `{Scalar}.
Variables (s : Store) (NC OPS : list nat).

(** An edge that does not start at a node of the circuit. *)
Definition foreign (s' : Store) (e : nat) : Prop :=
  ∀ r, edges s' !! e = Some r → node1 r ∉ NC.

(** The nodes [expectation] rebinds axes of: the operators, and the nodes
    created after the call. *)
Definition tracked (m : nat) : Prop := m ∈ OPS ∨ length (nodes s) ≤ m.

(** The stores on the way from the copy to the contraction. *)
Definition apart (s' : Store) : Prop :=
  (∀ m, m ∈ NC → nodes s' !! m = nodes s !! m) ∧
  (∀ e r, edges s !! e = Some r → edges s' !! e = Some r) ∧
  (∀ e, length (edges s) ≤ e → foreign s' e) ∧
  (∀ m nr, tracked m → nodes s' !! m = Some nr → Forall (foreign s') (nedges nr)).

Lemma hoare_outcome {S A} (P I : S → Prop) (m : M S A) :
  (∀ x, P x → I (outcome_state (m x))) → hoare P m (λ _, I) I.
Proof. intros Hm x Hx. specialize (Hm x Hx). by destruct (m x). Qed.

Lemma hoare_getitem {S A} (P : S → Prop) (l : list A) i :
  hoare P (getitem l i) (λ a x, a ∈ l ∧ P x) P.
Proof.
  intros x Hx. unfold getitem.
  destruct (py_index (length l) i ≫= λ k, l !! k) as [a|] eqn:Ha; simpl; [|done].
  split; [|done]. destruct (py_index (length l) i) as [k|]; [|done]. simpl in Ha.
  by eapply list_elem_of_lookup_2.
Qed.

Lemma hoare_get_edge (P : Store → Prop) m j :
  hoare P (get_edge m j) (λ e s', (∃ nr, nodes s' !! m = Some nr ∧ e ∈ nedges nr) ∧ P s') P.
Proof.
  intros s' Hs. unfold get_edge, get_node. rewrite bind_unfold.
  destruct (nodes s' !! m) as [nr|] eqn:Hm; simpl; [|done].
  destruct (nedges nr !! j) as [e|] eqn:He; simpl; [|done].
  split; [|done]. exists nr. split; [done|]. by eapply list_elem_of_lookup_2.
Qed.

Lemma apart_alloc s' r : apart s' → node1 r ∉ NC → length (edges s) ≤ length (edges s') →
  apart (mkStore (nodes s') (edges s' ++ [r])).
Proof.
  intros (J1 & J2 & J3 & J4) Hr Hlen.
  assert (∀ e, foreign s' e → foreign (mkStore (nodes s') (edges s' ++ [r])) e) as Hmono.
  { intros e He r' Hr'. simpl in Hr'.
    destruct (decide (e < length (edges s'))) as [Hlt|Hge].
    - rewrite lookup_app_l in Hr' by done. by apply He.
    - rewrite lookup_app_r in Hr' by lia.
      destruct (e - length (edges s')) as [|k]; simpl in Hr'; [|done]. by injection Hr' as <-. }
  unfold apart. simpl. split_and!; try done.
  - intros e r' He. rewrite lookup_app_l; [by apply J2|].
    apply J2 in He. by eapply lookup_lt_Some.
  - intros e He. apply Hmono. by apply J3.
  - intros m nr Hm Hnr. eapply Forall_impl; [by eapply J4|]. intros e. apply Hmono.
Qed.

Lemma apart_add_edge s' m axis e nd :
  apart s' → m ∉ NC → foreign s' e → nodes s' !! m = Some nd →
  apart (mkStore (<[m := mkNode (tensor nd) (<[axis := e]> (nedges nd))]> (nodes s')) (edges s')).
Proof.
  intros (J1 & J2 & J3 & J4) Hm He Hnd. unfold apart. simpl. split_and!; try done.
  - intros m' Hm'. rewrite list_lookup_insert_ne; [by apply J1|]. by intros ->.
  - intros m' nr Ht Hnr. destruct (decide (m' = m)) as [->|Hne].
    + rewrite list_lookup_insert_eq in Hnr by (by eapply lookup_lt_Some).
      injection Hnr as <-. simpl.
      pose proof (J4 m nd Ht Hnd) as Hold.
      apply Forall_forall. intros e' He'.
      apply list_elem_of_lookup in He' as [i Hi].
      rewrite lookup_insert_cases in Hi. case_bool_decide.
      * by injection Hi as <-.
      * apply (proj1 (Forall_forall _ _) Hold). by eapply list_elem_of_lookup_2.
    + rewrite list_lookup_insert_ne in Hnr by done. by eapply J4.
Qed.

Lemma apart_len s' : apart s' → length (edges s) ≤ length (edges s').
Proof.
  intros (_ & J2 & _). destruct (decide (length (edges s) = 0)) as [->|Hne]; [lia|].
  destruct (lookup_lt_is_Some_2 (edges s) (length (edges s) - 1)) as [r Hr]; [lia|].
  apply J2 in Hr. apply lookup_lt_Some in Hr. lia.
Qed.

Lemma connect_apart s' a b :
  apart s' → foreign s' a → foreign s' b → apart (outcome_state (connect a b s')).
Proof.
  intros HJ Fa Fb. pose proof (apart_len s' HJ) as Hlen.
  unfold connect, get_edge_rec. rewrite bind_unfold.
  destruct (edges s' !! a) as [ra|] eqn:Ha; simpl; [|done].
  rewrite bind_unfold. destruct (edges s' !! b) as [rb|] eqn:Hb; simpl; [|done].
  destruct (negb _); [done|]. destruct (bool_decide (a = b)); [done|].
  rewrite bind_unfold. cbn [get_state].
  rewrite bind_unfold. destruct (edge_dim s' ra) as [d1|]; simpl; [|done].
  rewrite bind_unfold. destruct (edge_dim s' rb) as [d2|]; simpl; [|done].
  destruct (negb _); [done|].
  rewrite bind_unfold. cbn [alloc_edge].
  set (r := mkEdge (node1 ra) (axis1 ra) (Some (node1 rb, axis1 rb))).
  assert (apart (mkStore (nodes s') (edges s' ++ [r]))) as HJ1.
  { apply apart_alloc; try done. simpl. by apply Fa. }
  assert (foreign (mkStore (nodes s') (edges s' ++ [r])) (length (edges s'))) as Fx.
  { destruct HJ1 as (_ & _ & J3 & _). apply J3. lia. }
  rewrite bind_unfold. unfold add_edge at 1. cbn [nodes edges].
  destruct (nodes s' !! node1 ra) as [n1|] eqn:Hn1; [|done].
  destruct (bool_decide (axis1 ra < length (nedges n1))); [|done].
  set (s2 := mkStore (<[node1 ra := _]> (nodes s')) (edges s' ++ [r])).
  assert (apart s2) as HJ2.
  { apply (apart_add_edge (mkStore (nodes s') (edges s' ++ [r]))); try done. by apply Fa. }
  rewrite bind_unfold. unfold add_edge at 1.
  destruct (nodes s2 !! node1 rb) as [n2|] eqn:Hn2; [|done].
  destruct (bool_decide (axis1 rb < length (nedges n2))); [|done].
  simpl. apply (apart_add_edge s2); try done. by apply Fb.
Qed.

Lemma hoare_fold_M_inv {S A B} (I : B → S → Prop) (R : S → Prop) (f : B → A → M S B) l b :
  (∀ b x, x ∈ l → hoare (I b) (f b x) I R) → hoare (I b) (fold_M f l b) I R.
Proof.
  revert b. induction l as [|x l IH]; intros b Hf; simpl.
  - by intros x Hx.
  - eapply hoare_bind; [apply Hf; by left|]. intros b'. apply IH.
    intros b'' y Hy. apply Hf. by right.
Qed.

Lemma hoare_pre {S A} (P P' : S → Prop) (m : M S A) Q R :
  hoare P' m Q R → (∀ x, P x → P' x) → hoare P m Q R.
Proof. intros Hm HP x Hx. by apply Hm, HP. Qed.

Lemma hoare_get_edge_foreign op j :
  tracked op → hoare apart (get_edge op j) (λ b s', foreign s' b ∧ apart s') apart.
Proof.
  intros Ht. eapply hoare_conseq; [apply (hoare_get_edge apart) | done |].
  intros b s' [(nr & Hnr & Hb) HJ]. split; [|done].
  destruct HJ as (_ & _ & _ & J4). by apply (proj1 (Forall_forall _ _) (J4 op nr Ht Hnr)).
Qed.

Lemma hoare_connect_apart a b :
  length (edges s) ≤ a →
  hoare (λ s', foreign s' b ∧ apart s') (connect a b) (λ _, apart) apart.
Proof.
  intros Ha. apply hoare_outcome. intros s' [Fb HJ]. apply connect_apart; try done.
  destruct HJ as (_ & _ & J3 & _). by apply J3.
Qed.

Section Loops.
Variables (n : nat) (newdang : list nat).
Hypothesis Hnew : Forall (λ e, length (edges s) ≤ e) newdang.

Lemma expectation_leg_apart op noe occ je :
  op ∈ OPS → hoare apart (expectation_leg n newdang op noe occ je) (λ _, apart) apart.
Proof using Hnew.
  intros Hop. destruct je as [j e]. unfold expectation_leg.
  case_bool_decide; [by apply hoare_raise|].
  eapply hoare_bind; [apply hoare_getitem|]. intros a. apply hoare_pure. intros Ha.
  eapply hoare_bind; [apply hoare_get_edge_foreign; by left|]. intros b.
  eapply hoare_bind.
  { apply hoare_connect_apart. by apply (proj1 (Forall_forall _ _) Hnew). }
  intros ?.
  eapply hoare_bind; [apply hoare_getitem|]. intros a'. apply hoare_pure. intros Ha'.
  eapply hoare_bind; [apply hoare_get_edge_foreign; by left|]. intros b'.
  eapply hoare_bind.
  { apply hoare_connect_apart. by apply (proj1 (Forall_forall _ _) Hnew). }
  intros ?. by intros s' Hs.
Qed.

Lemma expectation_op_apart (ops : list (nat * list Z)) st :
  Forall (λ o, o.1 ∈ OPS) ops →
  hoare (λ s', apart s' ∧ Forall tracked st.2)
        (fold_M (expectation_op n newdang) ops st)
        (λ st' s', apart s' ∧ Forall tracked st'.2) apart.
Proof using Hnew.
  intros Hops.
  apply (hoare_fold_M_inv (λ st s', apart s' ∧ Forall tracked st.2)).
  intros st' o Ho. pose proof (proj1 (Forall_forall _ _) Hops o Ho) as Hin.
  unfold expectation_op.
  eapply hoare_conseq with (P' := λ s', Forall tracked st'.2 ∧ apart s')
                           (Q' := λ st'' s', apart s' ∧ Forall tracked st''.2);
    [|tauto|done].
  apply hoare_pure. intros Htr.
  eapply hoare_bind.
  { apply hoare_fold_M. intros occ je. by apply expectation_leg_apart. }
  intros occ s' Hs. simpl. split; [done|].
  apply Forall_app. split; [done|]. constructor; [by left|constructor].
Qed.

Lemma expectation_close_apart occ j :
  hoare apart (expectation_close n newdang occ j) (λ _, apart) apart.
Proof using Hnew.
  unfold expectation_close. case_bool_decide; [by intros s' Hs|].
  eapply hoare_bind; [apply hoare_getitem|]. intros a. apply hoare_pure. intros Ha.
  eapply hoare_bind; [apply hoare_getitem|]. intros b. apply hoare_pure. intros Hb.
  eapply hoare_bind.
  { eapply hoare_pre; [apply (hoare_connect_apart a b)|].
    - by apply (proj1 (Forall_forall _ _) Hnew).
    - intros s' HJ. split; [|done]. destruct HJ as (_ & _ & J3 & _). apply J3.
      by apply (proj1 (Forall_forall _ _) Hnew). }
  intros ?. by intros s' Hs.
Qed.

End Loops.

Hypothesis Hcirc_nodes : ∀ m, m ∈ NC → is_Some (nodes s !! m).
Hypothesis Hcirc_edges : ∀ e, e ∈ slots_of s NC → ∃ r, edges s !! e = Some r ∧ node1 r ∈ NC.

Lemma apart_agree s' : apart s' → agree_on NC s s'.
Proof using Hcirc_edges.
  intros (J1 & J2 & _). split; [done|]. intros e He.
  destruct (Hcirc_edges e He) as (r & Hr & _). rewrite Hr. by apply J2.
Qed.

Lemma contractor_apart ns' :
  Forall tracked ns' →
  hoare apart (contractor ns' None) (λ _, agree_on NC s) (agree_on NC s).
Proof using Hcirc_nodes Hcirc_edges.
  intros Htr s' HJ. pose proof (apart_agree s' HJ) as Hag.
  unfold contractor. rewrite bind_unfold. cbn [get_state].
  destruct (bool_decide (remove_dups ns' = [])); [exact Hag|].
  destruct (bool_decide (_ ∧ _)); [exact Hag|]. cbn [default].
  destruct (negb _); [exact Hag|]. destruct (negb _); [exact Hag|].
  rewrite bind_unfold.
  destruct (abstract s' (remove_dups ns') _) as [net|]; simpl; [|exact Hag].
  destruct Hag as [Hn He]. split.
  - intros m Hm. simpl. rewrite lookup_app_l; [by apply Hn|].
    apply lookup_lt_is_Some. rewrite Hn by done. by apply Hcirc_nodes.
  - intros e Hin. simpl.
    assert (e ∉ filter (edge_dangling s') (get_all_edges s' (remove_dups ns'))) as Hnot.
    { intros Hout. apply list_elem_of_filter in Hout as [_ Hout].
      apply elem_of_get_all_edges, elem_of_slots_of in Hout as (m & nr & Hm & Hnr & Hnr').
      rewrite elem_of_remove_dups in Hm.
      destruct HJ as (_ & J2 & _ & J4).
      pose proof (proj1 (Forall_forall _ _) (J4 m nr (proj1 (Forall_forall _ _) Htr m Hm) Hnr)
                    e Hnr') as Hf.
      destruct (Hcirc_edges e Hin) as (r & Hr & Hnode). by apply (Hf r (J2 e r Hr)). }
    pose proof (repoint_lookup_ne (length (nodes s')) _ (edges s') e Hnot) as Hrp.
    unfold repoint in Hrp. rewrite Hrp. by apply He.
Qed.

End Apart.

Section Expectation_apart.
Context `{Scalar}.

Lemma hoare_weaken {S A} (P : S → Prop) (m : M S A) Q (R R' : S → Prop) :
  hoare P m Q R → (∀ x, R x → R' x) → hoare P m Q R'.
Proof. intros Hm HR x Hx. specialize (Hm x Hx). destruct (m x); [done|]. by apply HR. Qed.

Lemma hoare_lift_store {A} c (P : Store → Prop) (m : M Store A) Q R :
  hoare P m Q R →
  hoare (λ w, self w = c ∧ P (heap w)) (lift m)
        (λ a w, self w = c ∧ Q a (heap w)) (λ w, self w = c ∧ R (heap w)).
Proof.
  intros Hm w [Hc Hw]. unfold lift. specialize (Hm (heap w) Hw).
  by destruct (m (heap w)).
Qed.

Lemma hoare_get_node (P : Store → Prop) t : hoare P (get_node t) (λ _, P) P.
Proof. intros s Hs. unfold get_node. by destruct (nodes s !! t). Qed.

(** No leg of the operator [op] is an edge that starts at a node of [NC]. *)
Definition op_apart (s : Store) (NC : list nat) (op : nat) : Prop :=
  ∀ nr, nodes s !! op = Some nr → Forall (foreign NC s) (nedges nr).

Lemma operator_apart s NC op k : operator_ok s op k → op ∉ NC → op_apart s NC op.
Proof.
  unfold operator_ok. intros Hop Hn nr Hnr. rewrite Hnr in Hop. destruct Hop as [_ Hok].
  destruct Hok as (_ & _ & _ & _ & _ & Hfront).
  eapply Forall_impl; [exact Hfront|]. intros e Hf r Hr. simpl in *.
  apply front_ok_inv in Hf as (r' & Hr' & _ & Hin & _).
  rewrite Hr in Hr'. injection Hr' as <-. apply list_elem_of_singleton in Hin. by rewrite Hin.
Qed.

Lemma copy_apart s NC OPS out conj :
  net_ok s NC out → Forall (op_apart s NC) OPS →
  apart s NC OPS (copy_store s NC conj).
Proof.
  intros Hok Hops.
  assert (∀ e, length (edges s) ≤ e → foreign NC (copy_store s NC conj) e) as J3.
  { intros e He r Hr. simpl in Hr. rewrite lookup_app_r in Hr by done.
    rewrite list_lookup_fmap in Hr.
    destruct (omap _ _ !! _) as [r0|]; [|done]. injection Hr as <-. simpl.
    intros Hin. pose proof (net_ok_lt _ _ _ _ Hok Hin). unfold ndf in *. lia. }
  assert (∀ e, foreign NC s e → foreign NC (copy_store s NC conj) e) as Hmono.
  { intros e He r Hr. destruct (decide (e < length (edges s))) as [Hlt|Hge].
    - simpl in Hr. rewrite lookup_app_l in Hr by done. by apply He.
    - apply (J3 e ltac:(lia) r Hr). }
  unfold apart. split_and!; try done.
  - intros m Hm. simpl. apply lookup_app_l. by eapply net_ok_lt.
  - intros e r Hr. simpl. rewrite lookup_app_l; [done|]. by eapply lookup_lt_Some.
  - intros m nr Ht Hnr. destruct (decide (m < length (nodes s))) as [Hlt|Hge].
    + simpl in Hnr. rewrite lookup_app_l in Hnr by done.
      destruct Ht as [Ht|Ht]; [|lia].
      pose proof (proj1 (Forall_forall _ _) Hops m Ht nr Hnr) as Hf.
      eapply Forall_impl; [exact Hf|]. apply Hmono.
    + simpl in Hnr. rewrite lookup_app_r in Hnr by lia. rewrite list_lookup_fmap in Hnr.
      destruct (omap _ _ !! _) as [nr0|]; [|done]. injection Hnr as <-. simpl.
      apply Forall_fmap, Forall_forall. intros e _. simpl. apply J3. unfold edf. lia.
Qed.

(** Whatever the outcome, [expectation] leaves the instance, the nodes of
    its network and the edge objects bound to them as they were. *)
Lemma expectation_apart s c (ops : list (nat * list Z)) :
  dm_ok s c → Forall (op_apart s (_nodes c)) (ops.*1) →
  self (outcome_state (expectation ops (mkWorld s c))) = c ∧
  agree_on (_nodes c) s (heap (outcome_state (expectation ops (mkWorld s c)))).
Proof.
  intros Hdm Hops. pose proof Hdm as (Hok & HR & HL & Hc & Hz).
  pose proof (_copy_net s (_nodes c) (_rfront c ++ _lfront c) false Hok Hz) as Hcopy.
  set (s1 := copy_store s (_nodes c) false) in *.
  set (cn := ndf s (_nodes c) <$> _nodes c) in *.
  set (newdang := edf s (_nodes c) <$> (_rfront c ++ _lfront c)) in *.
  assert (apart s (_nodes c) (ops.*1) s1) as HJ by (by eapply copy_apart).
  assert (Forall (λ e, length (edges s) ≤ e) newdang) as Hnew.
  { apply Forall_fmap, Forall_forall. intros e _. simpl. unfold edf. lia. }
  assert (Forall (tracked s (ops.*1)) cn) as Hcn.
  { apply Forall_fmap, Forall_forall. intros m _. simpl. right. unfold ndf. lia. }
  assert (Hcn' : ∀ m, m ∈ _nodes c → is_Some (nodes s !! m)) by (intros m; by eapply net_ok_node).
  assert (Hce : ∀ e, e ∈ slots_of s (_nodes c) →
                ∃ r, edges s !! e = Some r ∧ node1 r ∈ _nodes c).
  { intros e He. pose proof (net_ok_edge _ _ _ _ Hok He) as Hk. unfold edge_ok in Hk.
    destruct (edges s !! e) as [r|]; [|done]. exists r. by destruct Hk. }
  unfold expectation.
  rewrite (bind_Ok get_self _ _ _ _ eq_refl). cbn [self].
  rewrite (bind_Ok _ _ _ _ _ (lift_at _ _ _ _ _ Hcopy)). cbn [fst snd].
  set (F := λ w : World, self w = c ∧ agree_on (_nodes c) s (heap w)).
  assert (Hag : ∀ w, self w = c ∧ apart s (_nodes c) (ops.*1) (heap w) → F w).
  { intros w [Hs Hw]. split; [done|]. by apply (apart_agree s (_nodes c) (ops.*1) Hce). }
  match goal with |- context [outcome_state (?m ?w0)] =>
    assert (hoare (λ w, self w = c ∧ apart s (_nodes c) (ops.*1) (heap w) ∧ Forall (tracked s (ops.*1)) cn)
              m (λ _, F) F) as Hh
  end.
  { eapply hoare_bind.
    { eapply hoare_weaken; [|exact Hag].
      eapply hoare_pre;
        [apply (hoare_lift_store c _ _ _ _
                  (expectation_op_apart s (_nodes c) (ops.*1) (_nqubits c) newdang Hnew ops (∅, cn)
                     ltac:(apply Forall_forall; intros o Ho; apply list_elem_of_fmap; by exists o)))|].
      intros w (Hs & Hw & Ht). done. }
    intros st. simpl.
    eapply hoare_pre with (P' := λ w, Forall (tracked s (ops.*1)) st.2 ∧
                                      (self w = c ∧ apart s (_nodes c) (ops.*1) (heap w)));
      [|tauto].
    apply hoare_pure. intros Hst.
    eapply hoare_bind.
    { eapply hoare_weaken; [|exact Hag].
      apply (hoare_lift_store c). apply hoare_for_each. intros j.
      by apply expectation_close_apart. }
    intros ?.
    eapply hoare_bind.
    { apply (hoare_lift_store c). by apply contractor_apart. }
    intros t.
    eapply hoare_bind.
    { apply (hoare_lift_store c). apply hoare_get_node. }
    intros nd. by intros w Hw. }
  specialize (Hh (mkWorld s1 c) ltac:(done)).
  match type of Hh with match ?t with _ => _ end => destruct t end; exact Hh.
Qed.

End Expectation_apart.

(** ** The two ways an index can be repeated in [expectation] *)

Section Expectation_claims.
Context `{Scalar}.

Lemma elem_of_concat_2 (ls : list (list nat)) l x : x ∈ l → l ∈ ls → x ∈ concat ls.
Proof.
  intros Hx Hl. induction ls as [|b ls IH]; [by apply elem_of_nil in Hl|].
  simpl. apply elem_of_app. apply elem_of_cons in Hl as [<-|Hl]; [by left | right; by apply IH].
Qed.

Lemma concat_shared (ls : list (list nat)) i j a b q :
  i < j → ls !! i = Some a → ls !! j = Some b → q ∈ a → q ∈ b → ¬ NoDup (concat ls).
Proof.
  intros Hij Ha Hb Hqa Hqb Hnd.
  rewrite <- (take_drop_middle ls j b Hb) in Hnd.
  rewrite concat_app in Hnd. apply NoDup_app in Hnd as (_ & Hdis & _).
  apply (Hdis q).
  - apply (elem_of_concat_2 _ a); [done|].
    apply list_elem_of_lookup. exists i. by rewrite lookup_take_lt.
  - simpl. apply elem_of_app. by left.
Qed.

Lemma concat_own (ls : list (list nat)) a : a ∈ ls → ¬ NoDup a → ¬ NoDup (concat ls).
Proof.
  intros Ha Hrep Hnd. apply Hrep. clear Hrep.
  induction ls as [|b ls IH]; [by apply elem_of_nil in Ha|].
  simpl in Hnd. apply NoDup_app in Hnd as (Hb & _ & Hls).
  apply elem_of_cons in Ha as [->|Ha]; [done | by apply IH].
Qed.

(** C7.  On a well-formed circuit, [expectation] raises ValueError when an
    index occurs in the index lists of two of the operators (which are
    distinct nodes outside the circuit, each of the rank of its index list,
    with indices in range).  And whatever the operators and index lists
    are, as long as no leg of an operator is an edge starting at a node of
    the circuit, the call leaves the instance, the nodes of its network and
    the edge objects bound to them as they were, and so the network's
    contraction, whether it returns or raises. *)
Theorem expectation_shared_index (s : Store) (c : DMCircuit) :
  dm_ok s c →
  (∀ ops i j oi oj q,
     ops_ok s c ops → i ≠ j → ops !! i = Some oi → ops !! j = Some oj →
     q ∈ oi.2 → q ∈ oj.2 →
     ∃ w', expectation (op_args ops) (mkWorld s c) = Raise ValueError w') ∧
  (∀ ops : list (nat * list Z),
     Forall (op_apart s (_nodes c)) (ops.*1) →
     let w' := outcome_state (expectation ops (mkWorld s c)) in
     self w' = c ∧ agree_on (_nodes c) s (heap w') ∧
     net_ok (heap w') (_nodes c) (_rfront c ++ _lfront c) ∧
     denote (heap w') c = denote s c).
Proof.
  intros Hdm. split.
  - intros ops i j oi oj q Hops Hij Hi Hj Hqi Hqj.
    apply expectation_repeated; try done.
    assert (ops.*2 !! i = Some oi.2) as Hi' by (by rewrite list_lookup_fmap, Hi).
    assert (ops.*2 !! j = Some oj.2) as Hj' by (by rewrite list_lookup_fmap, Hj).
    destruct (decide (i < j)).
    + by eapply (concat_shared _ i j).
    + eapply (concat_shared _ j i); try done. lia.
  - intros ops Hops w'.
    destruct (expectation_apart s c ops Hdm Hops) as [Hself Hag].
    pose proof Hdm as (Hok & _).
    split_and!; try done.
    + by eapply agree_net_ok.
    + unfold denote. by rewrite (agree_abstract _ _ s (heap w')).
Qed.

(** C10.  On a well-formed circuit, [expectation] raises ValueError when
    the index list of one operator repeats an index, and more generally
    when an index occurs twice anywhere in the index lists of the call (the
    operators being distinct nodes outside the circuit, each of the rank of
    its index list, with indices in range). *)
Theorem expectation_repeated_index (s : Store) (c : DMCircuit) (ops : list (nat * list nat)) :
  dm_ok s c → ops_ok s c ops →
  (∀ o, o ∈ ops → ¬ NoDup o.2 →
     ∃ w', expectation (op_args ops) (mkWorld s c) = Raise ValueError w') ∧
  (¬ NoDup (concat (ops.*2)) →
     ∃ w', expectation (op_args ops) (mkWorld s c) = Raise ValueError w').
Proof.
  intros Hdm Hops. split.
  - intros o Ho Hrep. apply expectation_repeated; try done.
    apply (concat_own _ o.2); [|done]. apply list_elem_of_fmap. by exists o.
  - intros Hrep. by apply expectation_repeated.
Qed.

End Expectation_claims.

(** * The meaning of a gate application

    From here on the scalars are taken to form a commutative semiring (the
    arithmetic is exact).  The laws are hypotheses of the theorems that
    need them. *)

Section Algebra.
Context `{Scalar}.

Definition semiring_laws : Prop :=
  (∀ x y z, cadd x (cadd y z) = cadd (cadd x y) z) ∧
  (∀ x y, cadd x y = cadd y x) ∧
  (∀ x, cadd c0 x = x) ∧
  (∀ x y z, cmul x (cmul y z) = cmul (cmul x y) z) ∧
  (∀ x y, cmul x y = cmul y x) ∧
  (∀ x, cmul c1 x = x) ∧
  (∀ x y z, cmul x (cadd y z) = cadd (cmul x y) (cmul x z)) ∧
  (∀ x, cmul c0 x = c0).

Hypothesis Hlaws : semiring_laws.

Lemma cadd_assoc x y z : cadd x (cadd y z) = cadd (cadd x y) z.
Proof using Hlaws. by destruct Hlaws as (? & _). Qed.
Lemma cadd_comm x y : cadd x y = cadd y x.
Proof using Hlaws. by destruct Hlaws as (_ & ? & _). Qed.
Lemma cadd_0_l x : cadd c0 x = x.
Proof using Hlaws. by destruct Hlaws as (_ & _ & ? & _). Qed.
Lemma cadd_0_r x : cadd x c0 = x.
Proof using Hlaws. by rewrite cadd_comm, cadd_0_l. Qed.
Lemma cmul_assoc x y z : cmul x (cmul y z) = cmul (cmul x y) z.
Proof using Hlaws. by destruct Hlaws as (_ & _ & _ & ? & _). Qed.
Lemma cmul_comm x y : cmul x y = cmul y x.
Proof using Hlaws. by destruct Hlaws as (_ & _ & _ & _ & ? & _). Qed.
Lemma cmul_1_l x : cmul c1 x = x.
Proof using Hlaws. by destruct Hlaws as (_ & _ & _ & _ & _ & ? & _). Qed.
Lemma cmul_1_r x : cmul x c1 = x.
Proof using Hlaws. by rewrite cmul_comm, cmul_1_l. Qed.
Lemma cmul_add_r x y z : cmul x (cadd y z) = cadd (cmul x y) (cmul x z).
Proof using Hlaws. by destruct Hlaws as (_ & _ & _ & _ & _ & _ & ? & _). Qed.
Lemma cmul_add_l x y z : cmul (cadd y z) x = cadd (cmul y x) (cmul z x).
Proof using Hlaws. by rewrite cmul_comm, cmul_add_r, !(cmul_comm x). Qed.
Lemma cmul_0_l x : cmul c0 x = c0.
Proof using Hlaws. by destruct Hlaws as (_ & _ & _ & _ & _ & _ & _ & ?). Qed.
Lemma cmul_0_r x : cmul x c0 = c0.
Proof using Hlaws. by rewrite cmul_comm, cmul_0_l. Qed.

Lemma csum_cons x l : csum (x :: l) = cadd x (csum l).
Proof using Hlaws. destruct l; simpl; [by rewrite cadd_0_r | done]. Qed.

Lemma cprod_cons x l : cprod (x :: l) = cmul x (cprod l).
Proof using Hlaws. destruct l; simpl; [by rewrite cmul_1_r | done]. Qed.

Lemma csum_app l1 l2 : csum (l1 ++ l2) = cadd (csum l1) (csum l2).
Proof using Hlaws.
  induction l1 as [|x l1 IH]; [by rewrite cadd_0_l|].
  rewrite <- app_comm_cons, !csum_cons, IH. apply cadd_assoc.
Qed.

Lemma cprod_app l1 l2 : cprod (l1 ++ l2) = cmul (cprod l1) (cprod l2).
Proof using Hlaws.
  induction l1 as [|x l1 IH]; [by rewrite cmul_1_l|].
  rewrite <- app_comm_cons, !cprod_cons, IH. apply cmul_assoc.
Qed.

Lemma csum_bind {A} (l : list A) (f : A → list C) :
  csum (l ≫= f) = csum ((λ x, csum (f x)) <$> l).
Proof using Hlaws.
  induction l as [|x l IH]; [done|].
  rewrite bind_cons, fmap_cons, csum_app, csum_cons. by rewrite IH.
Qed.

Lemma csum_fmap_add {A} (l : list A) (f g : A → C) :
  csum ((λ x, cadd (f x) (g x)) <$> l) = cadd (csum (f <$> l)) (csum (g <$> l)).
Proof using Hlaws.
  induction l as [|x l IH]; [by rewrite cadd_0_l|].
  rewrite !fmap_cons, !csum_cons, IH.
  rewrite <- !cadd_assoc. f_equal. rewrite !cadd_assoc. f_equal. apply cadd_comm.
Qed.

Lemma csum_fmap_zero {A} (l : list A) : csum ((λ _, c0) <$> l) = c0.
Proof using Hlaws.
  induction l as [|x l IH]; [done|]. by rewrite fmap_cons, csum_cons, IH, cadd_0_l.
Qed.

Lemma csum_swap {A B} (l1 : list A) (l2 : list B) (f : A → B → C) :
  csum ((λ x, csum ((λ y, f x y) <$> l2)) <$> l1)
  = csum ((λ y, csum ((λ x, f x y) <$> l1)) <$> l2).
Proof using Hlaws.
  induction l1 as [|x l1 IH].
  - simpl. by rewrite csum_fmap_zero.
  - rewrite fmap_cons, csum_cons, IH.
    rewrite <- csum_fmap_add. f_equal. apply list_fmap_ext. intros _ y _.
    by rewrite fmap_cons, csum_cons.
Qed.

Lemma csum_mul_r {A} (l : list A) (f : A → C) c :
  csum ((λ x, cmul (f x) c) <$> l) = cmul (csum (f <$> l)) c.
Proof using Hlaws.
  induction l as [|x l IH]; [by rewrite cmul_0_l|].
  by rewrite !fmap_cons, !csum_cons, IH, cmul_add_l.
Qed.

Lemma csum_mul_l {A} (l : list A) (f : A → C) c :
  csum ((λ x, cmul c (f x)) <$> l) = cmul c (csum (f <$> l)).
Proof using Hlaws.
  induction l as [|x l IH]; [by rewrite cmul_0_r|].
  by rewrite !fmap_cons, !csum_cons, IH, cmul_add_r.
Qed.

Lemma csum_ext {A} (l : list A) (f g : A → C) :
  (∀ x, x ∈ l → f x = g x) → csum (f <$> l) = csum (g <$> l).
Proof.
  intros Hfg. f_equal. apply list_fmap_ext. intros i x Hx. apply Hfg.
  by eapply list_elem_of_lookup_2.
Qed.

End Algebra.

Section Indices.
Context `{Scalar}.

Lemma list_fmap_bind' {A B D} (f : B → D) (g : A → list B) (l : list A) :
  f <$> (l ≫= g) = l ≫= (λ x, f <$> g x).
Proof. induction l as [|x l IH]; [done|]. by rewrite !bind_cons, fmap_app, IH. Qed.

Lemma list_bind_bind {A B D} (f : A → list B) (g : B → list D) (l : list A) :
  (l ≫= f) ≫= g = l ≫= (λ x, f x ≫= g).
Proof. induction l as [|x l IH]; [done|]. by rewrite !bind_cons, bind_app, IH. Qed.

Lemma list_bind_fmap' {A B D} (f : A → B) (g : B → list D) (l : list A) :
  (f <$> l) ≫= g = l ≫= (λ x, g (f x)).
Proof. induction l as [|x l IH]; [done|]. by rewrite fmap_cons, !bind_cons, IH. Qed.

Lemma list_bind_ext' {A B} (f g : A → list B) (l : list A) :
  (∀ x, f x = g x) → l ≫= f = l ≫= g.
Proof. intros Hfg. induction l as [|x l IH]; [done|]. by rewrite !bind_cons, IH, Hfg. Qed.

(** The multi-indices of a shape in two parts. *)
Lemma indices_app d1 d2 :
  indices (d1 ++ d2) = indices d1 ≫= λ v, (v ++.) <$> indices d2.
Proof.
  induction d1 as [|d ds IH].
  - simpl. rewrite app_nil_r. by rewrite list_fmap_id.
  - cbn [app indices]. rewrite list_bind_bind. apply list_bind_ext'. intros i.
    rewrite IH, list_fmap_bind', list_bind_fmap'. apply list_bind_ext'. intros v.
    rewrite <- list_fmap_compose. done.
Qed.

Lemma indices_Forall2 sh o : o ∈ indices sh → Forall2 lt o sh.
Proof.
  revert o. induction sh as [|d ds IH]; intros o Ho.
  - apply list_elem_of_singleton in Ho as ->. constructor.
  - simpl in Ho. apply list_elem_of_bind in Ho as (i & Ho & Hi).
    apply list_elem_of_fmap in Ho as (o' & -> & Ho').
    apply elem_of_seq in Hi. constructor; [lia | by apply IH].
Qed.

Lemma Forall2_indices sh o : Forall2 lt o sh → o ∈ indices sh.
Proof.
  induction 1 as [|x d o ds Hx Ho IH]; [by left|].
  simpl. apply list_elem_of_bind. exists x. split.
  - apply list_elem_of_fmap. by exists o.
  - apply elem_of_seq. lia.
Qed.

Lemma flat_index_lt sh o : Forall2 lt o sh → flat_index sh o < prod_list sh.
Proof.
  induction 1 as [|x d o ds Hx Ho IH]; simpl; [lia|].
  change (foldr Nat.mul 1 ds) with (prod_list ds). nia.
Qed.

Lemma lookup_bind_block {A B} (l : list A) (f : A → list B) P i j x :
  (∀ y, length (f y) = P) → l !! i = Some x → j < P →
  (l ≫= f) !! (i * P + j) = f x !! j.
Proof.
  intros Hlen. revert i. induction l as [|y l IH]; intros i Hi Hj; [done|].
  destruct i as [|i].
  - simpl in Hi. injection Hi as ->. rewrite bind_cons, lookup_app_l by (rewrite Hlen; lia). done.
  - simpl in Hi. rewrite bind_cons, lookup_app_r by (rewrite Hlen; lia).
    replace (S i * P + j - length (f y)) with (i * P + j) by (rewrite Hlen; lia).
    by apply IH.
Qed.

Lemma indices_lookup_flat sh o :
  Forall2 lt o sh → indices sh !! flat_index sh o = Some o.
Proof.
  induction 1 as [|x d o ds Hx Ho IH]; [done|].
  cbn [indices flat_index].
  rewrite (lookup_bind_block _ _ (prod_list ds) x (flat_index ds o) x).
  - by rewrite list_lookup_fmap, IH.
  - intros y. by rewrite length_fmap, indices_length.
  - apply lookup_seq. split; [done | lia].
  - by apply flat_index_lt.
Qed.

(** The entry of a contraction at a valid multi-index. *)
Lemma tensor_get_einsum net o :
  Forall2 lt o (a_out net) →
  tensor_get (einsum net) o = csum ((λ v, a_term net (o ++ v)) <$> indices (a_int net)).
Proof.
  intros Ho. unfold tensor_get, einsum. cbn [shape data].
  by rewrite list_lookup_fmap, (indices_lookup_flat _ _ Ho).
Qed.

End Indices.

(** ** The sandwich update, as the spec words it

    For a gate [G] on the qubits [qs] (a tensor of rank [2 * k] whose first
    [k] axes are the output legs and whose last [k] axes are the input
    legs) and a density tensor [rho] (rank [2 * n]: [n] ket axes, then [n]
    bra axes), [G rho G†] has at ket indices [r] and bra indices [l] the
    entry

      sum over a, b of  G[r at qs, a] * rho[r with qs set to a, l with qs set to b]
                        * conj(G)[l at qs, b]. *)

Section Sandwich.
Context `{Scalar}.

(** the entries of [o] at the positions [qs] *)
Definition gather (o qs : list nat) : list nat := (λ q, default 0 (o !! q)) <$> qs.

(** [o] with the positions [qs] set to the values [a] *)
Definition scatter (o qs a : list nat) : list nat :=
  foldr (λ qx acc, <[qx.1 := qx.2]> acc) o (zip qs a).

Definition sandwich (n : nat) (G : Tensor) (qs : list nat) (rho : Tensor) : Tensor :=
  let bits := indices (replicate (length qs) 2) in
  mkTensor (replicate (2 * n) 2)
    ((λ o,
        let r := take n o in
        let l := drop n o in
        csum ((λ a,
          csum ((λ b,
            cmul (cmul (tensor_get G (gather r qs ++ a))
                       (tensor_get rho (scatter r qs a ++ scatter l qs b)))
                 (tensor_get (tensor_conj G) (gather l qs ++ b))) <$> bits)) <$> bits))
       <$> indices (replicate (2 * n) 2)).

Lemma scatter_length o qs a : length (scatter o qs a) = length o.
Proof.
  unfold scatter. induction (zip qs a) as [|qx l IH]; simpl; [done|].
  by rewrite length_insert.
Qed.

Lemma scatter_lookup_notin o qs a p : p ∉ qs → scatter o qs a !! p = o !! p.
Proof.
  revert a. induction qs as [|q qs IH]; intros a Hp; [done|].
  destruct a as [|x a]; [done|]. apply not_elem_of_cons in Hp as [Hne Hp].
  unfold scatter. simpl. rewrite list_lookup_insert_ne by done. by apply IH.
Qed.

Lemma scatter_lookup_in o qs a i q x :
  NoDup qs → qs !! i = Some q → a !! i = Some x → q < length o →
  scatter o qs a !! q = Some x.
Proof.
  revert a i. induction qs as [|q' qs IH]; intros a i Hnd Hq Ha Hlt; [done|].
  destruct a as [|x' a]; [done|]. apply NoDup_cons in Hnd as [Hq' Hnd].
  pose proof (scatter_length o qs a) as Hlen.
  unfold scatter in *. simpl. destruct i as [|i]; simpl in *.
  - injection Hq as ->. injection Ha as ->.
    apply list_lookup_insert_eq. lia.
  - assert (q ≠ q') by (intros ->; apply Hq'; by eapply list_elem_of_lookup_2).
    rewrite list_lookup_insert_ne by done. by eapply IH.
Qed.

Lemma scatter_bits o qs a m :
  Forall2 lt o (replicate m 2) → Forall (λ x, x < 2) a →
  Forall2 lt (scatter o qs a) (replicate m 2).
Proof.
  intros Ho Ha. unfold scatter.
  assert (Forall (λ qx : nat * nat, qx.2 < 2) (zip qs a)) as Hz.
  { apply Forall_forall. intros [q x] Hin. apply elem_of_zip_r in Hin.
    by apply (proj1 (Forall_forall _ _) Ha). }
  induction Hz as [|[q x] l Hx Hl IH]; simpl; [done|].
  apply Forall2_same_length_lookup. split.
  - rewrite length_insert. by apply Forall2_length in IH.
  - intros p y d Hy Hd. apply lookup_replicate in Hd as [-> Hp].
    rewrite lookup_insert_cases in Hy. case_bool_decide.
    + by injection Hy as <-.
    + pose proof (Forall2_lookup_l _ _ _ _ _ IH Hy) as (d & Hd & Hlt).
      apply lookup_replicate in Hd as [-> _]. done.
Qed.

Lemma indices_bits_lt m a : a ∈ indices (replicate m 2) → length a = m ∧ Forall (λ x, x < 2) a.
Proof.
  intros Ha%indices_Forall2. split.
  - apply Forall2_length in Ha. by rewrite length_replicate in Ha.
  - apply Forall_forall. intros x Hx. apply list_elem_of_lookup in Hx as [i Hi].
    pose proof (Forall2_lookup_l _ _ _ _ _ Ha Hi) as (d & Hd & Hlt).
    apply lookup_replicate in Hd as [-> _]. done.
Qed.

End Sandwich.

(** ** The terms of a contraction, edge by edge *)

Section Valuation.
Context `{Scalar}.

(** The connected edges of a network, in the order the contraction sums
    over them. *)
Definition internal (s : Store) (ns : list nat) : list nat :=
  filter (edge_connected s) (get_all_edges s ns).

(** The value an assignment [vals] of the numbered edges gives to the
    edge [e]. *)
Definition val (order vals : list nat) (e : nat) : nat :=
  default 0 (vals !! index_of e order).

(** The entry of the array of node [m] when its edges have the values [f]. *)
Definition node_term (s : Store) (f : nat → nat) (m : nat) : C :=
  match nodes s !! m with
  | Some nr => tensor_get (tensor nr) (f <$> nedges nr)
  | None => c0
  end.

Definition dims (s : Store) (es : list nat) : option (list nat) :=
  mapM (λ e, edges s !! e ≫= edge_dim s) es.

Lemma abstract_inv s ns out net :
  abstract s ns out = Some net →
  (∀ vals, a_term net vals = cprod (node_term s (val (out ++ internal s ns) vals) <$> ns)) ∧
  dims s out = Some (a_out net) ∧ dims s (internal s ns) = Some (a_int net).
Proof.
  unfold abstract, dims. fold (internal s ns).
  destruct (mapM (λ n, nodes s !! n) ns) as [nrecs|] eqn:Hn; [|done]. simpl.
  destruct (mapM _ out) as [douts|]; [|done]. simpl.
  destruct (mapM _ (internal s ns)) as [dints|]; [|done]. simpl.
  intros [= <-]. split; [|done]. intros vals. unfold a_term. cbn [a_nodes]. f_equal.
  rewrite <- list_fmap_compose.
  generalize (out ++ internal s ns). intros order.
  apply mapM_Some in Hn. induction Hn as [|m nr ns' nrecs' Hm _ IH]; [done|].
  rewrite !fmap_cons, IH. f_equal. unfold node_term, compose. rewrite Hm. simpl.
  by rewrite <- list_fmap_compose.
Qed.

Lemma val_at order vals e p :
  NoDup order → order !! p = Some e → val order vals e = default 0 (vals !! p).
Proof. intros Hnd Hp. unfold val. by rewrite (index_of_lookup _ _ _ Hnd Hp). Qed.

Lemma node_term_ext s s' f f' m nr nr' :
  nodes s !! m = Some nr → nodes s' !! m = Some nr' → tensor nr' = tensor nr →
  f' <$> nedges nr' = f <$> nedges nr →
  node_term s' f' m = node_term s f m.
Proof. intros Hm Hm' Ht Hf. unfold node_term. by rewrite Hm, Hm', Ht, Hf. Qed.

(** The output edges and the connected edges of a well-formed network are
    numbered without repetition. *)
Lemma order_NoDup s ns out : net_ok s ns out → NoDup (out ++ internal s ns).
Proof.
  intros (_ & Hout & _ & _ & _ & Hfront). apply NoDup_app. split_and!; [done| |].
  - intros e He Hint. apply list_elem_of_filter in Hint as [Hc _].
    apply (proj1 (Forall_forall _ _) Hfront) in He.
    apply front_ok_inv in He as (r & Hr & Hd & _).
    unfold edge_connected in Hc. rewrite Hr in Hc. simpl in Hc. unfold is_dangling in Hc.
    by rewrite Hd in Hc.
  - unfold internal, get_all_edges. apply NoDup_filter, NoDup_remove_dups.
Qed.

Lemma remove_dups_app (l1 l2 : list nat) :
  remove_dups (l1 ++ l2) = filter (λ e, e ∉ l2) (remove_dups l1) ++ remove_dups l2.
Proof.
  induction l1 as [|x l1 IH]; [done|]. simpl.
  destruct (decide_rel elem_of x (l1 ++ l2)) as [Hin|Hnin];
    destruct (decide_rel elem_of x l1) as [Hin1|Hnin1].
  - done.
  - rewrite filter_cons_False; [done|]. intros Hx. apply Hx.
    apply elem_of_app in Hin as [?|?]; done.
  - exfalso. apply Hnin, elem_of_app. by left.
  - rewrite filter_cons_True; [by rewrite IH|]. intros Hx. apply Hnin, elem_of_app. by right.
Qed.

End Valuation.

(** ** The contraction after a gate is the sandwich of the contraction before *)

Section Sandwich_core.
Context `{Scalar}.
Hypothesis Hlaws : semiring_laws.
Variables (s s' : Store) (ns : list nat) (g lg n k : nat) (τ : nat → nat).
Variables (qs R L R' L' gouts louts xs ys : list nat) (G : Tensor).

Hypothesis Hok : net_ok s ns (R ++ L).
Hypothesis Hok' : net_ok s' (ns ++ [g; lg]) (R' ++ L').
Hypothesis HR : length R = n.
Hypothesis HL : length L = n.
Hypothesis HR' : length R' = n.
Hypothesis HL' : length L' = n.
Hypothesis Hk : length qs = k.
Hypothesis Hgo : length gouts = k.
Hypothesis Hlo : length louts = k.
Hypothesis Hxs : length xs = k.
Hypothesis Hys : length ys = k.
Hypothesis Hqs : NoDup qs.
Hypothesis Hlt : Forall (λ q, q < n) qs.
Hypothesis Hold : ∀ m nr, m ∈ ns → nodes s !! m = Some nr →
  nodes s' !! m = Some (mkNode (tensor nr) (τ <$> nedges nr)).
Hypothesis Hg : nodes s' !! g = Some (mkNode G (gouts ++ xs)).
Hypothesis Hlg : nodes s' !! lg = Some (mkNode (tensor_conj G) (louts ++ ys)).
Hypothesis HRfree : ∀ p, p ∉ qs → R' !! p = R !! p.
Hypothesis HLfree : ∀ p, p ∉ qs → L' !! p = L !! p.
Hypothesis HRgate : ∀ i q, qs !! i = Some q → R' !! q = gouts !! i.
Hypothesis HLgate : ∀ i q, qs !! i = Some q → L' !! q = louts !! i.
Hypothesis Hfix : ∀ e, e ∈ R' ++ L' → τ e = e.
Hypothesis HτR : ∀ i q r, qs !! i = Some q → R !! q = Some r → xs !! i = Some (τ r).
Hypothesis HτL : ∀ i q l, qs !! i = Some q → L !! q = Some l → ys !! i = Some (τ l).
Hypothesis Hτint : ∀ e, e ∈ internal s ns → τ e = e.
Hypothesis Hint' : internal s' (ns ++ [g; lg]) = internal s ns ++ xs ++ ys.

(** The numbering of the edges before and after. *)
Definition order0 : list nat := (R ++ L) ++ internal s ns.
Definition order1 : list nat := (R' ++ L') ++ internal s ns ++ xs ++ ys.

Lemma order0_NoDup : NoDup order0.
Proof using All. by apply order_NoDup. Qed.

Lemma order1_NoDup : NoDup order1.
Proof using All. unfold order1. rewrite <- Hint'. by apply order_NoDup. Qed.

Section Assignment.
Variables (o v a b : list nat).
Hypothesis Ho : length o = 2 * n.
Hypothesis Hv : length v = length (internal s ns).
Hypothesis Ha : length a = k.
Hypothesis Hb : length b = k.

Definition vals1 : list nat := o ++ v ++ a ++ b.
Definition vals0 : list nat :=
  (scatter (take n o) qs a ++ scatter (drop n o) qs b) ++ v.

Lemma val1_R p e : R' !! p = Some e → val order1 vals1 e = default 0 (o !! p).
Proof using All.
  intros Hp. apply lookup_lt_Some in Hp as Hlt'.
  rewrite (val_at order1 vals1 e p order1_NoDup).
  - unfold vals1. by rewrite lookup_app_l by lia.
  - unfold order1. rewrite lookup_app_l by (rewrite length_app; lia).
    by rewrite lookup_app_l by lia.
Qed.

Lemma val1_L p e : L' !! p = Some e → val order1 vals1 e = default 0 (o !! (n + p)).
Proof using All.
  intros Hp. apply lookup_lt_Some in Hp as Hlt'.
  rewrite (val_at order1 vals1 e (n + p) order1_NoDup).
  - unfold vals1. by rewrite lookup_app_l by lia.
  - unfold order1. rewrite lookup_app_l by (rewrite length_app; lia).
    rewrite lookup_app_r by lia. by replace (n + p - length R') with p by lia.
Qed.

Lemma val1_int i e : internal s ns !! i = Some e → val order1 vals1 e = default 0 (v !! i).
Proof using All.
  intros Hi. apply lookup_lt_Some in Hi as Hlt'.
  rewrite (val_at order1 vals1 e (2 * n + i) order1_NoDup).
  - unfold vals1. rewrite lookup_app_r by lia.
    replace (2 * n + i - length o) with i by lia. by rewrite lookup_app_l by lia.
  - unfold order1. rewrite lookup_app_r by (rewrite length_app; lia).
    rewrite length_app. replace (2 * n + i - (length R' + length L')) with i by lia.
    by rewrite lookup_app_l by lia.
Qed.

Lemma val1_xs i e : xs !! i = Some e → val order1 vals1 e = default 0 (a !! i).
Proof using All.
  intros Hi. apply lookup_lt_Some in Hi as Hlt'.
  rewrite (val_at order1 vals1 e (2 * n + length (internal s ns) + i) order1_NoDup).
  - unfold vals1. rewrite lookup_app_r by lia. rewrite lookup_app_r by lia.
    replace (2 * n + length (internal s ns) + i - length o - length v) with i by lia.
    by rewrite lookup_app_l by lia.
  - unfold order1. rewrite lookup_app_r by (rewrite length_app; lia).
    rewrite length_app. rewrite lookup_app_r by lia.
    replace (2 * n + length (internal s ns) + i - (length R' + length L')
             - length (internal s ns)) with i by lia.
    by rewrite lookup_app_l by lia.
Qed.

Lemma val1_ys i e : ys !! i = Some e → val order1 vals1 e = default 0 (b !! i).
Proof using All.
  intros Hi. apply lookup_lt_Some in Hi as Hlt'.
  rewrite (val_at order1 vals1 e (2 * n + length (internal s ns) + k + i) order1_NoDup).
  - unfold vals1. rewrite lookup_app_r by lia. rewrite lookup_app_r by lia.
    rewrite lookup_app_r by lia.
    by replace (2 * n + length (internal s ns) + k + i - length o - length v - length a)
      with i by lia.
  - unfold order1. rewrite lookup_app_r by (rewrite length_app; lia).
    rewrite length_app. rewrite lookup_app_r by lia. rewrite lookup_app_r by lia.
    by replace (2 * n + length (internal s ns) + k + i - (length R' + length L')
                - length (internal s ns) - length xs) with i by lia.
Qed.

Lemma val0_R p e : R !! p = Some e →
  val order0 vals0 e = default 0 (scatter (take n o) qs a !! p).
Proof using All.
  intros Hp. apply lookup_lt_Some in Hp as Hlt'.
  rewrite (val_at order0 vals0 e p order0_NoDup).
  - unfold vals0.
    rewrite lookup_app_l by (rewrite length_app, !scatter_length, length_take, length_drop; lia).
    by rewrite lookup_app_l by (rewrite scatter_length, length_take; lia).
  - unfold order0. rewrite lookup_app_l by (rewrite length_app; lia).
    by rewrite lookup_app_l by lia.
Qed.

Lemma val0_L p e : L !! p = Some e →
  val order0 vals0 e = default 0 (scatter (drop n o) qs b !! p).
Proof using All.
  intros Hp. apply lookup_lt_Some in Hp as Hlt'.
  rewrite (val_at order0 vals0 e (n + p) order0_NoDup).
  - unfold vals0.
    rewrite lookup_app_l by (rewrite length_app, !scatter_length, length_take, length_drop; lia).
    rewrite lookup_app_r by (rewrite scatter_length, length_take; lia).
    rewrite scatter_length, length_take. by replace (n + p - n `min` length o) with p by lia.
  - unfold order0. rewrite lookup_app_l by (rewrite length_app; lia).
    rewrite lookup_app_r by lia. by replace (n + p - length R) with p by lia.
Qed.

Lemma val0_int i e : internal s ns !! i = Some e → val order0 vals0 e = default 0 (v !! i).
Proof using All.
  intros Hi. apply lookup_lt_Some in Hi as Hlt'.
  rewrite (val_at order0 vals0 e (2 * n + i) order0_NoDup).
  - unfold vals0.
    rewrite lookup_app_r by (rewrite length_app, !scatter_length, length_take, length_drop; lia).
    rewrite length_app, !scatter_length, length_take, length_drop.
    by replace (2 * n + i - (n `min` length o + (length o - n))) with i by lia.
  - unfold order0. rewrite lookup_app_r by (rewrite length_app; lia).
    rewrite length_app. by replace (2 * n + i - (length R + length L)) with i by lia.
Qed.

(** An axis of a node of the circuit sees the same value before and
    after. *)
Lemma old_edge e : e ∈ slots_of s ns → val order1 vals1 (τ e) = val order0 vals0 e.
Proof using All.
  intros He. pose proof Hok as (_ & _ & _ & _ & Hdang & _).
  destruct (decide (edge_dangling s e)) as [Hd|Hd].
  - pose proof (proj1 (Forall_forall _ _) Hdang e He Hd) as Hin.
    apply elem_of_app in Hin as [Hin|Hin]; apply list_elem_of_lookup in Hin as [p Hp];
      apply lookup_lt_Some in Hp as Hpn.
    + rewrite (val0_R p e Hp). destruct (decide (p ∈ qs)) as [Hq|Hq].
      * apply list_elem_of_lookup in Hq as [i Hi]. apply lookup_lt_Some in Hi as Hik.
        rewrite (val1_xs i (τ e) (HτR i p e Hi Hp)).
        destruct (lookup_lt_is_Some_2 a i) as [ai Hai]; [lia|].
        rewrite (scatter_lookup_in _ qs a i p ai Hqs Hi Hai), Hai; [done|].
        rewrite length_take. lia.
      * assert (R' !! p = Some e) as Hp' by (by rewrite HRfree).
        rewrite Hfix by (apply elem_of_app; left; by eapply list_elem_of_lookup_2).
        rewrite (val1_R p e Hp'), scatter_lookup_notin by done.
        by rewrite lookup_take_lt by lia.
    + rewrite (val0_L p e Hp). destruct (decide (p ∈ qs)) as [Hq|Hq].
      * apply list_elem_of_lookup in Hq as [i Hi]. apply lookup_lt_Some in Hi as Hik.
        rewrite (val1_ys i (τ e) (HτL i p e Hi Hp)).
        destruct (lookup_lt_is_Some_2 b i) as [bi Hbi]; [lia|].
        rewrite (scatter_lookup_in _ qs b i p bi Hqs Hi Hbi), Hbi; [done|].
        rewrite length_drop. lia.
      * assert (L' !! p = Some e) as Hp' by (by rewrite HLfree).
        rewrite Hfix by (apply elem_of_app; right; by eapply list_elem_of_lookup_2).
        rewrite (val1_L p e Hp'), scatter_lookup_notin by done.
        by rewrite lookup_drop.
  - assert (e ∈ internal s ns) as Hin.
    { apply list_elem_of_filter. split; [|by apply elem_of_get_all_edges].
      destruct (net_ok_edge_rec _ _ _ _ Hok He) as [r Hr].
      unfold edge_connected, edge_dangling in *. rewrite Hr in *. simpl in *.
      destruct (is_dangling r); [done | done]. }
    rewrite (Hτint e Hin). apply list_elem_of_lookup in Hin as [i Hi].
    by rewrite (val1_int i e Hi), (val0_int i e Hi).
Qed.

Lemma old_node m : m ∈ ns →
  node_term s' (val order1 vals1) m = node_term s (val order0 vals0) m.
Proof using All.
  intros Hm. destruct (net_ok_node _ _ _ _ Hok Hm) as [nr Hnr].
  unfold node_term. rewrite Hnr, (Hold m nr Hm Hnr). cbn [tensor nedges].
  rewrite <- list_fmap_compose. f_equal. apply list_fmap_ext. intros i e Hi. simpl.
  apply old_edge. apply elem_of_slots_of. exists m, nr. split_and!; try done.
  by eapply list_elem_of_lookup_2.
Qed.

Lemma gate_node :
  node_term s' (val order1 vals1) g = tensor_get G (gather (take n o) qs ++ a).
Proof using All.
  unfold node_term. rewrite Hg. cbn [tensor nedges]. rewrite fmap_app. f_equal. f_equal.
  - apply list_eq. intros i. unfold gather. rewrite !list_lookup_fmap.
    destruct (qs !! i) as [q|] eqn:Hq.
    + apply lookup_lt_Some in Hq as Hik.
      destruct (lookup_lt_is_Some_2 gouts i) as [e He]; [lia|]. rewrite He. simpl.
      assert (q < n) by (eapply (proj1 (Forall_forall _ _) Hlt); by eapply list_elem_of_lookup_2).
      rewrite (val1_R q e) by (by rewrite (HRgate i q Hq)).
      by rewrite lookup_take_lt by lia.
    + apply lookup_ge_None in Hq. by rewrite lookup_ge_None_2 by lia.
  - apply list_eq. intros i. rewrite list_lookup_fmap.
    destruct (xs !! i) as [e|] eqn:He; simpl.
    + apply lookup_lt_Some in He as Hik.
      destruct (lookup_lt_is_Some_2 a i) as [ai Hai]; [lia|].
      by rewrite (val1_xs i e He), Hai.
    + apply lookup_ge_None in He. by rewrite lookup_ge_None_2 by lia.
Qed.

Lemma lgate_node :
  node_term s' (val order1 vals1) lg
  = tensor_get (tensor_conj G) (gather (drop n o) qs ++ b).
Proof using All.
  unfold node_term. rewrite Hlg. cbn [tensor nedges]. rewrite fmap_app. f_equal. f_equal.
  - apply list_eq. intros i. unfold gather. rewrite !list_lookup_fmap.
    destruct (qs !! i) as [q|] eqn:Hq.
    + apply lookup_lt_Some in Hq as Hik.
      destruct (lookup_lt_is_Some_2 louts i) as [e He]; [lia|]. rewrite He. simpl.
      rewrite (val1_L q e) by (by rewrite (HLgate i q Hq)).
      by rewrite lookup_drop.
    + apply lookup_ge_None in Hq. by rewrite lookup_ge_None_2 by lia.
  - apply list_eq. intros i. rewrite list_lookup_fmap.
    destruct (ys !! i) as [e|] eqn:He; simpl.
    + apply lookup_lt_Some in He as Hik.
      destruct (lookup_lt_is_Some_2 b i) as [bi Hbi]; [lia|].
      by rewrite (val1_ys i e He), Hbi.
    + apply lookup_ge_None in He. by rewrite lookup_ge_None_2 by lia.
Qed.

(** The term of the new network is the term of the old one times the two
    entries of the gate. *)
Lemma gate_term :
  cprod (node_term s' (val order1 vals1) <$> (ns ++ [g; lg]))
  = cmul (cprod (node_term s (val order0 vals0) <$> ns))
         (cmul (tensor_get G (gather (take n o) qs ++ a))
               (tensor_get (tensor_conj G) (gather (drop n o) qs ++ b))).
Proof using All.
  rewrite fmap_app, (cprod_app Hlaws). f_equal.
  - f_equal. apply list_fmap_ext. intros i m Hm. apply old_node.
    by eapply list_elem_of_lookup_2.
  - cbn [fmap list_fmap cprod]. by rewrite gate_node, lgate_node.
Qed.

End Assignment.
Lemma csum_indices_app (F : list nat → C) d1 d2 :
  csum (F <$> indices (d1 ++ d2))
  = csum ((λ v, csum ((λ w, F (v ++ w)) <$> indices d2)) <$> indices d1).
Proof using Hlaws.
  rewrite indices_app, list_fmap_bind', (csum_bind Hlaws).
  apply csum_ext. intros v _. by rewrite <- list_fmap_compose.
Qed.

Lemma mapM_length {A B} (f : A → option B) l k' : mapM f l = Some k' → length k' = length l.
Proof. intros Hm%mapM_Some. symmetry. by eapply Forall2_length. Qed.

(** The contraction of the network after the gate, entry by entry. *)
Lemma sandwich_core net net' :
  abstract s ns (R ++ L) = Some net →
  abstract s' (ns ++ [g; lg]) (R' ++ L') = Some net' →
  a_int net' = a_int net ++ replicate k 2 ++ replicate k 2 →
  shape (einsum net') = replicate (2 * n) 2 ∧
  data (einsum net') = data (sandwich n G qs (einsum net)).
Proof using All.
  intros Hnet Hnet' Hdims.
  destruct (abstract_inv _ _ _ _ Hnet) as (HT & _ & Hdi).
  destruct (abstract_inv _ _ _ _ Hnet') as (HT' & _ & _).
  destruct (abstract_ok s ns (R ++ L) Hok) as (net0 & Hn0 & Hout0).
  rewrite Hnet in Hn0. injection Hn0 as <-.
  destruct (abstract_ok s' _ (R' ++ L') Hok') as (net1 & Hn1 & Hout1).
  rewrite Hnet' in Hn1. injection Hn1 as <-.
  rewrite length_app, HR, HL in Hout0. rewrite length_app, HR', HL' in Hout1.
  replace (n + n) with (2 * n) in Hout0, Hout1 by lia.
  split; [done|].
  unfold einsum at 1, sandwich. cbn [data]. rewrite Hout1, Hdims, Hk.
  apply list_fmap_ext. intros i o Hi. apply list_elem_of_lookup_2 in Hi.
  pose proof (indices_Forall2 _ _ Hi) as Ho2.
  apply indices_bits_lt in Hi as [Holen Hobits]. cbv zeta.
  rewrite (csum_indices_app (λ v', a_term net' (o ++ v'))).
  transitivity (csum ((λ v, csum ((λ a, csum ((λ b,
      cmul (a_term net (vals0 o v a b))
           (cmul (tensor_get G (gather (take n o) qs ++ a))
                 (tensor_get (tensor_conj G) (gather (drop n o) qs ++ b))))
      <$> indices (replicate k 2))) <$> indices (replicate k 2))) <$> indices (a_int net))).
  { apply csum_ext. intros v Hv.
    rewrite (csum_indices_app (λ w, a_term net' (o ++ v ++ w))).
    apply csum_ext. intros a Ha. apply csum_ext. intros b Hb.
    apply indices_bits_lt in Ha as [Ha _]. apply indices_bits_lt in Hb as [Hb _].
    assert (length v = length (internal s ns)) as Hvlen.
    { apply indices_Forall2, Forall2_length in Hv. rewrite Hv. by eapply mapM_length. }
    rewrite HT', HT. rewrite Hint'.
    apply (gate_term o v a b Holen Hvlen Ha Hb). }
  rewrite (csum_swap Hlaws).
  apply csum_ext. intros a Ha.
  rewrite (csum_swap Hlaws).
  apply csum_ext. intros b Hb.
  rewrite (csum_mul_r Hlaws).
  rewrite (tensor_get_einsum net).
  - rewrite <- (cmul_assoc Hlaws). rewrite (cmul_comm Hlaws _ (cmul _ _)).
    rewrite <- (cmul_assoc Hlaws). f_equal. apply (cmul_comm Hlaws).
  - rewrite Hout0. replace (2 * n) with (n + n) by lia. rewrite replicate_add.
    apply indices_bits_lt in Ha as [_ Ha]. apply indices_bits_lt in Hb as [_ Hb].
    replace (2 * n) with (n + n) in Ho2 by lia. rewrite replicate_add in Ho2.
    apply Forall2_app.
    + apply scatter_bits; [|done].
      rewrite <- (take_drop n o) in Ho2. apply Forall2_app_inv in Ho2 as [Ho2 _]; [done|].
      rewrite length_take, length_replicate. lia.
    + apply scatter_bits; [|done].
      rewrite <- (take_drop n o) in Ho2. apply Forall2_app_inv in Ho2 as [_ Ho2]; [done|].
      rewrite length_take, length_replicate. lia.
Qed.

End Sandwich_core.

(** ** The state after the loop of [apply_general_gate] *)

Section Gate_final.
Context `{Scalar}.
Variables (s1 : Store) (n : nat) (ns : list nat) (g lg k : nat).
Variables (qs R0 L0 gouts gins louts lins : list nat) (Tg Tl : Tensor).
Variables (τ : nat → nat) (s' : Store) (R' L' : list nat).
Hypothesis Hgrec : nodes s1 !! g = Some (mkNode Tg (gouts ++ gins)).
Hypothesis Hlgrec : nodes s1 !! lg = Some (mkNode Tl (louts ++ lins)).
Hypothesis Hgo : length gouts = k.
Hypothesis Hgi : length gins = k.
Hypothesis Hlo : length louts = k.
Hypothesis Hli : length lins = k.
Hypothesis Hk : length qs = k.
Hypothesis Hqs : NoDup qs.
Hypothesis Hlt : Forall (λ q, q < n) qs.
Hypothesis H0 : net_ok s1 (ns ++ [g; lg]) (gate_out gouts gins louts lins 0 R0 L0).
Hypothesis Hcirc : net_ok s1 ns (R0 ++ L0).
Hypothesis HR0 : length R0 = n.
Hypothesis HL0 : length L0 = n.
Hypothesis Hinv : gate_inv s1 n ns g lg k qs R0 L0 gouts gins louts lins k τ s' R' L'.

(** The edges the loop creates: on the ket side and on the bra side, round
    by round. *)
Definition new_right : list nat := (λ i, length (edges s1) + 2 * i) <$> seq 0 k.
Definition new_left : list nat := (λ i, length (edges s1) + 2 * i + 1) <$> seq 0 k.

Lemma new_right_lookup i : i < k → new_right !! i = Some (length (edges s1) + 2 * i).
Proof using All. intros Hi. unfold new_right. by rewrite list_lookup_fmap, lookup_seq_lt. Qed.

Lemma new_left_lookup i : i < k → new_left !! i = Some (length (edges s1) + 2 * i + 1).
Proof using All. intros Hi. unfold new_left. by rewrite list_lookup_fmap, lookup_seq_lt. Qed.

Lemma final_out : gate_out gouts gins louts lins k R' L' = R' ++ L'.
Proof using All. unfold gate_out. rewrite !drop_ge by lia. by rewrite !app_nil_r. Qed.

Lemma final_wired : wired s1 (ns ++ [g; lg]) τ s' (R' ++ L').
Proof using All. rewrite <- final_out. by destruct Hinv as (? & _). Qed.

Lemma final_net : net_ok s' (ns ++ [g; lg]) (R' ++ L').
Proof using All. by destruct final_wired as (? & _). Qed.

Lemma final_round i :
  i < k →
  ∃ q r l gi li,
    qs !! i = Some q ∧ R0 !! q = Some r ∧ L0 !! q = Some l ∧
    gins !! i = Some gi ∧ lins !! i = Some li ∧
    gouts !! i = R' !! q ∧ louts !! i = L' !! q ∧
    τ r = length (edges s1) + 2 * i ∧ τ gi = length (edges s1) + 2 * i ∧
    τ l = length (edges s1) + 2 * i + 1 ∧ τ li = length (edges s1) + 2 * i + 1.
Proof using All.
  intros Hi. destruct Hinv as (_ & _ & _ & _ & _ & Hnew & Hrec).
  destruct (lookup_lt_is_Some_2 qs i) as [q Hq]; [lia|].
  destruct (Hrec i q Hi Hq)
    as (r & l & gi & li & rr & rl & E1 & E2 & E3 & E4 & _ & _ & T1 & T2 & T3 & T4 & _).
  destruct (Hnew i q Hi Hq) as [N1 N2].
  exists q, r, l, gi, li. by split_and!.
Qed.

Lemma tau_gins : τ <$> gins = new_right.
Proof using All.
  apply list_eq. intros i. rewrite list_lookup_fmap.
  destruct (decide (i < k)) as [Hi|Hi].
  - destruct (final_round i Hi) as (q & r & l & gi & li & _ & _ & _ & E3 & _ & _ & _ & _ & T2 & _).
    by rewrite E3, new_right_lookup, <- T2.
  - rewrite !lookup_ge_None_2; [done | |]; [unfold new_right; rewrite length_fmap, length_seq|]; lia.
Qed.

Lemma tau_lins : τ <$> lins = new_left.
Proof using All.
  apply list_eq. intros i. rewrite list_lookup_fmap.
  destruct (decide (i < k)) as [Hi|Hi].
  - destruct (final_round i Hi)
      as (q & r & l & gi & li & _ & _ & _ & _ & E4 & _ & _ & _ & _ & _ & T4).
    by rewrite E4, new_left_lookup, <- T4.
  - rewrite !lookup_ge_None_2; [done | |]; [unfold new_left; rewrite length_fmap, length_seq|]; lia.
Qed.

Lemma gouts_front e : e ∈ gouts → e ∈ R'.
Proof using All.
  intros [i Hi]%list_elem_of_lookup. apply lookup_lt_Some in Hi as Hik.
  destruct (final_round i ltac:(lia)) as (q & _ & _ & _ & _ & _ & _ & _ & _ & _ & N1 & _).
  rewrite Hi in N1. by eapply list_elem_of_lookup_2.
Qed.

Lemma louts_front e : e ∈ louts → e ∈ L'.
Proof using All.
  intros [i Hi]%list_elem_of_lookup. apply lookup_lt_Some in Hi as Hik.
  destruct (final_round i ltac:(lia)) as (q & _ & _ & _ & _ & _ & _ & _ & _ & _ & _ & N2 & _).
  rewrite Hi in N2. by eapply list_elem_of_lookup_2.
Qed.

Lemma tau_fixed (l : list nat) : (∀ e, e ∈ l → e ∈ R' ++ L') → τ <$> l = l.
Proof using All.
  intros Hl. rewrite <- (list_fmap_id l) at 2. apply list_fmap_ext. intros i e Hi. simpl.
  eapply wired_fix; [apply final_wired|]. apply Hl. by eapply list_elem_of_lookup_2.
Qed.

Lemma final_gate : nodes s' !! g = Some (mkNode Tg (gouts ++ new_right)).
Proof using All.
  destruct final_wired as (_ & _ & _ & Hin & _).
  rewrite (Hin g _ ltac:(apply elem_of_app; right; left) Hgrec). cbn [tensor nedges].
  rewrite fmap_app, tau_gins, tau_fixed; [done|].
  intros e He. apply elem_of_app. left. by apply gouts_front.
Qed.

Lemma final_lgate : nodes s' !! lg = Some (mkNode Tl (louts ++ new_left)).
Proof using All.
  destruct final_wired as (_ & _ & _ & Hin & _).
  rewrite (Hin lg _ ltac:(apply elem_of_app; right; right; left) Hlgrec). cbn [tensor nedges].
  rewrite fmap_app, tau_lins, tau_fixed; [done|].
  intros e He. apply elem_of_app. right. by apply louts_front.
Qed.

Lemma final_old m nr :
  m ∈ ns → nodes s1 !! m = Some nr →
  nodes s' !! m = Some (mkNode (tensor nr) (τ <$> nedges nr)).
Proof using All.
  intros Hm Hnr. destruct final_wired as (_ & _ & _ & Hin & _).
  apply Hin; [|done]. apply elem_of_app. by left.
Qed.

Lemma final_free p : p ∉ qs → R' !! p = R0 !! p ∧ L' !! p = L0 !! p.
Proof using All.
  intros Hp. destruct Hinv as (_ & _ & _ & _ & Hsame & _). apply Hsame.
  by rewrite take_ge by lia.
Qed.

Lemma final_tau_R i q r : qs !! i = Some q → R0 !! q = Some r → new_right !! i = Some (τ r).
Proof using All.
  intros Hq Hr. apply lookup_lt_Some in Hq as Hik.
  destruct (final_round i ltac:(lia)) as (q' & r' & _ & _ & _ & Hq' & Hr' & _ & _ & _ & _ & _ & T1 & _).
  rewrite Hq in Hq'. injection Hq' as <-. rewrite Hr in Hr'. injection Hr' as <-.
  rewrite T1. apply new_right_lookup. lia.
Qed.

Lemma final_tau_L i q l : qs !! i = Some q → L0 !! q = Some l → new_left !! i = Some (τ l).
Proof using All.
  intros Hq Hl. apply lookup_lt_Some in Hq as Hik.
  destruct (final_round i ltac:(lia))
    as (q' & _ & l' & _ & _ & Hq' & _ & Hl' & _ & _ & _ & _ & _ & _ & T3 & _).
  rewrite Hq in Hq'. injection Hq' as <-. rewrite Hl in Hl'. injection Hl' as <-.
  rewrite T3. apply new_left_lookup. lia.
Qed.

Lemma final_tau_int e : e ∈ internal s1 ns → τ e = e.
Proof using All.
  intros [Hc He]%list_elem_of_filter. destruct final_wired as (_ & _ & _ & _ & _ & _ & Hconn).
  apply Hconn; [|done]. apply elem_of_get_all_edges in He.
  by eapply net_ok_slot_lt.
Qed.

Lemma final_edges i :
  i < k →
  ∃ na nb,
    edges s' !! (length (edges s1) + 2 * i) = Some (mkEdge g (i + k) (Some na)) ∧
    edges s' !! (length (edges s1) + 2 * i + 1) = Some (mkEdge lg (i + k) (Some nb)).
Proof using All.
  intros Hi. destruct Hinv as (_ & _ & _ & _ & _ & _ & Hrec).
  destruct (lookup_lt_is_Some_2 qs i) as [q Hq]; [lia|].
  destruct (Hrec i q Hi Hq)
    as (r & l & gi & li & rr & rl & _ & _ & _ & _ & _ & _ & _ & _ & _ & _ & N1 & N2).
  eauto.
Qed.

Lemma elem_of_new_right e : e ∈ new_right ↔ ∃ i, i < k ∧ e = length (edges s1) + 2 * i.
Proof using All.
  unfold new_right. rewrite list_elem_of_fmap. split.
  - intros (i & -> & Hi%elem_of_seq). exists i. split; [lia | done].
  - intros (i & Hi & ->). exists i. split; [done|]. apply elem_of_seq. lia.
Qed.

Lemma elem_of_new_left e : e ∈ new_left ↔ ∃ i, i < k ∧ e = length (edges s1) + 2 * i + 1.
Proof using All.
  unfold new_left. rewrite list_elem_of_fmap. split.
  - intros (i & -> & Hi%elem_of_seq). exists i. split; [lia | done].
  - intros (i & Hi & ->). exists i. split; [done|]. apply elem_of_seq. lia.
Qed.

Lemma initial_lt e :
  e ∈ R0 ++ L0 ++ gouts ++ gins ++ louts ++ lins → e < length (edges s1).
Proof using All.
  intros He. eapply net_ok_slot_lt; [exact H0|]. eapply net_ok_out_slots; [exact H0|].
  unfold gate_out. by rewrite !drop_0.
Qed.

Lemma initial_dangling e :
  e ∈ R0 ++ L0 ++ gouts ++ gins ++ louts ++ lins → ¬ edge_connected s1 e.
Proof using All.
  intros He Hc. destruct H0 as (_ & _ & _ & _ & _ & Hfront).
  unfold gate_out in Hfront. rewrite !drop_0 in Hfront.
  apply (proj1 (Forall_forall _ _) Hfront) in He.
  apply front_ok_inv in He as (r & Hr & Hd & _).
  unfold edge_connected in Hc. rewrite Hr in Hc. simpl in Hc. unfold is_dangling in Hc.
  by rewrite Hd in Hc.
Qed.

Lemma final_dangling e : e ∈ R' ++ L' → ¬ edge_connected s' e.
Proof using All.
  intros He Hc. destruct final_net as (_ & _ & _ & _ & _ & Hfront).
  apply (proj1 (Forall_forall _ _) Hfront) in He.
  apply front_ok_inv in He as (r & Hr & Hd & _).
  unfold edge_connected in Hc. rewrite Hr in Hc. simpl in Hc. unfold is_dangling in Hc.
  by rewrite Hd in Hc.
Qed.

(** The edges bound to the gate and to its conjugate at the end. *)
Definition gate_slots : list nat := (gouts ++ new_right) ++ (louts ++ new_left).

Lemma gate_slots_NoDup : NoDup gate_slots.
Proof using All.
  pose proof H0 as (_ & Hnd & _). unfold gate_out in Hnd. rewrite !drop_0 in Hnd.
  apply NoDup_app in Hnd as (_ & _ & Hnd). apply NoDup_app in Hnd as (_ & _ & Hnd).
  apply NoDup_app in Hnd as (Hgouts & Hdis1 & Hnd).
  apply NoDup_app in Hnd as (_ & _ & Hnd). apply NoDup_app in Hnd as (Hlouts & _ & _).
  assert (NoDup new_right) as Hnr.
  { unfold new_right. apply NoDup_fmap_2_strong; [|apply NoDup_seq]. intros x y _ _. lia. }
  assert (NoDup new_left) as Hnl.
  { unfold new_left. apply NoDup_fmap_2_strong; [|apply NoDup_seq]. intros x y _ _. lia. }
  assert (∀ e, e ∈ gouts ++ louts → e < length (edges s1)) as Hold.
  { intros e He. apply initial_lt. rewrite !elem_of_app in *. tauto. }
  unfold gate_slots. apply NoDup_app. split_and!.
  - apply NoDup_app. split_and!; [done| |done].
    intros e He (i & _ & ->)%elem_of_new_right.
    specialize (Hold _ ltac:(apply elem_of_app; left; exact He)). lia.
  - intros e He He'. apply elem_of_app in He as [He|He]; apply elem_of_app in He' as [He'|He'].
    + apply (Hdis1 e He). rewrite !elem_of_app. tauto.
    + apply elem_of_new_left in He' as (i & _ & ->).
      specialize (Hold _ ltac:(apply elem_of_app; left; exact He)). lia.
    + apply elem_of_new_right in He as (i & _ & ->).
      specialize (Hold _ ltac:(apply elem_of_app; right; exact He')). lia.
    + apply elem_of_new_right in He as (i & _ & ->).
      apply elem_of_new_left in He' as (j & _ & Hj). lia.
  - apply NoDup_app. split_and!; [done| |done].
    intros e He (i & _ & ->)%elem_of_new_left.
    specialize (Hold _ ltac:(apply elem_of_app; right; exact He)). lia.
Qed.

(** What the renaming does to an edge of the circuit: it is left alone (a
    connected edge, or a front the gate does not touch), or it is the front
    of a target qubit and becomes the new edge of its round. *)
Lemma classify e :
  e ∈ slots_of s1 ns →
  (e < length (edges s1) ∧ τ e = e ∧
   (e ∈ internal s1 ns ∨ (e ∈ R' ++ L' ∧ ¬ edge_connected s1 e))) ∨
  (∃ i q, qs !! i = Some q ∧ ¬ edge_connected s1 e ∧
     ((R0 !! q = Some e ∧ τ e = length (edges s1) + 2 * i) ∨
      (L0 !! q = Some e ∧ τ e = length (edges s1) + 2 * i + 1))).
Proof using All.
  intros He. pose proof (net_ok_slot_lt _ _ _ _ Hcirc He) as Hlt'.
  destruct (decide (edge_connected s1 e)) as [Hc|Hc].
  - left. assert (e ∈ internal s1 ns) as Hint.
    { apply list_elem_of_filter. split; [done | by apply elem_of_get_all_edges]. }
    split_and!; [done | by apply final_tau_int | by left].
  - assert (e ∈ R0 ++ L0) as Hin.
    { pose proof Hcirc as (_ & _ & _ & _ & Hdang & _).
      apply (proj1 (Forall_forall _ _) Hdang e He).
      destruct (net_ok_edge_rec _ _ _ _ Hcirc He) as [r Hr].
      unfold edge_dangling, edge_connected in *. rewrite Hr in *. simpl in *.
      by destruct (is_dangling r). }
    apply elem_of_app in Hin as [Hin|Hin]; apply list_elem_of_lookup in Hin as [p Hp].
    + destruct (decide (p ∈ qs)) as [Hq|Hq].
      * right. apply list_elem_of_lookup in Hq as [i Hi]. exists i, p. split_and!; try done.
        left. split; [done|]. pose proof (final_tau_R i p e Hi Hp) as Hx.
        apply lookup_lt_Some in Hi. rewrite new_right_lookup in Hx by lia. by injection Hx.
      * left. destruct (final_free p Hq) as [HRp _].
        assert (e ∈ R' ++ L') as Hin'.
        { apply elem_of_app. left. rewrite Hp in HRp. by eapply list_elem_of_lookup_2. }
        split_and!; [done | by eapply wired_fix, Hin'; apply final_wired | by right].
    + destruct (decide (p ∈ qs)) as [Hq|Hq].
      * right. apply list_elem_of_lookup in Hq as [i Hi]. exists i, p. split_and!; try done.
        right. split; [done|]. pose proof (final_tau_L i p e Hi Hp) as Hx.
        apply lookup_lt_Some in Hi. rewrite new_left_lookup in Hx by lia. by injection Hx.
      * left. destruct (final_free p Hq) as [_ HLp].
        assert (e ∈ R' ++ L') as Hin'.
        { apply elem_of_app. right. rewrite Hp in HLp. by eapply list_elem_of_lookup_2. }
        split_and!; [done | by eapply wired_fix, Hin'; apply final_wired | by right].
Qed.

Lemma tau_inj x y :
  x ∈ slots_of s1 ns → y ∈ slots_of s1 ns → τ x = τ y → x = y.
Proof using All.
  intros Hx Hy Hxy.
  destruct (classify x Hx) as [(Lx & Tx & _)|(i & q & Hq & _ & Cx)];
    destruct (classify y Hy) as [(Ly & Ty & _)|(j & q' & Hq' & _ & Cy)].
  - congruence.
  - destruct Cy as [[_ Ty]|[_ Ty]]; lia.
  - destruct Cx as [[_ Tx]|[_ Tx]]; lia.
  - destruct Cx as [[Ex Tx]|[Ex Tx]]; destruct Cy as [[Ey Ty]|[Ey Ty]]; try lia.
    + assert (i = j) as -> by lia. rewrite Hq in Hq'. injection Hq' as <-. congruence.
    + assert (i = j) as -> by lia. rewrite Hq in Hq'. injection Hq' as <-. congruence.
Qed.

Lemma filter_all {A} (P : A → Prop) `{∀ x, Decision (P x)} (l : list A) :
  (∀ x, x ∈ l → P x) → filter P l = l.
Proof using All.
  induction l as [|x l IH]; intros Hl; [done|]. rewrite filter_cons.
  rewrite decide_True by (apply Hl; by left). f_equal. apply IH. intros y Hy. apply Hl. by right.
Qed.

Lemma final_slots : slots_of s' (ns ++ [g; lg]) = (τ <$> slots_of s1 ns) ++ gate_slots.
Proof using All.
  rewrite slots_of_app. f_equal.
  - apply slots_of_fmap. intros m Hm. destruct (net_ok_node _ _ _ _ Hcirc Hm) as [nr Hnr].
    by rewrite (final_old m nr Hm Hnr), Hnr.
  - change [g; lg] with ([g] ++ [lg]). rewrite slots_of_app.
    by rewrite (slots_of_single s' g _ final_gate), (slots_of_single s' lg _ final_lgate).
Qed.

Lemma new_connected e : e ∈ new_right ++ new_left → edge_connected s' e.
Proof using All.
  intros [He|He]%elem_of_app.
  - apply elem_of_new_right in He as (i & Hi & ->).
    destruct (final_edges i Hi) as (na & nb & E1 & _). unfold edge_connected. by rewrite E1.
  - apply elem_of_new_left in He as (i & Hi & ->).
    destruct (final_edges i Hi) as (na & nb & _ & E2). unfold edge_connected. by rewrite E2.
Qed.

(** The connected edges at the end: those of the circuit, then the new
    edges of the ket side, then those of the bra side. *)
Lemma final_internal :
  internal s' (ns ++ [g; lg]) = internal s1 ns ++ new_right ++ new_left.
Proof using All.
  unfold internal.
  change (get_all_edges s' (ns ++ [g; lg])) with (remove_dups (slots_of s' (ns ++ [g; lg]))).
  change (get_all_edges s1 ns) with (remove_dups (slots_of s1 ns)).
  rewrite final_slots, remove_dups_app, filter_app.
  rewrite (remove_dups_NoDup gate_slots gate_slots_NoDup). f_equal.
  - rewrite (remove_dups_fmap τ) by apply tau_inj.
    rewrite list_filter_filter.
    rewrite (filter_fmap_iff τ _ (edge_connected s1)).
    + rewrite <- (list_fmap_id (filter _ _)) at 2. apply list_fmap_ext. intros i e Hi. simpl.
      apply final_tau_int. by eapply list_elem_of_lookup_2.
    + intros e He. rewrite elem_of_remove_dups in He.
      destruct final_wired as (_ & _ & Hold & _).
      destruct (classify e He) as [(Lt & Te & [Hint|[Hf Hd]])|(i & q & Hq & Hd & Ce)].
      * apply list_elem_of_filter in Hint as [Hc _]. rewrite Te. split; [done|]. intros _.
        split.
        -- unfold edge_connected in *. by rewrite Hold.
        -- unfold gate_slots. rewrite !elem_of_app.
           intros [[Hg|Hg]|[Hg|Hg]].
           ++ apply (initial_dangling e); [|done]. rewrite !elem_of_app. tauto.
           ++ apply elem_of_new_right in Hg as (j & _ & ->). lia.
           ++ apply (initial_dangling e); [|done]. rewrite !elem_of_app. tauto.
           ++ apply elem_of_new_left in Hg as (j & _ & ->). lia.
      * rewrite Te. split; [|done]. intros [Hc _]. by apply final_dangling in Hc.
      * split; [|done]. intros [_ Hn]. exfalso. apply Hn. apply lookup_lt_Some in Hq.
        unfold gate_slots. rewrite !elem_of_app.
        destruct Ce as [[_ ->]|[_ ->]].
        -- left. right. apply elem_of_new_right. exists i. split; [lia | done].
        -- right. right. apply elem_of_new_left. exists i. split; [lia | done].
  - unfold gate_slots. rewrite !filter_app.
    rewrite (filter_none _ gouts), (filter_none _ louts); simpl.
    + rewrite !filter_all; [done | |].
      * intros e He. apply new_connected, elem_of_app. by right.
      * intros e He. apply new_connected, elem_of_app. by left.
    + intros e He. apply final_dangling, elem_of_app. right. by apply louts_front.
    + intros e He. apply final_dangling, elem_of_app. left. by apply gouts_front.
Qed.

Lemma mapM_app {A B} (f : A → option B) l1 l2 k1 k2 :
  mapM f l1 = Some k1 → mapM f l2 = Some k2 → mapM f (l1 ++ l2) = Some (k1 ++ k2).
Proof using All.
  intros H1%mapM_Some H2%mapM_Some. apply mapM_Some. by apply Forall2_app.
Qed.

Lemma input_axis_dim m T outs ins i e :
  m ∈ ns ++ [g; lg] → nodes s1 !! m = Some (mkNode T (outs ++ ins)) → length outs = k →
  ins !! i = Some e → e ∈ R0 ++ L0 ++ gouts ++ gins ++ louts ++ lins →
  shape T !! (i + k) = Some 2.
Proof using All.
  intros Hm Hrec Hlen Hi He. destruct H0 as (_ & _ & _ & _ & _ & Hfront).
  unfold gate_out in Hfront. rewrite !drop_0 in Hfront.
  apply (proj1 (Forall_forall _ _) Hfront) in He.
  apply front_ok_inv in He as (r & Hr & _ & _ & _ & Hdim & Hb).
  destruct (Hb m (i + k) Hm) as [E1 E2].
  { unfold slot. rewrite Hrec. simpl. rewrite lookup_app_r by lia.
    by replace (i + k - length outs) with i by lia. }
  unfold edge_dim in Hdim. by rewrite <- E1, <- E2, Hrec in Hdim.
Qed.

Lemma final_dims dints :
  dims s1 (internal s1 ns) = Some dints →
  dims s' (internal s' (ns ++ [g; lg])) = Some (dints ++ replicate k 2 ++ replicate k 2).
Proof using All.
  intros Hd. rewrite final_internal. unfold dims in *.
  destruct final_wired as (_ & _ & Hold & _).
  apply mapM_app; [|apply mapM_app].
  - rewrite <- Hd. apply mapM_ext_in. intros e He.
    apply list_elem_of_filter in He as [_ He]. apply elem_of_get_all_edges in He.
    pose proof (net_ok_edge _ _ _ _ Hcirc He) as Hk'.
    rewrite Hold by (by eapply net_ok_slot_lt). unfold edge_ok in Hk'.
    destruct (edges s1 !! e) as [r|]; [|done]. simpl. destruct Hk' as (Hn & _).
    destruct (net_ok_node _ _ _ _ Hcirc Hn) as [nr Hnr].
    unfold edge_dim. by rewrite (final_old _ nr Hn Hnr), Hnr.
  - apply mapM_Some, Forall2_same_length_lookup_2.
    { unfold new_right. by rewrite length_fmap, length_seq, length_replicate. }
    intros i x y Hx Hy. apply lookup_replicate in Hy as [-> Hi].
    rewrite new_right_lookup in Hx by done. injection Hx as <-.
    destruct (final_edges i Hi) as (na & nb & E1 & _). cbv beta. simpl in E1. rewrite E1. simpl.
    unfold edge_dim. cbn [node1 axis1]. rewrite final_gate. simpl.
    destruct (lookup_lt_is_Some_2 gins i) as [gi Hgi']; [lia|].
    apply (input_axis_dim g Tg gouts gins i gi); try done.
    + apply elem_of_app. right. left.
    + rewrite !elem_of_app. do 3 right. left. by eapply list_elem_of_lookup_2.
  - apply mapM_Some, Forall2_same_length_lookup_2.
    { unfold new_left. by rewrite length_fmap, length_seq, length_replicate. }
    intros i x y Hx Hy. apply lookup_replicate in Hy as [-> Hi].
    rewrite new_left_lookup in Hx by done. injection Hx as <-.
    destruct (final_edges i Hi) as (na & nb & _ & E2). cbv beta. simpl in E2. rewrite E2. simpl.
    unfold edge_dim. cbn [node1 axis1]. rewrite final_lgate. simpl.
    destruct (lookup_lt_is_Some_2 lins i) as [li Hli']; [lia|].
    apply (input_axis_dim lg Tl louts lins i li); try done.
    + apply elem_of_app. right. right. left.
    + rewrite !elem_of_app. do 5 right. by eapply list_elem_of_lookup_2.
Qed.

End Gate_final.

(** ** [apply_general_gate] is the sandwich update *)

Section Gate_sandwich.
Context `{Scalar}.

(** What a gate does, with the part of the store it leaves alone: on a
    well-formed circuit, for an operator [g] on [k] qubits that is not part
    of the circuit and [k] distinct qubit indices in range,
    [apply_general_gate] returns; the contraction of the new network is the
    sandwich of the old one; no edge record that existed is changed, and of
    the nodes that existed only those of the circuit and [g] are. *)
Lemma gate_effect (s : Store) (c : DMCircuit) (g : nat) (qs : list nat) (gr : Node) :
  semiring_laws → dm_ok s c → nodes s !! g = Some gr → net_ok s [g] (nedges gr) →
  length (nedges gr) = 2 * length qs → g ∉ _nodes c →
  NoDup qs → Forall (λ q, q < _nqubits c) qs →
  ∃ rho rho' s' R' L',
    let c' := mkDM (_nqubits c) ((_nodes c ++ [g]) ++ [length (nodes s)]) R' L' None in
    denote s c = Some rho ∧
    apply_general_gate g (Z.of_nat <$> qs) (mkWorld s c) = Ok tt (mkWorld s' c') ∧
    dm_ok s' c' ∧
    tensor <$> nodes s' !! length (nodes s) = Some (tensor_conj (tensor gr)) ∧
    denote s' c' = Some rho' ∧
    shape rho' = replicate (2 * _nqubits c) 2 ∧
    data rho' = data (sandwich (_nqubits c) (tensor gr) qs rho) ∧
    (∀ e r, edges s !! e = Some r → edges s' !! e = Some r) ∧
    (∀ m, m < length (nodes s) → m ∉ _nodes c → m ≠ g → nodes s' !! m = nodes s !! m).
Proof.
  intros Hlaws Hdm Hgr Hgok Hrank Hgn Hnd Hlt.
  destruct (apply_general_gate_run s c g qs gr Hdm Hgr Hgok Hrank Hgn Hnd Hlt)
    as (τ & s' & R' & L' & Hrun & Hinv & Hdm').
  destruct c as [n ns R L st]. cbn [_nqubits _nodes _rfront _lfront] in *.
  pose proof Hdm as (Hok & HR & HL & _). cbn [_nqubits _nodes _rfront _lfront] in *.
  set (k := length qs) in *.
  destruct (gate_copy_net s ns (R ++ L) g k gr Hok Hgr Hgok Hgn Hrank)
    as (_ & Hext & Hlgr & Hnet).
  set (s1 := copy_store s [g] true) in *.
  set (lg := length (nodes s)) in *.
  set (les := edf s [g] <$> nedges gr) in *.
  set (gouts := take k (nedges gr)) in *. set (gins := drop k (nedges gr)) in *.
  set (louts := take k les) in *. set (lins := drop k les) in *.
  assert (length les = 2 * k) as Hles by (unfold les; by rewrite length_fmap).
  assert (length gouts = k) as Hgo by (unfold gouts; rewrite length_take; lia).
  assert (length gins = k) as Hgi by (unfold gins; rewrite length_drop; lia).
  assert (length louts = k) as Hlo by (unfold louts; rewrite length_take; lia).
  assert (length lins = k) as Hli by (unfold lins; rewrite length_drop; lia).
  assert (nodes s1 !! g = Some (mkNode (tensor gr) (gouts ++ gins))) as Hgrec.
  { unfold gouts, gins. rewrite take_drop. rewrite (proj1 Hext g gr Hgr). by destruct gr. }
  assert (nodes s1 !! lg = Some (mkNode (tensor_conj (tensor gr)) (louts ++ lins))) as Hlgrec.
  { unfold louts, lins. by rewrite take_drop. }
  assert (net_ok s1 (ns ++ [g; lg]) (gate_out gouts gins louts lins 0 R L)) as H0.
  { unfold gate_out. rewrite !drop_0. by rewrite <- app_assoc in Hnet. }
  assert (net_ok s1 ns (R ++ L)) as Hcirc by (by eapply extends_net_ok).
  pose proof (final_wired s1 n ns g lg k qs R L gouts gins louts lins (tensor gr) (tensor_conj (tensor gr))
      τ s' R' L' Hgrec Hlgrec Hgo Hgi Hlo Hli eq_refl Hnd Hlt H0 Hcirc HR HL Hinv) as F_wired.
  pose proof (final_old s1 n ns g lg k qs R L gouts gins louts lins (tensor gr) (tensor_conj (tensor gr))
      τ s' R' L' Hgrec Hlgrec Hgo Hgi Hlo Hli eq_refl Hnd Hlt H0 Hcirc HR HL Hinv) as F_old.
  pose proof (final_gate s1 n ns g lg k qs R L gouts gins louts lins (tensor gr) (tensor_conj (tensor gr))
      τ s' R' L' Hgrec Hlgrec Hgo Hgi Hlo Hli eq_refl Hnd Hlt H0 Hcirc HR HL Hinv) as F_gate.
  pose proof (final_lgate s1 n ns g lg k qs R L gouts gins louts lins (tensor gr) (tensor_conj (tensor gr))
      τ s' R' L' Hgrec Hlgrec Hgo Hgi Hlo Hli eq_refl Hnd Hlt H0 Hcirc HR HL Hinv) as F_lgate.
  pose proof (final_free s1 n ns g lg k qs R L gouts gins louts lins (tensor gr) (tensor_conj (tensor gr))
      τ s' R' L' Hgrec Hlgrec Hgo Hgi Hlo Hli eq_refl Hnd Hlt H0 Hcirc HR HL Hinv) as F_free.
  pose proof (final_tau_R s1 n ns g lg k qs R L gouts gins louts lins (tensor gr) (tensor_conj (tensor gr))
      τ s' R' L' Hgrec Hlgrec Hgo Hgi Hlo Hli eq_refl Hnd Hlt H0 Hcirc HR HL Hinv) as F_tau_R.
  pose proof (final_tau_L s1 n ns g lg k qs R L gouts gins louts lins (tensor gr) (tensor_conj (tensor gr))
      τ s' R' L' Hgrec Hlgrec Hgo Hgi Hlo Hli eq_refl Hnd Hlt H0 Hcirc HR HL Hinv) as F_tau_L.
  pose proof (final_tau_int s1 n ns g lg k qs R L gouts gins louts lins (tensor gr) (tensor_conj (tensor gr))
      τ s' R' L' Hgrec Hlgrec Hgo Hgi Hlo Hli eq_refl Hnd Hlt H0 Hcirc HR HL Hinv) as F_tau_int.
  pose proof (final_internal s1 n ns g lg k qs R L gouts gins louts lins (tensor gr) (tensor_conj (tensor gr))
      τ s' R' L' Hgrec Hlgrec Hgo Hgi Hlo Hli eq_refl Hnd Hlt H0 Hcirc HR HL Hinv) as F_internal.
  pose proof (final_dims s1 n ns g lg k qs R L gouts gins louts lins (tensor gr) (tensor_conj (tensor gr))
      τ s' R' L' Hgrec Hlgrec Hgo Hgi Hlo Hli eq_refl Hnd Hlt H0 Hcirc HR HL Hinv) as F_dims.
  pose proof F_wired as (Hok' & _).
  destruct (abstract_ok s ns (R ++ L) Hok) as (net & Hnet0 & _).
  destruct (abstract_ok s' _ (R' ++ L') Hok') as (net' & Hnet' & _).
  assert (abstract s1 ns (R ++ L) = Some net) as Hnet1.
  { by rewrite (extends_abstract s s1 ns (R ++ L) Hext Hok). }
  pose proof Hinv as (_ & _ & HR' & HL' & _ & Hnew & _).
  destruct (sandwich_core Hlaws s1 s' ns g lg n k τ qs R L R' L' gouts louts
              (new_right s1 k) (new_left s1 k) (tensor gr)) with (net := net) (net' := net')
    as [Hshape Hdata]; try done.
  - unfold new_right. by rewrite length_fmap, length_seq.
  - unfold new_left. by rewrite length_fmap, length_seq.
  - intros p Hp. by apply F_free.
  - intros p Hp. by apply F_free.
  - intros i q Hq. apply (Hnew i q); [|done]. by apply lookup_lt_Some in Hq.
  - intros i q Hq. apply (Hnew i q); [|done]. by apply lookup_lt_Some in Hq.
  - intros e He. by eapply wired_fix.
  - destruct (abstract_inv _ _ _ _ Hnet1) as (_ & _ & Hd1).
    destruct (abstract_inv _ _ _ _ Hnet') as (_ & _ & Hd').
    rewrite (F_dims _ Hd1) in Hd'. by injection Hd'.
  - exists (einsum net), (einsum net'), s', R', L'.
    cbn [heap self _nqubits _nodes _rfront _lfront state_tensor]. cbv zeta.
    pose proof F_wired as (_ & Hlen' & Hedges' & _ & Hnodes' & _).
    split_and!; try done.
    + unfold denote. cbn [_nodes _rfront _lfront]. by rewrite Hnet0.
    + by rewrite F_lgate.
    + unfold denote. cbn [_nodes _rfront _lfront]. rewrite <- app_assoc. simpl.
      by rewrite Hnet'.
    + intros e r He. pose proof (proj2 Hext e r He) as He1.
      rewrite Hedges'; [done|]. by eapply lookup_lt_Some.
    + intros m Hm Hmn Hmg. rewrite Hnodes'.
      * unfold s1. simpl. by rewrite lookup_app_l.
      * rewrite elem_of_app, !elem_of_cons, elem_of_nil. unfold lg. intros [?|[?|[?|?]]]; try done.
        lia.
Qed.


(** On a well-formed circuit, for an operator [g] on [k] qubits that is not
    part of the circuit and [k] distinct qubit indices in range,
    [apply_general_gate] returns; it has appended the gate and its
    conjugated duplicate to the nodes and cleared the memo, the circuit is
    well formed, and its contraction is the sandwich [G rho G†] of the
    contraction [rho] before (for scalars that form a commutative
    semiring). *)
Theorem apply_general_gate_sandwich (s : Store) (c : DMCircuit) (g : nat) (qs : list nat)
    (gr : Node) :
  semiring_laws → dm_ok s c → nodes s !! g = Some gr → net_ok s [g] (nedges gr) →
  length (nedges gr) = 2 * length qs → g ∉ _nodes c →
  NoDup qs → Forall (λ q, q < _nqubits c) qs →
  ∃ rho rho' w',
    denote s c = Some rho ∧
    apply_general_gate g (Z.of_nat <$> qs) (mkWorld s c) = Ok tt w' ∧
    dm_ok (heap w') (self w') ∧
    _nqubits (self w') = _nqubits c ∧
    _nodes (self w') = _nodes c ++ [g; length (nodes s)] ∧
    tensor <$> nodes (heap w') !! length (nodes s) = Some (tensor_conj (tensor gr)) ∧
    state_tensor (self w') = None ∧
    denote (heap w') (self w') = Some rho' ∧
    shape rho' = replicate (2 * _nqubits c) 2 ∧
    data rho' = data (sandwich (_nqubits c) (tensor gr) qs rho).
Proof.
  intros Hlaws Hdm Hgr Hgok Hrank Hgn Hnd Hlt.
  destruct (gate_effect s c g qs gr Hlaws Hdm Hgr Hgok Hrank Hgn Hnd Hlt)
    as (rho & rho' & s' & R' & L' & Hden & Hrun & Hdm' & Hlg & Hden' & Hshape & Hdata & _).
  exists rho, rho', (mkWorld s' (mkDM (_nqubits c) ((_nodes c ++ [g]) ++ [length (nodes s)]) R' L' None)).
  cbn [heap self _nqubits _nodes state_tensor].
  split_and!; try done. by rewrite <- app_assoc.
Qed.

End Gate_sandwich.

(** * Further properties of the methods *)

(** ** Index groups of a channel *)

Section Kraus_groups.
Context `{Scalar}.

(** X2.  [apply_general_kraus] checks the number of index groups before it
    touches anything: when that number is neither the number of Kraus
    operators nor one, the call raises an assertion error and the store and
    the instance are exactly as before. *)
Theorem apply_general_kraus_group_count kraus index w :
  length kraus ≠ length index → length index ≠ 1 →
  apply_general_kraus kraus index w = Raise AssertionError w.
Proof. apply apply_general_kraus_assertion. Qed.

(** X3.  A single index group stands for the same group repeated once per
    Kraus operator: both calls have the same outcome, whatever it is. *)
Theorem apply_general_kraus_single_group kraus (i : list Z) w :
  apply_general_kraus kraus [i] w
  = apply_general_kraus kraus (replicate (length kraus) i) w.
Proof. apply apply_general_kraus_broadcast. Qed.

(** X4.  With an empty list of Kraus operators (and no index group, or one)
    the call fails with a TypeError from the sum over no branches; by then
    the network has already been contracted: the instance is left with one
    node, the contraction of the former network, and its fronts and memo
    untouched. *)
Theorem apply_general_kraus_empty s c index :
  dm_ok s c → _nodes c ≠ [] → length index ≤ 1 →
  ∃ net,
    abstract s (_nodes c) (_rfront c ++ _lfront c) = Some net ∧
    apply_general_kraus [] index (mkWorld s c)
    = Raise TypeError
        (mkWorld (contract_store s (_rfront c ++ _lfront c) net)
                 (mkDM (_nqubits c) [length (nodes s)] (_rfront c) (_lfront c) (state_tensor c))).
Proof.
  intros Hdm Hne Hlen. pose proof Hdm as (Hok & _).
  destruct (abstract_ok s _ _ Hok) as (net & Habs & _).
  exists net. split; [done|].
  pose proof (contractor_ok s _ _ net Hok Hne Habs) as Hrun.
  assert (_contract (mkWorld s c)
          = Ok tt (mkWorld (contract_store s (_rfront c ++ _lfront c) net)
                     (mkDM (_nqubits c) [length (nodes s)] (_rfront c) (_lfront c) (state_tensor c))))
    as Hcon.
  { unfold _contract. rewrite bind_unfold. cbn [get_self self].
    by rewrite (bind_Ok _ _ _ _ _ (lift_at _ s c _ _ Hrun)). }
  unfold apply_general_kraus. cbv zeta.
  destruct index as [|i [|i' index]]; [| |simpl in Hlen; lia].
  - rewrite bind_unfold.
    replace (bool_decide _ || bool_decide _) with true by done.
    cbn [py_assert mret M_ret]. rewrite bind_unfold.
    replace (bool_decide (length [] = 1)) with false by done. cbn [mret M_ret].
    rewrite (bind_Ok _ _ _ _ _ Hcon). done.
  - rewrite bind_unfold.
    replace (bool_decide _ || bool_decide _) with true by done.
    cbn [py_assert mret M_ret]. rewrite bind_unfold.
    replace (bool_decide (length [i] = 1)) with true by done.
    rewrite bind_unfold. cbn [lookup list_lookup from_option mret M_ret length replicate].
    rewrite (bind_Ok _ _ _ _ _ Hcon). done.
Qed.

End Kraus_groups.

(** ** Qubit indices of a gate *)

Section Gate_indices.
Context `{Scalar}.

Lemma py_index_negative len i :
  (- Z.of_nat len ≤ i < 0)%Z → py_index len i = py_index len (i + Z.of_nat len).
Proof.
  intros Hi. unfold py_index.
  rewrite (bool_decide_eq_false_2 (0 ≤ i < _)%Z) by lia.
  rewrite (bool_decide_eq_true_2 (- _ ≤ i < 0)%Z) by lia.
  rewrite (bool_decide_eq_true_2 (0 ≤ i + _ < _)%Z) by lia.
  f_equal. lia.
Qed.

Lemma getitem_same_position {S A} (l : list A) i i' :
  py_index (length l) i = py_index (length l) i' → @getitem S A l i = getitem l i'.
Proof. intros Hi. unfold getitem. by rewrite Hi. Qed.

Lemma setitem_same_position {S A} (l : list A) i i' x :
  py_index (length l) i = py_index (length l) i' → @setitem S A l i x = setitem l i' x.
Proof. intros Hi. unfold setitem. by rewrite Hi. Qed.

Lemma lift_self {A} (m : M Store A) w : self (outcome_state (lift m w)) = self w.
Proof. unfold lift. by destruct (m (heap w)). Qed.

Lemma getitem_state {S A} (l : list A) i (w : S) : outcome_state (getitem l i w) = w.
Proof. unfold getitem. by destruct (_ ≫= _). Qed.

Lemma setitem_state {S A} (l : list A) i x (w : S) : outcome_state (setitem l i x w) = w.
Proof. unfold setitem. by destruct (_ <$> _). Qed.

Ltac step_lift m :=
  rewrite !(bind_unfold (lift m));
  match goal with
  | |- context [lift m ?w] =>
      let X := fresh "X" in
      let h := fresh "h" in
      let c' := fresh "c" in
      pose proof (lift_self m w) as X;
      destruct (lift m w) as [? [h c']|? ?]; [cbn [outcome_state self] in X; subst c' | done]
  end.

Ltac step_pure m :=
  rewrite !(bind_unfold m);
  match goal with
  | |- context [m ?w] =>
      let X := fresh "X" in
      first [ pose proof (getitem_state _ _ w : outcome_state (m w) = w) as X
            | pose proof (setitem_state _ _ _ w : outcome_state (m w) = w) as X ];
      destruct (m w) as [? ?|? ?]; [cbn [outcome_state] in X; subst | done]
  end.

(** One round of the loop sees an index only through the position it
    denotes. *)
Lemma gate_step_same_position n g lg noe j i i' w :
  fronts_for n w → py_index n i = py_index n i' →
  gate_step g lg noe (j, i) w = gate_step g lg noe (j, i') w.
Proof.
  intros [[Hr Hl] Hn] Hi. destruct w as [s c]. simpl in Hr, Hl, Hn.
  assert (∀ x, py_index (length (_rfront c)) x = py_index n x) as Er by (intros; by rewrite Hr, Hn).
  assert (∀ x, py_index (length (_lfront c)) x = py_index n x) as El by (intros; by rewrite Hl, Hn).
  unfold gate_step. rewrite !(bind_unfold get_self). cbn [get_self self].
  step_lift (get_edge g (j + noe)).
  rewrite (getitem_same_position (_rfront c) i i') by (by rewrite !Er).
  step_pure (@getitem World _ (_rfront c) i').
  match goal with |- context [lift (connect ?a ?b)] => step_lift (connect a b) end.
  step_lift (get_edge g j).
  match goal with |- context [setitem (_rfront c) i ?e] =>
    rewrite (setitem_same_position (_rfront c) i i' e) by (by rewrite !Er);
    step_pure (@setitem World _ (_rfront c) i' e) end.
  match goal with |- context [set_rfront ?R] =>
    rewrite !(bind_unfold (set_rfront R)); unfold set_rfront at 1 2 end.
  rewrite !(bind_unfold get_self). cbn [get_self set_self self heap].
  rewrite !(bind_unfold get_self). cbn [get_self self _lfront].
  step_lift (get_edge lg (j + noe)).
  rewrite (getitem_same_position (_lfront c) i i') by (by rewrite !El).
  step_pure (@getitem World _ (_lfront c) i').
  match goal with |- context [lift (connect ?a ?b)] => step_lift (connect a b) end.
  step_lift (get_edge lg j).
  match goal with |- context [setitem (_lfront c) i ?e] =>
    rewrite (setitem_same_position (_lfront c) i i' e) by (by rewrite !El) end.
  done.
Qed.

Lemma gate_loop_same_position n g lg noe index index' :
  Forall2 (λ i i', py_index n i = py_index n i') index index' →
  ∀ j w, fronts_for n w →
    for_each (gate_step g lg noe) (zip (seq j (length index)) index) w
    = for_each (gate_step g lg noe) (zip (seq j (length index')) index') w.
Proof.
  induction 1 as [|i i' index index' Hi Hrest IH]; intros j w Hw; [done|].
  cbn [length seq zip zip_with for_each]. rewrite !bind_unfold.
  rewrite (gate_step_same_position n g lg noe j i i' w Hw Hi).
  pose proof (gate_step_fronts n g lg noe (j, i') w Hw) as Hstep.
  destruct (gate_step g lg noe (j, i') w) as [[] w'|e w']; [|done].
  by apply IH.
Qed.

(** X5.  The gate is wired by the positions the indices denote in the front
    lists: a negative index counts from the last qubit.  Two index lists that
    denote the same positions one by one, and that the distinctness check
    treats alike, give the same outcome. *)
Theorem apply_general_gate_same_positions g index index' w :
  fronts_ok (self w) →
  Forall2 (λ i i', py_index (_nqubits (self w)) i = py_index (_nqubits (self w)) i') index index' →
  all_distinct index = all_distinct index' →
  apply_general_gate g index w = apply_general_gate g index' w.
Proof.
  intros Hf Hpos Hd. unfold apply_general_gate. cbv zeta.
  rewrite !(bind_unfold (py_assert _)), Hd.
  destruct (all_distinct index'); [|done]. cbn [py_assert mret M_ret].
  rewrite !(bind_unfold (lift _)).
  pose proof (hoare_lift (self w) (_copy [g] None true) (λ w', self w' = self w)
                ltac:(done) w ltac:(done)) as Hcopy.
  destruct (lift (_copy [g] None true) w) as [l w1|e w1]; [|done].
  unfold at_self in Hcopy.
  rewrite !(bind_unfold (from_option _ _)).
  destruct (l.1 !! 0) as [lg|]; [|done]. cbn [from_option mret M_ret].
  rewrite !(bind_unfold (for_each _ _)). unfold enumerate.
  rewrite (Forall2_length _ _ _ Hpos) at 1.
  rewrite (gate_loop_same_position (_nqubits (self w)) g lg (length index') index index' Hpos 0 w1).
  2:{ split; rewrite Hcopy; done. }
  done.
Qed.

(** X6.  A first index outside [-n, n) stops the gate with an IndexError
    at its first look into the front list.  The instance keeps its nodes,
    fronts and memo; the conjugated duplicate of the operator has already
    been created in the store. *)
Theorem apply_general_gate_index_out_of_range s c g i rest :
  dm_ok s c → operator_ok s g (S (length rest)) → all_distinct (i :: rest) = true →
  ¬ (- Z.of_nat (_nqubits c) ≤ i < Z.of_nat (_nqubits c))%Z →
  apply_general_gate g (i :: rest) (mkWorld s c)
  = Raise IndexError (mkWorld (copy_store s [g] true) c).
Proof.
  intros Hdm Hop Hd Hi. pose proof Hdm as (Hok & Hr & Hl & _).
  unfold operator_ok in Hop. destruct (nodes s !! g) as [gr|] eqn:Hgr; [|done].
  destruct Hop as [Hrank Hgok].
  pose proof Hgok as (Gnd & Gout & Gnodes & Gedges & Gdang & Gfront).
  assert (_copy [g] None true s
          = Ok (ndf s [g] <$> [g], edf s [g] <$> nedges gr) (copy_store s [g] true)) as Hcopy.
  { rewrite (_copy_ok s [g] None true Gnd Gnodes Gedges).
    - cbn [front_arg]. by rewrite (slots_of_single s g gr Hgr).
    - cbn [front_arg]. by apply Forall_forall. }
  unfold apply_general_gate. cbv zeta. rewrite bind_unfold, Hd. cbn [py_assert mret M_ret].
  rewrite (bind_Ok _ _ _ _ _ (lift_at _ s c _ _ Hcopy)).
  cbn [fst fmap list_fmap lookup list_lookup from_option]. rewrite bind_unfold. cbn [mret M_ret].
  rewrite bind_unfold. unfold enumerate. cbn [length seq zip zip_with for_each].
  rewrite bind_unfold. unfold gate_step.
  rewrite bind_unfold. cbn [get_self self].
  destruct (lookup_lt_is_Some_2 (nedges gr) (0 + S (length rest))) as [e He].
  { rewrite Hrank. lia. }
  assert (get_edge g (0 + S (length rest)) (copy_store s [g] true)
          = Ok e (copy_store s [g] true)) as Hedge.
  { apply get_edge_slot. unfold slot.
    rewrite (proj1 (extends_copy_store s [g] true) g gr Hgr). simpl. exact He. }
  rewrite (bind_Ok _ _ _ _ _ (lift_at _ _ c _ _ Hedge)).
  rewrite bind_unfold. unfold getitem, py_index. rewrite Hr.
  rewrite !bool_decide_eq_false_2 by lia. done.
Qed.

End Gate_indices.

(** ** The trace check of [densitymatrix] *)

Section Check_flag.
Context `{Scalar}.

(** X7.  [check=True] only adds the trace assertion to [densitymatrix]: the
    call returns the same matrix and leaves the same state as without the
    check when the trace is close to one, and otherwise raises an assertion
    error in the state the unchecked call leaves (the memo already
    written). *)
Theorem densitymatrix_check reuse w :
  densitymatrix true reuse w
  = match densitymatrix false reuse w with
    | Ok dm w' => if close_to_one (matrix_trace dm) then Ok dm w' else Raise AssertionError w'
    | Raise e w' => Raise e w'
    end.
Proof.
  unfold densitymatrix. rewrite !(bind_unfold (_copy_dm_tensor _ _)).
  destruct (_copy_dm_tensor false reuse w) as [l w1|e w1]; [|done].
  rewrite !(bind_unfold get_self). cbn [get_self].
  rewrite !(bind_unfold (from_option _ _)).
  destruct (from_option IndexError (l.1 !! 0) w1) as [n0 w2|e w2]; [|done].
  rewrite !(bind_unfold (lift _)).
  destruct (lift (get_node n0) w2) as [nd w3|e w3]; [|done].
  rewrite !(bind_unfold (reshape _ _)).
  destruct (reshape (tensor nd) _ w3) as [dm w4|e w4]; [|done].
  rewrite !bind_unfold. cbn [mret M_ret].
  unfold check_density_matrix, matrix_trace.
  destruct (close_to_one _); done.
Qed.

End Check_flag.

(** ** A network of one node *)

Section Single_node.
Context `{Scalar}.

Lemma indices_NoDup sh : NoDup (indices sh).
Proof.
  induction sh as [|d ds IH]; simpl; [apply NoDup_singleton|].
  apply NoDup_bind.
  - intros i j o _ _ (o1 & -> & _)%list_elem_of_fmap (o2 & [= -> _] & _)%list_elem_of_fmap. done.
  - intros i _. apply NoDup_fmap; [|done]. by intros o1 o2 [= ->].
  - apply NoDup_seq.
Qed.

Lemma indices_flat_lookup sh k o : indices sh !! k = Some o → flat_index sh o = k.
Proof.
  intros Hk.
  assert (Forall2 lt o sh) as Ho by (by eapply indices_Forall2, list_elem_of_lookup_2).
  eapply NoDup_lookup; [apply indices_NoDup | | exact Hk].
  by apply indices_lookup_flat.
Qed.

(** Reading every entry of an array, in row-major order, gives its data. *)
Lemma tensor_get_all t : tensor_ok t → tensor_get t <$> indices (shape t) = data t.
Proof.
  intros Hok. apply list_eq. intros k. rewrite list_lookup_fmap.
  destruct (indices (shape t) !! k) as [o|] eqn:Hk; simpl.
  - unfold tensor_get. rewrite (indices_flat_lookup _ _ _ Hk).
    apply lookup_lt_Some in Hk. rewrite indices_length, <- Hok in Hk.
    destruct (lookup_lt_is_Some_2 _ _ Hk) as [x Hx]. by rewrite Hx.
  - apply lookup_ge_None in Hk. rewrite indices_length, <- Hok in Hk.
    symmetry. by apply lookup_ge_None.
Qed.

Lemma lookup_all {A} (d : A) (o : list A) : (λ p, default d (o !! p)) <$> seq 0 (length o) = o.
Proof.
  apply list_eq. intros i. rewrite list_lookup_fmap.
  destruct (decide (i < length o)) as [Hi|Hi].
  - rewrite lookup_seq_lt by done. simpl.
    destruct (lookup_lt_is_Some_2 _ _ Hi) as [x Hx]. by rewrite Hx.
  - rewrite lookup_seq_ge by lia. simpl. symmetry. apply lookup_ge_None. lia.
Qed.

(** The contraction of a lone array with all its axes as output is the
    array itself. *)
Lemma einsum_single t :
  tensor_ok t → einsum (mkANet [(t, seq 0 (length (shape t)))] (shape t) []) = t.
Proof.
  intros Hok. unfold einsum. cbn [a_out a_int indices]. destruct t as [sh d]. cbn [shape] in *.
  f_equal. transitivity (tensor_get (mkTensor sh d) <$> indices sh);
    [|exact (tensor_get_all (mkTensor sh d) Hok)].
  apply list_fmap_ext. intros k o Hk.
  assert (length o = length sh) as Hlen.
  { eapply Forall2_length, indices_Forall2, list_elem_of_lookup_2, Hk. }
  cbn [fmap list_fmap csum]. unfold a_term. cbn [a_nodes fmap list_fmap cprod fst snd].
  rewrite app_nil_r, <- Hlen. by rewrite lookup_all.
Qed.

(** A node whose axes carry distinct dangling edges of dimension 2, each
    pointing back to its axis. *)
Definition lone_node (s : Store) (t : nat) (nr : Node) : Prop :=
  nodes s !! t = Some nr ∧ NoDup (nedges nr) ∧
  (∀ i e, nedges nr !! i = Some e → edges s !! e = Some (mkEdge t i None)) ∧
  shape (tensor nr) = replicate (length (nedges nr)) 2.

Lemma lone_node_net s t nr : lone_node s t nr → net_ok s [t] (nedges nr).
Proof.
  intros (Ht & Hnd & Hrec & Hsh).
  assert (slots_of s [t] = nedges nr) as Hslots by (by apply slots_of_single).
  assert (∀ e, e ∈ nedges nr → ∃ i, nedges nr !! i = Some e ∧ edges s !! e = Some (mkEdge t i None))
    as Hin.
  { intros e (i & Hi)%list_elem_of_lookup_1. eauto. }
  assert (∀ i, i < length (nedges nr) → edge_dim s (mkEdge t i None) = Some 2) as Hdim.
  { intros i Hi. unfold edge_dim. cbn [node1 axis1]. rewrite Ht. simpl.
    rewrite Hsh. by apply lookup_replicate_2. }
  split_and!.
  - apply NoDup_singleton.
  - done.
  - constructor; [eauto | constructor].
  - rewrite Hslots. apply Forall_forall. intros e (i & Hi & He)%Hin.
    unfold edge_ok. rewrite He. cbn [node1 end2].
    split_and!; [by left | | done].
    rewrite Hdim; [eauto | by eapply lookup_lt_Some].
  - rewrite Hslots. by apply Forall_forall.
  - apply Forall_forall. intros e (i & Hi & He)%Hin.
    unfold front_ok. rewrite He. cbn [node1 axis1 end2].
    split_and!; [done | by left | | |].
    + unfold slot. rewrite Ht. done.
    + apply Hdim. by eapply lookup_lt_Some.
    + unfold bound_only_at. constructor; [|constructor].
      rewrite Ht. cbn [fmap option_fmap option_map default].
      apply Forall_forall. intros [j e'] Hje. cbn [fst snd]. intros ->.
      split; [done|]. apply list_elem_of_lookup_1 in Hje as [j' Hje].
      apply lookup_enumerate in Hje as [Hj Hje]. cbn [fst snd id] in Hj, Hje. subst j'.
      eapply NoDup_lookup; [exact Hnd | exact Hje | exact Hi].
Qed.

Lemma index_of_all (l : list nat) : NoDup l → (λ e, index_of e l) <$> l = seq 0 (length l).
Proof.
  intros Hnd. apply list_eq. intros i. rewrite list_lookup_fmap.
  destruct (l !! i) as [e|] eqn:Hi; simpl.
  - rewrite lookup_seq_lt by (by eapply lookup_lt_Some). f_equal.
    by apply index_of_lookup.
  - rewrite lookup_seq_ge; [done|]. by apply lookup_ge_None.
Qed.

Lemma lone_node_abstract s t nr :
  lone_node s t nr →
  abstract s [t] (nedges nr)
  = Some (mkANet [(tensor nr, seq 0 (length (nedges nr)))] (replicate (length (nedges nr)) 2) []).
Proof.
  intros Hl. pose proof Hl as (Ht & Hnd & Hrec & Hsh).
  rewrite (abstract_all_dangling s [t] (nedges nr) (lone_node_net s t nr Hl)).
  - assert (omap (λ n, nodes s !! n) [t] = [nr]) as -> by (simpl; by rewrite Ht).
    cbn [fmap list_fmap]. by rewrite (index_of_all _ Hnd).
  - intros e. by rewrite (slots_of_single s t nr Ht).
Qed.

(** What a lone node denotes: its own array. *)
Lemma lone_node_einsum s t nr net :
  lone_node s t nr → tensor_ok (tensor nr) →
  abstract s [t] (nedges nr) = Some net → einsum net = tensor nr.
Proof.
  intros Hl Hok Habs. rewrite (lone_node_abstract s t nr Hl) in Habs.
  injection Habs as <-. pose proof Hl as (_ & _ & _ & Hsh).
  rewrite <- Hsh. rewrite <- (einsum_single (tensor nr) Hok) at 3.
  by rewrite Hsh, length_replicate.
Qed.

(** A node just created from an array whose axes all have dimension 2. *)
Lemma new_node_lone s t r :
  shape t = replicate r 2 →
  lone_node (mkStore (nodes s ++ [mkNode t (seq (length (edges s)) r)])
                     (edges s ++ ((λ i, mkEdge (length (nodes s)) i None) <$> seq 0 r)))
            (length (nodes s)) (mkNode t (seq (length (edges s)) r)).
Proof.
  intros Hsh. unfold lone_node. cbn [nodes edges nedges tensor]. split_and!.
  - rewrite lookup_app_r by lia. by rewrite Nat.sub_diag.
  - apply NoDup_seq.
  - intros i e [-> Hi]%lookup_seq. rewrite lookup_app_r by lia.
    replace (length (edges s) + i - length (edges s)) with i by lia.
    rewrite list_lookup_fmap, lookup_seq_lt by done. done.
  - by rewrite length_seq.
Qed.

Lemma new_node_run s t :
  new_node t s
  = Ok (length (nodes s))
       (mkStore (nodes s ++ [mkNode t (seq (length (edges s)) (length (shape t)))])
                (edges s ++ ((λ i, mkEdge (length (nodes s)) i None) <$> seq 0 (length (shape t))))).
Proof. done. Qed.

(** The node that the contraction engine leaves. *)
Lemma contract_store_lone s ns out net :
  net_ok s ns out → abstract s ns out = Some net →
  lone_node (contract_store s out net) (length (nodes s)) (mkNode (einsum net) out).
Proof.
  intros Hok Habs. pose proof Hok as (_ & Hnd & _).
  destruct (abstract_ok s ns out Hok) as (net' & Habs' & Hout).
  rewrite Habs in Habs'. injection Habs' as <-.
  unfold lone_node. cbn [nedges tensor]. split_and!.
  - apply contract_store_node.
  - done.
  - intros i e Hi. rewrite contract_store_edge; [|done|by eapply list_elem_of_lookup_2|].
    + by rewrite (index_of_lookup _ _ _ Hnd Hi).
    + eapply net_ok_edge_rec; [exact Hok|]. eapply net_ok_out_slots; [exact Hok|].
      by eapply list_elem_of_lookup_2.
  - done.
Qed.

End Single_node.

(** ** [_contract] and [_copy_DMCircuit] *)

Section Contract_method.
Context `{Scalar}.

Lemma einsum_tensor_ok net : tensor_ok (einsum net).
Proof. unfold tensor_ok. by rewrite einsum_length. Qed.

(** The instance without its memo. *)
Definition uncached (c : DMCircuit) : DMCircuit :=
  mkDM (_nqubits c) (_nodes c) (_rfront c) (_lfront c) None.

Lemma dm_ok_uncached s c : dm_ok s c → dm_ok s (uncached c).
Proof. intros (Hok & Hr & Hl & _ & Hz). by split_and!. Qed.

Lemma _contract_run s c net :
  dm_ok s c → _nodes c ≠ [] →
  abstract s (_nodes c) (_rfront c ++ _lfront c) = Some net →
  let t := length (nodes s) in
  let s' := contract_store s (_rfront c ++ _lfront c) net in
  let c' := mkDM (_nqubits c) [t] (_rfront c) (_lfront c) (state_tensor c) in
  _contract (mkWorld s c) = Ok tt (mkWorld s' c') ∧
  lone_node s' t (mkNode (einsum net) (_rfront c ++ _lfront c)) ∧
  denote s' c' = Some (einsum net) ∧
  dm_ok s' (uncached c').
Proof.
  intros Hdm Hne Habs t s' c'. pose proof Hdm as (Hok & Hlr & Hll & _).
  pose proof (contract_store_lone s _ _ net Hok Habs) as Hl.
  split; [|split; [done|split]].
  3:{ unfold dm_ok. cbn [uncached c' _nodes _rfront _lfront _nqubits state_tensor].
      split_and!; [|done..|].
      - apply (lone_node_net _ _ _ Hl).
      - intros Hnil. pose proof (slots_of_single _ _ _ (proj1 Hl)) as Hs.
        cbn [nedges] in Hs. unfold s', t. rewrite Hs. exact Hnil. }
  - unfold _contract. rewrite bind_unfold. cbn [get_self self].
    by rewrite (bind_Ok _ _ _ _ _ (lift_at _ s c _ _ (contractor_ok s _ _ net Hok Hne Habs))).
  - unfold denote. cbn [_nodes _rfront _lfront c'].
    pose proof (lone_node_abstract _ _ _ Hl) as Hone. cbn [nedges tensor] in Hone.
    fold s' t in Hone. rewrite Hone. cbn [fmap option_fmap option_map]. f_equal.
    eapply (lone_node_einsum _ _ _ _ Hl); [apply einsum_tensor_ok | exact Hone].
Qed.

(** X8.  [_contract] on a well-formed circuit with at least one node
    succeeds and replaces the nodes by a single new node that carries the
    contraction of the network.  The qubit count, the fronts and the memo
    are kept, the fronts are now the edges of the new node, and the circuit
    denotes the same density matrix as before. *)
Theorem _contract_keeps_state s c :
  dm_ok s c → _nodes c ≠ [] →
  ∃ rho w',
    denote s c = Some rho ∧
    _contract (mkWorld s c) = Ok tt w' ∧
    self w' = mkDM (_nqubits c) [length (nodes s)] (_rfront c) (_lfront c) (state_tensor c) ∧
    nodes (heap w') !! length (nodes s) = Some (mkNode rho (_rfront c ++ _lfront c)) ∧
    net_ok (heap w') [length (nodes s)] (_rfront c ++ _lfront c) ∧
    denote (heap w') (self w') = Some rho ∧
    (state_tensor c = None → dm_ok (heap w') (self w')).
Proof.
  intros Hdm Hne. pose proof Hdm as (Hok & Hr & Hl & _).
  destruct (abstract_ok s _ _ Hok) as (net & Habs & _).
  destruct (_contract_run s c net Hdm Hne Habs) as (Hrun & Hlone & Hden & _).
  pose proof (lone_node_net _ _ _ Hlone) as Hnet. cbn [nedges] in Hnet.
  eexists (einsum net), _. split_and!; [|exact Hrun|done|apply Hlone|exact Hnet|exact Hden|].
  - unfold denote. by rewrite Habs.
  - intros Hnone. cbn [heap self]. unfold dm_ok. cbn [_nodes _rfront _lfront _nqubits].
    split_and!; [exact Hnet | done | done | |].
    + unfold cache_ok. cbn [state_tensor]. by rewrite Hnone.
    + intros Hnil. rewrite (slots_of_single _ _ _ (proj1 Hlone)). done.
Qed.

Lemma _copy_DMCircuit_run s c :
  dm_ok s (uncached c) →
  let ns := _nodes c in
  let s' := copy_store s ns false in
  let c' := mkDM (_nqubits c) (ndf s ns <$> ns)
              (edf s ns <$> _rfront c) (edf s ns <$> _lfront c) None in
  _copy_DMCircuit (mkWorld s c) = Ok c' (mkWorld s' c) ∧
  dm_ok s' c' ∧ denote s' c' = denote s c.
Proof.
  intros Hdm ns s' c'. pose proof Hdm as (Hok & Hr & Hl & _ & Hz).
  cbn [uncached _nodes _rfront _lfront _nqubits] in Hok, Hr, Hl, Hz.
  pose proof Hok as (Hnd & _ & Hnodes & Hedges & _).
  assert (net_ok s ns (_lfront c ++ _rfront c)) as Hok'.
  { eapply net_ok_perm; [|exact Hok]. apply Permutation_app_comm. }
  assert (_lfront c ++ _rfront c = [] → slots_of s ns = []) as Hz'.
  { intros [E1 E2]%app_eq_nil. apply Hz. by rewrite E1, E2. }
  split_and!.
  - unfold _copy_DMCircuit. rewrite bind_unfold. cbn [get_self self].
    rewrite (bind_Ok _ _ _ _ _ (lift_at _ s c _ _ (_copy_net s ns _ false Hok' Hz'))).
    cbn [fst snd mret M_ret]. unfold c'. do 2 f_equal.
    + rewrite fmap_app, drop_app_length'; [done|]. by rewrite length_fmap.
    + rewrite fmap_app, take_app_length'; [done|]. by rewrite length_fmap.
  - unfold dm_ok. cbn [_nodes _rfront _lfront _nqubits c'].
    rewrite <- fmap_app. split_and!.
    + by apply copy_net_ok.
    + by rewrite length_fmap.
    + by rewrite length_fmap.
    + done.
    + intros Hnil%fmap_nil_inv. unfold s'. rewrite copy_slots_of by done.
      unfold ns. by rewrite (Hz Hnil).
  - destruct (abstract_ok s _ _ Hok) as (net & Habs & _).
    unfold denote. cbn [_nodes _rfront _lfront c']. rewrite <- fmap_app. rewrite Habs.
    unfold s', ns. rewrite (copy_abstract s _ false Hnodes Hedges _ net); [by rewrite conj_net_false| |done].
    apply Forall_forall. intros e He. eapply net_ok_out_slots; [exact Hok | exact He].
Qed.

(** X9.  [_copy_DMCircuit] on a well-formed circuit returns a well-formed
    circuit made of new nodes and new front edges, with the same qubit count
    and no memo, that denotes the same density matrix.  The receiver is not
    changed and every node and edge that existed keeps its record. *)
Theorem _copy_DMCircuit_independent s c :
  dm_ok s c →
  ∃ c' s',
    _copy_DMCircuit (mkWorld s c) = Ok c' (mkWorld s' c) ∧
    extends s s' ∧ dm_ok s' c ∧ dm_ok s' c' ∧
    _nqubits c' = _nqubits c ∧ length (_nodes c') = length (_nodes c) ∧
    state_tensor c' = None ∧
    (∀ n, n ∈ _nodes c' → length (nodes s) ≤ n) ∧
    (∀ e, e ∈ _rfront c' ++ _lfront c' → length (edges s) ≤ e) ∧
    denote s' c' = denote s c.
Proof.
  intros Hdm.
  destruct (_copy_DMCircuit_run s c (dm_ok_uncached s c Hdm)) as (Hrun & Hdm' & Hden).
  eexists _, _. split_and!; [exact Hrun | apply extends_copy_store | | exact Hdm' | done | | done | | | exact Hden].
  - eapply extends_dm_ok; [apply extends_copy_store | done].
  - cbn [_nodes]. by rewrite length_fmap.
  - cbn [_nodes]. intros n (m & -> & _)%list_elem_of_fmap. unfold ndf. lia.
  - cbn [_rfront _lfront]. rewrite <- fmap_app.
    intros e (m & -> & _)%list_elem_of_fmap. unfold edf. lia.
Qed.

End Contract_method.

(** ** The read-out *)

Section Read_out.
Context `{Scalar}.

(** X10.  [densitymatrix] on a well-formed circuit with at least one node
    returns the contraction of the network, its entries in the same order,
    as a matrix of [2 ^ n] rows and columns.  Only the memo of the instance
    changes; the store only grows, and the circuit stays well formed and
    denotes the same density matrix. *)
Theorem densitymatrix_value s c reuse :
  dm_ok s c → _nodes c ≠ [] →
  ∃ rho w' t,
    denote s c = Some rho ∧
    shape rho = replicate (2 * _nqubits c) 2 ∧
    densitymatrix false reuse (mkWorld s c)
    = Ok (mkTensor [2 ^ _nqubits c; 2 ^ _nqubits c] (data rho)) w' ∧
    self w' = with_cache c t ∧ extends s (heap w') ∧ dm_ok (heap w') (self w') ∧
    denote (heap w') (self w') = Some rho.
Proof.
  intros Hdm Hne. pose proof Hdm as (Hok & Hr & Hl & _).
  destruct (densitymatrix_ok s c reuse Hdm Hne) as (net & s' & t & Habs & Hrun & Hext & Hdm').
  destruct (abstract_ok s _ _ Hok) as (net' & Habs' & Hout).
  rewrite Habs in Habs'. injection Habs' as <-.
  exists (einsum net), (mkWorld s' (with_cache c t)), t.
  split_and!; [|simpl|exact Hrun|done|done|done|].
  - unfold denote. by rewrite Habs.
  - rewrite Hout, length_app, Hr, Hl. f_equal. lia.
  - cbn [heap self]. unfold denote. cbn [_nodes _rfront _lfront with_cache].
    by rewrite (extends_abstract s s' _ _ Hext Hok), Habs.
Qed.

End Read_out.

(** ** Construction from a density matrix *)

Section Init_dminputs.
Context `{Scalar}.

Lemma get_edges_new_node s t (f : nat → nat) a k :
  (∀ i, f i = i + a) → a + k ≤ length (shape t) →
  map_M (λ i, get_edge (length (nodes s)) (f i)) (seq 0 k)
    (mkStore (nodes s ++ [mkNode t (seq (length (edges s)) (length (shape t)))])
             (edges s ++ ((λ i, mkEdge (length (nodes s)) i None) <$> seq 0 (length (shape t)))))
  = Ok (seq (length (edges s) + a) k)
       (mkStore (nodes s ++ [mkNode t (seq (length (edges s)) (length (shape t)))])
                (edges s ++ ((λ i, mkEdge (length (nodes s)) i None) <$> seq 0 (length (shape t))))).
Proof.
  intros Hf Hk. rewrite (map_M_pure _ (λ i, length (edges s) + a + i)).
  - by rewrite fmap_add_seq, Nat.add_0_r.
  - intros i [_ Hi]%elem_of_seq. apply get_edge_slot. unfold slot. cbn [nodes].
    rewrite lookup_app_r by lia. rewrite Nat.sub_diag. cbn. rewrite Hf.
    rewrite lookup_seq_lt by lia. f_equal. lia.
Qed.

(** Construction from a density matrix of the right size: one node that
    holds it, whose first [n] edges are the right fronts and whose last [n]
    edges are the left fronts. *)
Lemma init_dminputs_run n rho s :
  length (data rho) = 2 ^ (2 * n) →
  ∃ c s',
    DMCircuit_init n None (Some rho) s = Ok c s' ∧
    extends s s' ∧ dm_ok s' c ∧
    _nqubits c = n ∧ _nodes c = [length (nodes s)] ∧ state_tensor c = None ∧
    denote s' c = Some (mkTensor (replicate (2 * n) 2) (data rho)) ∧
    ∃ gr, nodes s' !! length (nodes s) = Some gr ∧ length (nedges gr) = 2 * n ∧
          _rfront c = take n (nedges gr) ∧ _lfront c = drop n (nedges gr).
Proof.
  intros Hlen.
  set (t := mkTensor (replicate (2 * n) 2) (data rho)).
  set (e := length (edges s)). set (m := length (nodes s)).
  set (s' := mkStore (nodes s ++ [mkNode t (seq e (2 * n))])
                     (edges s ++ ((λ i, mkEdge m i None) <$> seq 0 (2 * n)))).
  set (c := mkDM n [m] (seq e n) (seq (e + n) n) None).
  assert (length (shape t) = 2 * n) as Hrank by (unfold t; cbn; by rewrite length_replicate).
  assert (lone_node s' m (mkNode t (seq e (2 * n)))) as Hlone by (by apply new_node_lone).
  assert (seq e n ++ seq (e + n) n = seq e (2 * n)) as Hfronts.
  { replace (2 * n) with (n + n) by lia. by rewrite seq_app. }
  assert (net_ok s' [m] (seq e n ++ seq (e + n) n)) as Hnet.
  { rewrite Hfronts. apply (lone_node_net _ _ _ Hlone). }
  assert (dm_ok s' c) as Hdm.
  { unfold dm_ok. cbn [_nodes _rfront _lfront _nqubits c]. split_and!.
    - exact Hnet.
    - apply length_seq.
    - apply length_seq.
    - done.
    - rewrite Hfronts. rewrite (slots_of_single _ _ _ (proj1 Hlone)). done. }
  assert (denote s' c = Some t) as Hden.
  { unfold denote. cbn [_nodes _rfront _lfront c]. rewrite Hfronts.
    pose proof (lone_node_abstract _ _ _ Hlone) as Habs. cbn [nedges tensor] in Habs.
    rewrite Habs. cbn [fmap option_fmap option_map]. f_equal.
    eapply (lone_node_einsum _ _ _ _ Hlone); [|exact Habs].
    unfold tensor_ok, t. cbn [tensor shape data]. by rewrite prod_replicate_2. }
  exists c, s'. split_and!; try done.
  - unfold DMCircuit_init, reshape.
    rewrite bool_decide_eq_true_2 by (by rewrite prod_replicate_2).
    rewrite bind_unfold. cbn [mret M_ret]. fold t.
    rewrite (bind_Ok _ _ _ _ _ (new_node_run s t)). rewrite Hrank. fold e m.
    pose proof (get_edges_new_node s t (λ i, i) 0 n ltac:(intros; lia) ltac:(lia)) as HR.
    rewrite Hrank, Nat.add_0_r in HR. fold e m s' in HR.
    rewrite (bind_Ok _ _ _ (seq e n) s' HR).
    pose proof (get_edges_new_node s t (λ i, i + n) n n ltac:(done) ltac:(lia)) as HL.
    rewrite Hrank in HL. fold e m s' in HL.
    rewrite (bind_Ok _ _ _ _ _ HL). done.
  - apply (extends_new_node s t m). rewrite new_node_run, Hrank. done.
  - exists (mkNode t (seq e (2 * n))). cbn [nedges _rfront _lfront c].
    split; [exact (proj1 Hlone)|]. split; [apply length_seq|].
    rewrite <- Hfronts. split.
    + rewrite take_app_length'; [done | by rewrite length_seq].
    + rewrite drop_app_length'; [done | by rewrite length_seq].
Qed.

(** X11.  [DMCircuit(n, dminputs=rho)] succeeds exactly when [rho] has
    [4 ^ n] entries.  It then creates one node that holds [rho] with [2n]
    axes of dimension 2; the circuit is well formed and denotes [rho], and
    reading it back with [densitymatrix] returns the entries of [rho]
    unchanged as a matrix of [2 ^ n] rows and columns.  With any other
    number of entries the reshape fails and the store is unchanged. *)
Theorem init_dminputs_round_trip n rho s :
  (length (data rho) = 2 ^ (2 * n) →
   ∃ c s',
     DMCircuit_init n None (Some rho) s = Ok c s' ∧
     extends s s' ∧ dm_ok s' c ∧
     _nqubits c = n ∧ _nodes c = [length (nodes s)] ∧ state_tensor c = None ∧
     denote s' c = Some (mkTensor (replicate (2 * n) 2) (data rho)) ∧
     ∃ w', densitymatrix false true (mkWorld s' c)
           = Ok (mkTensor [2 ^ n; 2 ^ n] (data rho)) w') ∧
  (length (data rho) ≠ 2 ^ (2 * n) →
   DMCircuit_init n None (Some rho) s = Raise ShapeMismatch s).
Proof.
  split.
  - intros Hlen.
    destruct (init_dminputs_run n rho s Hlen)
      as (c & s' & Hrun & Hext & Hdm & Hn & Hnodes & Hst & Hden & _).
    exists c, s'. split_and!; try done.
    assert (_nodes c ≠ []) as Hne by (by rewrite Hnodes).
    destruct (densitymatrix_ok s' c true Hdm Hne) as (net & s2 & t2 & Habs & Hrun2 & _).
    eexists. rewrite Hrun2. rewrite Hn. do 2 f_equal.
    unfold denote in Hden. rewrite Habs in Hden.
    cbn [fmap option_fmap option_map] in Hden. apply (inj Some) in Hden.
    by rewrite Hden.
  - intros Hlen. unfold DMCircuit_init, reshape.
    rewrite bool_decide_eq_false_2; [done|]. rewrite prod_replicate_2. congruence.
Qed.

End Init_dminputs.

(** ** Construction from a state vector *)

Section Init_pure.
Context `{Scalar}.

Lemma pick_seq (o : list nat) a k :
  a + k ≤ length o → (λ p, default 0 (o !! p)) <$> seq a k = take k (drop a o).
Proof.
  intros Hlen. apply list_eq. intros i. rewrite list_lookup_fmap.
  destruct (decide (i < k)) as [Hi|Hi].
  - rewrite lookup_seq_lt by done. rewrite lookup_take_lt by done. rewrite lookup_drop. simpl.
    destruct (lookup_lt_is_Some_2 o (a + i) ltac:(lia)) as [x Hx]. by rewrite Hx.
  - rewrite lookup_seq_ge by lia. rewrite lookup_take_ge by lia. done.
Qed.

Lemma index_of_all_app (l1 l2 : list nat) :
  NoDup (l1 ++ l2) →
  (λ e, index_of e (l1 ++ l2)) <$> l1 = seq 0 (length l1) ∧
  (λ e, index_of e (l1 ++ l2)) <$> l2 = seq (length l1) (length l2).
Proof.
  intros Hnd. pose proof (index_of_all _ Hnd) as Hall.
  rewrite fmap_app, length_app, seq_app in Hall.
  apply app_inj_1 in Hall; [done|]. by rewrite length_fmap, length_seq.
Qed.

(** The network of the pure state [v]: the conjugated copy on the bra
    side, the vector itself on the ket side. *)
Definition pure_net (n : nat) (v : Tensor) : ANet :=
  mkANet [(tensor_conj v, seq n n); (v, seq 0 n)] (replicate (n + n) 2) [].

Lemma pure_net_einsum n v :
  einsum (pure_net n v)
  = mkTensor (replicate (n + n) 2)
      ((λ o, cmul (tensor_get (tensor_conj v) (drop n o)) (tensor_get v (take n o)))
         <$> indices (replicate (n + n) 2)).
Proof.
  unfold einsum. cbn [a_out a_int pure_net indices]. f_equal.
  apply list_fmap_ext. intros k o Hk.
  assert (length o = n + n) as Hlen.
  { rewrite (Forall2_length _ _ _ (indices_Forall2 _ _ (list_elem_of_lookup_2 _ _ _ Hk))).
    apply length_replicate. }
  cbn [fmap list_fmap csum]. unfold a_term. rewrite app_nil_r.
  unfold pure_net. cbn [a_nodes]. rewrite !fmap_cons, fmap_nil. cbn [cprod fst snd].
  rewrite (pick_seq o n n) by lia. rewrite (pick_seq o 0 n) by lia.
  rewrite drop_0. rewrite (take_ge (drop n o)); [done|]. rewrite length_drop. lia.
Qed.

(** Construction from a state vector of the right size. *)
Lemma init_inputs_run n psi dm s :
  length (data psi) = 2 ^ n →
  log2_quotient (2 ^ n) = n →
  let v := mkTensor (replicate n 2) (data psi) in
  ∃ c s',
    DMCircuit_init n (Some psi) dm s = Ok c s' ∧
    extends s s' ∧ dm_ok s' c ∧
    _nqubits c = n ∧ length (_nodes c) = 2 ∧ state_tensor c = None ∧
    denote s' c
    = Some (mkTensor (replicate (n + n) 2)
              ((λ o, cmul (tensor_get (tensor_conj v) (drop n o)) (tensor_get v (take n o)))
                 <$> indices (replicate (n + n) 2))).
Proof.
  intros Hlen Hcount v.
  set (e := length (edges s)). set (m := length (nodes s)).
  set (s1 := mkStore (nodes s ++ [mkNode v (seq e n)])
                     (edges s ++ ((λ i, mkEdge m i None) <$> seq 0 n))).
  set (out := seq e n).
  assert (length (shape v) = n) as Hrank by (unfold v; cbn; by rewrite length_replicate).
  assert (lone_node s1 m (mkNode v out)) as Hlone by (by apply new_node_lone).
  pose proof (lone_node_net _ _ _ Hlone) as Hok1. cbn [nedges] in Hok1.
  pose proof Hlone as (Hm & _).
  assert (slots_of s1 [m] = out) as Hslots by (by rewrite (slots_of_single _ _ _ Hm)).
  set (s' := copy_store s1 [m] true).
  set (c := mkDM n ((ndf s1 [m] <$> [m]) ++ [m]) out (edf s1 [m] <$> out) None).
  assert (net_ok s' (_nodes c) (_rfront c ++ _lfront c)) as Hnet
    by (by apply net_ok_with_copy).
  assert (extends s1 s') as Hext1 by apply extends_copy_store.
  assert (extends s s1) as Hext0.
  { apply (extends_new_node s v m). rewrite new_node_run, Hrank. done. }
  assert (slots_of s' (_nodes c) = (edf s1 [m] <$> out) ++ out) as Hslots'.
  { cbn [_nodes c]. rewrite slots_of_app.
    pose proof Hok1 as (Hnd1 & _ & Hnodes1 & _).
    unfold s'. rewrite copy_slots_of by done. rewrite Hslots. f_equal.
    rewrite (agree_slots_of [m] s1); [done|]. eapply extends_agree; [exact Hext1 | exact Hok1]. }
  exists c, s'. split_and!; try done.
  - unfold DMCircuit_init. cbn [reshape_flat shape lookup list_lookup default].
    unfold qubit_count. rewrite bind_unfold.
    rewrite bool_decide_eq_false_2.
    2:{ rewrite Hlen. apply Nat.pow_nonzero. lia. }
    cbn [mret M_ret]. rewrite bind_unfold. unfold py_assert.
    assert (log2_quotient (length (data psi)) = n) as Hlog by (by rewrite Hlen).
    unfold id. rewrite Hlog. rewrite bool_decide_eq_true_2 by done. cbn [mret M_ret].
    rewrite bind_unfold. unfold reshape. cbn [data].
    rewrite bool_decide_eq_true_2 by (by rewrite prod_replicate_2).
    cbn [mret M_ret]. fold v.
    rewrite (bind_Ok _ _ _ _ _ (new_node_run s v)). rewrite Hrank. fold e m s1.
    pose proof (get_edges_new_node s v (λ i, i) 0 n ltac:(intros; lia) ltac:(lia)) as HR.
    rewrite Hrank, Nat.add_0_r in HR. fold e m s1 out in HR.
    rewrite (bind_Ok _ _ _ out s1 HR).
    rewrite (bind_Ok _ _ _ _ _ (_copy_net s1 [m] out true Hok1 (eq_trans Hslots))). done.
  - eapply extends_trans; [exact Hext0 | exact Hext1].
  - unfold dm_ok. split_and!; [exact Hnet | | | done |].
    + apply length_seq.
    + cbn [_lfront c]. rewrite length_fmap. apply length_seq.
    + cbn [_rfront _lfront]. intros [E1 E2]%app_eq_nil. rewrite Hslots'. cbn [c _rfront] in E1.
      by rewrite E1.
  - unfold denote. rewrite abstract_all_dangling; [|exact Hnet|].
    2:{ intros x. rewrite Hslots'. cbn [_rfront _lfront c]. rewrite !elem_of_app. tauto. }
    cbn [fmap option_fmap option_map]. f_equal. rewrite <- pure_net_einsum.
    f_equal. unfold pure_net.
    pose proof Hnet as (_ & Hnd & _). cbn [_rfront _lfront c] in Hnd.
    destruct (index_of_all_app _ _ Hnd) as [I1 I2].
    assert (length out = n) as Hout by apply length_seq.
    rewrite length_fmap, Hout in I2. rewrite Hout in I1.
    assert (omap (λ x, nodes s' !! x) (_nodes c)
            = [copied_node s1 [m] true (mkNode v out); mkNode v out]) as ->.
    { cbn [_nodes c fmap list_fmap app].
      pose proof (copied_single s1 m true _ Hm) as E1. fold s' in E1.
      pose proof (proj1 Hext1 m _ Hm) as E2.
      change (omap (λ x, nodes s' !! x) [ndf s1 [m] m; m])
        with (match nodes s' !! ndf s1 [m] m with
              | Some y => y :: match nodes s' !! m with Some z => [z] | None => [] end
              | None => match nodes s' !! m with Some z => [z] | None => [] end
              end).
      by rewrite E1, E2. }
    cbn [fmap list_fmap copied_node tensor nedges _rfront _lfront c].
    rewrite I1, I2, length_app, length_fmap, Hout. done.
Qed.

(** X12.  [DMCircuit(n, inputs=psi)] for a vector of [2 ^ n] entries, a
    length at which the count [int(np.log(N) / np.log(2))] that the code
    computes is [n], succeeds with a well-formed circuit of two nodes, the
    vector and its conjugated copy, that denotes the pure state of [psi]:
    the entry at row [r] and column [l] is the product of the conjugate of
    the entry [l] of [psi] and the entry [r] of [psi]. *)
Theorem init_inputs_pure_state n psi dm s :
  length (data psi) = 2 ^ n →
  log2_quotient (2 ^ n) = n →
  let v := mkTensor (replicate n 2) (data psi) in
  ∃ c s',
    DMCircuit_init n (Some psi) dm s = Ok c s' ∧
    extends s s' ∧ dm_ok s' c ∧
    _nqubits c = n ∧ length (_nodes c) = 2 ∧ state_tensor c = None ∧
    denote s' c
    = Some (mkTensor (replicate (n + n) 2)
              ((λ o, cmul (tensor_get (tensor_conj v) (drop n o)) (tensor_get v (take n o)))
                 <$> indices (replicate (n + n) 2))).
Proof. apply init_inputs_run. Qed.

End Init_pure.

(** ** Channels *)

Section Kraus_channel.
Context `{Scalar}.

(** The store has grown, and of the nodes that existed only those in [X]
    may have changed; no edge record that existed has. *)
Definition grows_except (X : list nat) (s s' : Store) : Prop :=
  (∀ e r, edges s !! e = Some r → edges s' !! e = Some r) ∧
  (∀ m r, nodes s !! m = Some r → m ∉ X → nodes s' !! m = Some r).

Lemma grows_refl X s : grows_except X s s.
Proof. by split. Qed.

Lemma grows_extends X s s' : extends s s' → grows_except X s s'.
Proof. intros [Hn He]. split; [done|]. intros m r Hm _. by apply Hn. Qed.

Lemma grows_trans X Y s1 s2 s3 :
  grows_except X s1 s2 → grows_except Y s2 s3 → grows_except (X ++ Y) s1 s3.
Proof.
  intros [E1 N1] [E2 N2]. split.
  - intros e r He. by apply E2, E1.
  - intros m r Hm Hin. apply not_elem_of_app in Hin as [? ?]. by apply N2; [apply N1|].
Qed.

Lemma grows_agree X s s' ns out :
  grows_except X s s' → net_ok s ns out → (∀ m, m ∈ ns → m ∉ X) → agree_on ns s s'.
Proof.
  intros [He Hn] Hok Hdis. split.
  - intros m Hm. destruct (net_ok_node _ _ _ _ Hok Hm) as [nr Hnr]. rewrite Hnr.
    apply Hn; [done | by apply Hdis].
  - intros e Hin. destruct (net_ok_edge_rec _ _ _ _ Hok Hin) as [r Hr]. rewrite Hr. by apply He.
Qed.

Lemma agree_operator_ok s s' g k : 
  (∀ out, net_ok s [g] out → agree_on [g] s s') → operator_ok s g k → operator_ok s' g k.
Proof.
  intros Hag. unfold operator_ok. destruct (nodes s !! g) as [gr|] eqn:Hgr; [|done].
  intros [Hrank Hok]. pose proof (Hag _ Hok) as Ha.
  rewrite (proj1 Ha g ltac:(by left)), Hgr. split; [done|]. by eapply agree_net_ok.
Qed.

Lemma grows_operator_ok X s s' g k :
  grows_except X s s' → g ∉ X → operator_ok s g k → operator_ok s' g k.
Proof.
  intros Hg Hin. apply agree_operator_ok. intros out Hok.
  eapply grows_agree; [exact Hg | exact Hok |]. by intros m ->%list_elem_of_singleton.
Qed.

Lemma grows_dm_ok X s s' c :
  grows_except X s s' → (∀ m, m ∈ _nodes c → m ∉ X) →
  dm_ok s (uncached c) → dm_ok s' (uncached c) ∧ denote s' c = denote s c.
Proof.
  intros Hg Hdis (Hok & Hr & Hl & _ & Hz). cbn [uncached _nodes _rfront _lfront _nqubits] in *.
  pose proof (grows_agree X s s' _ _ Hg Hok Hdis) as Ha.
  split.
  - unfold dm_ok. cbn [uncached _nodes _rfront _lfront _nqubits state_tensor].
    split_and!; [by eapply agree_net_ok | done | done | done |].
    intros Hnil. rewrite (agree_slots_of _ s s' Ha). by apply Hz.
  - unfold denote. by rewrite (agree_abstract _ _ s s' Ha Hok).
Qed.

(** The array of an operator node. *)
Definition op_tensor (s : Store) (k : nat) : Tensor :=
  default (mkTensor [] []) (tensor <$> nodes s !! k).

(** The matrix of the branch of one Kraus operator. *)
Definition kraus_branch (n : nat) (rho : Tensor) (s : Store) (o : nat * list nat) : Tensor :=
  mkTensor [2 ^ n; 2 ^ n] (data (sandwich n (op_tensor s o.1) o.2 rho)).

(** One round of the loop of [apply_general_kraus]: the receiver is
    copied, the operator is applied to the copy, and the copy is read out.
    The receiver is not touched, and of the store only the operator node. *)
Lemma kraus_step_effect s c acc k qs rho :
  semiring_laws →
  dm_ok s (uncached c) → _nodes c ≠ [] → denote s c = Some rho →
  operator_ok s k (length qs) → k ∉ _nodes c → NoDup qs → Forall (λ q, q < _nqubits c) qs →
  ∃ s',
    kraus_step acc (k, Z.of_nat <$> qs) (mkWorld s c)
    = Ok (acc ++ [kraus_branch (_nqubits c) rho s (k, qs)]) (mkWorld s' c) ∧
    grows_except [k] s s'.
Proof.
  intros Hlaws Hdm Hne Hden Hop Hk Hnd Hlt.
  unfold operator_ok in Hop. destruct (nodes s !! k) as [gr|] eqn:Hgr; [|done].
  destruct Hop as [Hrank Hgok].
  destruct (_copy_DMCircuit_run s c Hdm) as (Hcopy & Hdma & Hdena).
  set (sa := copy_store s (_nodes c) false) in *.
  set (dmc := mkDM (_nqubits c) (ndf s (_nodes c) <$> _nodes c)
                (edf s (_nodes c) <$> _rfront c) (edf s (_nodes c) <$> _lfront c) None) in *.
  assert (extends s sa) as Hexta by apply extends_copy_store.
  assert (k < length (nodes s)) as Hklt by (by eapply lookup_lt_Some).
  destruct (gate_effect sa dmc k qs gr Hlaws Hdma (proj1 Hexta k gr Hgr)
              (extends_net_ok s sa _ _ Hexta Hgok) Hrank)
    as (rho0 & rho' & sb & R' & L' & Hden0 & Hgate & Hdmb & _ & Hdenb & Hshape & Hdata & Fe & Fn);
    [|done|done|].
  { cbn [_nodes dmc]. intros (m & -> & _)%list_elem_of_fmap. unfold ndf in Hklt. lia. }
  cbn [_nqubits _nodes dmc] in Hgate, Hdmb, Hdenb, Hshape, Hdata. cbv zeta in Hgate, Hdmb, Hdenb.
  rewrite Hdena, Hden in Hden0. injection Hden0 as <-.
  set (dmc2 := mkDM (_nqubits c) (((ndf s (_nodes c) <$> _nodes c) ++ [k]) ++ [length (nodes sa)])
                 R' L' None) in *.
  destruct (densitymatrix_ok sb dmc2 true Hdmb) as (net & sc & t2 & Habs & Hread & Hextc & _).
  { cbn [_nodes dmc2]. by destruct (ndf s (_nodes c) <$> _nodes c). }
  assert (einsum net = rho') as Hnet.
  { unfold denote in Hdenb. rewrite Habs in Hdenb. simpl in Hdenb. congruence. }
  exists sc. split.
  - unfold kraus_step. rewrite (bind_Ok _ _ _ _ _ Hcopy). cbn [fst snd].
    rewrite bind_unfold. unfold on_object at 1. cbn [heap self]. rewrite Hgate.
    cbn [heap self snd]. rewrite bind_unfold. unfold on_object at 1. cbn [heap self].
    rewrite Hread. cbn [heap self fst mret M_ret]. do 2 f_equal.
    unfold kraus_branch. cbn [fst snd _nqubits dmc2]. f_equal.
    rewrite Hnet, Hdata. unfold op_tensor. by rewrite Hgr.
  - split.
    + intros e r He. apply (proj2 Hextc), Fe, (proj2 Hexta), He.
    + intros m r Hm Hmk. apply (proj1 Hextc). rewrite Fn.
      * by apply (proj1 Hexta).
      * apply lookup_lt_Some in Hm. unfold sa. simpl. rewrite length_app. lia.
      * cbn [_nodes dmc]. intros (m' & -> & _)%list_elem_of_fmap.
        apply lookup_lt_Some in Hm. unfold ndf in Hm. lia.
      * intros ->. apply Hmk. by left.
Qed.

(** The operators of a channel on the circuit [c]: distinct nodes outside
    the circuit, each an operator on as many qubits as its index group is
    long, with distinct indices in range. *)
Definition kraus_ok (s : Store) (c : DMCircuit) (ops : list (nat * list nat)) : Prop :=
  NoDup (ops.*1) ∧
  Forall (λ o : nat * list nat,
            operator_ok s o.1 (length o.2) ∧ (o.1 ∉ _nodes c) ∧
            NoDup o.2 ∧ Forall (λ q, q < _nqubits c) o.2) ops.

Global Instance kraus_ok_dec s c ops : Decision (kraus_ok s c ops).
Proof. unfold kraus_ok. apply _. Defined.

Lemma op_tensor_grows X s s' k :
  grows_except X s s' → is_Some (nodes s !! k) → k ∉ X → op_tensor s' k = op_tensor s k.
Proof.
  intros [_ Hn] [r Hr] Hk. unfold op_tensor. by rewrite (Hn k r Hr Hk), Hr.
Qed.

Lemma operator_ok_node s g k : operator_ok s g k → is_Some (nodes s !! g).
Proof. unfold operator_ok. destruct (nodes s !! g); [eauto | done]. Qed.

(** The loop of [apply_general_kraus]. *)
Lemma kraus_loop c rho (ops : list (nat * list nat)) :
  semiring_laws → _nodes c ≠ [] →
  ∀ s acc,
    dm_ok s (uncached c) → denote s c = Some rho → kraus_ok s c ops →
    ∃ s',
      fold_M kraus_step (op_args ops) acc (mkWorld s c)
      = Ok (acc ++ (kraus_branch (_nqubits c) rho s <$> ops)) (mkWorld s' c) ∧
      grows_except (ops.*1) s s'.
Proof.
  intros Hlaws Hne. induction ops as [|[k qs] ops IH]; intros s acc Hdm Hden [Hnd Hall].
  - exists s. split; [|apply grows_refl]. simpl. by rewrite app_nil_r.
  - apply Forall_cons in Hall as [(Hop & Hk & Hqs & Hlt) Hall]. cbn [fst snd] in *.
    rewrite fmap_cons in Hnd. apply NoDup_cons in Hnd as [Hkn Hnd]. cbn [fst] in Hkn.
    destruct (kraus_step_effect s c acc k qs rho Hlaws Hdm Hne Hden Hop Hk Hqs Hlt)
      as (s1 & Hstep & Hg1).
    destruct (grows_dm_ok [k] s s1 c Hg1) as [Hdm1 Hden1]; [|done|].
    { intros m Hm ->%list_elem_of_singleton. done. }
    assert (∀ o, o ∈ ops → o.1 ∉ [k]) as Hfresh.
    { intros o Ho Hin%list_elem_of_singleton. apply Hkn. rewrite <- Hin.
      apply list_elem_of_fmap. eauto. }
    destruct (IH s1 (acc ++ [kraus_branch (_nqubits c) rho s (k, qs)]) Hdm1) as (s' & Hrun & Hg).
    { by rewrite Hden1. }
    { split; [done|]. apply Forall_forall. intros o Ho.
      pose proof (proj1 (Forall_forall _ _) Hall o Ho) as (Ho1 & Ho2 & Ho3 & Ho4).
      split_and!; try done. eapply grows_operator_ok; [exact Hg1 | by apply Hfresh | done]. }
    exists s'. split.
    + cbn [op_args fmap list_fmap fold_M]. rewrite bind_unfold.
      cbn [fst snd]. rewrite Hstep. fold (op_args ops). rewrite Hrun.
      rewrite <- app_assoc. f_equal. f_equal. cbn [app fmap list_fmap]. f_equal.
      apply list_fmap_ext. intros i o Ho%list_elem_of_lookup_2.
      unfold kraus_branch. do 3 f_equal.
      pose proof (proj1 (Forall_forall _ _) Hall o Ho) as (Ho1 & _).
      eapply op_tensor_grows; [exact Hg1 | by eapply operator_ok_node | by apply Hfresh].
    + rewrite fmap_cons. apply (grows_trans [k] _ s s1 s' Hg1 Hg).
Qed.

(** ** The sum of the branches *)

(** The elementwise sum of a non-empty list of arrays' data. *)
Definition sum_data (l : list (list C)) : list C :=
  match l with
  | [] => []
  | d :: l' => foldl (zip_with cadd) d l'
  end.

Lemma foldl_add_length N (l : list (list C)) d :
  length d = N → Forall (λ x, length x = N) l → length (foldl (zip_with cadd) d l) = N.
Proof.
  revert d. induction l as [|x l IH]; intros d Hd Hl; [done|].
  apply Forall_cons in Hl as [Hx Hl]. simpl. apply IH; [|done].
  rewrite length_zip_with. lia.
Qed.

Lemma reduce_add_run {S} sh (t : Tensor) (l : list Tensor) (w : S) :
  shape t = sh → Forall (λ x, shape x = sh) l →
  reduce_add (t :: l) w = Ok (mkTensor sh (sum_data (data <$> (t :: l)))) w.
Proof.
  intros Ht Hl. unfold reduce_add. cbn [fmap list_fmap sum_data].
  assert (∀ (m : M S Tensor) a, m w = Ok a w → shape a = sh →
            foldl (λ acc x, acc ≫= λ a, tensor_add a x) m l w
            = Ok (mkTensor sh (foldl (zip_with cadd) (data a) (data <$> l))) w) as Hgen.
  { induction Hl as [|x l Hx Hl IH]; intros m a Hm Ha.
    - simpl. rewrite Hm. f_equal. destruct a. simpl in *. by subst.
    - cbn [foldl fmap list_fmap].
      rewrite (IH (m ≫= λ a, tensor_add a x)
                 (mkTensor sh (zip_with cadd (data a) (data x)))); [done| |done].
      rewrite bind_unfold, Hm. unfold tensor_add.
      rewrite bool_decide_eq_true_2 by congruence. cbn [mret M_ret]. by rewrite Ha. }
  by apply Hgen.
Qed.

(** The last part of [apply_general_kraus]: the sum of the branch matrices
    becomes the only node of the circuit. *)
Definition install (circuits : list Tensor) : M World unit :=
  tensor ← reduce_add circuits;
  c ← get_self;
  tensor ← reshape tensor (replicate (2 * _nqubits c) 2);
  g ← lift (new_node tensor);
  set_nodes [g];;
  dangling ← lift (node_edges g);
  c ← get_self;
  set_rfront (take (_nqubits c) dangling);;
  c ← get_self;
  set_lfront (drop (_nqubits c) dangling);;
  set_state_tensor None.

Lemma install_run s c (t : Tensor) (l : list Tensor) :
  let n := _nqubits c in
  Forall (λ x, shape x = [2 ^ n; 2 ^ n] ∧ length (data x) = 2 ^ (2 * n)) (t :: l) →
  let rho := mkTensor (replicate (2 * n) 2) (sum_data (data <$> (t :: l))) in
  ∃ s' c',
    install (t :: l) (mkWorld s c) = Ok tt (mkWorld s' c') ∧
    extends s s' ∧ dm_ok s' c' ∧
    _nqubits c' = n ∧ _nodes c' = [length (nodes s)] ∧ state_tensor c' = None ∧
    denote s' c' = Some rho ∧
    ∃ gr, nodes s' !! length (nodes s) = Some gr ∧ tensor gr = rho ∧
          length (nedges gr) = 2 * n ∧
          _rfront c' = take n (nedges gr) ∧ _lfront c' = drop n (nedges gr).
Proof.
  intros n Hall rho.
  apply Forall_cons in Hall as [[Hts Htl] Hall].
  assert (length (data rho) = 2 ^ (2 * n)) as Hlen.
  { unfold rho. cbn [data fmap list_fmap sum_data]. apply foldl_add_length; [done|].
    apply Forall_fmap. eapply Forall_impl; [exact Hall|]. by intros x [_ ?]. }
  set (e := length (edges s)). set (m := length (nodes s)).
  set (s' := mkStore (nodes s ++ [mkNode rho (seq e (2 * n))])
                     (edges s ++ ((λ i, mkEdge m i None) <$> seq 0 (2 * n)))).
  set (c' := mkDM n [m] (seq e n) (seq (e + n) n) None).
  assert (length (shape rho) = 2 * n) as Hrank by (unfold rho; cbn; by rewrite length_replicate).
  assert (lone_node s' m (mkNode rho (seq e (2 * n)))) as Hlone by (by apply new_node_lone).
  assert (seq e n ++ seq (e + n) n = seq e (2 * n)) as Hfronts.
  { replace (2 * n) with (n + n) by lia. by rewrite seq_app. }
  assert (net_ok s' [m] (seq e n ++ seq (e + n) n)) as Hnet.
  { rewrite Hfronts. apply (lone_node_net _ _ _ Hlone). }
  exists s', c'. split_and!; try done.
  - unfold install.
    rewrite (bind_Ok _ _ _ _ _ (reduce_add_run [2 ^ n; 2 ^ n] t l _ Hts
               (Forall_impl _ _ _ Hall (λ x Hx, proj1 Hx)))).
    rewrite bind_unfold. cbn [get_self self]. fold n.
    unfold reshape. cbn [data].
    rewrite bool_decide_eq_true_2 by (rewrite prod_replicate_2; symmetry; exact Hlen).
    rewrite bind_unfold. cbn [mret M_ret]. fold rho.
    rewrite (bind_Ok _ _ _ _ _ (lift_at _ s c _ _ (new_node_run s rho))).
    rewrite Hrank. fold e m s'.
    rewrite bind_unfold. unfold set_nodes at 1. rewrite bind_unfold. cbn [get_self set_self self heap].
    rewrite (bind_Ok _ _ _ (seq e (2 * n)) (mkWorld s' (mkDM n [m] (_rfront c) (_lfront c) (state_tensor c)))).
    2:{ apply lift_at. unfold node_edges, get_node. rewrite bind_unfold.
        rewrite (proj1 Hlone). done. }
    rewrite bind_unfold. cbn [get_self self _nqubits].
    rewrite bind_unfold. unfold set_rfront at 1. rewrite bind_unfold. cbn [get_self set_self self heap].
    rewrite bind_unfold. cbn [get_self self _nqubits].
    rewrite bind_unfold. unfold set_lfront at 1. rewrite bind_unfold. cbn [get_self set_self self heap].
    unfold set_state_tensor. rewrite bind_unfold. cbn [get_self set_self self heap].
    unfold set_self. cbn [heap]. do 2 f_equal. unfold c'. f_equal.
    + rewrite <- Hfronts. rewrite take_app_length'; [done | by rewrite length_seq].
    + rewrite <- Hfronts. rewrite drop_app_length'; [done | by rewrite length_seq].
  - apply (extends_new_node s rho m). rewrite new_node_run, Hrank. done.
  - unfold dm_ok. cbn [_nodes _rfront _lfront _nqubits c']. split_and!.
    + exact Hnet.
    + apply length_seq.
    + apply length_seq.
    + done.
    + rewrite Hfronts. rewrite (slots_of_single _ _ _ (proj1 Hlone)). done.
  - unfold denote. cbn [_nodes _rfront _lfront c']. rewrite Hfronts.
    pose proof (lone_node_abstract _ _ _ Hlone) as Habs. cbn [nedges tensor] in Habs.
    rewrite Habs. cbn [fmap option_fmap option_map]. f_equal.
    eapply (lone_node_einsum _ _ _ _ Hlone); [|exact Habs].
    unfold tensor_ok. cbn [tensor]. rewrite Hlen. unfold rho. cbn [shape].
    by rewrite prod_replicate_2.
  - exists (mkNode rho (seq e (2 * n))). cbn [tensor nedges _rfront _lfront c'].
    split; [exact (proj1 Hlone)|]. split; [done|]. split; [apply length_seq|].
    rewrite <- Hfronts. split.
    + rewrite take_app_length'; [done | by rewrite length_seq].
    + rewrite drop_app_length'; [done | by rewrite length_seq].
Qed.

Lemma zip_op_args (ops : list (nat * list nat)) :
  zip (ops.*1) ((λ l : list nat, Z.of_nat <$> l) <$> ops.*2) = op_args ops.
Proof. induction ops as [|[k qs] ops IH]; [done|]. csimpl. by rewrite IH. Qed.

Lemma sandwich_data_length n G qs rho : length (data (sandwich n G qs rho)) = 2 ^ (2 * n).
Proof. unfold sandwich. cbn [data]. by rewrite length_fmap, indices_length, prod_replicate_2. Qed.

(** Contracting the circuit leaves operators outside it as they are. *)
Lemma contract_operator_ok s c net g k :
  dm_ok s c → g ∉ _nodes c → operator_ok s g k →
  operator_ok (contract_store s (_rfront c ++ _lfront c) net) g k ∧
  op_tensor (contract_store s (_rfront c ++ _lfront c) net) g = op_tensor s g.
Proof.
  intros (Hok & _) Hg Hop.
  pose proof (operator_ok_node _ _ _ Hop) as Hnode.
  split.
  - revert Hop. apply agree_operator_ok. intros out Hgok. split.
    + intros m ->%list_elem_of_singleton. by apply contract_store_node_old.
    + intros e He. apply contract_store_edge_old. intros Hout.
      apply (slots_disjoint s [g] out (_nodes c) _ Hgok Hok) in He.
      * apply He. by eapply net_ok_out_slots.
      * by intros m ->%list_elem_of_singleton.
  - unfold op_tensor. by rewrite contract_store_node_old.
Qed.

(** [apply_general_kraus] on operators and index groups of equal number. *)
Lemma kraus_channel_run s c (ops : list (nat * list nat)) :
  semiring_laws → dm_ok s c → _nodes c ≠ [] → ops ≠ [] → kraus_ok s c ops →
  ∃ rho s' c',
    denote s c = Some rho ∧
    apply_general_kraus (ops.*1) ((λ l : list nat, Z.of_nat <$> l) <$> ops.*2) (mkWorld s c)
    = Ok tt (mkWorld s' c') ∧
    dm_ok s' c' ∧ _nqubits c' = _nqubits c ∧ length (_nodes c') = 1 ∧
    state_tensor c' = None ∧
    denote s' c'
    = Some (mkTensor (replicate (2 * _nqubits c) 2)
              (sum_data ((λ o : nat * list nat,
                            data (sandwich (_nqubits c) (op_tensor s o.1) o.2 rho)) <$> ops))) ∧
    ∃ g gr, _nodes c' = [g] ∧ nodes s' !! g = Some gr ∧
            denote s' c' = Some (tensor gr) ∧
            length (nedges gr) = 2 * _nqubits c ∧
            _rfront c' = take (_nqubits c) (nedges gr) ∧
            _lfront c' = drop (_nqubits c) (nedges gr).
Proof.
  intros Hlaws Hdm Hne Hops [Hnd Hall]. pose proof Hdm as (Hok & _).
  destruct (abstract_ok s _ _ Hok) as (net & Habs & _).
  destruct (_contract_run s c net Hdm Hne Habs) as (Hcon & Hlone & Hden1 & Hdm1).
  set (t := length (nodes s)) in *.
  set (s0 := contract_store s (_rfront c ++ _lfront c) net) in *.
  set (c1 := mkDM (_nqubits c) [t] (_rfront c) (_lfront c) (state_tensor c)) in *.
  set (rho := einsum net) in *.
  assert (kraus_ok s0 c1 ops) as Hk0.
  { split; [done|]. apply Forall_forall. intros o Ho.
    pose proof (proj1 (Forall_forall _ _) Hall o Ho) as (Ho1 & Ho2 & Ho3 & Ho4).
    split_and!; [exact (proj1 (contract_operator_ok s c net o.1 _ Hdm Ho2 Ho1))| |done|done].
    cbn [_nodes c1]. intros Hin%list_elem_of_singleton.
    destruct (operator_ok_node _ _ _ Ho1) as [r Hr]. apply lookup_lt_Some in Hr.
    unfold t in Hin. lia. }
  destruct (kraus_loop c1 rho ops Hlaws ltac:(done) s0 [] Hdm1 Hden1 Hk0) as (s2 & Hloop & _).
  cbn [app _nqubits c1] in Hloop.
  destruct (kraus_branch (_nqubits c) rho s0 <$> ops) as [|b bs] eqn:Hbs.
  { by apply fmap_nil_inv in Hbs. }
  destruct (install_run s2 c1 b bs)
    as (s' & c' & Hinst & _ & Hdm' & Hn' & Hnodes' & Hst' & Hden' & gr & G1 & G2 & G3 & G4 & G5).
  { rewrite <- Hbs. apply Forall_fmap, Forall_forall. intros o _. cbn [_nqubits c1 kraus_branch shape data].
    split; [done | apply sandwich_data_length]. }
  exists rho, s', c'. split_and!; try done.
  - unfold denote. by rewrite Habs.
  - unfold apply_general_kraus. cbv zeta. rewrite bind_unfold.
    rewrite !length_fmap. rewrite (bool_decide_eq_true_2 (length ops = length ops)) by done.
    cbn [orb py_assert mret M_ret].
    assert ((if bool_decide (length ops = 1)
             then i0 ← from_option IndexError (((λ l : list nat, Z.of_nat <$> l) <$> ops.*2) !! 0);
                  mret (replicate (length ops) i0)
             else mret ((λ l : list nat, Z.of_nat <$> l) <$> ops.*2)) (mkWorld s c)
            = Ok ((λ l : list nat, Z.of_nat <$> l) <$> ops.*2) (mkWorld s c)) as Hnorm.
    { destruct ops as [|o [|o' ops']]; [done|done|].
      rewrite bool_decide_eq_false_2 by (simpl; lia). done. }
    rewrite (bind_Ok _ _ _ _ _ Hnorm). rewrite (bind_Ok _ _ _ _ _ Hcon).
    rewrite zip_op_args. rewrite (bind_Ok _ _ _ _ _ Hloop). exact Hinst.
  - by rewrite Hnodes'.
  - rewrite Hden'. cbn [_nqubits c1]. do 3 f_equal. rewrite <- Hbs.
    rewrite <- list_fmap_compose. apply list_fmap_ext. intros i o Ho%list_elem_of_lookup_2.
    cbn [compose kraus_branch data]. do 2 f_equal.
    pose proof (proj1 (Forall_forall _ _) Hall o Ho) as (Ho1 & Ho2 & _).
    exact (proj2 (contract_operator_ok s c net o.1 _ Hdm Ho2 Ho1)).
  - exists (length (nodes s2)), gr. cbn [_nqubits c1] in G3, G4, G5.
    split_and!; try done. by rewrite Hden', G2.
Qed.

(** X13.  On a well-formed circuit with at least one node that denotes
    [rho], [apply_general_kraus] with Kraus operators that are distinct
    operator nodes outside the circuit, and as many groups of distinct
    in-range indices, returns; the circuit is then well formed, has a single
    node and no memo, and denotes the elementwise sum, over the operators in
    order, of the sandwiches [K rho K†] (the scalars forming a commutative
    semiring). *)
Theorem apply_general_kraus_channel (s : Store) (c : DMCircuit) (ops : list (nat * list nat)) :
  semiring_laws → dm_ok s c → _nodes c ≠ [] → ops ≠ [] → kraus_ok s c ops →
  ∃ rho w',
    denote s c = Some rho ∧
    apply_general_kraus (ops.*1) ((λ l : list nat, Z.of_nat <$> l) <$> ops.*2) (mkWorld s c) = Ok tt w' ∧
    dm_ok (heap w') (self w') ∧ _nqubits (self w') = _nqubits c ∧
    length (_nodes (self w')) = 1 ∧ state_tensor (self w') = None ∧
    denote (heap w') (self w')
    = Some (mkTensor (replicate (2 * _nqubits c) 2)
              (sum_data ((λ o : nat * list nat,
                            data (sandwich (_nqubits c) (op_tensor s o.1) o.2 rho)) <$> ops))).
Proof.
  intros Hlaws Hdm Hne Hops Hk.
  destruct (kraus_channel_run s c ops Hlaws Hdm Hne Hops Hk)
    as (rho & s' & c' & H1 & H2 & H3 & H4 & H5 & H6 & H7 & _).
  by exists rho, (mkWorld s' c').
Qed.



End Kraus_channel.

(** ** Gate and channel methods *)

Section Delayed.
Context `{Scalar}.

(** [apply_general_gate_delayed(gatef, name)] and
    [apply_general_variable_gate_delayed(gatef, name)]: the method they
    return.  [gatef] (with its keyword arguments, if it takes any) is a
    computation on the store that returns a gate node. *)
Definition apply_general_gate_delayed (gatef : M Store nat) (index : list Z) : M World unit :=
  gate ← lift gatef;
  apply_general_gate gate index.


Lemma sandwich_eq (t : Tensor) n G qs rho :
  shape t = replicate (2 * n) 2 → data t = data (sandwich n G qs rho) →
  t = sandwich n G qs rho.
Proof. destruct t. simpl. by intros -> ->. Qed.

(** [Gate(t)] for an array of [2k] axes of dimension 2 makes an operator on
    [k] qubits. *)
Lemma new_node_operator s t k :
  shape t = replicate (2 * k) 2 →
  ∃ s', new_node t s = Ok (length (nodes s)) s' ∧ extends s s' ∧
        operator_ok s' (length (nodes s)) k ∧ op_tensor s' (length (nodes s)) = t.
Proof.
  intros Hsh. eexists. split; [apply new_node_run|].
  assert (length (shape t) = 2 * k) as Hrank by (by rewrite Hsh, length_replicate).
  rewrite Hrank. pose proof (new_node_lone s t (2 * k) Hsh) as Hlone.
  split_and!.
  - apply (extends_new_node s t (length (nodes s))). by rewrite new_node_run, Hrank.
  - unfold operator_ok. rewrite (proj1 Hlone). cbn [nedges]. split; [apply length_seq|].
    apply (lone_node_net _ _ _ Hlone).
  - unfold op_tensor. by rewrite (proj1 Hlone).
Qed.

(** X15.  A gate method: when [gatef] returns an operator node on as many
    qubits as there are indices, outside the circuit, having only added to
    the store, the method applied to a well-formed circuit at distinct
    in-range indices returns, and the circuit then denotes the sandwich
    [G rho G†] of what it denoted, [G] the array of the node. *)
Theorem apply_general_gate_delayed_sandwich (s : Store) (c : DMCircuit)
    (gatef : M Store nat) (g : nat) (s1 : Store) (qs : list nat) :
  semiring_laws → dm_ok s c →
  gatef s = Ok g s1 → extends s s1 → operator_ok s1 g (length qs) → g ∉ _nodes c →
  NoDup qs → Forall (λ q, q < _nqubits c) qs →
  ∃ rho w',
    denote s c = Some rho ∧
    apply_general_gate_delayed gatef (Z.of_nat <$> qs) (mkWorld s c) = Ok tt w' ∧
    dm_ok (heap w') (self w') ∧ _nqubits (self w') = _nqubits c ∧
    denote (heap w') (self w') = Some (sandwich (_nqubits c) (op_tensor s1 g) qs rho).
Proof.
  intros Hlaws Hdm Hf Hext Hop Hg Hnd Hlt.
  pose proof (extends_dm_ok s s1 c Hext Hdm) as Hdm1.
  unfold operator_ok in Hop. destruct (nodes s1 !! g) as [gr|] eqn:Hgr; [|done].
  destruct Hop as [Hrank Hgok].
  destruct (gate_effect s1 c g qs gr Hlaws Hdm1 Hgr Hgok Hrank Hg Hnd Hlt)
    as (rho & rho' & s' & R' & L' & Hden & Hrun & Hdm' & _ & Hden' & Hshape & Hdata & _).
  cbv zeta in Hrun, Hdm', Hden'.
  exists rho. eexists. split_and!.
  - by rewrite <- (extends_denote s s1 c Hext Hdm).
  - unfold apply_general_gate_delayed. rewrite (bind_Ok _ _ _ _ _ (lift_at _ s c _ _ Hf)).
    exact Hrun.
  - exact Hdm'.
  - done.
  - cbn [heap self]. rewrite Hden'. f_equal. unfold op_tensor. rewrite Hgr.
    by apply sandwich_eq.
Qed.



End Delayed.

(** ** Connections, with their record *)

Section Linking.
Context `{Scalar}.
Variables (s1 : Store) (BIG : list nat).

(** [linked log τ s OUT]: the store [s] comes from [s1] by connecting, in
    order, the pairs of dangling edges listed in [log]; the [i]-th
    connection made the edge number [length (edges s1) + i], and the axes
    that carried the two edges of the pair now carry that edge. *)
Definition linked (log : list (nat * nat)) (τ : nat → nat) (s : Store) (OUT : list nat) : Prop :=
  wired s1 BIG τ s OUT ∧
  length (edges s) = length (edges s1) + length log ∧
  (∀ i a b, log !! i = Some (a, b) →
     a < length (edges s1) ∧ b < length (edges s1) ∧ a ≠ b ∧
     a ∈ slots_of s1 BIG ∧ b ∈ slots_of s1 BIG ∧
     τ a = length (edges s1) + i ∧ τ b = length (edges s1) + i ∧
     ∃ ra rb,
       edges s1 !! a = Some ra ∧ edges s1 !! b = Some rb ∧
       end2 ra = None ∧ end2 rb = None ∧ node1 ra ∈ BIG ∧ edge_dim s1 ra = Some 2 ∧
       edges s !! (length (edges s1) + i)
       = Some (mkEdge (node1 ra) (axis1 ra) (Some (node1 rb, axis1 rb)))) ∧
  (∀ e, e ∉ log.*1 → e ∉ log.*2 → τ e = e) ∧
  Forall (λ m, is_Some (nodes s1 !! m)) BIG.

Lemma linked_init OUT : net_ok s1 BIG OUT → linked [] id s1 OUT.
Proof.
  intros Hok. split_and!; [by apply wired_init | simpl; lia | | done | apply Hok].
  intros i a b Hi. by rewrite lookup_nil in Hi.
Qed.

Lemma linked_perm log τ s OUT OUT' : OUT ≡ₚ OUT' → linked log τ s OUT → linked log τ s OUT'.
Proof. intros Hp (Hw & Hrest). split; [by eapply wired_perm | done]. Qed.

Lemma linked_wired log τ s OUT : linked log τ s OUT → wired s1 BIG τ s OUT.
Proof. by intros (Hw & _). Qed.

(** An edge that has been connected is renamed to a new edge. *)
Lemma linked_renamed log τ s OUT e :
  linked log τ s OUT → e ∈ log.*1 ∨ e ∈ log.*2 → length (edges s1) ≤ τ e.
Proof.
  intros (_ & _ & Hlog & _ & _) [Hin|Hin].
  - apply list_elem_of_fmap in Hin as ([a b] & -> & Hin).
    apply list_elem_of_lookup in Hin as [i Hi].
    destruct (Hlog i a b Hi) as (_ & _ & _ & _ & _ & Ta & _). simpl. lia.
  - apply list_elem_of_fmap in Hin as ([a b] & -> & Hin).
    apply list_elem_of_lookup in Hin as [i Hi].
    destruct (Hlog i a b Hi) as (_ & _ & _ & _ & _ & _ & Tb & _). simpl. lia.
Qed.

(** A dangling edge that has not been connected yet is where it was. *)
Lemma linked_front log τ s OUT e :
  linked log τ s OUT → e ∈ OUT →
  ∃ r, edges s1 !! e = Some r ∧ end2 r = None ∧ node1 r ∈ BIG ∧
       edge_dim s1 r = Some 2 ∧ e ∈ slots_of s1 BIG.
Proof.
  intros Hl He. pose proof Hl as (Hw & _ & _ & Hid & Hex).
  pose proof Hw as (Hok & Hlen & Hold & Hin & Hout & Hfix & Hconn).
  destruct (Hfix e He) as [Hlt Hτ].
  pose proof Hok as (_ & _ & _ & _ & _ & Hfront).
  apply (proj1 (Forall_forall _ _) Hfront) in He as Hf.
  apply front_ok_inv in Hf as (r & Hr & Hend & Hn & Hslot & Hdim & _).
  rewrite (Hold e Hlt) in Hr.
  destruct (net_ok_node _ _ _ _ Hok Hn) as [nr' Hnr'].
  destruct (proj1 (Forall_forall _ _) Hex _ Hn) as [nr Hnr].
  pose proof (Hin _ _ Hn Hnr) as Hnode.
  exists r. split_and!; try done.
  - unfold edge_dim in *. rewrite Hnode in Hdim. by rewrite Hnr.
  - unfold slot in Hslot. rewrite Hnode in Hslot. cbn [mbind option_bind nedges] in Hslot.
    rewrite list_lookup_fmap in Hslot.
    destruct (nedges nr !! axis1 r) as [e0|] eqn:He0; [|done]. simpl in Hslot.
    injection Hslot as Hslot.
    assert (e0 = e) as ->.
    { destruct (decide (e0 ∈ log.*1 ∨ e0 ∈ log.*2)) as [Hin0|Hnin0].
      - pose proof (linked_renamed _ _ _ _ _ Hl Hin0). lia.
      - rewrite Hid in Hslot by tauto. done. }
    apply elem_of_slots_of. exists (node1 r), nr. split_and!; try done.
    by eapply list_elem_of_lookup_2.
Qed.

Lemma link log τ s e1 e2 REST :
  linked log τ s (e1 :: e2 :: REST) →
  ∃ s', connect e1 e2 s = Ok (length (edges s)) s' ∧
        linked (log ++ [(e1, e2)]) (sub e1 e2 (length (edges s)) ∘ τ) s' REST.
Proof.
  intros Hl. pose proof Hl as (Hw & Hlen & Hlog & Hid & Hex).
  destruct (wire s1 BIG τ s e1 e2 REST Hw)
    as (r1 & r2 & s' & Hr1 & Hr2 & Hd1 & Hd2 & Hrun & Hw' & Hlen' & Hold' & Hnew').
  pose proof (wired_out_lt _ _ _ _ _ e1 Hw ltac:(by left)) as Hlt1.
  pose proof (wired_out_lt _ _ _ _ _ e2 Hw ltac:(right; by left)) as Hlt2.
  pose proof (wired_fix _ _ _ _ _ e1 Hw ltac:(by left)) as Hf1.
  pose proof (wired_fix _ _ _ _ _ e2 Hw ltac:(right; by left)) as Hf2.
  destruct (linked_front _ _ _ _ e1 Hl ltac:(by left)) as (r1' & Hr1' & _ & Hn1 & Hdim1 & Hs1).
  destruct (linked_front _ _ _ _ e2 Hl ltac:(right; by left)) as (r2' & Hr2' & _ & _ & _ & Hs2).
  rewrite Hr1 in Hr1'. injection Hr1' as <-.
  assert (e1 ≠ e2) as Hne.
  { destruct Hw as ((_ & Hnd & _) & _). apply NoDup_cons in Hnd as [Hnd _].
    intros ->. apply Hnd. by left. }
  exists s'. split; [done|]. split_and!; [done | rewrite length_app; simpl; lia | | | done].
  - intros i a b Hi. apply lookup_app_Some in Hi as [Hi|[Hge Hi]].
    + destruct (Hlog i a b Hi) as (Ha & Hb & Hab & Sa & Sb & Ta & Tb & ra & rb & Ra & Rb & Ea & Eb & Na & Da & Hrec).
      apply lookup_lt_Some in Hi as Hil.
      split_and!; try done.
      * simpl. rewrite Ta. unfold sub. rewrite bool_decide_eq_false_2; [done | lia].
      * simpl. rewrite Tb. unfold sub. rewrite bool_decide_eq_false_2; [done | lia].
      * exists ra, rb. split_and!; try done. rewrite Hold' by lia. done.
    + apply list_lookup_singleton_Some in Hi as [Hi [= <- <-]].
      assert (i = length log) as -> by lia.
      split_and!; try done.
      * simpl. rewrite Hf1. unfold sub. rewrite bool_decide_eq_true_2; [lia | by left].
      * simpl. rewrite Hf2. unfold sub. rewrite bool_decide_eq_true_2; [lia | by right].
      * exists r1, r2. split_and!; try done. by rewrite <- Hlen.
  - intros e He1 He2. rewrite !fmap_app, !not_elem_of_app in He1, He2.
    destruct He1 as [He1 Hn1']. destruct He2 as [He2 Hn2].
    simpl. rewrite (Hid e He1 He2). unfold sub. rewrite bool_decide_eq_false_2; [done|].
    intros [->| ->]; [apply Hn1' | apply Hn2]; by left.
Qed.

End Linking.

(** ** [expectation], when it succeeds *)

Section Expectation_links.
Context `{Scalar}.
Variables (s1 : Store) (BIG : list nat) (n : nat) (RR LL : list nat).
Hypothesis HRR : length RR = n.
Hypothesis HLL : length LL = n.

Abbreviation FF := (λ occ, free_fronts occ (fronts_table RR LL)).

(** The two connections of leg [j] of an operator at qubit [q]: the bra
    front with the output leg, the ket front with the input leg. *)
Definition leg_log (gouts gins : list nat) (j q : nat) : list (nat * nat) :=
  [(default 0 (LL !! q), default 0 (gouts !! j)); (default 0 (RR !! q), default 0 (gins !! j))].

Definition legs_log (gouts gins : list nat) (j : nat) (qs : list nat) : list (nat * nat) :=
  concat (zip_with (leg_log gouts gins) (seq j (length qs)) qs).

Lemma expectation_leg_link op k gouts gins later j q occ log τ s :
  op ∈ BIG → (∀ i, slot s1 op i = (gouts ++ gins) !! i) →
  length gouts = k → length gins = k →
  linked s1 BIG log τ s (FF occ ++ drop j gouts ++ drop j gins ++ later) →
  j < k → q < n → Z.of_nat q ∉ occ →
  ∃ τ' s',
    expectation_leg n (RR ++ LL) op k occ (j, Z.of_nat q) s
    = Ok ({[Z.of_nat q]} ∪ occ) s' ∧
    linked s1 BIG (log ++ leg_log gouts gins j q) τ' s'
      (FF ({[Z.of_nat q]} ∪ occ) ++ drop (S j) gouts ++ drop (S j) gins ++ later).
Proof using All.
  intros Hop Hslots Hgo Hgi Hw Hj Hq Hocc.
  destruct (lookup_lt_is_Some_2 gouts j) as [go Hgo']; [lia|].
  destruct (lookup_lt_is_Some_2 gins j) as [gi Hgi']; [lia|].
  destruct (lookup_lt_is_Some_2 RR q) as [rq Hrq]; [lia|].
  destruct (lookup_lt_is_Some_2 LL q) as [lq Hlq]; [lia|].
  assert (slot s1 op j = Some go) as Sgo by (rewrite Hslots, lookup_app_l by lia; done).
  assert (slot s1 op (j + k) = Some gi) as Sgi.
  { rewrite Hslots, lookup_app_r by lia. by replace (j + k - length gouts) with j by lia. }
  assert (FF occ ≡ₚ lq :: rq :: FF ({[Z.of_nat q]} ∪ occ)) as PF.
  { apply free_fronts_take; [|by apply zip3_lookup|done].
    unfold fronts_table. rewrite fst_zip; [apply NoDup_seq|].
    rewrite length_seq, length_zip_with. lia. }
  pose proof (exp_perm1 _ _ (drop (S j) gouts) (drop j gins) later lq rq go PF) as P1.
  rewrite <- (drop_S gouts go j Hgo') in P1.
  pose proof (linked_perm _ _ _ _ _ _ _ P1 Hw) as Hw1.
  destruct (link _ _ _ _ _ _ _ _ Hw1) as (s2 & Hrun1 & Hw2).
  assert (slot s op j = Some go) as Sgo'.
  { eapply wired_slot_out; [exact (linked_wired _ _ _ _ _ _ Hw1) | done | right; by left | done]. }
  rewrite (drop_S gins gi j Hgi') in Hw2.
  pose proof (linked_perm _ _ _ _ _ _ _ (exp_perm2 _ _ _ _ _ _) Hw2) as Hw2'.
  destruct (link _ _ _ _ _ _ _ _ Hw2') as (s3 & Hrun2 & Hw3).
  assert (slot s2 op (j + k) = Some gi) as Sgi'.
  { eapply wired_slot_out; [exact (linked_wired _ _ _ _ _ _ Hw2') | done | right; by left | done]. }
  eexists _, s3. split.
  - unfold expectation_leg. rewrite bool_decide_eq_false_2 by done.
    rewrite <- Nat2Z.inj_add.
    assert ((RR ++ LL) !! (q + n) = Some lq) as Hlq'.
    { rewrite lookup_app_r by lia. by replace (q + n - length RR) with q by lia. }
    assert ((RR ++ LL) !! q = Some rq) as Hrq' by (by rewrite lookup_app_l by lia).
    rewrite (bind_Ok _ _ _ _ _ (getitem_nat _ _ _ _ Hlq')).
    rewrite (bind_Ok _ _ _ _ _ (get_edge_slot _ _ _ _ Sgo')).
    rewrite (bind_Ok _ _ _ _ _ Hrun1).
    rewrite (bind_Ok _ _ _ _ _ (getitem_nat _ _ _ _ Hrq')).
    rewrite (bind_Ok _ _ _ _ _ (get_edge_slot _ _ _ _ Sgi')).
    rewrite (bind_Ok _ _ _ _ _ Hrun2). reflexivity.
  - unfold leg_log. rewrite Hlq, Hrq, Hgo', Hgi'. cbn [default].
    rewrite <- app_assoc in Hw3. exact Hw3.
Qed.

Lemma expectation_legs_link op k gouts gins later rest : ∀ j occ log τ s,
  op ∈ BIG → (∀ i, slot s1 op i = (gouts ++ gins) !! i) →
  length gouts = k → length gins = k →
  linked s1 BIG log τ s (FF occ ++ drop j gouts ++ drop j gins ++ later) →
  j + length rest = k → Forall (λ q, q < n) rest → fresh_all occ rest →
  ∃ τ' s',
    fold_M (expectation_leg n (RR ++ LL) op k) (zip (seq j (length rest)) (Z.of_nat <$> rest))
      occ s
    = Ok (add_all occ rest) s' ∧
    linked s1 BIG (log ++ legs_log gouts gins j rest) τ' s' (FF (add_all occ rest) ++ later).
Proof using All.
  induction rest as [|q rest IH]; intros j occ log τ s Hop Hslots Hgo Hgi Hw Hj Hlt Hf.
  - simpl in *. exists τ, s. split; [done|].
    rewrite !drop_ge in Hw by lia. unfold legs_log. simpl. by rewrite app_nil_r.
  - apply Forall_cons in Hlt as [Hq Hlt]. simpl in Hj. destruct Hf as [Hnin Hf].
    cbn [length seq fmap list_fmap zip zip_with fold_M add_all].
    destruct (expectation_leg_link op k gouts gins later j q occ log τ s) as (τ1 & s2 & Hrun & Hw');
      try done; [lia|].
    destruct (IH (S j) ({[Z.of_nat q]} ∪ occ) _ τ1 s2 Hop Hslots Hgo Hgi Hw')
      as (τ' & s' & Hrun' & Hw''); [lia|done|done|].
    exists τ', s'. split; [by rewrite (bind_Ok _ _ _ _ _ Hrun)|].
    unfold legs_log in *. cbn [length seq zip_with concat]. by rewrite app_assoc.
Qed.

(** The connections that bind the legs of one operator, and of a list of
    operators. *)
Definition op_log (o : nat * list nat) : list (nat * nat) :=
  match nodes s1 !! o.1 with
  | Some gr => legs_log (take (length o.2) (nedges gr)) (drop (length o.2) (nedges gr)) 0 o.2
  | None => []
  end.

Definition ops_log (ops : list (nat * list nat)) : list (nat * nat) :=
  concat (op_log <$> ops).

Lemma expectation_ops_link (rest : list (nat * list nat)) : ∀ occ log τ s acc,
  Forall (λ o : nat * list nat,
            o.1 ∈ BIG ∧ Forall (λ q, q < n) o.2 ∧
            ∃ gr, nodes s1 !! o.1 = Some gr ∧ length (nedges gr) = 2 * length o.2) rest →
  linked s1 BIG log τ s (FF occ ++ slots_of s1 (rest.*1)) →
  fresh_all occ (concat (rest.*2)) →
  ∃ τ' s',
    fold_M (expectation_op n (RR ++ LL)) (op_args rest) (occ, acc) s
    = Ok (add_all occ (concat (rest.*2)), acc ++ rest.*1) s' ∧
    linked s1 BIG (log ++ ops_log rest) τ' s' (FF (add_all occ (concat (rest.*2)))).
Proof using All.
  induction rest as [|o rest IH]; intros occ log τ s acc Hops Hw Hf.
  - simpl in *. exists τ, s. rewrite !app_nil_r in *. done.
  - apply Forall_cons in Hops as [(Hop & Hlt & gr & Hgr & Hrank) Hops].
    rewrite !fmap_cons in *. cbn [concat] in *.
    change (op_args (o :: rest)) with ((o.1, Z.of_nat <$> o.2) :: op_args rest).
    cbn [fold_M].
    set (k := length o.2) in *.
    assert (Hstep : ∀ st,
      expectation_op n (RR ++ LL) (occ, acc) (o.1, Z.of_nat <$> o.2) st
      = match fold_M (expectation_leg n (RR ++ LL) o.1 k) (zip (seq 0 k) (Z.of_nat <$> o.2)) occ st
        with
        | Ok occ' s' => Ok (occ', acc ++ [o.1]) s'
        | Raise e s' => Raise e s'
        end).
    { intros st. unfold expectation_op, enumerate. cbn [fst snd].
      rewrite length_fmap, bind_unfold. fold k. by destruct (fold_M _ _ _ _). }
    assert (slots_of s1 (o.1 :: rest.*1) = nedges gr ++ slots_of s1 (rest.*1)) as Hsl.
    { change (o.1 :: rest.*1) with ([o.1] ++ rest.*1).
      by rewrite slots_of_app, (slots_of_single s1 o.1 gr Hgr). }
    rewrite Hsl in Hw. rewrite <- (take_drop k (nedges gr)) in Hw. rewrite <- app_assoc in Hw.
    apply fresh_all_app in Hf as [Hf Hf'].
    destruct (expectation_legs_link o.1 k (take k (nedges gr)) (drop k (nedges gr))
                (slots_of s1 (rest.*1)) o.2 0 occ log τ s) as (τ1 & s2 & Hrun & Hw'); try done.
    { intros i. rewrite take_drop. unfold slot. by rewrite Hgr. }
    { rewrite length_take. lia. }
    { rewrite length_drop. lia. }
    fold k in Hrun.
    destruct (IH (add_all occ o.2) _ τ1 s2 (acc ++ [o.1]) Hops Hw' Hf')
      as (τ' & s' & Hrun' & Hw'').
    exists τ', s'. rewrite add_all_app. split.
    + rewrite bind_unfold, Hstep, Hrun, Hrun'. by rewrite <- app_assoc.
    + unfold ops_log in *. cbn [fmap list_fmap concat]. unfold op_log at 1. rewrite Hgr.
      fold k. by rewrite app_assoc.
Qed.

(** The connections that close the loops of the qubits no operator acts
    on. *)
Definition close_log (occ : gset Z) (qs : list nat) : list (nat * nat) :=
  concat ((λ q, if bool_decide (Z.of_nat q ∈ occ) then []
                else [(default 0 (RR !! q), default 0 (LL !! q))]) <$> qs).

Lemma fronts_table_lookup j :
  j < n →
  fronts_table RR LL !! j = Some (j, (default 0 (LL !! j), default 0 (RR !! j))).
Proof using All.
  intros Hj. unfold fronts_table.
  destruct (lookup_lt_is_Some_2 RR j) as [rq Hrq]; [lia|].
  destruct (lookup_lt_is_Some_2 LL j) as [lq Hlq]; [lia|].
  rewrite Hrq, Hlq. apply lookup_zip_with_Some. exists j, (lq, rq). split; [done|]. split.
  - apply lookup_seq. split; [done | lia].
  - apply lookup_zip_with_Some. by exists lq, rq.
Qed.

Lemma fronts_table_length : length (fronts_table RR LL) = n.
Proof using All. unfold fronts_table. rewrite length_zip_with, length_seq, length_zip_with. lia. Qed.

Lemma expectation_close_link occ cnt : ∀ j log τ s,
  j + cnt = n →
  linked s1 BIG log τ s (free_fronts occ (drop j (fronts_table RR LL))) →
  ∃ τ' s',
    for_each (expectation_close n (RR ++ LL) occ) (seq j cnt) s = Ok tt s' ∧
    linked s1 BIG (log ++ close_log occ (seq j cnt)) τ' s' [].
Proof using All.
  induction cnt as [|cnt IH]; intros j log τ s Hj Hw.
  - exists τ, s. split; [done|]. unfold close_log. simpl. rewrite app_nil_r.
    rewrite drop_ge in Hw by (rewrite fronts_table_length; lia). exact Hw.
  - assert (j < n) as Hjn by lia.
    rewrite (drop_S _ _ j (fronts_table_lookup j Hjn)) in Hw.
    rewrite free_fronts_cons in Hw. cbn [fst snd] in Hw.
    cbn [seq for_each]. unfold close_log. cbn [fmap list_fmap concat]. fold (close_log occ (seq (S j) cnt)).
    destruct (lookup_lt_is_Some_2 RR j) as [rq Hrq]; [lia|].
    destruct (lookup_lt_is_Some_2 LL j) as [lq Hlq]; [lia|].
    rewrite Hrq, Hlq in *. cbn [default] in *.
    destruct (decide (Z.of_nat j ∈ occ)) as [Hin|Hnin].
    + rewrite bool_decide_eq_false_2 in Hw by tauto. cbn [app] in Hw.
      destruct (IH (S j) log τ s ltac:(lia) Hw) as (τ' & s' & Hrun & Hw').
      exists τ', s'. rewrite (bool_decide_eq_true_2 _ Hin). split; [|done].
      rewrite bind_unfold. unfold expectation_close. by rewrite bool_decide_eq_true_2.
    + rewrite bool_decide_eq_true_2 in Hw by done. cbn [app] in Hw.
      assert (lq :: rq :: free_fronts occ (drop (S j) (fronts_table RR LL))
              ≡ₚ rq :: lq :: free_fronts occ (drop (S j) (fronts_table RR LL))) as P
        by apply perm_swap.
      pose proof (linked_perm _ _ _ _ _ _ _ P Hw) as Hw1.
      destruct (link _ _ _ _ _ _ _ _ Hw1) as (s2 & Hrun1 & Hw2).
      destruct (IH (S j) _ _ s2 ltac:(lia) Hw2) as (τ' & s' & Hrun & Hw').
      exists τ', s'. rewrite (bool_decide_eq_false_2 _ Hnin). split.
      * rewrite bind_unfold. unfold expectation_close. rewrite bool_decide_eq_false_2 by done.
        assert ((RR ++ LL) !! j = Some rq) as Hrq' by (by rewrite lookup_app_l by lia).
        assert ((RR ++ LL) !! (j + n) = Some lq) as Hlq'.
        { rewrite lookup_app_r by lia. by replace (j + n - length RR) with j by lia. }
        rewrite (bind_Ok _ _ _ _ _ (getitem_nat _ _ _ _ Hrq')).
        rewrite (bind_Ok _ _ _ _ _ (getitem_nat _ _ _ _ Hlq')).
        rewrite (bind_Ok _ _ _ _ _ Hrun1). cbn [mret M_ret]. exact Hrun.
      * by rewrite <- app_assoc in Hw'.
Qed.

End Expectation_links.

Section Expectation_run.
Context `{Scalar}.

(** The engine on a network without dangling edges, called without an
    output order. *)
Lemma contractor_closed s ns net :
  net_ok s ns [] → ns ≠ [] → abstract s ns [] = Some net →
  contractor ns None s = Ok (length (nodes s)) (contract_store s [] net).
Proof.
  intros Hok Hne Habs. pose proof Hok as (Hnd & _ & Hnodes & Hedges & Hdang & _).
  unfold contractor. rewrite (remove_dups_NoDup ns Hnd).
  unfold mbind, M_bind, get_state. simpl.
  rewrite (bool_decide_eq_false_2 (ns = [])) by done.
  assert (filter (edge_dangling s) (get_all_edges s ns) = []) as Hd.
  { apply filter_none. intros e He%elem_of_get_all_edges Hdg.
    apply (proj1 (Forall_forall _ _) Hdang e He) in Hdg. by apply elem_of_nil in Hdg. }
  rewrite Hd. cbn [length default].
  rewrite (bool_decide_eq_false_2 (None = None ∧ 1 < 0)) by lia.
  rewrite (bool_decide_eq_true_2 (NoDup [] ∧ _)) by (split_and!; constructor).
  rewrite (bool_decide_eq_true_2 (Forall _ _)).
  2:{ apply Forall_forall. intros e [Hc He%elem_of_get_all_edges]%list_elem_of_filter.
      apply (proj1 (Forall_forall _ _) Hedges) in He. unfold edge_ok in He.
      unfold edge_inside, edge_connected in *.
      destruct (edges s !! e) as [[n1 a1 [[n2 a2]|]]|]; simpl in *; try done.
      by destruct He as (? & _ & ?). }
  simpl. rewrite Habs. done.
Qed.

(** A successful call of [expectation], step by step: the copy of the
    circuit, the connections of the operators' legs, the closing of the
    remaining loops, and the contraction of the closed network. *)
Lemma expectation_run s c (ops : list (nat * list nat)) :
  dm_ok s c → _nodes c ≠ [] → ops_ok s c ops → NoDup (concat (ops.*2)) →
  let s1 := copy_store s (_nodes c) false in
  let cn := ndf s (_nodes c) <$> _nodes c in
  let RR := edf s (_nodes c) <$> _rfront c in
  let LL := edf s (_nodes c) <$> _lfront c in
  let BIG := cn ++ ops.*1 in
  let occ := add_all ∅ (concat (ops.*2)) in
  ∃ τ s2 net,
    linked s1 BIG (ops_log s1 RR LL ops ++ close_log RR LL occ (seq 0 (_nqubits c))) τ s2 [] ∧
    abstract s2 BIG [] = Some net ∧
    expectation (op_args ops) (mkWorld s c)
    = Ok (einsum net) (mkWorld (contract_store s2 [] net) c).
Proof.
  intros Hdm Hne Hops Hnd s1 cn RR LL BIG occ.
  destruct (expectation_net s c ops Hdm Hops) as (Hcopy & Hext & Hw & Hall).
  fold s1 cn RR LL BIG in Hcopy, Hext, Hw, Hall.
  pose proof Hdm as (Hok & HR & HL & Hc & Hz).
  assert (length RR = _nqubits c) as HRR by (unfold RR; by rewrite length_fmap).
  assert (length LL = _nqubits c) as HLL by (unfold LL; by rewrite length_fmap).
  pose proof (linked_init s1 BIG _ (proj1 Hw)) as Hl0.
  assert (fresh_all ∅ (concat (ops.*2))) as Hfresh.
  { apply fresh_all_NoDup. split; [done|]. intros q _. set_solver. }
  destruct (expectation_ops_link s1 BIG (_nqubits c) RR LL HRR HLL ops ∅ [] id s1 cn Hall Hl0 Hfresh)
    as (τ1 & sa & Hrun1 & Hl1).
  fold occ in Hrun1, Hl1. cbn [app] in Hl1.
  destruct (expectation_close_link s1 BIG (_nqubits c) RR LL HRR HLL occ (_nqubits c) 0
              (ops_log s1 RR LL ops) τ1 sa ltac:(lia)) as (τ2 & s2 & Hrun2 & Hl2).
  { by rewrite drop_0. }
  pose proof (proj1 (linked_wired _ _ _ _ _ _ Hl2)) as Hclosed.
  destruct (abstract_ok s2 BIG [] Hclosed) as (net & Habs & _).
  assert (BIG ≠ []) as HBIG.
  { unfold BIG, cn. destruct (_nodes c); [done | discriminate]. }
  exists τ2, s2, net. split_and!; [done | done |].
  unfold expectation.
  rewrite (bind_Ok get_self _ _ _ _ eq_refl). cbn [self].
  rewrite (bind_Ok _ _ _ _ _ (lift_at _ _ _ _ _ Hcopy)). cbn [fst snd].
  rewrite (bind_Ok _ _ _ _ _ (lift_at _ _ _ _ _ Hrun1)). cbn [fst snd].
  rewrite (bind_Ok _ _ _ _ _ (lift_at _ _ _ _ _ Hrun2)).
  rewrite (bind_Ok _ _ _ _ _ (lift_at _ _ _ _ _ (contractor_closed s2 BIG net Hclosed HBIG Habs))).
  rewrite (bind_Ok _ _ _ (mkNode (einsum net) []) (mkWorld (contract_store s2 [] net) c)); [done|].
  apply lift_at. unfold get_node. by rewrite contract_store_node.
Qed.

End Expectation_run.

Section Expectation_scalar.
Context `{Scalar}.

Lemma einsum_closed net :
  a_out net = [] →
  einsum net = mkTensor [] [csum (a_term net <$> indices (a_int net))].
Proof. intros Hout. unfold einsum. rewrite Hout. done. Qed.

(** X18.  On a well-formed circuit with at least one node, [expectation]
    with operators that are distinct operator nodes outside the circuit,
    whose in-range indices are all different, returns without error an array
    without axes, a single number; the instance is unchanged. *)
Theorem expectation_returns_scalar (s : Store) (c : DMCircuit) (ops : list (nat * list nat)) :
  dm_ok s c → _nodes c ≠ [] → ops_ok s c ops → NoDup (concat (ops.*2)) →
  ∃ x w', expectation (op_args ops) (mkWorld s c) = Ok (mkTensor [] [x]) w' ∧ self w' = c.
Proof.
  intros Hdm Hne Hops Hnd.
  destruct (expectation_run s c ops Hdm Hne Hops Hnd) as (τ & s2 & net & Hl & Habs & Hrun).
  destruct (abstract_ok s2 _ [] (proj1 (linked_wired _ _ _ _ _ _ Hl))) as (net' & Habs' & Hout).
  rewrite Habs in Habs'. injection Habs' as <-.
  eexists _, _. rewrite Hrun, (einsum_closed net Hout). done.
Qed.

End Expectation_scalar.

(** ** The fronts, operation by operation *)

Section Fronts_kept.
Context `{Scalar}.

(** Whenever construction returns, the circuit is well formed. *)
Lemma DMCircuit_init_ok n inputs dminputs s c s' :
  DMCircuit_init n inputs dminputs s = Ok c s' → dm_ok s' c.
Proof.
  intros Hrun. destruct inputs as [inputs|]; [|destruct dminputs as [dm|]].
  - (* a state vector *)
    pose proof Hrun as Hrun0. unfold DMCircuit_init in Hrun0.
    cbn [reshape_flat shape lookup list_lookup default] in Hrun0.
    apply bind_Ok_inv in Hrun0 as (n' & s1 & Hn' & Hrun0).
    unfold qubit_count, id in Hn'.
    destruct (decide (length (data inputs) = 0)) as [HN|HN].
    { rewrite bool_decide_eq_true_2 in Hn' by done. inversion Hn'. }
    rewrite bool_decide_eq_false_2 in Hn' by done.
    change (Ok (log2_quotient (length (data inputs))) s = Ok n' s1) in Hn'.
    injection Hn' as <- <-.
    apply bind_Ok_inv in Hrun0 as (u & s2 & Hassert & Hrun0).
    unfold py_assert, id in Hassert.
    destruct (decide (log2_quotient (length (data inputs)) = n)) as [Heq|Heq].
    2:{ rewrite bool_decide_eq_false_2 in Hassert by done. inversion Hassert. }
    rewrite bool_decide_eq_true_2 in Hassert by done.
    change (Ok tt s = Ok u s2) in Hassert. injection Hassert as _ <-.
    apply bind_Ok_inv in Hrun0 as (t' & s3 & Ht' & _).
    unfold reshape, id in Ht'. rewrite prod_replicate_2, Heq in Ht'. cbn [data reshape_flat] in Ht'.
    destruct (decide (2 ^ n = length (data inputs))) as [Hsize|Hsize].
    2:{ rewrite bool_decide_eq_false_2 in Ht' by done. inversion Ht'. }
    assert (log2_quotient (2 ^ n) = n) as Hcount by (by rewrite Hsize).
    destruct (init_inputs_run n inputs dminputs s (eq_sym Hsize) Hcount)
      as (c0 & s0 & Hrun1 & _ & Hdm & _).
    rewrite Hrun in Hrun1. by injection Hrun1 as -> ->.
  - (* a density matrix *)
    pose proof Hrun as Hrun0. unfold DMCircuit_init in Hrun0.
    apply bind_Ok_inv in Hrun0 as (t' & s1 & Ht' & _).
    unfold reshape in Ht'. rewrite prod_replicate_2 in Ht'.
    destruct (decide (2 ^ (2 * n) = length (data dm))) as [Hsize|Hsize].
    2:{ rewrite bool_decide_eq_false_2 in Ht' by done. inversion Ht'. }
    destruct (init_dminputs_run n dm s (eq_sym Hsize)) as (c0 & s0 & Hrun1 & _ & Hdm & _).
    rewrite Hrun in Hrun1. by injection Hrun1 as -> ->.
  - (* the zero state *)
    destruct (DMCircuit_init_zero n s)
      as (c0 & s0 & Hrun1 & Hnq & Hlen & Hst & Hok & Hr & Hl & _).
    rewrite Hrun in Hrun1. injection Hrun1 as -> ->.
    split_and!; [done | congruence | congruence | |].
    + unfold cache_ok. by rewrite Hst.
    + intros Hnil. apply (f_equal length) in Hnil. rewrite length_app in Hnil.
      cbn [length] in Hnil. assert (n = 0) as -> by lia.
      destruct (_nodes c0); [done | simpl in Hlen; lia].
Qed.

(** The surgery of a gate: [apply_general_gate] returns; the gate and its
    conjugated duplicate join the circuit; at every target qubit the
    fronts become the output legs of the gate and of the duplicate, and
    the input legs are joined to the axes that carried the former fronts;
    the fronts of the other qubits stay. *)
Lemma gate_surgery (s : Store) (c : DMCircuit) (g : nat) (qs : list nat) (gr : Node) :
  dm_ok s c → nodes s !! g = Some gr → net_ok s [g] (nedges gr) →
  length (nedges gr) = 2 * length qs → g ∉ _nodes c →
  NoDup qs → Forall (λ q, q < _nqubits c) qs →
  let k := length qs in
  let lg := length (nodes s) in
  ∃ s' R' L' gr' lgr,
    let c' := mkDM (_nqubits c) ((_nodes c ++ [g]) ++ [lg]) R' L' None in
    apply_general_gate g (Z.of_nat <$> qs) (mkWorld s c) = Ok tt (mkWorld s' c') ∧
    dm_ok s' c' ∧
    nodes s' !! g = Some gr' ∧ tensor gr' = tensor gr ∧ length (nedges gr') = 2 * k ∧
    nodes s' !! lg = Some lgr ∧ tensor lgr = tensor_conj (tensor gr) ∧
    length (nedges lgr) = 2 * k ∧
    take k (nedges gr') = take k (nedges gr) ∧
    (∀ j q, qs !! j = Some q →
       R' !! q = nedges gr' !! j ∧ L' !! q = nedges lgr !! j ∧
       is_Some (nedges gr' !! j) ∧ is_Some (nedges lgr !! j)) ∧
    (∀ p, p ∉ qs → R' !! p = _rfront c !! p ∧ L' !! p = _lfront c !! p) ∧
    (∀ j q, qs !! j = Some q →
       ∃ r l er el rr rl,
         _rfront c !! q = Some r ∧ _lfront c !! q = Some l ∧
         edges s !! r = Some rr ∧ edges s !! l = Some rl ∧
         nedges gr' !! (j + k) = Some er ∧ nedges lgr !! (j + k) = Some el ∧
         edges s' !! er = Some (mkEdge g (j + k) (Some (node1 rr, axis1 rr))) ∧
         edges s' !! el = Some (mkEdge lg (j + k) (Some (node1 rl, axis1 rl))) ∧
         slot s' (node1 rr) (axis1 rr) = Some er ∧
         slot s' (node1 rl) (axis1 rl) = Some el).
Proof.
  intros Hdm Hgr Hgok Hrank Hgn Hnd Hlt. cbv zeta.
  destruct (apply_general_gate_run s c g qs gr Hdm Hgr Hgok Hrank Hgn Hnd Hlt)
    as (τ & s' & R' & L' & Hrun & Hinv & Hdm').
  destruct c as [n ns R L st]. cbn [_nqubits _nodes _rfront _lfront] in *.
  pose proof Hdm as (Hok & HR & HL & _). cbn [_nqubits _nodes _rfront _lfront] in *.
  set (k := length qs) in *.
  destruct (gate_copy_net s ns (R ++ L) g k gr Hok Hgr Hgok Hgn Hrank)
    as (_ & Hext & Hlgr & Hnet).
  set (s1 := copy_store s [g] true) in *.
  set (lg := length (nodes s)) in *.
  set (les := edf s [g] <$> nedges gr) in *.
  set (gouts := take k (nedges gr)) in *. set (gins := drop k (nedges gr)) in *.
  set (louts := take k les) in *. set (lins := drop k les) in *.
  assert (length les = 2 * k) as Hles by (unfold les; by rewrite length_fmap).
  assert (length gouts = k) as Hgo by (unfold gouts; rewrite length_take; lia).
  assert (length gins = k) as Hgi by (unfold gins; rewrite length_drop; lia).
  assert (length louts = k) as Hlo by (unfold louts; rewrite length_take; lia).
  assert (length lins = k) as Hli by (unfold lins; rewrite length_drop; lia).
  assert (nodes s1 !! g = Some (mkNode (tensor gr) (gouts ++ gins))) as Hgrec.
  { unfold gouts, gins. rewrite take_drop. rewrite (proj1 Hext g gr Hgr). by destruct gr. }
  assert (nodes s1 !! lg = Some (mkNode (tensor_conj (tensor gr)) (louts ++ lins))) as Hlgrec.
  { unfold louts, lins. by rewrite take_drop. }
  assert (net_ok s1 (ns ++ [g; lg]) (gate_out gouts gins louts lins 0 R L)) as H0.
  { unfold gate_out. rewrite !drop_0. by rewrite <- app_assoc in Hnet. }
  assert (net_ok s1 ns (R ++ L)) as Hcirc by (by eapply extends_net_ok).
  pose proof (final_wired s1 n ns g lg k qs R L gouts gins louts lins (tensor gr) (tensor_conj (tensor gr))
      τ s' R' L' Hgrec Hlgrec Hgo Hgi Hlo Hli eq_refl Hnd Hlt H0 Hcirc HR HL Hinv) as F_wired.
  pose proof (final_gate s1 n ns g lg k qs R L gouts gins louts lins (tensor gr) (tensor_conj (tensor gr))
      τ s' R' L' Hgrec Hlgrec Hgo Hgi Hlo Hli eq_refl Hnd Hlt H0 Hcirc HR HL Hinv) as F_gate.
  pose proof (final_lgate s1 n ns g lg k qs R L gouts gins louts lins (tensor gr) (tensor_conj (tensor gr))
      τ s' R' L' Hgrec Hlgrec Hgo Hgi Hlo Hli eq_refl Hnd Hlt H0 Hcirc HR HL Hinv) as F_lgate.
  pose proof (final_free s1 n ns g lg k qs R L gouts gins louts lins (tensor gr) (tensor_conj (tensor gr))
      τ s' R' L' Hgrec Hlgrec Hgo Hgi Hlo Hli eq_refl Hnd Hlt H0 Hcirc HR HL Hinv) as F_free.
  pose proof Hinv as (_ & _ & _ & _ & _ & Hnew & Hrec).
  assert (length (new_right s1 k) = k) as Hnr by (unfold new_right; by rewrite length_fmap, length_seq).
  assert (length (new_left s1 k) = k) as Hnl by (unfold new_left; by rewrite length_fmap, length_seq).
  exists s', R', L', (mkNode (tensor gr) (gouts ++ new_right s1 k)),
         (mkNode (tensor_conj (tensor gr)) (louts ++ new_left s1 k)).
  cbv zeta. cbn [tensor nedges _nqubits _nodes _rfront _lfront].
  split_and!; try done.
  - rewrite length_app. lia.
  - rewrite length_app. lia.
  - rewrite take_app_length'; done.
  - intros j q Hq. apply lookup_lt_Some in Hq as Hj. fold k in Hj.
    destruct (Hnew j q Hj Hq) as [N1 N2].
    rewrite !lookup_app_l by lia. split_and!; [done | done | |];
      apply lookup_lt_is_Some; lia.
  - intros j q Hq. apply lookup_lt_Some in Hq as Hj. fold k in Hj.
    destruct (Hrec j q Hj Hq)
      as (r & l & gi & li & rr & rl & E1 & E2 & E3 & E4 & E5 & E6 & T1 & T2 & T3 & T4 & N1 & N2).
    pose proof Hok as (_ & _ & _ & _ & _ & Hfront).
    assert (r ∈ R ++ L) as Hr_in by (apply elem_of_app; left; by eapply list_elem_of_lookup_2).
    assert (l ∈ R ++ L) as Hl_in by (apply elem_of_app; right; by eapply list_elem_of_lookup_2).
    assert (edges s !! r = Some rr) as Hrr.
    { pose proof (proj1 (Forall_forall _ _) Hfront r Hr_in) as Hf. unfold front_ok in Hf.
      destruct (edges s !! r) as [x|] eqn:Hx; [|done]. pose proof (proj2 Hext r x Hx). congruence. }
    assert (edges s !! l = Some rl) as Hrl.
    { pose proof (proj1 (Forall_forall _ _) Hfront l Hl_in) as Hf. unfold front_ok in Hf.
      destruct (edges s !! l) as [x|] eqn:Hx; [|done]. pose proof (proj2 Hext l x Hx). congruence. }
    exists r, l, (length (edges s1) + 2 * j), (length (edges s1) + 2 * j + 1), rr, rl.
    rewrite !lookup_app_r by lia.
    replace (j + k - length gouts) with j by lia.
    replace (j + k - length louts) with j by lia.
    unfold new_right, new_left. rewrite !list_lookup_fmap, !lookup_seq_lt by (unfold k; lia).
    cbn [fmap option_fmap option_map].
    split_and!; try done.
    + pose proof (proj1 (Forall_forall _ _) Hfront r Hr_in) as Hf. unfold front_ok in Hf.
      rewrite Hrr in Hf. destruct Hf as (_ & Hn1 & Hslot & _).
      rewrite <- T1. eapply wired_slot; [exact F_wired | |].
      * apply elem_of_app. by left.
      * unfold slot in *. destruct (nodes s !! node1 rr) as [nr|] eqn:Hnode; [|done].
        by rewrite (proj1 Hext _ _ Hnode).
    + pose proof (proj1 (Forall_forall _ _) Hfront l Hl_in) as Hf. unfold front_ok in Hf.
      rewrite Hrl in Hf. destruct Hf as (_ & Hn1 & Hslot & _).
      rewrite <- T3. eapply wired_slot; [exact F_wired | |].
      * apply elem_of_app. by left.
      * unfold slot in *. destruct (nodes s !! node1 rl) as [nr|] eqn:Hnode; [|done].
        by rewrite (proj1 Hext _ _ Hnode).
Qed.

(** The last part of [apply_general_kraus], whenever it returns: the one
    node of the circuit is new, it has [2n] edges, and the fronts are the
    two halves of its edge list. *)
Lemma install_inv circuits w w' :
  install circuits w = Ok tt w' →
  let n := _nqubits (self w) in
  let g := length (nodes (heap w)) in
  ∃ gr,
    nodes (heap w') !! g = Some gr ∧ length (nedges gr) = 2 * n ∧
    self w' = mkDM n [g] (take n (nedges gr)) (drop n (nedges gr)) None.
Proof.
  intros Hrun n g. unfold install in Hrun.
  apply bind_Ok_inv in Hrun as (t & w1 & Ht & Hrun).
  pose proof (reduce_add_stateless circuits w) as Hw1. rewrite Ht in Hw1. simpl in Hw1. subst w1.
  apply bind_Ok_inv in Hrun as (c & w1 & Hc & Hrun). injection Hc as <- <-.
  apply bind_Ok_inv in Hrun as (t' & w1 & Ht' & Hrun).
  unfold reshape in Ht'. case_bool_decide; [|inversion Ht']. injection Ht' as <- <-.
  destruct w as [h c]. cbn [heap self] in *.
  revert Hrun.
  unfold lift, new_node, set_nodes, node_edges, get_node, set_rfront, set_lfront,
    set_state_tensor, get_self, set_self.
  unfold mbind, M_bind. cbn [heap self nodes edges shape].
  rewrite lookup_app_r by lia. rewrite Nat.sub_diag.
  cbn [lookup list_lookup from_option mret M_ret nedges heap self nodes edges
       _nqubits _nodes _rfront _lfront state_tensor].
  intros [= <-]. cbn [heap self nodes].
  exists (mkNode (mkTensor (replicate (2 * _nqubits c) 2) (data t))
            (seq (length (edges h)) (length (replicate (2 * _nqubits c) 2)))).
  split; [|split; [|reflexivity]].
  - rewrite lookup_app_r by lia. by rewrite Nat.sub_diag.
  - cbn [nedges]. by rewrite length_seq, length_replicate.
Qed.

(** Whenever [apply_general_kraus] returns, the circuit has one node, of
    [2n] edges, and its fronts are the two halves of that node's edges. *)
Lemma apply_general_kraus_hoare n kraus index :
  hoare (λ w, _nqubits (self w) = n) (apply_general_kraus kraus index)
    (λ _ w', ∃ g gr, nodes (heap w') !! g = Some gr ∧ length (nedges gr) = 2 * n ∧
                     self w' = mkDM n [g] (take n (nedges gr)) (drop n (nedges gr)) None)
    (λ _, True).
Proof.
  unfold apply_general_kraus. cbv zeta.
  eapply hoare_bind; [by apply hoare_py_assert|]. intros ?. apply hoare_pure. intros _.
  apply (hoare_at_self (λ c, _nqubits c = n)). intros c Hn.
  eapply hoare_bind.
  { instantiate (1 := λ _, at_self c). case_bool_decide.
    - eapply hoare_bind; [by apply hoare_from_option|]. intros i0. apply hoare_pure. intros _.
      apply hoare_ret_same.
    - apply hoare_ret_same. }
  intros index'. unfold _contract.
  eapply hoare_bind.
  { instantiate (1 := λ _ w, _nqubits (self w) = n).
    eapply hoare_bind; [apply hoare_get_self|]. intros c'. apply hoare_pure. intros ->.
    eapply hoare_bind; [by apply hoare_lift|]. intros t.
    eapply hoare_conseq; [apply hoare_set_nodes | done |].
    intros ? w Hw. unfold at_self in Hw. by rewrite Hw. }
  intros ?. apply (hoare_at_self (λ c, _nqubits c = n)). clear dependent c. intros c1 Hn.
  eapply hoare_bind.
  { eapply hoare_conseq;
      [apply (hoare_fold_M (at_self c1) (λ _, True)) | done | intros ? ? Hw; exact Hw].
    intros b x. by apply kraus_step_self. }
  intros circuits w Hw. unfold at_self in Hw.
  pose proof (install_inv circuits w) as Hinv.
  fold (install circuits). destruct (install circuits w) as [[] w'|e w']; [|done].
  destruct (Hinv w' eq_refl) as (gr & G1 & G2 & G3). rewrite Hw, Hn in G2, G3.
  by exists (length (nodes (heap w))), gr.
Qed.

Lemma apply_general_kraus_halves kraus index w w' :
  apply_general_kraus kraus index w = Ok tt w' →
  let n := _nqubits (self w) in
  ∃ g gr, nodes (heap w') !! g = Some gr ∧ length (nedges gr) = 2 * n ∧
          self w' = mkDM n [g] (take n (nedges gr)) (drop n (nedges gr)) None.
Proof.
  intros Hrun n.
  pose proof (apply_general_kraus_hoare n kraus index w eq_refl) as Hh.
  by rewrite Hrun in Hh.
Qed.

(** C9.  One right front and one left front per qubit, at all times.
    Whenever construction returns, on each of its three paths, the circuit
    has the qubit count asked for and is well formed: [n] right and [n]
    left fronts, pairwise distinct, which are exactly the dangling edges of
    the network; and it does return for the zero state, for a state vector
    of [2 ^ n] entries (where the computed qubit count is [n]) and for a
    density matrix of [4 ^ n] entries.  [apply_general_gate] and [apply_general_kraus] keep the
    two lengths and the qubit count whether they return or raise.  A gate
    applied to distinct in-range qubits returns and replaces entries of
    the front lists in place: at each target qubit the right front
    becomes the output leg of the gate and the left front the output leg of
    the conjugated duplicate, and the fronts of the other qubits are the same
    edges as before.  Whenever a channel returns, the circuit has one node of
    [2n] edges, the right fronts are its first [n] edges and the left
    fronts its last [n]; and on valid operators it does return, with a
    well-formed circuit. *)
Theorem fronts_invariant :
  (∀ n inputs dminputs s c s',
     DMCircuit_init n inputs dminputs s = Ok c s' →
     _nqubits c = n ∧ fronts_ok c ∧ dm_ok s' c)
  ∧ (∀ n s, ∃ c s', DMCircuit_init n None None s = Ok c s')
  ∧ (∀ n psi dm s,
       length (data psi) = 2 ^ n → log2_quotient (2 ^ n) = n →
       ∃ c s', DMCircuit_init n (Some psi) dm s = Ok c s')
  ∧ (∀ n rho s,
       length (data rho) = 2 ^ (2 * n) →
       ∃ c s', DMCircuit_init n None (Some rho) s = Ok c s')
  ∧ (∀ gate index w,
       fronts_ok (self w) →
       let w' := outcome_state (apply_general_gate gate index w) in
       fronts_ok (self w') ∧ _nqubits (self w') = _nqubits (self w))
  ∧ (∀ s c g qs gr,
       dm_ok s c → nodes s !! g = Some gr → net_ok s [g] (nedges gr) →
       length (nedges gr) = 2 * length qs → g ∉ _nodes c →
       NoDup qs → Forall (λ q, q < _nqubits c) qs →
       ∃ w' gr' lgr,
         apply_general_gate g (Z.of_nat <$> qs) (mkWorld s c) = Ok tt w' ∧
         dm_ok (heap w') (self w') ∧ _nqubits (self w') = _nqubits c ∧
         nodes (heap w') !! g = Some gr' ∧
         nodes (heap w') !! length (nodes s) = Some lgr ∧
         (∀ j q, qs !! j = Some q →
            is_Some (nedges gr' !! j) ∧
            _rfront (self w') !! q = nedges gr' !! j ∧
            _lfront (self w') !! q = nedges lgr !! j) ∧
         (∀ p, p ∉ qs →
            _rfront (self w') !! p = _rfront c !! p ∧
            _lfront (self w') !! p = _lfront c !! p))
  ∧ (∀ kraus index w,
       fronts_ok (self w) →
       let w' := outcome_state (apply_general_kraus kraus index w) in
       fronts_ok (self w') ∧ _nqubits (self w') = _nqubits (self w))
  ∧ (∀ kraus index w w',
       apply_general_kraus kraus index w = Ok tt w' →
       ∃ g gr,
         _nodes (self w') = [g] ∧ nodes (heap w') !! g = Some gr ∧
         length (nedges gr) = 2 * _nqubits (self w) ∧
         _nqubits (self w') = _nqubits (self w) ∧
         _rfront (self w') = take (_nqubits (self w)) (nedges gr) ∧
         _lfront (self w') = drop (_nqubits (self w)) (nedges gr))
  ∧ (∀ s c (ops : list (nat * list nat)),
       semiring_laws → dm_ok s c → _nodes c ≠ [] → ops ≠ [] → kraus_ok s c ops →
       ∃ w',
         apply_general_kraus (ops.*1) ((λ l : list nat, Z.of_nat <$> l) <$> ops.*2)
           (mkWorld s c) = Ok tt w' ∧
         dm_ok (heap w') (self w') ∧ _nqubits (self w') = _nqubits c).
Proof.
  split_and!.
  - intros n inputs dminputs s c s' Hrun.
    destruct (DMCircuit_init_fronts n inputs dminputs s c s' Hrun) as [Hn Hf].
    split_and!; [done | done |]. by eapply DMCircuit_init_ok.
  - intros n s. destruct (DMCircuit_init_zero n s) as (c & s' & Hrun & _). by exists c, s'.
  - intros n psi dm s Hlen Hcount.
    destruct (init_inputs_run n psi dm s Hlen Hcount) as (c & s' & Hrun & _). by exists c, s'.
  - intros n rho s Hlen.
    destruct (init_dminputs_run n rho s Hlen) as (c & s' & Hrun & _). by exists c, s'.
  - intros gate index w Hw.
    pose proof (apply_general_gate_fronts (_nqubits (self w)) gate index w) as Hh.
    unfold fronts_for in Hh. specialize (Hh (conj Hw eq_refl)).
    by destruct (apply_general_gate gate index w).
  - intros s c g qs gr Hdm Hgr Hgok Hrank Hgn Hnd Hlt.
    destruct (gate_surgery s c g qs gr Hdm Hgr Hgok Hrank Hgn Hnd Hlt)
      as (s' & R' & L' & gr' & lgr & Hrun & Hdm' & G1 & _ & _ & G2 & _ & _ & _ & Hnew & Hfree & _).
    exists (mkWorld s' (mkDM (_nqubits c) ((_nodes c ++ [g]) ++ [length (nodes s)]) R' L' None)),
           gr', lgr.
    cbn [heap self _nqubits _rfront _lfront]. split_and!; try done.
    intros j q Hq. destruct (Hnew j q Hq) as (N1 & N2 & N3 & _). done.
  - intros kraus index w Hw.
    pose proof (apply_general_kraus_fronts (_nqubits (self w)) kraus index w) as Hh.
    unfold fronts_for in Hh. specialize (Hh (conj Hw eq_refl)).
    by destruct (apply_general_kraus kraus index w).
  - intros kraus index w w' Hrun.
    destruct (apply_general_kraus_halves kraus index w w' Hrun) as (g & gr & G1 & G2 & G3).
    exists g, gr. rewrite G3. cbn [_nodes _nqubits _rfront _lfront]. done.
  - intros s c ops Hlaws Hdm Hne Hops Hk.
    destruct (kraus_channel_run s c ops Hlaws Hdm Hne Hops Hk)
      as (rho & s' & c' & _ & Hrun & Hdm' & Hn' & _).
    by exists (mkWorld s' c').
Qed.




End Fronts_kept.

(** * Instances on the Gaussian integers *)

(** The theorems above hold for every scalar type.  Below they are applied
    to concrete circuits over the Gaussian integers, where every definition
    evaluates. *)

Section Instances.
#[local] Existing Instance gauss.

(** [DMCircuit(1)] in an empty store. *)
Definition one_qubit : World :=
  match DMCircuit_init 1 None None empty_store with
  | Ok c s => mkWorld s c
  | Raise _ s => mkWorld s (mkDM 0 [] [] [] None)
  end.

Lemma one_qubit_ok : dm_ok (heap one_qubit) (self one_qubit).
Proof. apply (bool_decide_unpack _). vm_compute. exact I. Qed.

Lemma gauss_bit_laws : bit_laws.
Proof. repeat split. Qed.

(** C3 at [n = 1]: the density matrix of [DMCircuit(1)] is [[1, 0], [0, 0]]. *)
Lemma fresh_circuit_zero_state_witness :
  bit_laws ∧ 1 ≤ 1 ∧
  ∃ c s1 dm w',
    DMCircuit_init 1 None None empty_store = Ok c s1 ∧
    densitymatrix false true (mkWorld s1 c) = Ok dm w' ∧
    data dm = [c1; c0; c0; c0] ∧ matrix_trace dm = c1.
Proof.
  split; [exact gauss_bit_laws|]. split; [lia|].
  destruct (fresh_circuit_zero_state 1 empty_store gauss_bit_laws (le_n 1))
    as (c & s1 & dm & w' & Hinit & Hrun & _ & Hdata & _ & Htr).
  exists c, s1, dm, w'. repeat split; assumption.
Defined.

(** C6 on [DMCircuit(1)]: three read-outs in a row, with [reuse] true, true
    and false, return the same matrix. *)
Lemma densitymatrix_reuse_same_witness :
  dm_ok (heap one_qubit) (self one_qubit) ∧ state_tensor (self one_qubit) = None ∧
  _nodes (self one_qubit) ≠ [] ∧
  ∃ d w',
    map_M (densitymatrix false) [true; true; false] (mkWorld (heap one_qubit) (self one_qubit))
    = Ok [d; d; d] w'.
Proof.
  assert (_nodes (self one_qubit) ≠ []) as Hne by (vm_compute; discriminate).
  split; [exact one_qubit_ok|]. split; [reflexivity|]. split; [exact Hne|].
  destruct (densitymatrix_reuse_same _ _ one_qubit_ok eq_refl Hne)
    as (rho & s1 & t & nr & _ & _ & _ & _ & _ & _ & Hall & _).
  destruct (Hall [true; true; false]) as [w' Hw'].
  eexists _, w'. exact Hw'.
Defined.

(** [DMCircuit(2)], read out once, and a new two-qubit operator, the node
    10. *)
Definition two_qubits : World :=
  match DMCircuit_init 2 None None empty_store with
  | Ok c s => mkWorld s c
  | Raise _ s => mkWorld s (mkDM 0 [] [] [] None)
  end.

Definition cnot : Tensor :=
  mkTensor [2; 2; 2; 2]
    [c1; c0; c0; c0;  c0; c1; c0; c0;  c0; c0; c0; c1;  c0; c0; c1; c0].

Definition read_once : World :=
  outcome_state ((densitymatrix false true;; lift (new_node cnot)) two_qubits).

(** A memo that outlives a mutation.  On [DMCircuit(2)], read out once, the
    call [apply_general_gate(g, 0, 5)] raises IndexError at its second
    index: by then the first round of the loop has rebound the fronts of
    qubit 0, and the statement that clears the memo is never reached.  After
    it [densitymatrix(reuse=True)] returns the matrix from before the call,
    while [densitymatrix(reuse=False)] raises KeyError. *)
Lemma densitymatrix_stale_memo :
  dm_ok (heap read_once) (self read_once) ∧
  ∃ d w',
    result_of (densitymatrix false true two_qubits) = inl d ∧
    apply_general_gate 10 [0; 5]%Z read_once = Raise IndexError w' ∧
    _rfront (self w') ≠ _rfront (self read_once) ∧
    state_tensor (self w') = state_tensor (self read_once) ∧
    is_Some (state_tensor (self w')) ∧
    result_of (densitymatrix false true w') = inl d ∧
    result_of (densitymatrix false false w') = inr KeyError.
Proof.
  split; [apply (bool_decide_unpack _); vm_compute; exact I|].
  exists (mkTensor [4; 4] (c1 :: replicate 15 c0)),
         (outcome_state (apply_general_gate 10 [0; 5]%Z read_once)).
  split; [vm_compute; reflexivity|]. split; [vm_compute; reflexivity|].
  split; [vm_compute; discriminate|]. split; [vm_compute; reflexivity|].
  split; [vm_compute; eexists; reflexivity|]. split; vm_compute; reflexivity.
Qed.

(** C8 for a vector of length 3 and [nqubits = 1]: the assertion passes,
    since [int(log(3)/log(2)) = 1], and the reshape fails. *)
Lemma init_inputs_mismatch_witness :
  length (data (mkTensor [3] [c1; c0; c0])) ≠ 2 ^ 1 ∧
  DMCircuit_init 1 (Some (mkTensor [3] [c1; c0; c0])) None empty_store
  = Raise ShapeMismatch empty_store.
Proof.
  assert (length (data (mkTensor [3] [c1; c0; c0])) ≠ 2 ^ 1) as Hlen by (simpl; lia).
  split; [exact Hlen|].
  exact (init_inputs_mismatch 1 (mkTensor [3] [c1; c0; c0]) None empty_store Hlen).
Defined.

(** The empty state vector: its length is not [2 ^ 1], and construction
    fails neither in the assertion nor in the reshape: [np.log(0)] is
    [-inf], and [int(-inf)] raises [OverflowError] before the assertion is
    reached. *)
Lemma init_inputs_empty_vector :
  length (data (mkTensor [0] [])) ≠ 2 ^ 1 ∧
  DMCircuit_init 1 (Some (mkTensor [0] [])) None empty_store
  = Raise OverflowError empty_store ∧
  OverflowError ≠ AssertionError ∧ OverflowError ≠ ShapeMismatch.
Proof. split; [simpl; lia|]. split; [reflexivity|]. split; discriminate. Qed.

(** [DMCircuit(1)] and two fresh one-qubit operators, the nodes 2 and 3. *)
Definition pauli_z : Tensor := mkTensor [2; 2] [(1, 0); (0, 0); (0, 0); (-1, 0)]%Z.

Definition with_two_ops : Store :=
  outcome_state ((new_node pauli_z;; new_node pauli_z) (heap one_qubit)).

Lemma with_two_ops_ok : dm_ok with_two_ops (self one_qubit).
Proof. apply (bool_decide_unpack _). vm_compute. exact I. Qed.

Lemma two_ops_ok : ops_ok with_two_ops (self one_qubit) [(2, [0]); (3, [0])].
Proof. apply (bool_decide_unpack _). vm_compute. exact I. Qed.

(** C7 on [DMCircuit(1)] with two operators that both act on qubit 0. *)
Lemma expectation_shared_index_witness :
  dm_ok with_two_ops (self one_qubit) ∧
  ∃ w', expectation (op_args [(2, [0]); (3, [0])]) (mkWorld with_two_ops (self one_qubit))
        = Raise ValueError w'.
Proof.
  split; [exact with_two_ops_ok|].
  apply (proj1 (expectation_shared_index _ _ with_two_ops_ok)
           [(2, [0]); (3, [0])] 0 1 (2, [0]) (3, [0]) 0 two_ops_ok);
    [lia | reflexivity | reflexivity | by left | by left].
Defined.

(** [DMCircuit(1)] and one fresh two-qubit operator, the node 2. *)
Definition with_wide_op : Store :=
  outcome_state (new_node (mkTensor [2; 2; 2; 2] (replicate 16 c1)) (heap one_qubit)).

Lemma with_wide_op_ok : dm_ok with_wide_op (self one_qubit).
Proof. apply (bool_decide_unpack _). vm_compute. exact I. Qed.

Lemma wide_op_ok : ops_ok with_wide_op (self one_qubit) [(2, [0; 0])].
Proof. apply (bool_decide_unpack _). vm_compute. exact I. Qed.

(** C10 on [DMCircuit(1)] with one operator and the index list [[0, 0]]. *)
Lemma expectation_repeated_index_witness :
  dm_ok with_wide_op (self one_qubit) ∧ ops_ok with_wide_op (self one_qubit) [(2, [0; 0])] ∧
  ∃ w', expectation (op_args [(2, [0; 0])]) (mkWorld with_wide_op (self one_qubit))
        = Raise ValueError w'.
Proof.
  split; [exact with_wide_op_ok|]. split; [exact wide_op_ok|].
  apply (proj1 (expectation_repeated_index _ _ _ with_wide_op_ok wide_op_ok) (2, [0; 0]));
    [by left|].
  intros Hnd. apply NoDup_cons in Hnd as [Hnd _]. apply Hnd. by left.
Defined.

Lemma gauss_semiring : semiring_laws.
Proof.
  unfold semiring_laws. simpl.
  split_and!; intros; repeat match goal with x : (Z * Z)%type |- _ => destruct x end;
    simpl; f_equal; lia.
Qed.

(** The Pauli Z gate applied to qubit 0 of [DMCircuit(1)]: the operator is
    the node 2 of [with_two_ops]. *)
Definition pauli_z_node : Node := default (mkNode pauli_z []) (nodes with_two_ops !! 2).

Lemma pauli_z_node_ok : net_ok with_two_ops [2] (nedges pauli_z_node).
Proof. apply (bool_decide_unpack _). vm_compute. exact I. Qed.

Lemma apply_general_gate_sandwich_witness :
  ∃ rho rho' w',
    denote with_two_ops (self one_qubit) = Some rho ∧
    apply_general_gate 2 (Z.of_nat <$> [0]) (mkWorld with_two_ops (self one_qubit)) = Ok tt w' ∧
    denote (heap w') (self w') = Some rho' ∧
    data rho' = data (sandwich 1 pauli_z [0] rho).
Proof.
  destruct (apply_general_gate_sandwich with_two_ops (self one_qubit) 2 [0] pauli_z_node
              gauss_semiring with_two_ops_ok eq_refl pauli_z_node_ok eq_refl)
    as (rho & rho' & w' & H1 & H2 & _ & _ & _ & _ & _ & H3 & _ & H4).
  - vm_compute. intros Hin. repeat (apply elem_of_cons in Hin as [Hin|Hin]; [lia|]).
    by apply elem_of_nil in Hin.
  - apply NoDup_singleton.
  - repeat constructor.
  - exists rho, rho', w'. by split_and!.
Defined.

(** X2 on two Kraus operators and no index group. *)
Lemma apply_general_kraus_group_count_witness :
  apply_general_kraus [2; 3] [] (mkWorld with_two_ops (self one_qubit))
  = Raise AssertionError (mkWorld with_two_ops (self one_qubit)).
Proof. apply apply_general_kraus_group_count; simpl; lia. Defined.

(** X4 on [DMCircuit(1)]: after the failed call the instance has one node,
    the node 2 that the contraction created. *)
Lemma apply_general_kraus_empty_witness :
  ∃ w', apply_general_kraus [] [] (mkWorld (heap one_qubit) (self one_qubit)) = Raise TypeError w' ∧
        _nodes (self w') = [2].
Proof.
  destruct (apply_general_kraus_empty (heap one_qubit) (self one_qubit) [] one_qubit_ok)
    as (net & _ & Hrun).
  - vm_compute. discriminate.
  - simpl. lia.
  - eexists. split; [exact Hrun | reflexivity].
Defined.

Lemma pauli_z_operator_ok : operator_ok with_two_ops 2 1.
Proof. apply (bool_decide_unpack _). vm_compute. exact I. Qed.

(** X5 on [DMCircuit(1)]: the index [-1] is the qubit 0. *)
Lemma apply_general_gate_same_positions_witness :
  apply_general_gate 2 [(-1)%Z] (mkWorld with_two_ops (self one_qubit))
  = apply_general_gate 2 [0%Z] (mkWorld with_two_ops (self one_qubit)).
Proof.
  apply apply_general_gate_same_positions.
  - split; reflexivity.
  - constructor; [reflexivity | constructor].
  - reflexivity.
Defined.

(** X6 on [DMCircuit(1)]: there is no qubit 5. *)
Lemma apply_general_gate_index_out_of_range_witness :
  apply_general_gate 2 [5%Z] (mkWorld with_two_ops (self one_qubit))
  = Raise IndexError (mkWorld (copy_store with_two_ops [2] true) (self one_qubit)).
Proof.
  apply (apply_general_gate_index_out_of_range with_two_ops (self one_qubit) 2 5 []
           with_two_ops_ok pauli_z_operator_ok eq_refl).
  change (¬ (- Z.of_nat 1 ≤ 5 < Z.of_nat 1)%Z). lia.
Defined.

Lemma one_qubit_nodes : _nodes (self one_qubit) ≠ [].
Proof. vm_compute. discriminate. Qed.

(** X8 on [DMCircuit(1)]. *)
Lemma _contract_keeps_state_witness :
  ∃ rho w',
    denote (heap one_qubit) (self one_qubit) = Some rho ∧
    _contract (mkWorld (heap one_qubit) (self one_qubit)) = Ok tt w' ∧
    denote (heap w') (self w') = Some rho.
Proof.
  destruct (_contract_keeps_state _ _ one_qubit_ok one_qubit_nodes)
    as (rho & w' & H1 & H2 & _ & _ & _ & H3 & _).
  exists rho, w'. split; [exact H1|]. split; [exact H2 | exact H3].
Defined.

(** X9 on [DMCircuit(1)]. *)
Lemma _copy_DMCircuit_independent_witness :
  ∃ c' s',
    _copy_DMCircuit (mkWorld (heap one_qubit) (self one_qubit))
    = Ok c' (mkWorld s' (self one_qubit)) ∧
    dm_ok s' c' ∧ denote s' c' = denote (heap one_qubit) (self one_qubit).
Proof.
  destruct (_copy_DMCircuit_independent _ _ one_qubit_ok)
    as (c' & s' & H1 & _ & _ & H2 & _ & _ & _ & _ & _ & H3).
  exists c', s'. split; [exact H1|]. split; [exact H2 | exact H3].
Defined.

(** X10 on [DMCircuit(1)]. *)
Lemma densitymatrix_value_witness :
  ∃ rho w',
    denote (heap one_qubit) (self one_qubit) = Some rho ∧
    densitymatrix false false (mkWorld (heap one_qubit) (self one_qubit))
    = Ok (mkTensor [2; 2] (data rho)) w'.
Proof.
  destruct (densitymatrix_value _ _ false one_qubit_ok one_qubit_nodes)
    as (rho & w' & t & H1 & _ & H2 & _).
  exists rho, w'. split; [exact H1 | exact H2].
Defined.

(** X11 for the one-qubit density matrix [[1, 0], [0, 0]]. *)
Lemma init_dminputs_round_trip_witness :
  ∃ c s' w',
    DMCircuit_init 1 None (Some (mkTensor [2; 2] [c1; c0; c0; c0])) empty_store = Ok c s' ∧
    densitymatrix false true (mkWorld s' c) = Ok (mkTensor [2; 2] [c1; c0; c0; c0]) w'.
Proof.
  destruct (proj1 (init_dminputs_round_trip 1 (mkTensor [2; 2] [c1; c0; c0; c0]) empty_store)
              eq_refl)
    as (c & s' & H1 & _ & _ & _ & _ & _ & _ & w' & H2).
  exists c, s', w'. split; [exact H1 | exact H2].
Defined.

(** X12 for the one-qubit state vector [[0, 1]]. *)
Lemma init_inputs_pure_state_witness :
  length (data (mkTensor [2] [c0; c1])) = 2 ^ 1 ∧ log2_quotient (2 ^ 1) = 1 ∧
  ∃ c s',
    DMCircuit_init 1 (Some (mkTensor [2] [c0; c1])) None empty_store = Ok c s' ∧
    (data <$> denote s' c) = Some [c0; c0; c0; c1].
Proof.
  assert (log2_quotient (2 ^ 1) = 1) as Hcount by reflexivity.
  split; [reflexivity|]. split; [exact Hcount|].
  destruct (init_inputs_pure_state 1 (mkTensor [2] [c0; c1]) None empty_store eq_refl Hcount)
    as (c & s' & H1 & _ & _ & _ & _ & _ & H2).
  exists c, s'. split; [exact H1|]. rewrite H2. reflexivity.
Defined.

Lemma two_kraus_ok : kraus_ok with_two_ops (self one_qubit) [(2, [0]); (3, [0])].
Proof. apply (bool_decide_unpack _). vm_compute. exact I. Qed.

(** X13 on [DMCircuit(1)] with two Pauli Z operators on qubit 0: the state
    |0><0| becomes Z|0><0|Z + Z|0><0|Z, twice |0><0|. *)
Lemma apply_general_kraus_channel_witness :
  ∃ w',
    apply_general_kraus [2; 3] [[0%Z]; [0%Z]] (mkWorld with_two_ops (self one_qubit)) = Ok tt w' ∧
    (data <$> denote (heap w') (self w')) = Some [(2, 0)%Z; c0; c0; c0].
Proof.
  destruct (apply_general_kraus_channel with_two_ops (self one_qubit) [(2, [0]); (3, [0])]
              gauss_semiring with_two_ops_ok)
    as (rho & w' & H1 & H2 & _ & _ & _ & _ & H3).
  - vm_compute. discriminate.
  - discriminate.
  - exact two_kraus_ok.
  - exists w'. split; [exact H2|]. rewrite H3.
    vm_compute in H1. injection H1 as <-. vm_compute. reflexivity.
Defined.


(** [DMCircuit(1)] and one fresh Pauli Z gate, the node 2. *)
Definition with_one_op : Store := outcome_state (new_node pauli_z (heap one_qubit)).

Lemma not_in_one_qubit k : 2 ≤ k → k ∉ _nodes (self one_qubit).
Proof.
  intros Hk. vm_compute. intros Hin.
  repeat (apply elem_of_cons in Hin as [Hin|Hin]; [lia|]). by apply elem_of_nil in Hin.
Qed.

(** X15 on [DMCircuit(1)] with the gate function that makes a Pauli Z:
    Z|0><0|Z is |0><0|. *)
Lemma apply_general_gate_delayed_sandwich_witness :
  ∃ w',
    apply_general_gate_delayed (new_node pauli_z) [0%Z]
      (mkWorld (heap one_qubit) (self one_qubit)) = Ok tt w' ∧
    (data <$> denote (heap w') (self w')) = Some [c1; c0; c0; c0].
Proof.
  destruct (apply_general_gate_delayed_sandwich (heap one_qubit) (self one_qubit)
              (new_node pauli_z) 2 with_one_op [0] gauss_semiring one_qubit_ok eq_refl)
    as (rho & w' & H1 & H2 & _ & _ & H3).
  - apply (extends_new_node _ pauli_z 2). reflexivity.
  - apply (bool_decide_unpack _). vm_compute. exact I.
  - apply not_in_one_qubit. lia.
  - apply NoDup_singleton.
  - repeat constructor.
  - exists w'. split; [exact H2|]. rewrite H3.
    vm_compute in H1. injection H1 as <-. vm_compute. reflexivity.
Defined.




Lemma one_op_ok : ops_ok with_two_ops (self one_qubit) [(2, [0])].
Proof. apply (bool_decide_unpack _). vm_compute. exact I. Qed.

(** X18 on [DMCircuit(1)] with a Pauli Z on qubit 0. *)
Lemma expectation_returns_scalar_witness :
  ∃ x w',
    expectation (op_args [(2, [0])]) (mkWorld with_two_ops (self one_qubit))
    = Ok (mkTensor [] [x]) w'.
Proof.
  destruct (expectation_returns_scalar with_two_ops (self one_qubit) [(2, [0])]
              with_two_ops_ok one_qubit_nodes one_op_ok)
    as (x & w' & Hrun & _).
  - apply NoDup_singleton.
  - exists x, w'. exact Hrun.
Defined.

(** C9 on [DMCircuit(1)]: construction on each of the three paths; a Pauli
    Z gate on qubit 0, after which both fronts of the qubit are legs of the
    gate and of its duplicate; and a channel of two Kraus operators, after
    which the fronts are the two edges of the one node. *)
Lemma fronts_invariant_witness :
  (∃ c s', DMCircuit_init 1 None None empty_store = Ok c s' ∧ fronts_ok c ∧ dm_ok s' c) ∧
  (∃ c s', DMCircuit_init 1 (Some (mkTensor [2] [c0; c1])) None empty_store = Ok c s' ∧
           fronts_ok c ∧ dm_ok s' c) ∧
  (∃ c s', DMCircuit_init 1 None (Some (mkTensor [2; 2] [c1; c0; c0; c0])) empty_store
           = Ok c s' ∧ fronts_ok c ∧ dm_ok s' c) ∧
  (∃ w' gr' lgr,
     apply_general_gate 2 (Z.of_nat <$> [0]) (mkWorld with_two_ops (self one_qubit)) = Ok tt w' ∧
     nodes (heap w') !! 2 = Some gr' ∧ nodes (heap w') !! 4 = Some lgr ∧
     is_Some (nedges gr' !! 0) ∧
     _rfront (self w') !! 0 = nedges gr' !! 0 ∧ _lfront (self w') !! 0 = nedges lgr !! 0) ∧
  (∃ w' g gr,
     apply_general_kraus [2; 3] [[0%Z]; [0%Z]] (mkWorld with_two_ops (self one_qubit)) = Ok tt w' ∧
     _nodes (self w') = [g] ∧ nodes (heap w') !! g = Some gr ∧ length (nedges gr) = 2 ∧
     _rfront (self w') = take 1 (nedges gr) ∧ _lfront (self w') = drop 1 (nedges gr)).
Proof.
  destruct fronts_invariant as (HA & _ & _ & _ & _ & HB & _ & HK & HR).
  split_and!.
  - pose proof (HA 1 None None empty_store) as HA1.
    destruct (DMCircuit_init 1 None None empty_store) as [c s'|e s'] eqn:E.
    + exists c, s'. split; [reflexivity|]. exact (proj2 (HA1 c s' eq_refl)).
    + vm_compute in E. discriminate E.
  - pose proof (HA 1 (Some (mkTensor [2] [c0; c1])) None empty_store) as HA1.
    destruct (DMCircuit_init 1 (Some (mkTensor [2] [c0; c1])) None empty_store)
      as [c s'|e s'] eqn:E.
    + exists c, s'. split; [reflexivity|]. exact (proj2 (HA1 c s' eq_refl)).
    + vm_compute in E. discriminate E.
  - pose proof (HA 1 None (Some (mkTensor [2; 2] [c1; c0; c0; c0])) empty_store) as HA1.
    destruct (DMCircuit_init 1 None (Some (mkTensor [2; 2] [c1; c0; c0; c0])) empty_store)
      as [c s'|e s'] eqn:E.
    + exists c, s'. split; [reflexivity|]. exact (proj2 (HA1 c s' eq_refl)).
    + vm_compute in E. discriminate E.
  - destruct (HB with_two_ops (self one_qubit) 2 [0] pauli_z_node with_two_ops_ok eq_refl
                pauli_z_node_ok eq_refl)
      as (w' & gr' & lgr & H1 & _ & _ & H2 & H3 & H4 & _).
    + exact (not_in_one_qubit 2 (le_n 2)).
    + apply NoDup_singleton.
    + repeat constructor.
    + destruct (H4 0 0 eq_refl) as (N1 & N2 & N3).
      exists w', gr', lgr. split; [exact H1|]. split; [exact H2|]. split; [exact H3|].
      split; [exact N1|]. split; [exact N2 | exact N3].
  - destruct (HR with_two_ops (self one_qubit) [(2, [0]); (3, [0])]
                gauss_semiring with_two_ops_ok) as (w' & H1 & _).
    + vm_compute. discriminate.
    + discriminate.
    + exact two_kraus_ok.
    + destruct (HK _ _ _ w' H1) as (g & gr & K1 & K2 & K3 & _ & K5 & K6).
      exists w', g, gr. split; [exact H1|]. split; [exact K1|]. split; [exact K2|].
      split; [exact K3|]. split; [exact K5 | exact K6].
Defined.







End Instances.
